(** * pm-copilot: PII scrubber and feedback analyzer

    A shallow embedding of [pii-scrubber.ts] (the regular-expression based
    redaction pass) and [feedback-analyzer.ts] (theme matching, scoring and
    emerging-theme detection), with the properties the specification states
    about them.

    Conventions of the embedding.
    - A JavaScript string is a sequence of code units; the model covers the
      code units 0..255 (Latin-1), carried by [ascii].
    - A JavaScript number is an IEEE double.  Counts and metadata are
      integers ([Z]) or [nat].  The scores are modelled twice.  [Analyzer]
      computes them over the real numbers ([R]); it carries what is stated
      about the matching, the counts and the reach of the clock, where the
      rounding of an operation plays no part.  [Analyzer64] computes them
      in binary64, operation by operation in the order of the source, with
      NaN, the infinities and the signed zeros; it carries what is stated
      about the values reported: the normalization, the convergence boost,
      the severity and the order of the themes.
    - [Math.exp] is fixed by ECMAScript at the special values only; it is
      an input of [Analyzer64].
    - [Date.now()] is an input of the model: every call of
      [computeSeverityScore] receives the clock reading it would make.
    - [new Date(s).getTime()] is not modelled: a record carries its creation
      time as epoch milliseconds, so a date that does not parse (NaN) is
      outside the model.
    - An object used as a table answers for its own properties and for
      the members every object inherits.  [Analyzer] reads the own
      properties only; [Analyzer64] reads both, so that a tag that names an
      inherited member (["constructor"], ["__proto__"]) makes the score NaN
      as it does in the source.

    The development also covers the code around the two: the rate limiter,
    the paging and the HTML stripping of [helpscout.ts], the sorting, paging
    and portal parsing of [productlift.ts], and the formatting, caching key
    and quote extraction of [index.ts].  For these:
    - a request to a server is an input of the model: a function from the
      request to its answer, [None] for a request that throws;
    - a loop that goes on as long as the server says so takes a bound on the
      number of requests, and runs out of it rather than return;
    - the calls of the rate limiter come one after the other, each with the
      clock reading before and after its wait;
    - the cutoff date of [filterRecent] is an input, in epoch
      milliseconds;
    - the set of the redacted categories, which [index.ts] keeps in a
      global, is passed in and returned. *)

From Stdlib Require Import Reals Lra ZArith List String Ascii Lia Bool Sorted Permutation.
From Stdlib Require Import SpecFloat.
From stdpp Require Import gmap strings list pretty.

Local Open Scope nat_scope.

(** ** Characters *)

Module Chars.

Definition code (c : ascii) : nat := nat_of_ascii c.

Definition between (lo hi : nat) (c : ascii) : bool :=
  (lo <=? code c) && (code c <=? hi).

Definition isChar (x : ascii) (c : ascii) : bool := Ascii.eqb x c.

(** [\d] *)
Definition isDigit (c : ascii) : bool := between 48 57 c.

Definition isUpper (c : ascii) : bool := between 65 90 c.
Definition isLower (c : ascii) : bool := between 97 122 c.

(** [[A-Za-z]] *)
Definition isAlpha (c : ascii) : bool := isUpper c || isLower c.

(** [\w]: the word characters that [\b] looks at. *)
Definition isWord (c : ascii) : bool :=
  isAlpha c || isDigit c || isChar "_" c.

(** [\s] restricted to code units below 256: TAB, LF, VT, FF, CR, SP, NBSP. *)
Definition isSpace (c : ascii) : bool :=
  between 9 13 c || (code c =? 32) || (code c =? 160).

(** [String.prototype.toLowerCase] on one Latin-1 code unit. *)
Definition toLower (c : ascii) : ascii :=
  if isUpper c || (between 192 222 c && negb (code c =? 215))
  then ascii_of_nat (code c + 32) else c.

(** Canonicalize of a case-insensitive, non-unicode regular expression: the
    upper-case form when it is a single code unit in the same half of the
    table.  The two Latin-1 letters whose upper-case form lies outside
    Latin-1 (181 and 255) are canonical for themselves here, which identifies
    the same pairs of Latin-1 code units. *)
Definition canonicalize (c : ascii) : ascii :=
  if isLower c || (between 224 254 c && negb (code c =? 247))
  then ascii_of_nat (code c - 32) else c.

End Chars.

(** ** A backtracking matcher for the regular expressions of the source *)

Module Regex.
Import Chars.

(** The fragment of the JavaScript pattern language the two files use. *)
Inductive regex : Type :=
  | Cls (p : ascii -> bool)              (* a character class, one character *)
  | Bnd                                  (* \b *)
  | Cat (r1 r2 : regex)                  (* r1 r2 *)
  | Rep (lo hi : nat) (r : regex)        (* r{lo,hi}, greedy; r? is r{0,1} *)
  | Many (lo : nat) (p : ascii -> bool). (* [p]{lo,}, greedy; [p]+ is [p]{1,} *)

Declare Scope regex_scope.
Delimit Scope regex_scope with re.
Bind Scope regex_scope with regex.
Infix "⋅" := Cat (at level 41, right associativity) : regex_scope.

Definition Opt (r : regex) : regex := Rep 0 1 r.
Definition Exactly (n : nat) (r : regex) : regex := Rep n n r.

(** [prev] is the character before the current position and [s] the input
    from the current position on; both are what [\b] needs. *)
Definition wordBefore (prev : option ascii) : bool :=
  match prev with Some c => isWord c | None => false end.

Definition wordAfter (s : list ascii) : bool :=
  match s with c :: _ => isWord c | [] => false end.

Definition atBoundary (prev : option ascii) (s : list ascii) : bool :=
  xorb (wordBefore prev) (wordAfter s).

(** A continuation receives the position reached and returns the input left
    after the whole match, or [None] to make the matcher backtrack. *)
Definition cont : Type := option ascii -> list ascii -> option (list ascii).

(** Greedy bounded repetition of [body]: [need] iterations are still
    required and at most [more] are still allowed.  One more iteration is
    tried first; the repetition stops when that fails. *)
Definition repLoop (body : option ascii -> list ascii -> cont -> option (list ascii))
    (k : cont) : nat -> nat -> option ascii -> list ascii -> option (list ascii) :=
  fix rep (need more : nat) (prev : option ascii) (s : list ascii) {struct more} :=
    let stop := match need with 0 => k prev s | S _ => None end in
    match more with
    | 0 => stop
    | S more' =>
        match body prev s (fun prev' s' => rep (pred need) more' prev' s') with
        | Some rest => Some rest
        | None => stop
        end
    end.

(** Greedy unbounded repetition of a character class. *)
Definition manyLoop (p : ascii -> bool) (k : cont)
  : nat -> option ascii -> list ascii -> option (list ascii) :=
  fix many (need : nat) (prev : option ascii) (s : list ascii) {struct s} :=
    let stop := match need with 0 => k prev s | S _ => None end in
    match s with
    | c :: s' =>
        if p c then
          match many (pred need) (Some c) s' with
          | Some rest => Some rest
          | None => stop
          end
        else stop
    | [] => stop
    end.

Fixpoint rmatch (r : regex) (prev : option ascii) (s : list ascii) (k : cont)
  {struct r} : option (list ascii) :=
  match r with
  | Cls p =>
      match s with
      | c :: s' => if p c then k (Some c) s' else None
      | [] => None
      end
  | Bnd => if atBoundary prev s then k prev s else None
  | Cat r1 r2 => rmatch r1 prev s (fun prev' s' => rmatch r2 prev' s' k)
  | Rep lo hi r1 => repLoop (rmatch r1) k lo hi prev s
  | Many lo p => manyLoop p k lo prev s
  end.

(** One attempt at the current position: the input left after the match. *)
Definition matchAt (r : regex) (prev : option ascii) (s : list ascii)
  : option (list ascii) :=
  rmatch r prev s (fun _ rest => Some rest).

(** [RegExp.prototype.test] without the [g] flag: is there a match starting
    at some position? *)
Fixpoint test (r : regex) (prev : option ascii) (s : list ascii) : bool :=
  match matchAt r prev s with
  | Some _ => true
  | None =>
      match s with
      | c :: s' => test r (Some c) s'
      | [] => false
      end
  end.

(** [String.prototype.replace] with a global pattern and a replacer
    function.  The replacer returns the text to substitute and a flag for
    the side effect it performed; the flags are or-ed.  [skip] counts the
    characters of the current match that are still to be stepped over.  An
    empty match substitutes and moves on by one character. *)
Fixpoint replaceFrom (r : regex) (f : list ascii -> list ascii * bool)
    (prev : option ascii) (s : list ascii) (skip : nat) {struct s}
  : list ascii * bool :=
  match s with
  | [] =>
      match skip, matchAt r prev [] with
      | 0, Some _ => f []
      | _, _ => ([], false)
      end
  | c :: s' =>
      match skip with
      | S n => replaceFrom r f (Some c) s' n
      | 0 =>
          match matchAt r prev s with
          | Some rest =>
              let m := firstn (length s - length rest) s in
              let '(out, hit) := f m in
              match m with
              | [] =>
                  let '(o, h) := replaceFrom r f (Some c) s' 0 in
                  (out ++ c :: o, hit || h)
              | _ :: m' =>
                  let '(o, h) := replaceFrom r f (Some c) s' (length m') in
                  (out ++ o, hit || h)
              end
          | None =>
              let '(o, h) := replaceFrom r f (Some c) s' 0 in
              (c :: o, h)
          end
      end
  end.

Definition replaceAll (r : regex) (f : list ascii -> list ascii * bool)
    (s : list ascii) : list ascii * bool :=
  replaceFrom r f None s 0.

End Regex.

(** ** pii-scrubber.ts *)

Module Pii.
Import Chars Regex.
Local Open Scope regex_scope.

Record ScrubResult : Type := mkScrubResult {
  text : string;
  piiCategoriesFound : list string
}.

Record PiiPattern : Type := mkPiiPattern {
  name : string;
  pattern : regex;
  replacement : string
}.

(** [[-\s]] *)
Definition dashOrSpace (c : ascii) : bool := isChar "-" c || isSpace c.

(** [[-.\s]] *)
Definition phoneSep (c : ascii) : bool :=
  isChar "-" c || isChar "." c || isSpace c.

(** [[A-Za-z0-9._%+\-]] *)
Definition emailLocal (c : ascii) : bool :=
  isAlpha c || isDigit c || isChar "." c || isChar "_" c || isChar "%" c
  || isChar "+" c || isChar "-" c.

(** [[A-Za-z0-9.\-]] *)
Definition emailDomain (c : ascii) : bool :=
  isAlpha c || isDigit c || isChar "." c || isChar "-" c.

(** [/\b\d{3}[-\s]\d{2}[-\s]\d{4}\b/g] *)
Definition ssnPattern : regex :=
  Bnd ⋅ Exactly 3 (Cls isDigit) ⋅ Cls dashOrSpace ⋅ Exactly 2 (Cls isDigit)
      ⋅ Cls dashOrSpace ⋅ Exactly 4 (Cls isDigit) ⋅ Bnd.

(** [/\b(?:\d{4}[-\s]?){2,4}\d{1,4}\b/g] *)
Definition creditCardPattern : regex :=
  Bnd ⋅ Rep 2 4 (Exactly 4 (Cls isDigit) ⋅ Opt (Cls dashOrSpace))
      ⋅ Rep 1 4 (Cls isDigit) ⋅ Bnd.

(** [/\b[A-Za-z0-9._%+\-]+@[A-Za-z0-9.\-]+\.[A-Za-z]{2,}\b/g] *)
Definition emailPattern : regex :=
  Bnd ⋅ Many 1 emailLocal ⋅ Cls (isChar "@") ⋅ Many 1 emailDomain
      ⋅ Cls (isChar ".") ⋅ Many 2 isAlpha ⋅ Bnd.

(** [/(?:\+?1[-.\s]?)?\(?\d{3}\)?[-.\s]?\d{3}[-.\s]?\d{4}\b/g] *)
Definition phonePattern : regex :=
  Opt (Opt (Cls (isChar "+")) ⋅ Cls (isChar "1") ⋅ Opt (Cls phoneSep))
    ⋅ Opt (Cls (isChar "(")) ⋅ Exactly 3 (Cls isDigit) ⋅ Opt (Cls (isChar ")"))
    ⋅ Opt (Cls phoneSep) ⋅ Exactly 3 (Cls isDigit) ⋅ Opt (Cls phoneSep)
    ⋅ Exactly 4 (Cls isDigit) ⋅ Bnd.

Definition PII_PATTERNS : list PiiPattern :=
  [ mkPiiPattern "ssn" ssnPattern "[SSN REDACTED]";
    mkPiiPattern "credit_card" creditCardPattern "[CC REDACTED]";
    mkPiiPattern "email" emailPattern "[EMAIL REDACTED]";
    mkPiiPattern "phone" phonePattern "[PHONE REDACTED]" ].

(** [parseInt(ch, 10)] of a one-character string; [None] is NaN. *)
Definition parseInt10 (c : ascii) : option nat :=
  if isDigit c then Some (code c - 48) else None.

(** The loop of [passesLuhn], from the last character to the first;
    [rdigits] is the part still to visit, last character first.  A [None]
    sum is NaN, which stays NaN. *)
Fixpoint luhnLoop (rdigits : list ascii) (alternate : bool) (sum : option nat)
  : option nat :=
  match rdigits with
  | [] => sum
  | d :: rest =>
      let n := parseInt10 d in
      let n := if alternate
               then option_map (fun n => let n := n * 2 in
                                         if 9 <? n then n - 9 else n) n
               else n in
      let sum := match sum, n with
                 | Some a, Some b => Some (a + b)
                 | _, _ => None
                 end in
      luhnLoop rest (negb alternate) sum
  end.

Definition passesLuhn (digits : list ascii) : bool :=
  match luhnLoop (rev digits) false (Some 0) with
  | Some sum => sum mod 10 =? 0
  | None => false
  end.

(** [match.replace(/\D/g, '')]: the digits of the match. *)
Definition digitsOnly (m : list ascii) : list ascii := List.filter isDigit m.

(** The replacer function of the credit-card branch; the flag is
    [categoriesFound.add(name)]. *)
Definition creditCardReplacer (replacement : string) (m : list ascii)
  : list ascii * bool :=
  let d := digitsOnly m in
  if (13 <=? length d) && (length d <=? 19) && passesLuhn d
  then (list_ascii_of_string replacement, true)
  else (m, false).

(** [Set.prototype.add] on an insertion-ordered set. *)
Definition setAdd (x : string) (s : list string) : list string :=
  if existsb (String.eqb x) s then s else s ++ [x].

(** [scrubbed.replace(pattern, replacer)] on strings. *)
Definition replace (scrubbed : string) (r : regex)
    (f : list ascii -> list ascii * bool) : string * bool :=
  let '(out, hit) := replaceAll r f (list_ascii_of_string scrubbed) in
  (string_of_list_ascii out, hit).

(** One iteration of the loop over [PII_PATTERNS]. *)
Definition scrubStep (st : string * list string) (p : PiiPattern)
  : string * list string :=
  let '(scrubbed, categoriesFound) := st in
  if String.eqb (name p) "credit_card" then
    let '(out, hit) :=
      replace scrubbed (pattern p) (creditCardReplacer (replacement p)) in
    (out, if hit then setAdd (name p) categoriesFound else categoriesFound)
  else
    let before := scrubbed in
    let '(out, _) :=
      replace scrubbed (pattern p)
        (fun _ => (list_ascii_of_string (replacement p), false)) in
    (out, if negb (String.eqb out before)
          then setAdd (name p) categoriesFound else categoriesFound).

Definition scrubPii (t : string) : ScrubResult :=
  let '(scrubbed, categoriesFound) := fold_left scrubStep PII_PATTERNS (t, []) in
  mkScrubResult scrubbed categoriesFound.

End Pii.

(** ** Sorting

    [Array.prototype.sort] is a stable sort (ECMAScript 2019, and every
    Node release the package supports).  For a comparator that orders the
    elements by a key, the result is determined: the stable sorted
    rearrangement.  It is computed here by insertion from the right. *)

Module Sort.
Section Sort.
Context {A : Type}.
(** [neg a b] holds when the comparator returns a negative number on
    [(a, b)]: [a] has to come before [b]. *)
Variable neg : A -> A -> bool.

Fixpoint insert (x : A) (l : list A) : list A :=
  match l with
  | [] => [x]
  | y :: l' => if neg y x then y :: insert x l' else x :: y :: l'
  end.

Definition sort (l : list A) : list A := fold_right insert [] l.
End Sort.
End Sort.

(** ** feedback-analyzer.ts: data model *)

Inductive SignalType : Type := REACTIVE | PROACTIVE.

Definition SignalType_eqb (a b : SignalType) : bool :=
  match a, b with
  | REACTIVE, REACTIVE | PROACTIVE, PROACTIVE => true
  | _, _ => false
  end.

Module Metadata.
Record t : Type := mk {
  tags : option (list string);
  votes : option Z;
  comments_count : option Z;
  thread_count : option Z;
  portal : option string
}.
End Metadata.

Module DataPoint.
Record t : Type := mk {
  id : string;
  source : SignalType;
  title : string;
  text : string;
  created_at : Z;          (* epoch milliseconds of the ISO string *)
  metadata : Metadata.t
}.
End DataPoint.

(** An element of [data_points]: id, source and title only. *)
Module PointRef.
Record t : Type := mk {
  id : string;
  source : SignalType;
  title : string
}.
End PointRef.

Module ThemeMatch.
Record t : Type := mk {
  theme_id : string;
  label : string;
  category : string;
  reactive_count : nat;
  proactive_count : nat;
  convergent : bool;
  frequency_score : R;
  severity_score : R;
  vote_momentum_score : R;
  priority_score : R;
  data_points : list PointRef.t
}.
End ThemeMatch.

Module EmergingTheme.
Record t : Type := mk {
  ngram : string;
  frequency : nat;
  data_points : list PointRef.t
}.
End EmergingTheme.

Module ThemeDefinition.
Record t : Type := mk {
  id : string;
  label : string;
  keywords : list string;
  category : string
}.
End ThemeDefinition.

Module ThemesConfig.
Record t : Type := mk {
  version : Z;
  themes : list ThemeDefinition.t;
  stop_words : list string;
  emerging_theme_min_frequency : Z
}.
End ThemesConfig.

Module AnalysisResult.
Record t : Type := mk {
  config_version : Z;
  known_themes_count : nat;
  total_data_points : nat;
  reactive_count : nat;
  proactive_count : nat;
  themes : list ThemeMatch.t;
  emerging_themes : list EmergingTheme.t;
  unmatched_count : nat
}.
End AnalysisResult.

Module FormattedConversation.
Record t : Type := mk {
  id : Z;
  number : Z;
  subject : string;
  status : string;
  createdAt : Z;           (* epoch milliseconds of the ISO string *)
  closedAt : option Z;
  customerEmail : string;
  tags : list string;
  preview : string;
  customerMessages : list string;
  threadCount : Z
}.
End FormattedConversation.

Module Comment.
Record t : Type := mk {
  author : string;
  role : string;
  comment : string;
  created_at : option Z
}.
End Comment.

Module FormattedFeatureRequest.
Record t : Type := mk {
  id : string;
  title : string;
  description : string;
  status : option string;
  category : option string;
  votes_count : Z;
  comments_count : Z;
  portal : string;
  created_at : Z;          (* epoch milliseconds of the ISO string *)
  updated_at : Z;
  comments : list Comment.t
}.
End FormattedFeatureRequest.

(** ** feedback-analyzer.ts: normalization and theme matching *)

Module Analyzer.
Import Chars Regex.

Definition toLowerCase (s : string) : string :=
  string_of_list_ascii (map toLower (list_ascii_of_string s)).

(** [Array.prototype.join(" ")] *)
Definition joinSpace (parts : list string) : string := String.concat " " parts.

(** [String.prototype.includes] *)
Fixpoint includes (s kw : string) : bool :=
  if String.prefix kw s then true
  else match s with
       | EmptyString => false
       | String _ s' => includes s' kw
       end.

Definition conversationToDataPoint (conv : FormattedConversation.t) : DataPoint.t :=
  let textParts :=
    [FormattedConversation.subject conv; FormattedConversation.preview conv]
      ++ FormattedConversation.customerMessages conv in
  {| DataPoint.id := "hs-" +:+ pretty (FormattedConversation.id conv);
     DataPoint.source := REACTIVE;
     DataPoint.title := FormattedConversation.subject conv;
     DataPoint.text := toLowerCase (joinSpace textParts);
     DataPoint.created_at := FormattedConversation.createdAt conv;
     DataPoint.metadata :=
       {| Metadata.tags := Some (FormattedConversation.tags conv);
          Metadata.votes := None;
          Metadata.comments_count := None;
          Metadata.thread_count := Some (FormattedConversation.threadCount conv);
          Metadata.portal := None |} |}.

Definition featureRequestToDataPoint (req : FormattedFeatureRequest.t) : DataPoint.t :=
  let textParts :=
    [FormattedFeatureRequest.title req; FormattedFeatureRequest.description req]
      ++ map Comment.comment (FormattedFeatureRequest.comments req) in
  {| DataPoint.id := "pl-" +:+ FormattedFeatureRequest.id req;
     DataPoint.source := PROACTIVE;
     DataPoint.title := FormattedFeatureRequest.title req;
     DataPoint.text := toLowerCase (joinSpace textParts);
     DataPoint.created_at := FormattedFeatureRequest.created_at req;
     DataPoint.metadata :=
       {| Metadata.tags := None;
          Metadata.votes := Some (FormattedFeatureRequest.votes_count req);
          Metadata.comments_count := Some (FormattedFeatureRequest.comments_count req);
          Metadata.thread_count := None;
          Metadata.portal := Some (FormattedFeatureRequest.portal req) |} |}.

(** A pattern character under the [i] flag. *)
Definition sameLetter (k c : ascii) : bool :=
  Ascii.eqb (canonicalize k) (canonicalize c).

(** [new RegExp(`\\b${escapeRegex(kw)}\\b`, "i")]: [escapeRegex] puts a
    backslash before every syntax character of the keyword, so the pattern
    source reads back as the keyword's characters, each a literal, between
    two word boundaries. *)
Definition keywordRegex (kw : string) : regex :=
  Cat Bnd (fold_right (fun ch r => Cat (Cls (sameLetter ch)) r) Bnd
             (list_ascii_of_string kw)).

Fixpoint matchesTheme (text : string) (keywords : list string) : bool :=
  match keywords with
  | [] => false
  | kw :: rest =>
      if includes kw " " then
        (* multi-word: substring match *)
        if includes text (toLowerCase kw) then true else matchesTheme text rest
      else
        (* single word: word-boundary regex *)
        if test (keywordRegex kw) None (list_ascii_of_string text) then true
        else matchesTheme text rest
  end.

(** ** Scoring

    The scores over the real numbers: the arithmetic of the source without
    the rounding of its operations, for tags that name no inherited member
    of the table.  [Analyzer64] below has the scores as doubles. *)

Local Open Scope R_scope.

(** The [SEVERITY_TAG_BOOST] object, by its own properties;
    [Analyzer64.tableEntry] adds the members it inherits. *)
Definition SEVERITY_TAG_BOOST : gmap string Z :=
  list_to_map
    [ ("bug"%string, 20%Z); ("urgent"%string, 25%Z); ("escalation"%string, 30%Z);
      ("escalated"%string, 30%Z); ("critical"%string, 25%Z) ].

Definition isReactive (p : DataPoint.t) : bool :=
  SignalType_eqb (DataPoint.source p) REACTIVE.
Definition isProactive (p : DataPoint.t) : bool :=
  SignalType_eqb (DataPoint.source p) PROACTIVE.

(** The loop over the tags of a point, with its [break], when no tag
    names an inherited member of the table. *)
Fixpoint tagBoostLoop (tags : list string) (pointScore : R) : R :=
  match tags with
  | [] => pointScore
  | tag :: rest =>
      match SEVERITY_TAG_BOOST !! toLowerCase tag with
      | Some boost =>
          if (boost =? 0)%Z then tagBoostLoop rest pointScore
          else pointScore + IZR boost      (* break *)
      | None => tagBoostLoop rest pointScore
      end
  end.

(** The body of the loop over the reactive points: the score of one point. *)
Definition pointScore (now : Z) (p : DataPoint.t) : R :=
  let pointScore := 0 in
  let threads := default 1%Z (Metadata.thread_count (DataPoint.metadata p)) in
  let pointScore := pointScore + Rmin (IZR threads * 10) 50 in
  let ageMs := (now - DataPoint.created_at p)%Z in
  let ageDays := IZR ageMs / (1000 * 60 * 60 * 24) in
  let recencyBoost := 30 * exp (- ageDays / 7) in
  let pointScore := pointScore + recencyBoost in
  tagBoostLoop (default [] (Metadata.tags (DataPoint.metadata p))) pointScore.

(** [now] is the value [Date.now()] returns inside the call. *)
Definition computeSeverityScore (now : Z) (points : list DataPoint.t) : R :=
  let reactive := List.filter isReactive points in
  if (length reactive =? 0)%nat then 0
  else
    let totalScore :=
      fold_left (fun totalScore p => totalScore + pointScore now p) reactive 0 in
    Rmin (totalScore / INR (length reactive)) 100.

Definition computeVoteMomentum (points : list DataPoint.t) : R :=
  let proactive := List.filter isProactive points in
  if (length proactive =? 0)%nat then 0
  else
    let '(totalVotes, totalComments) :=
      fold_left
        (fun '(totalVotes, totalComments) p =>
           ((totalVotes + default 0 (Metadata.votes (DataPoint.metadata p)))%Z,
            (totalComments
             + default 0 (Metadata.comments_count (DataPoint.metadata p)))%Z))
        proactive (0%Z, 0%Z) in
    IZR totalVotes * 0.8 + IZR totalComments * 0.2.

(** [Math.round(n * 100) / 100]; [Math.round] rounds halves up. *)
Definition round2 (n : R) : R := IZR (Zfloor (n * 100 + / 2)) / 100.

(** ** Emerging theme detection *)

Local Open Scope nat_scope.

(** [[^a-z0-9\s]] *)
Definition notTokenChar (c : ascii) : bool :=
  negb (isLower c || isDigit c || isSpace c).

(** [String.prototype.split(/\s+/)]: the pieces between the maximal runs of
    white space, empty pieces at the two ends included.  [cur] is the piece
    being read, last character first; [inSep] tells that the previous
    character was white space. *)
Fixpoint splitLoop (cur : list ascii) (inSep : bool) (s : list ascii)
  : list string :=
  match s with
  | [] => [string_of_list_ascii (rev cur)]
  | c :: s' =>
      if isSpace c then
        if inSep then splitLoop [] true s'
        else string_of_list_ascii (rev cur) :: splitLoop [] true s'
      else splitLoop (c :: cur) false s'
  end.

Definition splitSpaces (s : list ascii) : list string := splitLoop [] false s.

Definition tokenize (text : string) (stopWords : gset string) : list string :=
  let replaced :=
    fst (replaceAll (Cls notTokenChar) (fun _ => ([" "%char], false))
           (list_ascii_of_string text)) in
  List.filter
    (fun w => (2 <? String.length w) && negb (bool_decide (w ∈ stopWords)))
    (splitSpaces replaced).

(** The two loops of [extractNgrams]. *)
Fixpoint bigrams (tokens : list string) : list string :=
  match tokens with
  | a :: (b :: _) as rest => (a +:+ " " +:+ b) :: bigrams rest
  | _ => []
  end.

Fixpoint trigrams (tokens : list string) : list string :=
  match tokens with
  | a :: (b :: c :: _) as rest => (a +:+ " " +:+ b +:+ " " +:+ c) :: trigrams rest
  | _ => []
  end.

Definition extractNgrams (tokens : list string) : list string :=
  bigrams tokens ++ trigrams tokens.

(** [Set<number>.add] on an insertion-ordered set. *)
Definition addIndex (i : nat) (pts : list nat) : list nat :=
  if existsb (Nat.eqb i) pts then pts else pts ++ [i].

(** [ngramToPoints] is a [Map], which keeps its keys in insertion order; the
    order decides ties once the entries are sorted.  This is
    [if (!m.has(ng)) m.set(ng, new Set()); m.get(ng).add(i)]. *)
Fixpoint addPoint (ng : string) (i : nat) (m : list (string * list nat))
  : list (string * list nat) :=
  match m with
  | [] => [(ng, addIndex i [])]
  | (k, pts) :: m' =>
      if String.eqb k ng then (k, addIndex i pts) :: m'
      else (k, pts) :: addPoint ng i m'
  end.

(** The loop over the n-grams of point [i], with its [seen] set. *)
Fixpoint recordNgrams (i : nat) (ngrams : list string) (seen : gset string)
    (m : list (string * list nat)) : list (string * list nat) :=
  match ngrams with
  | [] => m
  | ng :: rest =>
      if bool_decide (ng ∈ seen) then recordNgrams i rest seen m
      else recordNgrams i rest ({[ng]} ∪ seen) (addPoint ng i m)
  end.

(** The loop over the unmatched points, from index [i] on. *)
Fixpoint countNgrams (i : nat) (points : list DataPoint.t)
    (stopWords : gset string) (m : list (string * list nat))
  : list (string * list nat) :=
  match points with
  | [] => m
  | p :: rest =>
      let tokens := tokenize (DataPoint.text p) stopWords in
      let ngrams := extractNgrams tokens in
      countNgrams (S i) rest stopWords (recordNgrams i ngrams ∅ m)
  end.

(** The comparator [(a, b) => b[1].size - a[1].size] is negative. *)
Definition bySizeDesc (a b : string * list nat) : bool :=
  (Z.of_nat (length (snd b)) - Z.of_nat (length (snd a)) <? 0)%Z.

Definition sortedNgrams (ngramToPoints : list (string * list nat))
    (minFrequency : Z) : list (string * list nat) :=
  Sort.sort bySizeDesc
    (List.filter (fun e => (minFrequency <=? Z.of_nat (length (snd e)))%Z)
       ngramToPoints).

(** The greedy loop: the n-gram and the indices it claims, for every
    emerging theme pushed. *)
Fixpoint claimLoop (sorted : list (string * list nat)) (minFrequency : Z)
    (claimed : gset nat) : list (string * list nat) :=
  match sorted with
  | [] => []
  | (ngram, pointIndices) :: rest =>
      let unclaimed :=
        List.filter (fun i => negb (bool_decide (i ∈ claimed))) pointIndices in
      if (Z.of_nat (length unclaimed) <? minFrequency)%Z
      then claimLoop rest minFrequency claimed
      else (ngram, unclaimed)
             :: claimLoop rest minFrequency (list_to_set unclaimed ∪ claimed)
  end.

Definition pointRef (p : DataPoint.t) : PointRef.t :=
  {| PointRef.id := DataPoint.id p;
     PointRef.source := DataPoint.source p;
     PointRef.title := DataPoint.title p |}.

(** The object pushed for an n-gram and its unclaimed indices.  An index
    outside [unmatchedPoints] would make the source throw; it contributes
    nothing here, and [emergingClaims_in_range] shows there is none. *)
Definition emergingTheme (unmatchedPoints : list DataPoint.t)
    (e : string * list nat) : EmergingTheme.t :=
  {| EmergingTheme.ngram := fst e;
     EmergingTheme.frequency := length (snd e);
     EmergingTheme.data_points :=
       omap (fun i => pointRef <$> unmatchedPoints !! i) (snd e) |}.

(** The claims of the greedy loop, in the order the themes are pushed. *)
Definition emergingClaims (unmatchedPoints : list DataPoint.t)
    (stopWords : gset string) (minFrequency : Z) : list (string * list nat) :=
  let ngramToPoints := countNgrams 0 unmatchedPoints stopWords [] in
  claimLoop (sortedNgrams ngramToPoints minFrequency) minFrequency ∅.

Definition detectEmergingThemes (unmatchedPoints : list DataPoint.t)
    (stopWords : gset string) (minFrequency : Z) : list EmergingTheme.t :=
  map (emergingTheme unmatchedPoints)
    (emergingClaims unmatchedPoints stopWords minFrequency).

(** ** Main analysis function *)

(** [themeMatches.get(id)!]: every id read was set before the loops; an
    absent id, which would make the source throw, reads as the empty array. *)
Definition getPoints (themeMatches : gmap string (list DataPoint.t))
    (id : string) : list DataPoint.t :=
  default [] (themeMatches !! id).

(** [for (const theme of config.themes) themeMatches.set(theme.id, [])] *)
Definition initMatches (themes : list ThemeDefinition.t)
  : gmap string (list DataPoint.t) :=
  fold_left (fun m theme => <[ThemeDefinition.id theme := []]> m) themes ∅.

(** The inner loop of the matching pass, for one data point. *)
Definition matchPoint (themes : list ThemeDefinition.t)
    (st : gmap string (list DataPoint.t) * gset string) (dp : DataPoint.t)
  : gmap string (list DataPoint.t) * gset string :=
  fold_left
    (fun '(themeMatches, matchedIds) theme =>
       if matchesTheme (DataPoint.text dp) (ThemeDefinition.keywords theme)
       then (<[ThemeDefinition.id theme :=
                 getPoints themeMatches (ThemeDefinition.id theme) ++ [dp]]>
               themeMatches,
             {[DataPoint.id dp]} ∪ matchedIds)
       else (themeMatches, matchedIds))
    themes st.

Definition matchAll (themes : list ThemeDefinition.t)
    (dataPoints : list DataPoint.t)
  : gmap string (list DataPoint.t) * gset string :=
  fold_left (matchPoint themes) dataPoints (initMatches themes, ∅).

(** [Math.max(...xs, 1)] *)
Definition maxWith1 (xs : list R) : R := fold_right Rmax 1%R xs.

Section Build.
Local Open Scope R_scope.

(** [clock i] is the value of [Date.now()] in the call of
    [computeSeverityScore] for the theme of index [i]. *)
Variable clock : nat -> Z.
Variable themeMatches : gmap string (list DataPoint.t).
Variable frequencyCounts : list nat.
Variable rawVoteMomentums : list R.
Variable maxFrequency : R.
Variable maxVoteMomentum : R.

(** The unrounded scores of the theme of index [i]. *)
Definition frequencyScoreAt (i : nat) : R :=
  INR (nth i frequencyCounts 0%nat) / maxFrequency * 100.

Definition voteMomentumScoreAt (i : nat) : R :=
  nth i rawVoteMomentums 0 / maxVoteMomentum * 100.

Definition themeMatch (i : nat) (theme : ThemeDefinition.t)
    (points : list DataPoint.t) : ThemeMatch.t :=
  let reactiveCount := length (List.filter isReactive points) in
  let proactiveCount := length (List.filter isProactive points) in
  let convergent := (0 <? reactiveCount)%nat && (0 <? proactiveCount)%nat in
  let frequencyScore := frequencyScoreAt i in
  let severityScore := computeSeverityScore (clock i) points in
  let voteMomentumScore := voteMomentumScoreAt i in
  let convergenceBoost := if convergent then 2 else 1 in
  let priorityScore :=
    (frequencyScore * 0.35 + severityScore * 0.35 + voteMomentumScore * 0.3)
    * convergenceBoost in
  {| ThemeMatch.theme_id := ThemeDefinition.id theme;
     ThemeMatch.label := ThemeDefinition.label theme;
     ThemeMatch.category := ThemeDefinition.category theme;
     ThemeMatch.reactive_count := reactiveCount;
     ThemeMatch.proactive_count := proactiveCount;
     ThemeMatch.convergent := convergent;
     ThemeMatch.frequency_score := round2 frequencyScore;
     ThemeMatch.severity_score := round2 severityScore;
     ThemeMatch.vote_momentum_score := round2 voteMomentumScore;
     ThemeMatch.priority_score := round2 priorityScore;
     ThemeMatch.data_points := map pointRef points |}.

(** The loop that builds the results, from index [i] on; a theme without
    points is skipped. *)
Fixpoint buildThemes (i : nat) (themes : list ThemeDefinition.t)
  : list ThemeMatch.t :=
  match themes with
  | [] => []
  | theme :: rest =>
      let points := getPoints themeMatches (ThemeDefinition.id theme) in
      if (length points =? 0)%nat then buildThemes (S i) rest
      else themeMatch i theme points :: buildThemes (S i) rest
  end.
End Build.

(** The comparator [(a, b) => b.priority_score - a.priority_score] is
    negative. *)
Definition byPriorityDesc (a b : ThemeMatch.t) : bool :=
  if Rlt_dec (ThemeMatch.priority_score b - ThemeMatch.priority_score a) 0
  then true else false.

Definition allDataPoints (conversations : list FormattedConversation.t)
    (featureRequests : list FormattedFeatureRequest.t) : list DataPoint.t :=
  map conversationToDataPoint conversations
    ++ map featureRequestToDataPoint featureRequests.

(** The themes in the order of the configuration, before the final sort. *)
Definition unsortedThemes (clock : nat -> Z)
    (conversations : list FormattedConversation.t)
    (featureRequests : list FormattedFeatureRequest.t)
    (config : ThemesConfig.t) : list ThemeMatch.t :=
  let dataPoints := allDataPoints conversations featureRequests in
  let themes := ThemesConfig.themes config in
  let themeMatches := fst (matchAll themes dataPoints) in
  let pointsOf theme := getPoints themeMatches (ThemeDefinition.id theme) in
  let frequencyCounts := map (fun theme => length (pointsOf theme)) themes in
  let rawVoteMomentums :=
    map (fun theme => computeVoteMomentum (pointsOf theme)) themes in
  let maxFrequency := maxWith1 (map INR frequencyCounts) in
  let maxVoteMomentum := maxWith1 rawVoteMomentums in
  buildThemes clock themeMatches frequencyCounts rawVoteMomentums
    maxFrequency maxVoteMomentum 0 themes.

Definition unmatchedPoints (conversations : list FormattedConversation.t)
    (featureRequests : list FormattedFeatureRequest.t)
    (config : ThemesConfig.t) : list DataPoint.t :=
  let dataPoints := allDataPoints conversations featureRequests in
  let matchedIds := snd (matchAll (ThemesConfig.themes config) dataPoints) in
  List.filter (fun dp => negb (bool_decide (DataPoint.id dp ∈ matchedIds)))
    dataPoints.

Definition analyzeFeedback (clock : nat -> Z)
    (conversations : list FormattedConversation.t)
    (featureRequests : list FormattedFeatureRequest.t)
    (config : ThemesConfig.t) : AnalysisResult.t :=
  let dataPoints := allDataPoints conversations featureRequests in
  let themes :=
    Sort.sort byPriorityDesc
      (unsortedThemes clock conversations featureRequests config) in
  let unmatched := unmatchedPoints conversations featureRequests config in
  let stopWords : gset string := list_to_set (ThemesConfig.stop_words config) in
  let emergingThemes :=
    detectEmergingThemes unmatched stopWords
      (ThemesConfig.emerging_theme_min_frequency config) in
  {| AnalysisResult.config_version := ThemesConfig.version config;
     AnalysisResult.known_themes_count := length (ThemesConfig.themes config);
     AnalysisResult.total_data_points := length dataPoints;
     AnalysisResult.reactive_count := length conversations;
     AnalysisResult.proactive_count := length featureRequests;
     AnalysisResult.themes := themes;
     AnalysisResult.emerging_themes := emergingThemes;
     AnalysisResult.unmatched_count := length unmatched |}.

End Analyzer.

(** ** Definitions used to state the properties *)

Module Props.
Import Chars Regex Pii.

(** *** The scrubber *)

(** Every code unit of the model. *)
Definition allChars : list ascii := map ascii_of_nat (seq 0 256).

(** Class [p] is included in class [q]. *)
Definition subclass (p q : ascii -> bool) : bool :=
  forallb (fun c => implb (p c) (q c)) allChars.

(** Every match of [r] consumes at least one character of class [q]. *)
Fixpoint needs (q : ascii -> bool) (r : regex) : bool :=
  match r with
  | Cls p => subclass p q
  | Bnd => false
  | Cat r1 r2 => needs q r1 || needs q r2
  | Rep lo _ r1 => (0 <? lo) && needs q r1
  | Many lo p => (0 <? lo) && subclass p q
  end.

(** No character class of [r] accepts the character [b]. *)
Fixpoint avoids (b : ascii) (r : regex) : bool :=
  match r with
  | Cls p => negb (p b)
  | Bnd => true
  | Cat r1 r2 => avoids b r1 && avoids b r2
  | Rep _ _ r1 => avoids b r1
  | Many _ p => negb (p b)
  end.

(** An input without any character of class [q]. *)
Definition free (q : ascii -> bool) (s : list ascii) : Prop :=
  Forall (fun c => q c = false) s.

(** The input left by a match inside [u], seen from [u ++ b :: v]. *)
Definition past (b : ascii) (v : list ascii) (o : option (list ascii))
  : option (list ascii) :=
  option_map (fun rest => rest ++ b :: v) o.

(** A character no pattern of [PII_PATTERNS] can start or complete a match
    with: neither a digit nor an at sign. *)
Definition inert (c : ascii) : bool := negb (isDigit c) && negb (isChar "@" c).

Definition inertText (t : string) : bool :=
  forallb inert (list_ascii_of_string t).

(** The replacer of a step of the loop of [scrubPii], and the text the step
    produces. *)
Definition stepReplacer (p : PiiPattern) : list ascii -> list ascii * bool :=
  if String.eqb (name p) "credit_card"
  then creditCardReplacer (replacement p)
  else fun _ => (list_ascii_of_string (replacement p), false).

Definition stepText (t : string) (p : PiiPattern) : string :=
  fst (replace t (pattern p) (stepReplacer p)).

(** The text after the first [n] patterns of the loop of [scrubPii]. *)
Definition textAfter (n : nat) (t : string) : string :=
  fst (fold_left scrubStep (firstn n PII_PATTERNS) (t, [])).

(** [m] is a contiguous piece of [t]. *)
Definition pieceOf (m : list ascii) (t : string) : Prop :=
  exists pre post, list_ascii_of_string t = pre ++ m ++ post.

(** The condition of the credit-card replacer. *)
Definition luhnValid (m : list ascii) : Prop :=
  13 <= length (digitsOnly m) <= 19 /\ passesLuhn (digitsOnly m) = true.

(** The placeholder tokens. *)
Definition placeholders : list string := map replacement PII_PATTERNS.

(** A token in square brackets. *)
Definition bracketed (w : string) : string := "[" +:+ w +:+ "]".

(** The conditions under which a bracketed token is out of the reach of a
    pattern: no class accepts a bracket, and every match needs a digit or
    an at sign. *)
Definition bracketSafe (p : PiiPattern) : bool :=
  avoids "[" (pattern p) && avoids "]" (pattern p)
  && (needs isDigit (pattern p) || needs (isChar "@") (pattern p)).

(** *** Severity, as the code computes it, in closed form *)

Definition Rsum (xs : list R) : R := fold_right Rplus 0%R xs.

(** The boost of one tag: its entry in the table, if any. *)
Definition tagValue (tag : string) : Z :=
  default 0%Z (Analyzer.SEVERITY_TAG_BOOST !! Analyzer.toLowerCase tag).

(** The boost of the first tag, in the order of the tag list, that has one. *)
Definition firstTagBonus (tags : list string) : Z :=
  match List.find (fun tag => negb (tagValue tag =? 0)%Z) tags with
  | Some tag => tagValue tag
  | None => 0%Z
  end.

Definition threadsOf (p : DataPoint.t) : Z :=
  default 1%Z (Metadata.thread_count (DataPoint.metadata p)).

Definition tagsOf (p : DataPoint.t) : list string :=
  default [] (Metadata.tags (DataPoint.metadata p)).

Definition ageDays (now : Z) (p : DataPoint.t) : R :=
  (IZR (now - DataPoint.created_at p) / (1000 * 60 * 60 * 24))%R.

(** The thread-count term of the score of a point. *)
Definition threadTerm (p : DataPoint.t) : R :=
  Rmin (IZR (threadsOf p) * 10) 50.

(** The severity contribution of one reactive signal. *)
Definition contribution (now : Z) (p : DataPoint.t) : R :=
  (threadTerm p + 30 * exp (- ageDays now p / 7)
   + IZR (firstTagBonus (tagsOf p)))%R.

(** The mean of the contributions of the reactive signals, capped at 100. *)
Definition severityMean (now : Z) (points : list DataPoint.t) : R :=
  match List.filter Analyzer.isReactive points with
  | [] => 0%R
  | reactive =>
      Rmin (Rsum (map (contribution now) reactive) / INR (length reactive)) 100
  end.

(** *** Severity, in the words of the specification

    The bonus is that of the highest-valued matching tag, from the table
    the specification gives. *)




(** *** Emerging themes *)

(** The entries of an n-gram table are well formed up to [n]: no index
    twice, every index below [n]. *)
Definition tableOk (n : nat) (m : list (string * list nat)) : Prop :=
  Forall (fun e => NoDup (snd e) /\ Forall (fun i => i < n) (snd e)) m.

(** All the indices claimed by a list of claims, in order. *)
Definition claimedIndices (claims : list (string * list nat)) : list nat :=
  concat (map snd claims).

(** The table [ngramToPoints] that [detectEmergingThemes] builds. *)
Definition ngramTable (unmatchedPoints : list DataPoint.t)
    (stopWords : gset string) : list (string * list nat) :=
  Analyzer.countNgrams 0 unmatchedPoints stopWords [].

(** The indices recorded for an n-gram in a table; none when it has no
    entry. *)
Definition pointsFor (ng : string) (m : list (string * list nat)) : list nat :=
  match List.find (fun e => String.eqb (fst e) ng) m with
  | Some e => snd e
  | None => []
  end.

(** The n-grams of a signal. *)
Definition ngramsOf (stopWords : gset string) (p : DataPoint.t) : list string :=
  Analyzer.extractNgrams (Analyzer.tokenize (DataPoint.text p) stopWords).

(** The unmatched signal of index [i] contains the n-gram [ng]. *)
Definition containsNgram (unmatchedPoints : list DataPoint.t)
    (stopWords : gset string) (ng : string) (i : nat) : Prop :=
  exists p, unmatchedPoints !! i = Some p /\ In ng (ngramsOf stopWords p).

(** Larger containing sets first. *)
Definition sizeDesc (a b : string * list nat) : Prop :=
  length (snd b) <= length (snd a).

(** The filter of the greedy loop, given the indices claimed so far. *)
Definition unclaimedOf (claimedSoFar : list nat) (pointIndices : list nat)
  : list nat :=
  List.filter (fun i => negb (bool_decide (i ∈ claimedSoFar))) pointIndices.

(** [refs] are the references to the points of indices [idx]. *)
Definition refsOf (unmatchedPoints : list DataPoint.t) (idx : list nat)
    (refs : list PointRef.t) : Prop :=
  Forall2 (fun i r => exists p, unmatchedPoints !! i = Some p
                                /\ r = Analyzer.pointRef p) idx refs.

(** *** The analysis, theme by theme *)

(** The elements of a list with their indices, from [i] on. *)
Definition indexed {A : Type} (i : nat) (l : list A) : list (nat * A) :=
  combine (seq i (length l)) l.

Section PerTheme.
Variable clock : nat -> Z.
Variable conversations : list FormattedConversation.t.
Variable featureRequests : list FormattedFeatureRequest.t.
Variable config : ThemesConfig.t.

(** The matched signals of a theme: the array under its id in
    [themeMatches] after the matching loops. *)
Definition themePoints (theme : ThemeDefinition.t) : list DataPoint.t :=
  Analyzer.getPoints
    (fst (Analyzer.matchAll (ThemesConfig.themes config)
            (Analyzer.allDataPoints conversations featureRequests)))
    (ThemeDefinition.id theme).

Definition frequencyCountsOf : list nat :=
  map (fun theme => length (themePoints theme)) (ThemesConfig.themes config).

Definition rawVoteMomentumsOf : list R :=
  map (fun theme => Analyzer.computeVoteMomentum (themePoints theme))
    (ThemesConfig.themes config).

Definition maxFrequencyOf : R := Analyzer.maxWith1 (map INR frequencyCountsOf).

Definition maxVoteMomentumOf : R := Analyzer.maxWith1 rawVoteMomentumsOf.

(** The unrounded component scores of a theme. *)
Definition frequencyScoreOf (theme : ThemeDefinition.t) : R :=
  (INR (length (themePoints theme)) / maxFrequencyOf * 100)%R.

Definition voteMomentumScoreOf (theme : ThemeDefinition.t) : R :=
  (Analyzer.computeVoteMomentum (themePoints theme) / maxVoteMomentumOf * 100)%R.

Definition severityScoreOf (i : nat) (theme : ThemeDefinition.t) : R :=
  Analyzer.computeSeverityScore (clock i) (themePoints theme).

(** The weighted sum, before the convergence boost and the rounding. *)
Definition baseScore (i : nat) (theme : ThemeDefinition.t) : R :=
  (frequencyScoreOf theme * 0.35 + severityScoreOf i theme * 0.35
   + voteMomentumScoreOf theme * 0.3)%R.

(** The object pushed for the theme of index [i]. *)
Definition themeResult (i : nat) (theme : ThemeDefinition.t) : ThemeMatch.t :=
  Analyzer.themeMatch clock frequencyCountsOf rawVoteMomentumsOf
    maxFrequencyOf maxVoteMomentumOf i theme (themePoints theme).

(** One iteration of the loop that builds the results. *)
Definition resultAt (e : nat * ThemeDefinition.t) : option ThemeMatch.t :=
  if length (themePoints (snd e)) =? 0 then None
  else Some (themeResult (fst e) (snd e)).
End PerTheme.

(** What one data point adds to the array of the id [id]: itself, once for
    every theme with this id that it matches. *)
Definition matchesOf (themes : list ThemeDefinition.t) (id : string)
    (dp : DataPoint.t) : list DataPoint.t :=
  flat_map
    (fun theme =>
       if Analyzer.matchesTheme (DataPoint.text dp) (ThemeDefinition.keywords theme)
          && String.eqb (ThemeDefinition.id theme) id
       then [dp] else [])
    themes.

(** The data point matches the theme. *)
Definition matchesThemeOf (theme : ThemeDefinition.t) (dp : DataPoint.t) : bool :=
  Analyzer.matchesTheme (DataPoint.text dp) (ThemeDefinition.keywords theme).

(** Some signal of [points] comes from [src]. *)
Definition hasSource (src : SignalType) (points : list DataPoint.t) : Prop :=
  exists p, In p points /\ DataPoint.source p = src.

(** A result without the two scores that depend on the clock. *)
Definition withoutClock (tm : ThemeMatch.t) : ThemeMatch.t :=
  {| ThemeMatch.theme_id := ThemeMatch.theme_id tm;
     ThemeMatch.label := ThemeMatch.label tm;
     ThemeMatch.category := ThemeMatch.category tm;
     ThemeMatch.reactive_count := ThemeMatch.reactive_count tm;
     ThemeMatch.proactive_count := ThemeMatch.proactive_count tm;
     ThemeMatch.convergent := ThemeMatch.convergent tm;
     ThemeMatch.frequency_score := ThemeMatch.frequency_score tm;
     ThemeMatch.severity_score := 0;
     ThemeMatch.vote_momentum_score := ThemeMatch.vote_momentum_score tm;
     ThemeMatch.priority_score := 0;
     ThemeMatch.data_points := ThemeMatch.data_points tm |}.

(** *** Examples *)

(** A data point with a text and nothing else, for examples. *)
Definition textPoint (id : string) (source : SignalType) (text : string)
  : DataPoint.t :=
  {| DataPoint.id := id; DataPoint.source := source; DataPoint.title := text;
     DataPoint.text := text; DataPoint.created_at := 0%Z;
     DataPoint.metadata :=
       {| Metadata.tags := None; Metadata.votes := None;
          Metadata.comments_count := None; Metadata.thread_count := None;
          Metadata.portal := None |} |}.

(** Five unmatched signals: "dark mode" is in the first three, "export pdf"
    in the last three. *)
Definition fiveSignals : list DataPoint.t :=
  [ textPoint "hs-1" REACTIVE "dark mode";
    textPoint "hs-2" REACTIVE "dark mode";
    textPoint "pl-a" PROACTIVE "dark mode export pdf";
    textPoint "pl-b" PROACTIVE "export pdf";
    textPoint "hs-3" REACTIVE "export pdf" ].

(** A small run: one theme with the keyword "calendar"; one ticket, created
    at time 0, with one thread and the tags bug and escalation; one feature
    request with one vote and no comment.  Both mention the calendar. *)
Definition exampleConv : FormattedConversation.t :=
  {| FormattedConversation.id := 101;
     FormattedConversation.number := 1;
     FormattedConversation.subject := "Calendar booking fails";
     FormattedConversation.status := "active";
     FormattedConversation.createdAt := 0;
     FormattedConversation.closedAt := None;
     FormattedConversation.customerEmail := "[REDACTED]";
     FormattedConversation.tags := ["bug"%string; "escalation"%string];
     FormattedConversation.preview := "the booking calendar shows an error";
     FormattedConversation.customerMessages := [];
     FormattedConversation.threadCount := 1 |}.

Definition exampleReq : FormattedFeatureRequest.t :=
  {| FormattedFeatureRequest.id := "7";
     FormattedFeatureRequest.title := "Calendar sync";
     FormattedFeatureRequest.description := "sync the calendar with my phone";
     FormattedFeatureRequest.status := None;
     FormattedFeatureRequest.category := None;
     FormattedFeatureRequest.votes_count := 1;
     FormattedFeatureRequest.comments_count := 0;
     FormattedFeatureRequest.portal := "tidycal";
     FormattedFeatureRequest.created_at := 0;
     FormattedFeatureRequest.updated_at := 0;
     FormattedFeatureRequest.comments := [] |}.

Definition calendarTheme : ThemeDefinition.t :=
  {| ThemeDefinition.id := "calendar";
     ThemeDefinition.label := "Calendar";
     ThemeDefinition.keywords := ["calendar"%string];
     ThemeDefinition.category := "scheduling" |}.

Definition exampleConfig : ThemesConfig.t :=
  {| ThemesConfig.version := 1;
     ThemesConfig.themes := [calendarTheme];
     ThemesConfig.stop_words := [];
     ThemesConfig.emerging_theme_min_frequency := 3 |}.

(** The ticket, normalized. *)
Definition ticketPoint : DataPoint.t :=
  Analyzer.conversationToDataPoint exampleConv.

(** The feature request, normalized. *)
Definition requestPoint : DataPoint.t :=
  Analyzer.featureRequestToDataPoint exampleReq.

End Props.

(** ** pii-scrubber.ts: scrubbing an array of strings *)

Module PiiArray.
Import Pii.

Record ScrubArrayResult : Type := mkScrubArrayResult {
  texts : list string;
  piiCategoriesFound : list string
}.

(** The callback of [texts.map]: it scrubs one text and adds the categories
    of the result to [allCategories]. *)
Definition scrubOne (st : list string * list string) (t : string)
  : list string * list string :=
  let '(scrubbed, allCategories) := st in
  let result := scrubPii t in
  let allCategories :=
    fold_left (fun cats cat => setAdd cat cats) (Pii.piiCategoriesFound result)
      allCategories in
  (scrubbed ++ [text result], allCategories).

Definition scrubPiiArray (ts : list string) : ScrubArrayResult :=
  let '(scrubbed, allCategories) := fold_left scrubOne ts ([], []) in
  mkScrubArrayResult scrubbed allCategories.

End PiiArray.

(** ** Definitions used to state further properties of the scrubber *)

Module PiiProps.
Import Chars Regex Pii.

(** What one digit adds to the sum of [passesLuhn]. *)
Definition luhnTerm (alternate : bool) (n : nat) : nat :=
  if alternate then (if 9 <? n * 2 then n * 2 - 9 else n * 2) else n.

(** The sum of the loop of [passesLuhn] over digits, last digit first. *)
Fixpoint luhnSum (alternate : bool) (rdigits : list ascii) : nat :=
  match rdigits with
  | [] => 0
  | d :: rest => luhnTerm alternate (code d - 48) + luhnSum (negb alternate) rest
  end.

(** A string of digits. *)
Definition allDigits (s : list ascii) : Prop := Forall (fun c => isDigit c = true) s.

(** Every class of the pattern gives the same answer on [c] and on [f c]. *)
Fixpoint respects (f : ascii -> ascii) (r : regex) : bool :=
  match r with
  | Cls p | Many _ p => forallb (fun c => Bool.eqb (p (f c)) (p c)) Props.allChars
  | Bnd => true
  | Cat r1 r2 => respects f r1 && respects f r2
  | Rep _ _ r1 => respects f r1
  end.

(** Every digit read as a zero. *)
Definition zeroDigits (c : ascii) : ascii := if isDigit c then "0"%char else c.

End PiiProps.

(** ** Definitions used to state further properties of the analyzer *)

Module AnalyzerProps.
Import Chars Regex Analyzer.

(** [[a-z0-9]] *)
Definition tokenChar (c : ascii) : bool := isLower c || isDigit c.

(** [m] reads as the keyword [kw], letter by letter, whatever the case. *)
Definition spells (kw m : list ascii) : Prop :=
  Forall2 (fun k c => sameLetter k c = true) kw m.

(** [\b] holds between [a] and [b], two consecutive parts of a text. *)
Definition boundaryBetween (a b : list ascii) : bool := atBoundary (last a) b.

(** The keyword occurs in the text as a word of its own. *)
Definition occursAsWord (kw text : string) : Prop :=
  exists pre m post,
    list_ascii_of_string text = pre ++ m ++ post
    /\ spells (list_ascii_of_string kw) m
    /\ boundaryBetween pre (m ++ post) = true
    /\ boundaryBetween (pre ++ m) post = true.

(** The text has [kw] as a piece. *)
Definition containsText (text kw : string) : Prop :=
  exists pre post, text = pre +:+ kw +:+ post.

(** What it takes for a text to match one keyword: a keyword with a space
    has to occur in lower case, anywhere; a keyword without one has to
    occur as a word. *)
Definition keywordOccurs (text kw : string) : Prop :=
  if includes kw " " then containsText text (toLowerCase kw)
  else occursAsWord kw text.

(** The character before the position reached after reading [pre], when
    [prev] is the character before [pre]. *)
Definition lastOr (prev : option ascii) (pre : list ascii) : option ascii :=
  match last pre with Some c => Some c | None => prev end.

(** The ids the matching loops collect. *)
Definition matchedIdsOf (conversations : list FormattedConversation.t)
    (featureRequests : list FormattedFeatureRequest.t)
    (config : ThemesConfig.t) : gset string :=
  snd (matchAll (ThemesConfig.themes config)
         (allDataPoints conversations featureRequests)).




End AnalyzerProps.

(** ** String methods the other files use *)

Module JsString.
Import Chars.

(** The double quote, as a character. *)
Definition dquote : ascii := ascii_of_nat 34.

(** Line feed. *)
Definition LF : ascii := ascii_of_nat 10.

(** [String.prototype.split(sep)] for a separator of one character: the
    pieces between the occurrences of [sep], empty pieces included. *)
Fixpoint splitOn (sep : ascii) (s : list ascii) : list (list ascii) :=
  match s with
  | [] => [[]]
  | c :: s' =>
      if Ascii.eqb c sep then [] :: splitOn sep s'
      else match splitOn sep s' with
           | piece :: pieces => (c :: piece) :: pieces
           | [] => [[c]]
           end
  end.

(** [Array.prototype.join(sep)] *)
Fixpoint joinWith (sep : list ascii) (parts : list (list ascii)) : list ascii :=
  match parts with
  | [] => []
  | [p] => p
  | p :: rest => p ++ sep ++ joinWith sep rest
  end.

(** [String.prototype.trimStart], [trimEnd] and [trim]: the white space of
    [\s] is what they remove. *)
Fixpoint trimStart (s : list ascii) : list ascii :=
  match s with
  | c :: s' => if isSpace c then trimStart s' else s
  | [] => []
  end.

Definition trimEnd (s : list ascii) : list ascii := rev (trimStart (rev s)).

Definition trim (s : list ascii) : list ascii := trimEnd (trimStart s).

(** [Array.prototype.slice(0, end)] and [String.prototype.slice(0, end)]: a
    negative [end] counts from the end of the array. *)
Definition slice0 {A : Type} (finish : Z) (l : list A) : list A :=
  let len := Z.of_nat (length l) in
  let k := if (finish <? 0)%Z then Z.max (len + finish) 0 else Z.min finish len in
  firstn (Z.to_nat k) l.

(** A string is truthy when it is not empty. *)
Definition truthy (s : string) : bool :=
  match s with EmptyString => false | String _ _ => true end.

End JsString.

(** ** helpscout.ts *)

Module HelpScout.
Import Chars Regex JsString.
Local Open Scope regex_scope.

Module Thread.
Record t : Type := mk {
  id : Z;
  type : string;
  body : string;
  createdAt : Z;
  createdByType : string;          (* createdBy.type *)
  createdByEmail : option string   (* createdBy.email *)
}.
End Thread.

Module Tag.
Record t : Type := mk {
  id : Z;
  tag : string
}.
End Tag.

(** [subject], [preview] and [tags] are read with [??] and [?.] by the
    callers: they can be absent in what the API returns. *)
Module ConversationSummary.
Record t : Type := mk {
  id : Z;
  number : Z;
  subject : option string;
  status : string;
  state : string;
  mailboxId : Z;
  createdAt : Z;           (* epoch milliseconds of the ISO string *)
  closedAt : option Z;
  tags : option (list Tag.t);
  primaryCustomerEmail : string;
  preview : option string
}.
End ConversationSummary.

(** [Conversation extends ConversationSummary] *)
Module Conversation.
Record t : Type := mk {
  summary : ConversationSummary.t;
  threads : list Thread.t
}.
End Conversation.

(** *** The rate limiter *)

Definition RATE_LIMIT_WINDOW_MS : Z := 60000.
Definition MAX_REQUESTS_PER_WINDOW : nat := 170.

(** The first half of [rateLimit]: [now] is [Date.now()]; the result is the
    pruned list of timestamps and the time to wait, if the window is
    full. *)
Definition pruneAndWait (now : Z) (requestTimestamps : list Z)
  : list Z * option Z :=
  let requestTimestamps :=
    List.filter (fun t => (now - t <? RATE_LIMIT_WINDOW_MS)%Z) requestTimestamps in
  if MAX_REQUESTS_PER_WINDOW <=? length requestTimestamps then
    let oldestInWindow := hd now requestTimestamps in
    let waitMs := (RATE_LIMIT_WINDOW_MS - (now - oldestInWindow) + 100)%Z in
    (requestTimestamps, Some waitMs)
  else (requestTimestamps, None).

(** [rateLimit]: [later] is the [Date.now()] read for the push, after the
    wait if there is one. *)
Definition rateLimit (now later : Z) (requestTimestamps : list Z) : list Z :=
  fst (pruneAndWait now requestTimestamps) ++ [later].

(** *** Fetching the conversations

    The two requests are inputs of the model: [fetchConversationsPage page]
    is the list of conversations and [totalPages] of the page, and
    [fetchThreads id] the threads of a conversation; [None] is a request
    that throws. *)
Section Fetch.
Variable fetchConversationsPage : nat -> option (list ConversationSummary.t * nat).
Variable fetchThreads : Z -> option (list Thread.t).

(** The loop over the pages [page .. totalPages], [n] pages in all. *)
Fixpoint remainingPages (page n : nat)
    (allConversations : list ConversationSummary.t)
  : option (list ConversationSummary.t) :=
  match n with
  | 0 => Some allConversations
  | S n' =>
      match fetchConversationsPage page with
      | Some (conversations, _) =>
          remainingPages (S page) n' (allConversations ++ conversations)
      | None => None
      end
  end.

(** [Promise.all(batch.map(...))]: all the threads of a batch, or the
    failure of one of the requests. *)
Fixpoint fetchBatch (batch : list ConversationSummary.t)
  : option (list Conversation.t) :=
  match batch with
  | [] => Some []
  | conv :: rest =>
      match fetchThreads (ConversationSummary.id conv), fetchBatch rest with
      | Some threads, Some results => Some (Conversation.mk conv threads :: results)
      | _, _ => None
      end
  end.

Definition CONCURRENCY : nat := 5.

(** The loop over the batches; [fuel] bounds the number of batches. *)
Fixpoint fetchBatches (fuel : nat) (remaining : list ConversationSummary.t)
    (conversations : list Conversation.t) : option (list Conversation.t) :=
  match remaining with
  | [] => Some conversations
  | _ :: _ =>
      match fuel with
      | 0 => None
      | S fuel' =>
          match fetchBatch (firstn CONCURRENCY remaining) with
          | Some results =>
              fetchBatches fuel' (skipn CONCURRENCY remaining)
                (conversations ++ results)
          | None => None
          end
      end
  end.

Definition fetchConversations (includeThreads : bool)
  : option (list Conversation.t) :=
  match fetchConversationsPage 1 with
  | None => None
  | Some (firstPage, totalPages) =>
      match remainingPages 2 (totalPages - 1) firstPage with
      | None => None
      | Some allConversations =>
          if negb includeThreads then
            Some (map (fun conv => Conversation.mk conv []) allConversations)
          else fetchBatches (length allConversations) allConversations []
      end
  end.
End Fetch.

(** *** Cleaning the thread bodies *)

(** [s.replace(pattern, replacement)] for a global pattern and a
    replacement without [$]. *)
Definition replaceWith (r : regex) (replacement : string) (s : list ascii)
  : list ascii :=
  fst (replaceAll r (fun _ => (list_ascii_of_string replacement, false)) s).

(** A pattern character, and a pattern character under the [i] flag. *)
Definition chr (c : ascii) : regex := Cls (isChar c).
Definition chrI (c : ascii) : regex := Cls (Analyzer.sameLetter c).

(** The characters of an entity, as a pattern. *)
Fixpoint literal (c : ascii) (cs : list ascii) : regex :=
  match cs with
  | [] => chr c
  | c' :: cs' => chr c ⋅ literal c' cs'
  end.

(** [/<br\s*\/?>/gi] *)
Definition brPattern : regex :=
  chrI "<" ⋅ chrI "b" ⋅ chrI "r" ⋅ Many 0 isSpace ⋅ Opt (chrI "/") ⋅ chrI ">".

(** [/<\/p>/gi] *)
Definition endParagraphPattern : regex :=
  chrI "<" ⋅ chrI "/" ⋅ chrI "p" ⋅ chrI ">".

(** [[^>]] *)
Definition notGt (c : ascii) : bool := negb (isChar ">" c).

(** [/<[^>]+>/g] *)
Definition tagPattern : regex := chr "<" ⋅ Many 1 notGt ⋅ chr ">".

(** [/&nbsp;/g] and the other entities. *)
Definition nbspPattern : regex := literal "&" (list_ascii_of_string "nbsp;").
Definition ampPattern : regex := literal "&" (list_ascii_of_string "amp;").
Definition ltPattern : regex := literal "&" (list_ascii_of_string "lt;").
Definition gtPattern : regex := literal "&" (list_ascii_of_string "gt;").
Definition aposPattern : regex := literal "&" (list_ascii_of_string "#39;").
Definition quotPattern : regex := literal "&" (list_ascii_of_string "quot;").

Definition stripHtml (html : string) : string :=
  let s := list_ascii_of_string html in
  let s := replaceWith brPattern (String LF EmptyString) s in
  let s := replaceWith endParagraphPattern (String LF EmptyString) s in
  let s := replaceWith tagPattern EmptyString s in
  let s := replaceWith nbspPattern " " s in
  let s := replaceWith ampPattern "&" s in
  let s := replaceWith ltPattern "<" s in
  let s := replaceWith gtPattern ">" s in
  let s := replaceWith aposPattern "'" s in
  let s := replaceWith quotPattern (String dquote EmptyString) s in
  string_of_list_ascii (trim s).

Definition extractCustomerMessages (conv : Conversation.t) : list string :=
  List.filter (fun text => 0 <? String.length text)
    (map (fun t => stripHtml (Thread.body t))
       (List.filter
          (fun t => String.eqb (Thread.createdByType t) "customer"
                    && truthy (Thread.body t))
          (Conversation.threads conv))).

End HelpScout.

(** ** Definitions used to state properties of helpscout.ts *)

Module HelpScoutProps.
Import Chars Regex JsString HelpScout.

(** The number of requests recorded in the window that ends at [t0]. *)
Definition inWindow (t0 : Z) (requestTimestamps : list Z) : nat :=
  length (List.filter (fun t => (t0 - t <? RATE_LIMIT_WINDOW_MS)%Z)
            requestTimestamps).

(** The state of the limiter after a request made at time [last]: the
    timestamps are in order, none is later than [last], and at most
    [MAX_REQUESTS_PER_WINDOW] of them are in the window that ends at
    [last]. *)
Definition limiterOk (last : Z) (requestTimestamps : list Z) : Prop :=
  StronglySorted Z.le requestTimestamps
  /\ Forall (fun t => (t <= last)%Z) requestTimestamps
  /\ inWindow last requestTimestamps <= MAX_REQUESTS_PER_WINDOW.

(** The timer keeps its promise: the clock read after a wait of [waitMs]
    is at least [waitMs] later, and the clock never goes back. *)
Definition timerOk (now later : Z) (wait : option Z) : Prop :=
  match wait with
  | Some waitMs => (now + waitMs <= later)%Z
  | None => (now <= later)%Z
  end.

(** The conversations of the pages [page], [page + 1], ..., [n] pages in
    all, in order; a page that fails counts for nothing. *)
Definition pagesFrom
    (fetchConversationsPage : nat -> option (list ConversationSummary.t * nat))
    (page n : nat) : list ConversationSummary.t :=
  flat_map (fun p => match fetchConversationsPage p with
                     | Some (conversations, _) => conversations
                     | None => []
                     end)
    (seq page n).

(** A text without leading and trailing white space. *)
Definition trimmed (s : string) : Prop :=
  trim (list_ascii_of_string s) = list_ascii_of_string s.

(** No tag is left in the text. *)
Definition tagFree (s : string) : Prop :=
  test tagPattern None (list_ascii_of_string s) = false.

(** A tag starts the text: ["<"], one character or more other than [">"],
    then [">"]. *)
Definition tagAt (s : list ascii) : Prop :=
  exists x rest,
    s = "<"%char :: x ++ ">"%char :: rest
    /\ Forall (fun c => notGt c = true) x /\ x <> [].

(** No position of the text starts a tag. *)
Definition noTag (s : list ascii) : Prop :=
  forall pre s2, s = pre ++ s2 -> ~ tagAt s2.

(** The text has neither [c1] nor [c2]. *)
Definition without (c1 c2 : ascii) (s : string) : Prop :=
  Forall (fun c => c <> c1 /\ c <> c2) (list_ascii_of_string s).

(** *** Examples *)

Definition exampleSummary (id : Z) : ConversationSummary.t :=
  {| ConversationSummary.id := id;
     ConversationSummary.number := id;
     ConversationSummary.subject := Some "Export fails"%string;
     ConversationSummary.status := "active";
     ConversationSummary.state := "published";
     ConversationSummary.mailboxId := 1;
     ConversationSummary.createdAt := 0;
     ConversationSummary.closedAt := None;
     ConversationSummary.tags := None;
     ConversationSummary.primaryCustomerEmail := "ann@example.com";
     ConversationSummary.preview := Some "the export fails"%string |}.

(** Two pages: two conversations, then one. *)
Definition examplePages (page : nat) : option (list ConversationSummary.t * nat) :=
  match page with
  | 1 => Some ([exampleSummary 1; exampleSummary 2], 2)
  | 2 => Some ([exampleSummary 3], 2)
  | _ => None
  end.

End HelpScoutProps.

(** ** productlift.ts *)

Module ProductLift.
Import Chars JsString.

Module Status.
Record t : Type := mk {
  id : Z;
  name : string;
  color : string
}.
End Status.

Module PostSummary.
Record t : Type := mk {
  id : string;
  title : string;
  description : string;
  status : option Status.t;        (* absent or null: [None] *)
  category : option Status.t;
  votes_count : option Z;
  comments_count : option Z;
  created_at : Z;                  (* epoch milliseconds of the ISO string *)
  updated_at : Z;
  url : option string
}.
End PostSummary.

Module Comment.
Record t : Type := mk {
  id : string;
  comment : string;
  authorId : string;               (* author.id *)
  authorName : string;             (* author.name *)
  authorRole : string;             (* author.role *)
  pinned_to_top : bool;
  tagged_for_changelog : bool;
  parent_id : option string;
  created_at : option Z;
  updated_at : option Z;
  url : string
}.
End Comment.

(** [FeatureRequest extends PostSummary] *)
Module FeatureRequest.
Record t : Type := mk {
  post : PostSummary.t;
  comments : list Comment.t;
  portal : string
}.
End FeatureRequest.

Module PortalConfig.
Record t : Type := mk {
  name : string;
  baseUrl : string;
  apiKey : string
}.
End PortalConfig.

(** [filterRecent]: [cutoff] is the time [setDate] computes, [sinceDaysAgo]
    calendar days before the clock reading, in epoch milliseconds. *)
Definition filterRecent (cutoff : Z) (posts : list PostSummary.t)
  : list PostSummary.t :=
  List.filter (fun p => (cutoff <=? PostSummary.created_at p)%Z) posts.

(** The comparator [(a, b) => (b.votes_count ?? 0) - (a.votes_count ?? 0)]
    is negative. *)
Definition byVotesDesc (a b : PostSummary.t) : bool :=
  (default 0 (PostSummary.votes_count b) - default 0 (PostSummary.votes_count a)
   <? 0)%Z.

Definition sortByVotes (posts : list PostSummary.t) (limit : Z)
  : list PostSummary.t :=
  slice0 limit (Sort.sort byVotesDesc posts).

(** *** Fetching the posts

    What a call ends with: a value, an exception, or no end within the
    steps allowed. *)
Inductive Outcome (A : Type) : Type :=
  | Returns (a : A)
  | Throws
  | Runs.
Arguments Returns {A} a.
Arguments Throws {A}.
Arguments Runs {A}.

Section Fetch.
(** [getPage skip] is the answer to the request for the posts from [skip]
    on: its [data] and [hasMore]; [None] is a request that throws. *)
Variable getPage : nat -> option (list PostSummary.t * bool).
(** The loop of [fetchPosts]; [fuel] bounds the number of requests. *)
Fixpoint fetchPostsLoop (fuel : nat) (skip : nat) (allPosts : list PostSummary.t)
  : Outcome (list PostSummary.t) :=
  match fuel with
  | 0 => Runs
  | S fuel' =>
      match getPage skip with
      | None => Throws
      | Some (data, hasMore) =>
          let allPosts := allPosts ++ data in
          if negb hasMore || (length data =? 0) then Returns allPosts
          else fetchPostsLoop fuel' (skip + length data) allPosts
      end
  end.

Definition fetchPosts (fuel : nat) : Outcome (list PostSummary.t) :=
  fetchPostsLoop fuel 0 [].
End Fetch.

(** *** The portals of the environment *)

Module Env.
Record t : Type := mk {
  PRODUCTLIFT_PORTALS : option string;
  PRODUCTLIFT_PORTAL_URL : option string;
  PRODUCTLIFT_API_KEY : option string;
  PRODUCTLIFT_PORTAL_NAME : option string
}.
End Env.

(** [baseUrl.replace(/\/$/, EMPTY)]: the pattern matches a slash at the end of
    the string, and nothing else. *)
Definition stripSlash (baseUrl : list ascii) : list ascii :=
  match rev baseUrl with
  | c :: r => if Ascii.eqb c "/" then rev r else baseUrl
  | [] => baseUrl
  end.

(** The message of the exception for an entry. *)
Definition invalidEntry (entry : list ascii) : string :=
  "Invalid PRODUCTLIFT_PORTALS format. Expected "
  +:+ String dquote ("name|url|key" +:+ String dquote
        (" per entry, got: " +:+ string_of_list_ascii entry)).

(** The callback of [portals.split(",").map]: a configuration, or the
    message of the exception it throws. *)
Definition parseEntry (entry : list ascii) : string + PortalConfig.t :=
  let parts := splitOn "|" (trim entry) in
  let name := nth 0 parts [] in
  let baseUrl := nth_error parts 1 in
  let apiKey := joinWith ["|"%char] (skipn 2 parts) in
  match name, baseUrl, apiKey with
  | _ :: _, Some ((_ :: _) as baseUrl), _ :: _ =>
      inr (PortalConfig.mk (string_of_list_ascii name)
             (string_of_list_ascii (stripSlash baseUrl))
             (string_of_list_ascii apiKey))
  | _, _, _ => inl (invalidEntry entry)
  end.

(** [Array.prototype.map] with a callback that can throw: the first
    exception ends it. *)
Fixpoint mapEntries (entries : list (list ascii))
  : string + list PortalConfig.t :=
  match entries with
  | [] => inr []
  | entry :: rest =>
      match parseEntry entry with
      | inl message => inl message
      | inr config =>
          match mapEntries rest with
          | inl message => inl message
          | inr configs => inr (config :: configs)
          end
      end
  end.

Definition parsePortalConfigs (env : Env.t) : string + list PortalConfig.t :=
  match Env.PRODUCTLIFT_PORTALS env with
  | Some ((String _ _) as portals) =>
      mapEntries (splitOn "," (list_ascii_of_string portals))
  | _ =>
      (* fall back to the single portal *)
      let name := default "default"%string (Env.PRODUCTLIFT_PORTAL_NAME env) in
      match Env.PRODUCTLIFT_PORTAL_URL env, Env.PRODUCTLIFT_API_KEY env with
      | Some ((String _ _) as url), Some ((String _ _) as key) =>
          inr [PortalConfig.mk name
                 (string_of_list_ascii (stripSlash (list_ascii_of_string url)))
                 key]
      | _, _ => inr []
      end
  end.

End ProductLift.

(** ** Definitions used to state properties of productlift.ts *)

Module ProductLiftProps.
Import Chars JsString ProductLift.

Definition postVotes (p : PostSummary.t) : Z :=
  default 0%Z (PostSummary.votes_count p).

(** More votes first. *)
Definition votesDesc (a b : PostSummary.t) : Prop :=
  (postVotes b <= postVotes a)%Z.

(** A server that pages the list [all], [pageSize] posts at a time, and
    announces more with [more]. *)
Definition pagedServer (all : list PostSummary.t) (pageSize : nat)
    (more : nat -> bool) (skip : nat) : option (list PostSummary.t * bool) :=
  Some (firstn pageSize (skipn skip all), more skip).

(** The text has no [c]. *)
Definition lacks (c : ascii) (s : list ascii) : Prop := ~ In c s.

(** An entry of [PRODUCTLIFT_PORTALS], as the documentation writes it. *)
Definition renderEntry (config : PortalConfig.t) : list ascii :=
  list_ascii_of_string (PortalConfig.name config)
  ++ "|"%char :: list_ascii_of_string (PortalConfig.baseUrl config)
  ++ "|"%char :: list_ascii_of_string (PortalConfig.apiKey config).

Definition renderPortals (configs : list PortalConfig.t) : string :=
  string_of_list_ascii (joinWith [","%char] (map renderEntry configs)).

(** A configuration that its entry determines: a name and a URL without
    separators, a key without comma, no white space at the two ends of the
    entry, and no slash at the end of the URL. *)
Definition wellFormed (config : PortalConfig.t) : Prop :=
  let name := list_ascii_of_string (PortalConfig.name config) in
  let baseUrl := list_ascii_of_string (PortalConfig.baseUrl config) in
  let apiKey := list_ascii_of_string (PortalConfig.apiKey config) in
  (exists c rest, name = c :: rest /\ isSpace c = false)
  /\ lacks "|" name /\ lacks "," name
  /\ (exists c front, baseUrl = front ++ [c] /\ c <> "/"%char)
  /\ lacks "|" baseUrl /\ lacks "," baseUrl
  /\ (exists c front, apiKey = front ++ [c] /\ isSpace c = false)
  /\ lacks "," apiKey.

(** What an entry says: name, URL and key between the first two bars. *)
Definition decodes (entry : list ascii) (config : PortalConfig.t) : Prop :=
  exists name rawUrl apiKey,
    trim entry = name ++ "|"%char :: rawUrl ++ "|"%char :: apiKey
    /\ lacks "|" name /\ lacks "|" rawUrl
    /\ name <> [] /\ rawUrl <> [] /\ apiKey <> []
    /\ config = PortalConfig.mk (string_of_list_ascii name)
                  (string_of_list_ascii (stripSlash rawUrl))
                  (string_of_list_ascii apiKey).

Definition envOf (portals : string) : Env.t :=
  Env.mk (Some portals) None None None.

(** *** Examples *)

Definition examplePost (id : string) (votes : option Z) (created : Z)
  : PostSummary.t :=
  {| PostSummary.id := id; PostSummary.title := "Dark mode";
     PostSummary.description := "please"; PostSummary.status := None;
     PostSummary.category := None; PostSummary.votes_count := votes;
     PostSummary.comments_count := None; PostSummary.created_at := created;
     PostSummary.updated_at := created; PostSummary.url := None |}.

Definition examplePosts : list PostSummary.t :=
  [ examplePost "a" (Some 3%Z) 10; examplePost "b" None 20;
    examplePost "c" (Some 7%Z) 30; examplePost "d" (Some 3%Z) 40 ].

Definition examplePortals : list PortalConfig.t :=
  [ PortalConfig.mk "tidycal" "https://roadmap.tidycal.com" "key|with|bars";
    PortalConfig.mk "breezedoc" "https://roadmap.breezedoc.com" "k2" ].

End ProductLiftProps.

(** ** index.ts *)

Module Server.
Import Chars Regex JsString Pii HelpScout.

(** *** Formatting

    [piiCategoriesLog] is a variable of the module: the functions that add
    to it take it and return it. *)

(** [for (const cat of cats) piiCategoriesLog.add(cat)] *)
Definition logAll (cats : list string) (piiCategoriesLog : list string)
  : list string :=
  fold_left (fun log cat => setAdd cat log) cats piiCategoriesLog.

Definition formatConversation (conv : Conversation.t)
    (piiCategoriesLog : list string)
  : FormattedConversation.t * list string :=
  let summary := Conversation.summary conv in
  let rawMessages :=
    if 0 <? length (Conversation.threads conv)
    then extractCustomerMessages conv
    else List.filter truthy
           (match ConversationSummary.preview summary with
            | Some preview => [preview]
            | None => []
            end) in
  let scrubbed := PiiArray.scrubPiiArray rawMessages in
  let subjectScrub :=
    scrubPii (default EmptyString (ConversationSummary.subject summary)) in
  let previewScrub :=
    scrubPii (default EmptyString (ConversationSummary.preview summary)) in
  let piiCategoriesLog :=
    logAll (PiiArray.piiCategoriesFound scrubbed
            ++ piiCategoriesFound subjectScrub
            ++ piiCategoriesFound previewScrub) piiCategoriesLog in
  ({| FormattedConversation.id := ConversationSummary.id summary;
      FormattedConversation.number := ConversationSummary.number summary;
      FormattedConversation.subject := text subjectScrub;
      FormattedConversation.status := ConversationSummary.status summary;
      FormattedConversation.createdAt := ConversationSummary.createdAt summary;
      FormattedConversation.closedAt := ConversationSummary.closedAt summary;
      FormattedConversation.customerEmail := "[REDACTED]";
      FormattedConversation.tags :=
        default [] (map Tag.tag <$> ConversationSummary.tags summary);
      FormattedConversation.preview := text previewScrub;
      FormattedConversation.customerMessages := PiiArray.texts scrubbed;
      FormattedConversation.threadCount :=
        Z.of_nat (length (Conversation.threads conv)) |},
   piiCategoriesLog).

(** The callback of [req.comments.map]. *)
Definition formatComment (st : list Comment.t * list string)
    (c : ProductLift.Comment.t) : list Comment.t * list string :=
  let '(comments, piiCategoriesLog) := st in
  let commentScrub := scrubPii (ProductLift.Comment.comment c) in
  (comments
   ++ [ {| Comment.author := ProductLift.Comment.authorName c;
           Comment.role := ProductLift.Comment.authorRole c;
           Comment.comment := text commentScrub;
           Comment.created_at := ProductLift.Comment.created_at c |} ],
   logAll (piiCategoriesFound commentScrub) piiCategoriesLog).

Definition formatFeatureRequest (req : ProductLift.FeatureRequest.t)
    (piiCategoriesLog : list string)
  : FormattedFeatureRequest.t * list string :=
  let post := ProductLift.FeatureRequest.post req in
  let titleScrub := scrubPii (ProductLift.PostSummary.title post) in
  let descScrub := scrubPii (ProductLift.PostSummary.description post) in
  let piiCategoriesLog :=
    logAll (piiCategoriesFound titleScrub ++ piiCategoriesFound descScrub)
      piiCategoriesLog in
  let '(comments, piiCategoriesLog) :=
    fold_left formatComment (ProductLift.FeatureRequest.comments req)
      ([], piiCategoriesLog) in
  ({| FormattedFeatureRequest.id := ProductLift.PostSummary.id post;
      FormattedFeatureRequest.title := text titleScrub;
      FormattedFeatureRequest.description := text descScrub;
      FormattedFeatureRequest.status :=
        ProductLift.Status.name <$> ProductLift.PostSummary.status post;
      FormattedFeatureRequest.category :=
        ProductLift.Status.name <$> ProductLift.PostSummary.category post;
      FormattedFeatureRequest.votes_count :=
        default 0%Z (ProductLift.PostSummary.votes_count post);
      FormattedFeatureRequest.comments_count :=
        default 0%Z (ProductLift.PostSummary.comments_count post);
      FormattedFeatureRequest.portal := ProductLift.FeatureRequest.portal req;
      FormattedFeatureRequest.created_at := ProductLift.PostSummary.created_at post;
      FormattedFeatureRequest.updated_at := ProductLift.PostSummary.updated_at post;
      FormattedFeatureRequest.comments := comments |},
   piiCategoriesLog).

(** [[...recent, ...topVoted].filter(...)] with its [seenIds] set. *)
Fixpoint dedupe (seenIds : gset string) (posts : list ProductLift.PostSummary.t)
  : list ProductLift.PostSummary.t :=
  match posts with
  | [] => []
  | p :: rest =>
      if bool_decide (ProductLift.PostSummary.id p ∈ seenIds) then dedupe seenIds rest
      else p :: dedupe ({[ProductLift.PostSummary.id p]} ∪ seenIds) rest
  end.

(** The posts of one portal that [fetchProductLift] keeps; [cutoff] is the
    time [filterRecent] computes from [timeframe_days]. *)
Definition combined (cutoff : Z) (top_voted_limit : Z)
    (posts : list ProductLift.PostSummary.t) : list ProductLift.PostSummary.t :=
  let recent := ProductLift.filterRecent cutoff posts in
  let topVoted := ProductLift.sortByVotes posts top_voted_limit in
  dedupe ∅ (recent ++ topVoted).

(** *** The key of the response cache *)

Module FetchParams.
Record t : Type := mk {
  timeframe_days : Z;
  top_voted_limit : Z;
  mailbox_id : option string;
  portal_name : option string
}.
End FetchParams.

(** The two numbers are integers (the input schema says so), which a
    template literal writes in decimal. *)
Definition cacheKey (params : FetchParams.t) : string :=
  pretty (FetchParams.timeframe_days params) +:+ "|"
  +:+ default EmptyString (FetchParams.mailbox_id params) +:+ "|"
  +:+ default EmptyString (FetchParams.portal_name params) +:+ "|"
  +:+ pretty (FetchParams.top_voted_limit params).

(** *** Agent response detection *)

(** The patterns of [AGENT_RESPONSE_PATTERNS]: literal text, sequence,
    alternation, [.*] and an optional group, all under the [i] flag. *)
Inductive pat : Type :=
  | Txt (w : string)
  | Seq (a b : pat)
  | Alt (a b : pat)
  | AnyStar
  | Maybe (a : pat).

(** [(w|w1|...)] *)
Fixpoint oneOf (w : string) (ws : list string) : pat :=
  match ws with
  | [] => Txt w
  | w' :: ws' => Alt (Txt w) (oneOf w' ws')
  end.

(** The characters [.] does not match. *)
Definition isLineTerminator (c : ascii) : bool :=
  (code c =? 10) || (code c =? 13).

(** Literal text at the start of the input: the input left after it. *)
Fixpoint literalI (w : list ascii) (s : list ascii) : option (list ascii) :=
  match w with
  | [] => Some s
  | k :: w' =>
      match s with
      | c :: s' => if Analyzer.sameLetter k c then literalI w' s' else None
      | [] => None
      end
  end.

(** [.*], the longest run first. *)
Fixpoint anyStar (k : list ascii -> bool) (s : list ascii) : bool :=
  match s with
  | c :: s' => if isLineTerminator c then k s else anyStar k s' || k s
  | [] => k []
  end.

(** Is there a match of [p] at the start of [s] after which [k] accepts
    the input left? *)
Fixpoint pmatch (p : pat) (s : list ascii) (k : list ascii -> bool) : bool :=
  match p with
  | Txt w =>
      match literalI (list_ascii_of_string w) s with
      | Some rest => k rest
      | None => false
      end
  | Seq a b => pmatch a s (fun s' => pmatch b s' k)
  | Alt a b => pmatch a s k || pmatch b s k
  | AnyStar => anyStar k s
  | Maybe a => pmatch a s k || k s
  end.

(** [pattern.test(text)] *)
Fixpoint ptest (p : pat) (s : list ascii) : bool :=
  pmatch p s (fun _ => true)
  || match s with
     | _ :: s' => ptest p s'
     | [] => false
     end.

Definition AGENT_RESPONSE_PATTERNS : list pat :=
  [ Txt "happy to help";
    Txt "hope this helps";
    Txt "let me know if";
    Txt "don't hesitate";
    Txt "do not hesitate";
    Txt "feel free to";
    Txt "is there anything else";
    Seq (Txt "glad ") (oneOf "to " ["you "; "we "]%string);
    Seq (Txt "pleasure ") (oneOf "to " ["helping"%string]);
    Seq (oneOf "best" ["warm"; "kind"]%string) (Txt " regards");
    Txt "i apologize for";
    Txt "we apologize for";
    Txt "sorry for the inconvenience";
    Seq (Txt "thank you for ")
      (oneOf "reaching" ["contacting"; "writing"; "your patience"]%string);
    Seq (Txt "thanks for ")
      (oneOf "reaching" ["contacting"; "writing"; "your patience"]%string);
    Seq (Txt "thanks ") (Seq (Maybe (Txt "so much ")) (Txt "for checking in"));
    Txt "bringing this to our attention";
    Seq (Txt "i've ")
      (oneOf "checked"
         ["looked into"; "forwarded"; "sent"; "updated"; "resolved"; "fixed";
          "escalated"]%string);
    Seq (Txt "we've ")
      (oneOf "identified"
         ["checked"; "looked"; "resolved"; "fixed"; "addressed"; "updated";
          "escalated"]%string);
    Seq (Txt "has been ")
      (oneOf "resolved" ["fixed"; "addressed"; "updated"; "escalated"]%string);
    Txt "this has been flagged";
    Seq (Txt "our ")
      (oneOf "team" ["support"; "engineering"; "developers"]%string);
    Txt "i can help with that";
    Txt "ai-generated draft";
    Seq (Txt "your request ")
      (Seq AnyStar
         (Seq (Txt " could") (Seq (oneOf "n't" [" not"%string]) (Txt " be created"))));
    Txt "powered by";
    Txt "hey sumo-ling";
    Seq (Txt "we're aiming to ") (Seq AnyStar (Txt " get back to you"));
    Txt "before i proceed" ].

Definition isLikelyAgentResponse (text : string) : bool :=
  if negb (truthy text) || (String.length text =? 0) then true
  else existsb (fun pattern => ptest pattern (list_ascii_of_string text))
         AGENT_RESPONSE_PATTERNS.

(** *** Quote extraction *)

(** [msg.length > 200 ? msg.slice(0, 197) + "..." : msg] *)
Definition truncated (msg : string) : string :=
  if 200 <? String.length msg
  then string_of_list_ascii (firstn 197 (list_ascii_of_string msg)) +:+ "..."
  else msg.

Definition quoted (s : string) : string :=
  String dquote (s +:+ String dquote EmptyString).

Definition supportQuote (s : string) : string := "[Support ticket] " +:+ quoted s.

Definition requestQuote (votes_count : Z) (s : string) : string :=
  "[Feature request, " +:+ pretty votes_count +:+ " votes] " +:+ quoted s.

(** The body of the loop for one data point: the quote it pushes, if
    any. *)
Definition quoteFor (dp : PointRef.t)
    (conversationMap : gmap string FormattedConversation.t)
    (featureRequestMap : gmap string FormattedFeatureRequest.t)
  : option string :=
  match PointRef.source dp with
  | REACTIVE =>
      match conversationMap !! PointRef.id dp with
      | None => None
      | Some conv =>
          let msg :=
            default EmptyString (head (FormattedConversation.customerMessages conv)) in
          if truthy msg && negb (isLikelyAgentResponse msg)
          then Some (supportQuote (truncated msg))
          else if truthy (FormattedConversation.subject conv)
                  && negb (isLikelyAgentResponse (FormattedConversation.subject conv))
          then Some (supportQuote (FormattedConversation.subject conv))
          else None
      end
  | PROACTIVE =>
      match featureRequestMap !! PointRef.id dp with
      | None => None
      | Some req =>
          let votes := FormattedFeatureRequest.votes_count req in
          match List.find
                  (fun c => negb (String.eqb (Comment.role c) "admin"))
                  (FormattedFeatureRequest.comments req) with
          | Some customerComment =>
              if negb (isLikelyAgentResponse (Comment.comment customerComment))
              then Some (requestQuote votes
                           (truncated (Comment.comment customerComment)))
              else Some (requestQuote votes (FormattedFeatureRequest.title req))
          | None => Some (requestQuote votes (FormattedFeatureRequest.title req))
          end
      end
  end.

(** The loop over the data points of a theme, with its [break]. *)
Fixpoint quotesLoop (themeDataPoints : list PointRef.t)
    (conversationMap : gmap string FormattedConversation.t)
    (featureRequestMap : gmap string FormattedFeatureRequest.t)
    (maxQuotes : Z) (quotes : list string) : list string :=
  match themeDataPoints with
  | [] => quotes
  | dp :: rest =>
      if (maxQuotes <=? Z.of_nat (length quotes))%Z then quotes
      else
        let quotes :=
          match quoteFor dp conversationMap featureRequestMap with
          | Some quote => quotes ++ [quote]
          | None => quotes
          end in
        quotesLoop rest conversationMap featureRequestMap maxQuotes quotes
  end.

Definition extractQuotesForTheme (themeDataPoints : list PointRef.t)
    (conversationMap : gmap string FormattedConversation.t)
    (featureRequestMap : gmap string FormattedFeatureRequest.t)
    (maxQuotes : Z) : list string :=
  let quotes :=
    quotesLoop themeDataPoints conversationMap featureRequestMap maxQuotes [] in
  if length quotes =? 0 then ["No direct customer quote available"%string]
  else quotes.

(** The lookup maps: [for (const conv of conversations)
    conversationMap.set(`hs-${conv.id}`, conv)], and the same for the
    feature requests. *)
Definition conversationMapOf (conversations : list FormattedConversation.t)
  : gmap string FormattedConversation.t :=
  fold_left
    (fun m conv => <["hs-" +:+ pretty (FormattedConversation.id conv) := conv]> m)
    conversations ∅.

Definition featureRequestMapOf (featureRequests : list FormattedFeatureRequest.t)
  : gmap string FormattedFeatureRequest.t :=
  fold_left
    (fun m req => <["pl-" +:+ FormattedFeatureRequest.id req := req]> m)
    featureRequests ∅.

End Server.

(** ** Definitions used to state properties of index.ts *)

Module ServerProps.
Import Chars Regex JsString Pii HelpScout Server.

(** The messages [formatConversation] scrubs. *)
Definition rawMessagesOf (conv : Conversation.t) : list string :=
  if 0 <? length (Conversation.threads conv)
  then extractCustomerMessages conv
  else List.filter truthy
         (match ConversationSummary.preview (Conversation.summary conv) with
          | Some preview => [preview]
          | None => []
          end).

(** The texts of a conversation that [formatConversation] scrubs, and
    those of a feature request that [formatFeatureRequest] scrubs. *)
Definition conversationTexts (conv : Conversation.t) : list string :=
  rawMessagesOf conv
  ++ [ default EmptyString (ConversationSummary.subject (Conversation.summary conv));
       default EmptyString (ConversationSummary.preview (Conversation.summary conv)) ].

Definition featureRequestTexts (req : ProductLift.FeatureRequest.t) : list string :=
  [ ProductLift.PostSummary.title (ProductLift.FeatureRequest.post req);
    ProductLift.PostSummary.description (ProductLift.FeatureRequest.post req) ]
  ++ map ProductLift.Comment.comment (ProductLift.FeatureRequest.comments req).

(** A category [scrubPii] finds in one of the texts. *)
Definition foundIn (texts : list string) (cat : string) : Prop :=
  exists t, In t texts /\ In cat (piiCategoriesFound (scrubPii t)).

(** The parameters as the key reads them: an absent mailbox or portal is
    the empty string. *)
Definition mailboxOf (params : FetchParams.t) : string :=
  default EmptyString (FetchParams.mailbox_id params).

Definition portalOf (params : FetchParams.t) : string :=
  default EmptyString (FetchParams.portal_name params).

(** The text has no bar. *)
Definition barFree (s : string) : Prop := ~ In "|"%char (list_ascii_of_string s).

(** The fallback of [extractQuotesForTheme]. *)
Definition noQuote : string := "No direct customer quote available".

(** *** Examples *)

Definition exampleConversation : Conversation.t :=
  Conversation.mk (HelpScoutProps.exampleSummary 101) [].

Definition paramsA : FetchParams.t :=
  FetchParams.mk 30 50 (Some "a|b"%string) None.

Definition paramsB : FetchParams.t :=
  FetchParams.mk 30 50 (Some "a"%string) (Some "b|"%string).

End ServerProps.

(** ** Numbers

    A JavaScript number is an IEEE 754 binary64 value.  [spec_float] is the
    Standard Library's specification of these values and of their
    arithmetic, rounding to nearest, ties to even; NaN is one value, as it
    is for a JavaScript program. *)

Module Double.
Local Open Scope Z_scope.

Definition double : Type := spec_float.

Definition prec : Z := 53.
Definition emax : Z := 1024.

Definition NaN : double := S754_nan.

Definition add : double -> double -> double := SFadd prec emax.
Definition sub : double -> double -> double := SFsub prec emax.
Definition mul : double -> double -> double := SFmul prec emax.
Definition div : double -> double -> double := SFdiv prec emax.
Definition opp : double -> double := SFopp.

Definition ltb : double -> double -> bool := SFltb.
Definition leb : double -> double -> bool := SFleb.

(** The number an integer literal or an integer count denotes: the nearest
    double. *)
Definition ofZ (z : Z) : double := binary_normalize prec emax z 0 false.
Definition ofNat (n : nat) : double := ofZ (Z.of_nat n).

(** The number a decimal literal denotes: [decimal 35 2] is [0.35], the
    double nearest to 35/100. *)
Definition decimal (digits places : Z) : double :=
  div (ofZ digits) (ofZ (10 ^ places)).

Definition isNaN (x : double) : bool :=
  match x with S754_nan => true | _ => false end.

Definition isZero (x : double) : bool :=
  match x with S754_zero _ => true | _ => false end.

(** [if (x)] on a number: false for [+0], [-0] and NaN. *)
Definition truthy (x : double) : bool := negb (isZero x || isNaN x).

(** [Math.max(...xs)]: NaN if a value is NaN, otherwise the largest, from
    [-Infinity]; [+0] counts as larger than [-0]. *)
Fixpoint maxLoop (highest : double) (xs : list double) : double :=
  match xs with
  | [] => highest
  | number :: rest =>
      if isNaN number then NaN
      else
        match number, highest with
        | S754_zero false, S754_zero true => maxLoop number rest
        | _, _ =>
            if ltb highest number then maxLoop number rest
            else maxLoop highest rest
        end
  end.

Definition Math_max (xs : list double) : double :=
  maxLoop (S754_infinity true) xs.

(** [Math.min(...xs)], from [+Infinity]; [-0] counts as smaller than
    [+0]. *)
Fixpoint minLoop (lowest : double) (xs : list double) : double :=
  match xs with
  | [] => lowest
  | number :: rest =>
      if isNaN number then NaN
      else
        match number, lowest with
        | S754_zero true, S754_zero false => minLoop number rest
        | _, _ =>
            if ltb number lowest then minLoop number rest
            else minLoop lowest rest
        end
  end.

Definition Math_min (xs : list double) : double :=
  minLoop (S754_infinity false) xs.

(** [Math.round(x)]: [x] itself when it is NaN, infinite or a zero;
    otherwise the integer nearest to [x], the larger one in a tie, with the
    sign of [x] when that integer is 0.  An integral [x] is its own nearest
    integer. *)
Definition Math_round (x : double) : double :=
  match x with
  | S754_finite s m e =>
      let n :=
        if 0 <=? e then cond_Zopp s (Zpos m * 2 ^ e)
        else (2 * cond_Zopp s (Zpos m) + 2 ^ (- e)) / (2 * 2 ^ (- e)) in
      binary_normalize prec emax n 0 s
  | _ => x
  end.

End Double.

(** ** Definitions used to state properties of the numbers *)

Module DoubleProps.
Import Double.
Local Open Scope Z_scope.

(** A double, as opposed to a term of [spec_float] whose mantissa is too
    long or too short for its exponent. *)
Definition isDouble (x : double) : Prop := valid_binary prec emax x = true.

(** What rounding gives: a zero, an infinity or a double, of the sign
    asked for. *)
Definition rounded (s : bool) (x : double) : Prop :=
  x = S754_zero s \/ x = S754_infinity s
  \/ exists m e, x = S754_finite s m e /\ bounded prec emax m e = true.

Definition one : double := S754_finite false 4503599627370496 (-52).

(** The sign of a number, as a comparator's result is read. *)
Definition isNegative (x : double) : Prop :=
  x = S754_infinity true \/ exists m e, x = S754_finite true m e.

Definition isPositive (x : double) : Prop :=
  x = S754_infinity false \/ exists m e, x = S754_finite false m e.

(** The place of a number in the order of the numbers: the class and
    sign first, then the exponent, then the mantissa, the last two counted
    downwards for a negative number.  NaN has no place. *)
Definition rank (x : double) : option (Z * Z * Z) :=
  match x with
  | S754_nan => None
  | S754_infinity true => Some (-2, 0, 0)
  | S754_finite true m e => Some (-1, - e, - Zpos m)
  | S754_zero _ => Some (0, 0, 0)
  | S754_finite false m e => Some (1, e, Zpos m)
  | S754_infinity false => Some (2, 0, 0)
  end.

Definition lex3 (a b : Z * Z * Z) : comparison :=
  let '(a1, a2, a3) := a in
  let '(b1, b2, b3) := b in
  match a1 ?= b1 with
  | Eq => match a2 ?= b2 with Eq => a3 ?= b3 | c => c end
  | c => c
  end.

End DoubleProps.

(** ** feedback-analyzer.ts: the scores, in double arithmetic

    The scores as the program computes them: every arithmetic operation of
    the source is the operation on doubles, in the order the source
    evaluates it.  [Math.exp], which ECMAScript leaves to the engine
    except at the special values, is an input, like the clock. *)

Module ThemeMatch64.
Record t : Type := mk {
  theme_id : string;
  label : string;
  category : string;
  reactive_count : nat;
  proactive_count : nat;
  convergent : bool;
  frequency_score : Double.double;
  severity_score : Double.double;
  vote_momentum_score : Double.double;
  priority_score : Double.double;
  data_points : list PointRef.t
}.
End ThemeMatch64.

Module AnalysisResult64.
Record t : Type := mk {
  config_version : Z;
  known_themes_count : nat;
  total_data_points : nat;
  reactive_count : nat;
  proactive_count : nat;
  themes : list ThemeMatch64.t;
  emerging_themes : list EmergingTheme.t;
  unmatched_count : nat
}.
End AnalysisResult64.

Module Analyzer64.
Import Double.

(** What [SEVERITY_TAG_BOOST[key]] evaluates to when it is not
    [undefined]: the number under one of the object's own keys, or a
    member that the object inherits from [Object.prototype]. *)
Inductive TableEntry : Type :=
| Boost (boost : Z)
| Inherited.

Definition OBJECT_PROTOTYPE_KEYS : list string :=
  [ "constructor"; "__defineGetter__"; "__defineSetter__"; "hasOwnProperty";
    "__lookupGetter__"; "__lookupSetter__"; "isPrototypeOf";
    "propertyIsEnumerable"; "toString"; "valueOf"; "__proto__";
    "toLocaleString" ]%string.

Definition tableEntry (key : string) : option TableEntry :=
  match Analyzer.SEVERITY_TAG_BOOST !! key with
  | Some boost => Some (Boost boost)
  | None =>
      if existsb (String.eqb key) OBJECT_PROTOTYPE_KEYS then Some Inherited
      else None
  end.

(** The loop over the tags of a point, with its [break].  An inherited
    member is a function or an object, which is truthy: [pointScore +=
    boost] then makes [pointScore] a string that is no numeral,
    [totalScore += pointScore] makes [totalScore] such a string, and the
    division that ends [computeSeverityScore] turns it into NaN.  The
    score is NaN here from the start; the additions that follow keep
    it. *)
Fixpoint tagBoostLoop (tags : list string) (pointScore : double) : double :=
  match tags with
  | [] => pointScore
  | tag :: rest =>
      match tableEntry (Analyzer.toLowerCase tag) with
      | Some (Boost boost) =>
          if truthy (ofZ boost) then add pointScore (ofZ boost)   (* break *)
          else tagBoostLoop rest pointScore
      | Some Inherited => NaN                                     (* break *)
      | None => tagBoostLoop rest pointScore
      end
  end.

Section Scoring.
(** The engine's [Math.exp]. *)
Variable Math_exp : double -> double.

(** The body of the loop over the reactive points: the score of one point;
    [now] is [Date.now()]. *)
Definition pointScore (now : Z) (p : DataPoint.t) : double :=
  let pointScore := ofZ 0 in
  let threads := default 1%Z (Metadata.thread_count (DataPoint.metadata p)) in
  let pointScore :=
    add pointScore (Math_min [mul (ofZ threads) (ofZ 10); ofZ 50]) in
  let ageMs := sub (ofZ now) (ofZ (DataPoint.created_at p)) in
  let ageDays :=
    div ageMs (mul (mul (mul (ofZ 1000) (ofZ 60)) (ofZ 60)) (ofZ 24)) in
  let recencyBoost := mul (ofZ 30) (Math_exp (div (opp ageDays) (ofZ 7))) in
  let pointScore := add pointScore recencyBoost in
  tagBoostLoop (default [] (Metadata.tags (DataPoint.metadata p))) pointScore.

Definition computeSeverityScore (now : Z) (points : list DataPoint.t)
  : double :=
  let reactive := List.filter Analyzer.isReactive points in
  if length reactive =? 0 then ofZ 0
  else
    let totalScore :=
      fold_left (fun totalScore p => add totalScore (pointScore now p))
        reactive (ofZ 0) in
    Math_min [div totalScore (ofNat (length reactive)); ofZ 100].
End Scoring.

Definition computeVoteMomentum (points : list DataPoint.t) : double :=
  let proactive := List.filter Analyzer.isProactive points in
  if length proactive =? 0 then ofZ 0
  else
    let '(totalVotes, totalComments) :=
      fold_left
        (fun '(totalVotes, totalComments) p =>
           (add totalVotes
              (ofZ (default 0%Z (Metadata.votes (DataPoint.metadata p)))),
            add totalComments
              (ofZ (default 0%Z
                      (Metadata.comments_count (DataPoint.metadata p))))))
        proactive (ofZ 0, ofZ 0) in
    add (mul totalVotes (decimal 8 1)) (mul totalComments (decimal 2 1)).

(** [Math.round(n * 100) / 100] *)
Definition round2 (n : double) : double :=
  div (Math_round (mul n (ofZ 100))) (ofZ 100).

Section Build.
Variable Math_exp : double -> double.
(** [clock i] is the value of [Date.now()] in the call of
    [computeSeverityScore] for the theme of index [i]. *)
Variable clock : nat -> Z.
Variable themeMatches : gmap string (list DataPoint.t).
Variable frequencyCounts : list nat.
Variable rawVoteMomentums : list double.
Variable maxFrequency : double.
Variable maxVoteMomentum : double.

(** The unrounded scores of the theme of index [i]. *)
Definition frequencyScoreAt (i : nat) : double :=
  mul (div (ofNat (nth i frequencyCounts 0)) maxFrequency) (ofZ 100).

Definition voteMomentumScoreAt (i : nat) : double :=
  mul (div (nth i rawVoteMomentums (ofZ 0)) maxVoteMomentum) (ofZ 100).

Definition themeMatch (i : nat) (theme : ThemeDefinition.t)
    (points : list DataPoint.t) : ThemeMatch64.t :=
  let reactiveCount := length (List.filter Analyzer.isReactive points) in
  let proactiveCount := length (List.filter Analyzer.isProactive points) in
  let convergent := (0 <? reactiveCount) && (0 <? proactiveCount) in
  let frequencyScore := frequencyScoreAt i in
  let severityScore := computeSeverityScore Math_exp (clock i) points in
  let voteMomentumScore := voteMomentumScoreAt i in
  let convergenceBoost := if convergent then ofZ 2 else ofZ 1 in
  let priorityScore :=
    mul (add (add (mul frequencyScore (decimal 35 2))
                (mul severityScore (decimal 35 2)))
           (mul voteMomentumScore (decimal 3 1)))
      convergenceBoost in
  {| ThemeMatch64.theme_id := ThemeDefinition.id theme;
     ThemeMatch64.label := ThemeDefinition.label theme;
     ThemeMatch64.category := ThemeDefinition.category theme;
     ThemeMatch64.reactive_count := reactiveCount;
     ThemeMatch64.proactive_count := proactiveCount;
     ThemeMatch64.convergent := convergent;
     ThemeMatch64.frequency_score := round2 frequencyScore;
     ThemeMatch64.severity_score := round2 severityScore;
     ThemeMatch64.vote_momentum_score := round2 voteMomentumScore;
     ThemeMatch64.priority_score := round2 priorityScore;
     ThemeMatch64.data_points := map Analyzer.pointRef points |}.

(** The loop that builds the results, from index [i] on; a theme without
    points is skipped. *)
Fixpoint buildThemes (i : nat) (themes : list ThemeDefinition.t)
  : list ThemeMatch64.t :=
  match themes with
  | [] => []
  | theme :: rest =>
      let points :=
        Analyzer.getPoints themeMatches (ThemeDefinition.id theme) in
      if length points =? 0 then buildThemes (S i) rest
      else themeMatch i theme points :: buildThemes (S i) rest
  end.
End Build.

(** The comparator [(a, b) => b.priority_score - a.priority_score]. *)
Definition comparator (a b : ThemeMatch64.t) : double :=
  sub (ThemeMatch64.priority_score b) (ThemeMatch64.priority_score a).

(** The comparator is negative: [a] has to come before [b].  A comparator
    that returns NaN counts as one that returns 0. *)
Definition byPriorityDesc (a b : ThemeMatch64.t) : bool :=
  ltb (comparator a b) (ofZ 0).

(** The themes in the order of the configuration, before the final sort. *)
Definition unsortedThemes (Math_exp : double -> double) (clock : nat -> Z)
    (conversations : list FormattedConversation.t)
    (featureRequests : list FormattedFeatureRequest.t)
    (config : ThemesConfig.t) : list ThemeMatch64.t :=
  let dataPoints := Analyzer.allDataPoints conversations featureRequests in
  let themes := ThemesConfig.themes config in
  let themeMatches := fst (Analyzer.matchAll themes dataPoints) in
  let pointsOf theme :=
    Analyzer.getPoints themeMatches (ThemeDefinition.id theme) in
  let frequencyCounts := map (fun theme => length (pointsOf theme)) themes in
  let rawVoteMomentums :=
    map (fun theme => computeVoteMomentum (pointsOf theme)) themes in
  let maxFrequency := Math_max (map ofNat frequencyCounts ++ [ofZ 1]) in
  let maxVoteMomentum := Math_max (rawVoteMomentums ++ [ofZ 1]) in
  buildThemes Math_exp clock themeMatches frequencyCounts rawVoteMomentums
    maxFrequency maxVoteMomentum 0 themes.

(** [analyzeFeedback].  The sort is the stable one of [Sort]; when the
    comparator meets a NaN it orders nothing consistently, and the order
    the engine then leaves is its own affair: what is stated about the
    order of the themes is stated for scores that are numbers, or for a
    list short enough for the engines to agree. *)
Definition analyzeFeedback (Math_exp : double -> double) (clock : nat -> Z)
    (conversations : list FormattedConversation.t)
    (featureRequests : list FormattedFeatureRequest.t)
    (config : ThemesConfig.t) : AnalysisResult64.t :=
  let dataPoints := Analyzer.allDataPoints conversations featureRequests in
  let themes :=
    Sort.sort byPriorityDesc
      (unsortedThemes Math_exp clock conversations featureRequests config) in
  let unmatched :=
    Analyzer.unmatchedPoints conversations featureRequests config in
  let stopWords : gset string := list_to_set (ThemesConfig.stop_words config) in
  let emergingThemes :=
    Analyzer.detectEmergingThemes unmatched stopWords
      (ThemesConfig.emerging_theme_min_frequency config) in
  {| AnalysisResult64.config_version := ThemesConfig.version config;
     AnalysisResult64.known_themes_count := length (ThemesConfig.themes config);
     AnalysisResult64.total_data_points := length dataPoints;
     AnalysisResult64.reactive_count := length conversations;
     AnalysisResult64.proactive_count := length featureRequests;
     AnalysisResult64.themes := themes;
     AnalysisResult64.emerging_themes := emergingThemes;
     AnalysisResult64.unmatched_count := length unmatched |}.

End Analyzer64.

(** ** Definitions used to state the properties of the scores *)

Module Props64.
Import Double DoubleProps Analyzer64.

Definition isFinite (x : double) : bool :=
  match x with S754_finite _ _ _ => true | _ => false end.

Definition isInfinite (x : double) : bool :=
  match x with S754_infinity _ => true | _ => false end.

(** The double of an integer number of hundredths. *)
Definition hundredths (x : double) : Prop :=
  exists (n : Z) (s : bool),
    x = div (binary_normalize prec emax n 0 s) (ofZ 100).

(** *** Severity, in closed form *)

(** The thread-count term of the score of a point. *)
Definition threadTerm (p : DataPoint.t) : double :=
  Math_min [mul (ofZ (Props.threadsOf p)) (ofZ 10); ofZ 50].

Definition ageDays (now : Z) (p : DataPoint.t) : double :=
  div (sub (ofZ now) (ofZ (DataPoint.created_at p)))
    (mul (mul (mul (ofZ 1000) (ofZ 60)) (ofZ 60)) (ofZ 24)).

Definition recencyBoost (Math_exp : double -> double) (now : Z)
    (p : DataPoint.t) : double :=
  mul (ofZ 30) (Math_exp (div (opp (ageDays now p)) (ofZ 7))).

(** What the table holds for a tag, when that is truthy. *)
Definition entryOf (tag : string) : option TableEntry :=
  match tableEntry (Analyzer.toLowerCase tag) with
  | Some (Boost boost) => if truthy (ofZ boost) then Some (Boost boost) else None
  | Some Inherited => Some Inherited
  | None => None
  end.

(** The entry of the first tag, in the order of the tag list, that has
    one. *)
Definition firstEntry (tags : list string) : option TableEntry :=
  match List.find (fun tag => bool_decide (entryOf tag <> None)) tags with
  | Some tag => entryOf tag
  | None => None
  end.

(** The severity contribution of one reactive signal. *)
Definition contribution (Math_exp : double -> double) (now : Z)
    (p : DataPoint.t) : double :=
  let score := add (add (ofZ 0) (threadTerm p)) (recencyBoost Math_exp now p) in
  match firstEntry (Props.tagsOf p) with
  | Some (Boost boost) => add score (ofZ boost)
  | Some Inherited => NaN
  | None => score
  end.

(** The sum of a list of numbers, from the left, as a [+=] loop adds
    them. *)
Definition total (xs : list double) : double := fold_left add xs (ofZ 0).

(** The mean of the contributions of the reactive signals, capped at 100. *)
Definition severityMean (Math_exp : double -> double) (now : Z)
    (points : list DataPoint.t) : double :=
  match List.filter Analyzer.isReactive points with
  | [] => ofZ 0
  | reactive =>
      Math_min [div (total (map (contribution Math_exp now) reactive))
                  (ofNat (length reactive));
                ofZ 100]
  end.



(** *** The analysis, theme by theme *)

Section PerTheme.
Variable Math_exp : double -> double.
Variable clock : nat -> Z.
Variable conversations : list FormattedConversation.t.
Variable featureRequests : list FormattedFeatureRequest.t.
Variable config : ThemesConfig.t.

Definition rawVoteMomentumsOf : list double :=
  map (fun theme =>
         computeVoteMomentum
           (Props.themePoints conversations featureRequests config theme))
    (ThemesConfig.themes config).

Definition maxFrequencyOf : double :=
  Math_max (map ofNat (Props.frequencyCountsOf conversations featureRequests config)
            ++ [ofZ 1]).

Definition maxVoteMomentumOf : double :=
  Math_max (rawVoteMomentumsOf ++ [ofZ 1]).

(** The unrounded component scores of a theme. *)
Definition frequencyScoreOf (theme : ThemeDefinition.t) : double :=
  mul (div (ofNat (length (Props.themePoints conversations featureRequests
                             config theme)))
         maxFrequencyOf)
    (ofZ 100).

Definition voteMomentumScoreOf (theme : ThemeDefinition.t) : double :=
  mul (div (computeVoteMomentum
              (Props.themePoints conversations featureRequests config theme))
         maxVoteMomentumOf)
    (ofZ 100).

Definition severityScoreOf (i : nat) (theme : ThemeDefinition.t) : double :=
  computeSeverityScore Math_exp (clock i)
    (Props.themePoints conversations featureRequests config theme).

(** The weighted sum, before the convergence boost and the rounding. *)
Definition baseScore (i : nat) (theme : ThemeDefinition.t) : double :=
  add (add (mul (frequencyScoreOf theme) (decimal 35 2))
         (mul (severityScoreOf i theme) (decimal 35 2)))
    (mul (voteMomentumScoreOf theme) (decimal 3 1)).

(** The object pushed for the theme of index [i]. *)
Definition themeResult (i : nat) (theme : ThemeDefinition.t) : ThemeMatch64.t :=
  themeMatch Math_exp clock
    (Props.frequencyCountsOf conversations featureRequests config)
    rawVoteMomentumsOf maxFrequencyOf maxVoteMomentumOf i theme
    (Props.themePoints conversations featureRequests config theme).

(** One iteration of the loop that builds the results. *)
Definition resultAt (e : nat * ThemeDefinition.t) : option ThemeMatch64.t :=
  if length (Props.themePoints conversations featureRequests config (snd e)) =? 0
  then None
  else Some (themeResult (fst e) (snd e)).
End PerTheme.




(** *** Examples *)

(** [Math.exp] as the examples read it: they score every ticket at the
    time it was created and so ask for [Math.exp(-0)] only, which
    ECMAScript fixes at 1.  Anywhere else this stand-in answers NaN: a
    score of an example that is a number was computed without it. *)
Definition expAtZero (x : double) : double :=
  match x with
  | S754_zero _ => ofZ 1
  | _ => NaN
  end.

Definition request (id title : string) (votes : Z) : FormattedFeatureRequest.t :=
  {| FormattedFeatureRequest.id := id;
     FormattedFeatureRequest.title := title;
     FormattedFeatureRequest.description := EmptyString;
     FormattedFeatureRequest.status := None;
     FormattedFeatureRequest.category := None;
     FormattedFeatureRequest.votes_count := votes;
     FormattedFeatureRequest.comments_count := 0;
     FormattedFeatureRequest.portal := "tidycal";
     FormattedFeatureRequest.created_at := 0;
     FormattedFeatureRequest.updated_at := 0;
     FormattedFeatureRequest.comments := [] |}.


Definition theme (id keyword : string) : ThemeDefinition.t :=
  {| ThemeDefinition.id := id;
     ThemeDefinition.label := id;
     ThemeDefinition.keywords := [keyword];
     ThemeDefinition.category := "product" |}.

Definition configOf (themes : list ThemeDefinition.t) : ThemesConfig.t :=
  {| ThemesConfig.version := 1;
     ThemesConfig.themes := themes;
     ThemesConfig.stop_words := [];
     ThemesConfig.emerging_theme_min_frequency := 3 |}.

(** A second theme with three signals beside the two of the calendar
    theme of [Props]: the calendar theme has the frequency 2/3. *)
Definition invoiceRequests : list FormattedFeatureRequest.t :=
  [ request "8" "Invoice numbers" 0; request "9" "Invoice footer" 0;
    request "10" "Invoice export" 0 ].

Definition twoThemes : ThemesConfig.t :=
  configOf [Props.calendarTheme; theme "billing" "invoice"].




(** Two feature requests, with 5 votes and 3 comments and with 8 votes. *)
Definition votedRequest (id title : string) (votes comments : Z)
  : FormattedFeatureRequest.t :=
  {| FormattedFeatureRequest.id := id;
     FormattedFeatureRequest.title := title;
     FormattedFeatureRequest.description := EmptyString;
     FormattedFeatureRequest.status := None;
     FormattedFeatureRequest.category := None;
     FormattedFeatureRequest.votes_count := votes;
     FormattedFeatureRequest.comments_count := comments;
     FormattedFeatureRequest.portal := "tidycal";
     FormattedFeatureRequest.created_at := 0;
     FormattedFeatureRequest.updated_at := 0;
     FormattedFeatureRequest.comments := [] |}.


End Props64.

(** * Properties *)

(** ** The matcher *)

Module RegexFacts.
Import Chars Regex Props.

Lemma allChars_complete (c : ascii) : In c allChars.
Proof.
  unfold allChars. rewrite <- (ascii_nat_embedding c).
  apply in_map, in_seq. pose proof (nat_ascii_bounded c). lia.
Qed.

Lemma subclass_spec (p q : ascii -> bool) (c : ascii) :
  subclass p q = true -> p c = true -> q c = true.
Proof.
  unfold subclass. rewrite forallb_forall. intros H Hp.
  specialize (H c (allChars_complete c)). rewrite Hp in H. exact H.
Qed.

Section Avoid.
Variable q : ascii -> bool.

(** The matcher only ever calls its continuation on a suffix of the input:
    a continuation that fails on every [q]-free input makes it fail. *)
Lemma rmatch_cont_fails (r : regex) :
  forall prev s (k : cont),
    free q s ->
    (forall prev' s', free q s' -> k prev' s' = None) ->
    rmatch r prev s k = None.
Proof.
  induction r as [p| |r1 IH1 r2 IH2|lo hi r1 IH1|lo p]; intros prev s k Hs Hk; simpl.
  - destruct s as [|c s']; [reflexivity|].
    destruct (p c); [|reflexivity]. apply Hk. now inversion Hs.
  - destruct (atBoundary prev s); [now apply Hk|reflexivity].
  - apply IH1; [exact Hs|]. intros prev' s' Hs'. now apply IH2.
  - revert lo prev s Hs.
    induction hi as [|more IHm]; intros need prev s Hs; simpl.
    + destruct need; [now apply Hk|reflexivity].
    + rewrite IH1; [|exact Hs|intros; now apply IHm].
      destruct need; [now apply Hk|reflexivity].
  - revert lo prev.
    induction s as [|c s' IHs]; intros need prev; simpl.
    + destruct need; [now apply Hk|reflexivity].
    + inversion Hs; subst.
      destruct (p c).
      * rewrite IHs by assumption. destruct need; [now apply Hk|reflexivity].
      * destruct need; [now apply Hk|reflexivity].
Qed.

(** A pattern that needs a character of class [q] matches nowhere in a
    [q]-free input. *)
Lemma rmatch_needs (r : regex) :
  needs q r = true ->
  forall prev s (k : cont), free q s -> rmatch r prev s k = None.
Proof.
  induction r as [p| |r1 IH1 r2 IH2|lo hi r1 IH1|lo p]; simpl; intros Hn prev s k Hs.
  - destruct s as [|c s']; [reflexivity|].
    destruct (p c) eqn:Hp; [|reflexivity].
    inversion Hs; subst. pose proof (subclass_spec _ _ _ Hn Hp). congruence.
  - discriminate.
  - apply orb_true_iff in Hn. destruct Hn as [Hn|Hn].
    + now apply IH1.
    + apply rmatch_cont_fails; [exact Hs|]. intros. now apply IH2.
  - apply andb_true_iff in Hn. destruct Hn as [Hlo Hn].
    apply Nat.ltb_lt in Hlo. destruct lo as [|lo]; [lia|].
    destruct hi as [|more]; [reflexivity|].
    simpl. now rewrite IH1.
  - apply andb_true_iff in Hn. destruct Hn as [Hlo Hn].
    apply Nat.ltb_lt in Hlo. destruct lo as [|lo]; [lia|].
    destruct s as [|c s']; [reflexivity|]. simpl.
    destruct (p c) eqn:Hp; [|reflexivity].
    inversion Hs; subst. pose proof (subclass_spec _ _ _ Hn Hp). congruence.
Qed.

(** So a global replace leaves such an input as it is, and its replacer is
    never called. *)
Lemma replaceFrom_free (r : regex) (f : list ascii -> list ascii * bool) :
  needs q r = true ->
  forall s prev, free q s -> replaceFrom r f prev s 0 = (s, false).
Proof.
  intros Hn. induction s as [|c s' IH]; intros prev Hs; simpl.
  - unfold matchAt. now rewrite rmatch_needs.
  - unfold matchAt. rewrite rmatch_needs by assumption.
    inversion Hs; subst. now rewrite IH.
Qed.
End Avoid.

(** The step of the global replace at a position where no match is being
    stepped over. *)
Lemma replaceFrom_step (r : regex) (f : list ascii -> list ascii * bool)
    (prev : option ascii) (c : ascii) (s' : list ascii) :
  replaceFrom r f prev (c :: s') 0 =
  match matchAt r prev (c :: s') with
  | Some rest =>
      let m := firstn (length (c :: s') - length rest) (c :: s') in
      let '(out, hit) := f m in
      match m with
      | [] =>
          let '(o, h) := replaceFrom r f (Some c) s' 0 in
          (out ++ c :: o, hit || h)
      | _ :: m' =>
          let '(o, h) := replaceFrom r f (Some c) s' (length m') in
          (out ++ o, hit || h)
      end
  | None =>
      let '(o, h) := replaceFrom r f (Some c) s' 0 in (c :: o, h)
  end.
Proof. reflexivity. Qed.

(** The replacer's flag comes back only if the replacer raised it on one of
    the matches, each of which is a piece of the input. *)
Lemma replaceFrom_hit (r : regex) (f : list ascii -> list ascii * bool) :
  forall s prev skip,
    snd (replaceFrom r f prev s skip) = true ->
    exists pre m post, s = pre ++ m ++ post /\ snd (f m) = true.
Proof.
  induction s as [|c s' IH]; intros prev skip H.
  - simpl in H. destruct skip; [|discriminate].
    destruct (matchAt r prev []); [|discriminate].
    exists [], [], []. now split.
  - assert (Hrec : forall prev' skip',
               snd (replaceFrom r f prev' s' skip') = true ->
               exists pre m post, c :: s' = pre ++ m ++ post /\ snd (f m) = true).
    { intros prev' skip' H'.
      destruct (IH prev' skip' H') as (pre & m & post & -> & Hfm).
      exists (c :: pre), m, post. now split. }
    destruct skip as [|n]; [|exact (Hrec (Some c) n H)].
    rewrite replaceFrom_step in H.
    destruct (matchAt r prev (c :: s')) as [rest|].
    + cbv zeta in H.
      remember (firstn (length (c :: s') - length rest) (c :: s')) as m eqn:Em.
      destruct (f m) as [out hit] eqn:Hf.
      destruct hit.
      { exists [], m, (skipn (length (c :: s') - length rest) (c :: s')).
        split; [|now rewrite Hf].
        rewrite Em. simpl app. now rewrite firstn_skipn. }
      destruct m as [|c0 m'].
      * destruct (replaceFrom r f (Some c) s' 0) as [o h] eqn:Hr.
        apply (Hrec (Some c) 0). now rewrite Hr.
      * destruct (replaceFrom r f (Some c) s' (length m')) as [o h] eqn:Hr.
        apply (Hrec (Some c) (length m')). now rewrite Hr.
    + destruct (replaceFrom r f (Some c) s' 0) as [o h] eqn:Hr.
      apply (Hrec (Some c) 0). now rewrite Hr.
Qed.

(** *** A character no class accepts is a barrier

    When no class of the pattern accepts [b] and [b] is not a word
    character, a match never reaches across an occurrence of [b]: matching
    in [u ++ b :: v] from a position inside [u] is matching in [u]. *)
Section Barrier.
Variable b : ascii.
Hypothesis b_not_word : isWord b = false.
Variable v : list ascii.

Lemma wordAfter_barrier (u : list ascii) :
  wordAfter (u ++ b :: v) = wordAfter u.
Proof. destruct u; simpl; [exact b_not_word|reflexivity]. Qed.

Lemma rmatch_barrier (r : regex) :
  avoids b r = true ->
  forall prev u (k k' : cont),
    (forall prev' u', k prev' (u' ++ b :: v) = past b v (k' prev' u')) ->
    rmatch r prev (u ++ b :: v) k = past b v (rmatch r prev u k').
Proof.
  induction r as [p| |r1 IH1 r2 IH2|lo hi r1 IH1|lo p]; simpl;
    intros Ha prev u k k' Hk.
  - apply negb_true_iff in Ha.
    destruct u as [|c u']; simpl; [now rewrite Ha|].
    destruct (p c); [apply Hk|reflexivity].
  - unfold atBoundary. rewrite wordAfter_barrier.
    destruct (xorb _ _); [apply Hk|reflexivity].
  - apply andb_true_iff in Ha. destruct Ha as [Ha1 Ha2].
    apply IH1; [exact Ha1|]. intros prev' u'. now apply IH2.
  - revert lo prev u.
    induction hi as [|more IHm]; intros need prev u.
    + simpl. destruct need; [apply Hk|reflexivity].
    + simpl. rewrite (IH1 Ha prev u _ (fun prev' s' => repLoop (rmatch r1) k' (pred need) more prev' s')).
      * destruct (rmatch r1 prev u _); [reflexivity|].
        destruct need; [apply Hk|reflexivity].
      * intros prev' u'. apply IHm.
  - apply negb_true_iff in Ha. revert lo prev.
    induction u as [|c u' IHu]; intros need prev; simpl.
    + rewrite Ha. destruct need; [apply (Hk prev [])|reflexivity].
    + destruct (p c).
      * rewrite IHu. destruct (manyLoop p k' (pred need) (Some c) u'); [reflexivity|].
        destruct need; [apply (Hk prev (c :: u'))|reflexivity].
      * destruct need; [apply (Hk prev (c :: u'))|reflexivity].
Qed.

Lemma matchAt_barrier (r : regex) (prev : option ascii) (u : list ascii) :
  avoids b r = true ->
  matchAt r prev (u ++ b :: v) = past b v (matchAt r prev u).
Proof. intros Ha. unfold matchAt. now apply rmatch_barrier. Qed.
End Barrier.

(** The matcher looks at the previous character only to tell whether it is
    a word character. *)
Lemma rmatch_prev (r : regex) :
  forall prev prev' s (k k' : cont),
    wordBefore prev = wordBefore prev' ->
    (forall p p' s', wordBefore p = wordBefore p' -> k p s' = k' p' s') ->
    rmatch r prev s k = rmatch r prev' s k'.
Proof.
  induction r as [p| |r1 IH1 r2 IH2|lo hi r1 IH1|lo p]; simpl;
    intros prev prev' s k k' Hw Hk.
  - destruct s as [|c s']; [reflexivity|].
    destruct (p c); [now apply Hk|reflexivity].
  - unfold atBoundary. rewrite Hw. destruct (xorb _ _); [now apply Hk|reflexivity].
  - apply IH1; [exact Hw|]. intros. now apply IH2.
  - revert lo prev prev' s Hw.
    induction hi as [|more IHm]; intros need prev prev' s Hw.
    + simpl. destruct need; [now apply Hk|reflexivity].
    + simpl.
      rewrite (IH1 prev prev' s _
                 (fun p' s' => repLoop (rmatch r1) k' (pred need) more p' s') Hw);
        [|intros; now apply IHm].
      destruct (rmatch r1 prev' s _); [reflexivity|].
      destruct need; [now apply Hk|reflexivity].
  - revert lo prev prev' Hw.
    induction s as [|c s' IHs]; intros need prev prev' Hw; simpl.
    + destruct need; [now apply Hk|reflexivity].
    + destruct (p c).
      * rewrite (IHs (pred need) (Some c) (Some c) eq_refl).
        destruct (manyLoop p k' (pred need) (Some c) s'); [reflexivity|].
        destruct need; [now apply Hk|reflexivity].
      * destruct need; [now apply Hk|reflexivity].
Qed.

Lemma matchAt_prev (r : regex) (prev prev' : option ascii) (s : list ascii) :
  wordBefore prev = wordBefore prev' ->
  matchAt r prev s = matchAt r prev' s.
Proof. intros Hw. unfold matchAt. now apply rmatch_prev. Qed.

Lemma replaceFrom_prev (r : regex) (f : list ascii -> list ascii * bool)
    (prev prev' : option ascii) (s : list ascii) :
  wordBefore prev = wordBefore prev' ->
  replaceFrom r f prev s 0 = replaceFrom r f prev' s 0.
Proof.
  intros Hw. destruct s as [|c s'].
  - simpl. now rewrite (matchAt_prev r prev prev').
  - rewrite !replaceFrom_step. now rewrite (matchAt_prev r prev prev').
Qed.

(** A global replace works on the two sides of a barrier independently. *)
Lemma replaceFrom_barrier (r : regex) (f : list ascii -> list ascii * bool)
    (b : ascii) (q : ascii -> bool) (v : list ascii) :
  avoids b r = true -> isWord b = false -> needs q r = true ->
  forall u prev skip,
    skip <= length u ->
    replaceFrom r f prev (u ++ b :: v) skip =
    (fst (replaceFrom r f prev u skip) ++ b :: fst (replaceFrom r f None v 0),
     snd (replaceFrom r f prev u skip) || snd (replaceFrom r f None v 0)).
Proof.
  intros Ha Hb Hn.
  assert (Hend : forall prev, matchAt r prev [] = None).
  { intros prev. unfold matchAt. apply (rmatch_needs q); [exact Hn|constructor]. }
  induction u as [|c u' IH]; intros prev skip Hskip.
  - assert (skip = 0) as -> by (simpl in Hskip; lia).
    change ([] ++ b :: v) with (b :: v).
    rewrite replaceFrom_step.
    rewrite <- (app_nil_l (b :: v)) at 1.
    rewrite (matchAt_barrier b Hb v r prev [] Ha), Hend.
    simpl past. simpl (replaceFrom r f prev [] 0). rewrite Hend.
    rewrite (replaceFrom_prev r f (Some b) None v) by (simpl; exact Hb).
    destruct (replaceFrom r f None v 0) as [o h]. reflexivity.
  - destruct skip as [|n].
    + change ((c :: u') ++ b :: v) with (c :: (u' ++ b :: v)).
      rewrite !replaceFrom_step.
      change (c :: (u' ++ b :: v)) with ((c :: u') ++ b :: v).
      rewrite (matchAt_barrier b Hb v r prev (c :: u') Ha).
      destruct (matchAt r prev (c :: u')) as [rest|]; simpl past.
      * cbv beta iota zeta.
        assert (Hlen : length ((c :: u') ++ b :: v) - length (rest ++ b :: v)
                       = length (c :: u') - length rest).
        { rewrite !length_app. simpl. lia. }
        rewrite Hlen.
        rewrite firstn_app.
        replace (length (c :: u') - length rest - length (c :: u')) with 0 by lia.
        rewrite firstn_0, app_nil_r.
        remember (firstn (length (c :: u') - length rest) (c :: u')) as m eqn:Em.
        assert (Hm : length m <= S (length u')).
        { rewrite Em, length_take. simpl. lia. }
        destruct (f m) as [out hit].
        destruct m as [|c0 m'].
        { rewrite (IH (Some c) 0) by lia.
          destruct (replaceFrom r f (Some c) u' 0) as [o1 h1].
          destruct (replaceFrom r f None v 0) as [o2 h2]. simpl.
          now rewrite <- !app_assoc, orb_assoc. }
        { simpl in Hm. rewrite (IH (Some c) (length m')) by lia.
          destruct (replaceFrom r f (Some c) u' (length m')) as [o1 h1].
          destruct (replaceFrom r f None v 0) as [o2 h2]. simpl.
          now rewrite <- !app_assoc, orb_assoc. }
      * rewrite (IH (Some c) 0) by lia.
        destruct (replaceFrom r f (Some c) u' 0) as [o1 h1].
        destruct (replaceFrom r f None v 0) as [o2 h2]. reflexivity.
    + simpl in Hskip. simpl. apply IH. lia.
Qed.

Lemma replaceAll_barrier (r : regex) (f : list ascii -> list ascii * bool)
    (b : ascii) (q : ascii -> bool) (u v : list ascii) :
  avoids b r = true -> isWord b = false -> needs q r = true ->
  fst (replaceAll r f (u ++ b :: v))
  = fst (replaceAll r f u) ++ b :: fst (replaceAll r f v).
Proof.
  intros Ha Hb Hn. unfold replaceAll.
  rewrite (replaceFrom_barrier r f b q v Ha Hb Hn u None 0) by lia.
  reflexivity.
Qed.

End RegexFacts.

(** ** The PII scrubber *)

Module PiiFacts.
Import Chars Regex Pii Props RegexFacts.

Lemma setAdd_in (x y : string) (s : list string) :
  In x (setAdd y s) -> x = y \/ In x s.
Proof.
  unfold setAdd. destruct (existsb (String.eqb y) s); [now right|].
  rewrite in_app_iff. simpl. intuition.
Qed.

Lemma inert_free_digit (s : list ascii) :
  forallb inert s = true -> free isDigit s.
Proof.
  rewrite forallb_forall. intros H. apply List.Forall_forall. intros c Hc.
  specialize (H c Hc). unfold inert in H.
  apply andb_true_iff in H. destruct H as [H _]. now apply negb_true_iff in H.
Qed.

Lemma inert_free_at (s : list ascii) :
  forallb inert s = true -> free (isChar "@") s.
Proof.
  rewrite forallb_forall. intros H. apply List.Forall_forall. intros c Hc.
  specialize (H c Hc). unfold inert in H.
  apply andb_true_iff in H. destruct H as [_ H]. now apply negb_true_iff in H.
Qed.

(** A step of the loop leaves alone a text that lacks a class of characters
    its pattern needs. *)
Lemma scrubStep_free (q : ascii -> bool) (p : PiiPattern) (t : string)
    (cats : list string) :
  needs q (pattern p) = true ->
  free q (list_ascii_of_string t) ->
  scrubStep (t, cats) p = (t, cats).
Proof.
  intros Hn Hf. unfold scrubStep, replace, replaceAll.
  destruct (String.eqb (name p) "credit_card").
  - rewrite (replaceFrom_free q) by assumption.
    now rewrite string_of_list_ascii_of_string.
  - rewrite (replaceFrom_free q) by assumption.
    rewrite string_of_list_ascii_of_string. now rewrite String.eqb_refl.
Qed.

(** A step whose pattern is not the credit-card one never reports
    ["credit_card"]. *)
Lemma scrubStep_other (st : string * list string) (p : PiiPattern) :
  name p <> "credit_card"%string ->
  In "credit_card"%string (snd (scrubStep st p)) ->
  In "credit_card"%string (snd st).
Proof.
  intros Hne. unfold scrubStep. destruct st as [scrubbed cats].
  destruct (String.eqb_spec (name p) "credit_card"); [contradiction|].
  destruct (replace scrubbed (pattern p) _) as [out h]. simpl.
  destruct (negb (String.eqb out scrubbed)); [|tauto].
  intros H. apply setAdd_in in H. destruct H as [H|H]; [congruence|exact H].
Qed.

Lemma list_ascii_app (a b : string) :
  list_ascii_of_string (a +:+ b) = list_ascii_of_string a ++ list_ascii_of_string b.
Proof. induction a as [|c a IH]; simpl; [reflexivity|now rewrite IH]. Qed.

Lemma string_of_app (l1 l2 : list ascii) :
  string_of_list_ascii (l1 ++ l2)
  = string_of_list_ascii l1 +:+ string_of_list_ascii l2.
Proof. induction l1 as [|c l1 IH]; simpl; [reflexivity|now rewrite IH]. Qed.

Lemma string_app_assoc (a b c : string) : (a +:+ b) +:+ c = a +:+ b +:+ c.
Proof.
  induction a as [|x a IH]; [reflexivity|].
  change (String x ((a +:+ b) +:+ c) = String x (a +:+ b +:+ c)).
  now rewrite IH.
Qed.

(** The text a step produces does not depend on the categories so far. *)
Lemma scrubStep_text (t : string) (cats : list string) (p : PiiPattern) :
  fst (scrubStep (t, cats) p) = stepText t p.
Proof.
  unfold scrubStep, stepText, stepReplacer.
  destruct (String.eqb (name p) "credit_card");
    destruct (replace t (pattern p) _) as [out h]; reflexivity.
Qed.

Lemma fold_scrubStep_text (ps : list PiiPattern) :
  forall t cats,
    fst (fold_left scrubStep ps (t, cats)) = fold_left stepText ps t.
Proof.
  induction ps as [|p ps IH]; intros t cats; cbn [fold_left]; [reflexivity|].
  destruct (scrubStep (t, cats) p) as [t' cats'] eqn:E.
  rewrite IH. f_equal.
  change t' with (fst (t', cats')). rewrite <- E. apply scrubStep_text.
Qed.

Lemma scrubPii_text (t : string) :
  text (scrubPii t) = fold_left stepText PII_PATTERNS t.
Proof.
  unfold scrubPii. rewrite <- (fold_scrubStep_text PII_PATTERNS t []).
  destruct (fold_left scrubStep PII_PATTERNS (t, [])). reflexivity.
Qed.

(** One step of the loop works around a bracketed token without digits and
    at signs. *)
Lemma stepText_bracketed (p : PiiPattern) (u w v : string) :
  bracketSafe p = true -> inertText w = true ->
  stepText (u +:+ bracketed w +:+ v) p
  = stepText u p +:+ bracketed w +:+ stepText v p.
Proof.
  unfold bracketSafe, inertText. rewrite !andb_true_iff, orb_true_iff.
  intros [[Ho Hc] Hq] Hw.
  assert (Hq' : exists q, needs q (pattern p) = true
                          /\ free q (list_ascii_of_string w)).
  { destruct Hq as [Hq|Hq].
    - exists isDigit. split; [exact Hq|now apply inert_free_digit].
    - exists (isChar "@"). split; [exact Hq|now apply inert_free_at]. }
  destruct Hq' as (q & Hn & Hf).
  unfold stepText, replace, bracketed.
  rewrite !list_ascii_app. simpl (list_ascii_of_string "[").
  simpl (list_ascii_of_string "]"). simpl app.
  rewrite <- app_assoc. simpl app.
  set (f := stepReplacer p).
  pose proof (replaceAll_barrier (pattern p) f "[" q
                (list_ascii_of_string u)
                (list_ascii_of_string w ++ "]"%char :: list_ascii_of_string v)
                Ho eq_refl Hn) as H1.
  pose proof (replaceAll_barrier (pattern p) f "]" q
                (list_ascii_of_string w) (list_ascii_of_string v)
                Hc eq_refl Hn) as H2.
  assert (H3 : fst (replaceAll (pattern p) f (list_ascii_of_string w))
               = list_ascii_of_string w).
  { unfold replaceAll. now rewrite (replaceFrom_free q). }
  rewrite H3 in H2. rewrite H2 in H1.
  destruct (replaceAll (pattern p) f (list_ascii_of_string u ++ _)) as [o h].
  destruct (replaceAll (pattern p) f (list_ascii_of_string u)) as [o1 h1].
  destruct (replaceAll (pattern p) f (list_ascii_of_string v)) as [o2 h2].
  simpl in *. subst o.
  rewrite string_of_app. simpl. rewrite string_of_app. simpl.
  rewrite string_of_list_ascii_of_string.
  rewrite (string_app_assoc "[" (w +:+ "]")), (string_app_assoc w "]").
  reflexivity.
Qed.

Lemma fold_stepText_bracketed (ps : list PiiPattern) (w : string) :
  forallb bracketSafe ps = true -> inertText w = true ->
  forall u v,
    fold_left stepText ps (u +:+ bracketed w +:+ v)
    = fold_left stepText ps u +:+ bracketed w +:+ fold_left stepText ps v.
Proof.
  intros Hps Hw. induction ps as [|p ps IH]; intros u v; simpl; [reflexivity|].
  simpl in Hps. apply andb_true_iff in Hps. destruct Hps as [Hp Hps].
  rewrite stepText_bracketed by assumption. now apply IH.
Qed.

(** Each placeholder is a bracketed token without digits and at signs. *)
Lemma placeholder_shape (P : string) :
  In P placeholders -> exists w, P = bracketed w /\ inertText w = true.
Proof.
  intros [<-|[<-|[<-|[<-|[]]]]].
  - now exists "SSN REDACTED"%string.
  - now exists "CC REDACTED"%string.
  - now exists "EMAIL REDACTED"%string.
  - now exists "PHONE REDACTED"%string.
Qed.

End PiiFacts.

Module PiiClaims.
Import Chars Regex Pii Props RegexFacts PiiFacts.

(** C3.  A candidate span is replaced by the credit-card placeholder, and
    ["credit_card"] reported, only if its digits are 13 to 19 and pass the
    Luhn checksum: the replacer substitutes and reports exactly under that
    condition and returns every other candidate as it is, and whenever
    [scrubPii] reports ["credit_card"] a piece of the text the credit-card
    pattern ran on satisfies the condition.  On ["4111111111111112"] nothing
    is redacted as a credit card; on ["4111111111111111"] the span is
    replaced and the category reported. *)
Theorem luhn_gate :
  (forall rep m,
      (luhnValid m ->
       creditCardReplacer rep m = (list_ascii_of_string rep, true))
      /\ (~ luhnValid m -> creditCardReplacer rep m = (m, false)))
  /\ (forall t,
        In "credit_card"%string (piiCategoriesFound (scrubPii t)) ->
        exists m, pieceOf m (textAfter 1 t) /\ luhnValid m)
  /\ (let r := scrubPii "4111111111111112" in
      ~ In "credit_card"%string (piiCategoriesFound r)
      /\ Analyzer.includes (text r) "[CC REDACTED]" = false)
  /\ scrubPii "4111111111111111"
     = {| text := "[CC REDACTED]"; piiCategoriesFound := ["credit_card"%string] |}.
Proof.
  assert (Hdec : forall m,
             luhnValid m <->
             (13 <=? length (digitsOnly m)) && (length (digitsOnly m) <=? 19)
               && passesLuhn (digitsOnly m) = true).
  { intros m. unfold luhnValid.
    rewrite !andb_true_iff, !Nat.leb_le. tauto. }
  assert (Hrep : forall rep m,
             (luhnValid m ->
              creditCardReplacer rep m = (list_ascii_of_string rep, true))
             /\ (~ luhnValid m -> creditCardReplacer rep m = (m, false))).
  { intros rep m. rewrite Hdec. unfold creditCardReplacer.
    destruct ((13 <=? length (digitsOnly m))
              && (length (digitsOnly m) <=? 19) && passesLuhn (digitsOnly m)).
    - split; [reflexivity|]. intros H. now contradiction H.
    - split; [discriminate|reflexivity]. }
  split; [exact Hrep|]. split; [|split].
  - intros t Hin. unfold scrubPii in Hin.
    change (fold_left scrubStep PII_PATTERNS (t, []))
      with (scrubStep (scrubStep (scrubStep (scrubStep (t, []) (mkPiiPattern "ssn" ssnPattern "[SSN REDACTED]")) (mkPiiPattern "credit_card" creditCardPattern "[CC REDACTED]")) (mkPiiPattern "email" emailPattern "[EMAIL REDACTED]")) (mkPiiPattern "phone" phonePattern "[PHONE REDACTED]")) in Hin.
    set (st1 := scrubStep (t, []) (mkPiiPattern "ssn" ssnPattern "[SSN REDACTED]")) in *.
    set (cc := mkPiiPattern "credit_card" creditCardPattern "[CC REDACTED]") in *.
    destruct (scrubStep _ (mkPiiPattern "phone" _ _)) as [s4 c4] eqn:E4.
    simpl in Hin.
    assert (H2 : In "credit_card"%string (snd (scrubStep st1 cc))).
    { apply (scrubStep_other _ (mkPiiPattern "email" emailPattern "[EMAIL REDACTED]"));
        [discriminate|].
      apply (scrubStep_other _ (mkPiiPattern "phone" phonePattern "[PHONE REDACTED]"));
        [discriminate|].
      now rewrite E4. }
    assert (H1 : ~ In "credit_card"%string (snd st1)).
    { intros H. apply scrubStep_other in H; [exact H|discriminate]. }
    assert (Et : textAfter 1 t = fst st1) by reflexivity.
    destruct st1 as [s1 c1]. simpl in H1, Et.
    unfold scrubStep, replace, replaceAll in H2. simpl String.eqb in H2.
    cbv iota in H2.
    destruct (replaceFrom (pattern cc) (creditCardReplacer (replacement cc))
                None (list_ascii_of_string s1) 0) as [out hit] eqn:Er.
    simpl in H2. destruct hit.
    + destruct (replaceFrom_hit _ _ _ None 0
                  (eq_trans (f_equal snd Er) eq_refl)) as (pre & m & post & Es & Hm).
      exists m. split.
      * rewrite Et. now exists pre, post.
      * destruct (Hrep (replacement cc) m) as [_ Hno].
        apply Hdec.
        destruct ((13 <=? length (digitsOnly m))
                  && (length (digitsOnly m) <=? 19) && passesLuhn (digitsOnly m))
          eqn:Eb; [reflexivity|].
        rewrite Hno in Hm; [discriminate|].
        rewrite Hdec, Eb. discriminate.
    + contradiction.
  - vm_compute. split; [|reflexivity].
    intros [H|[]]. discriminate.
  - vm_compute. reflexivity.
Qed.

(** The gate at a card number written in groups of four. *)
Lemma luhn_gate_witness :
  In "credit_card"%string
    (piiCategoriesFound (scrubPii "card 4111 1111 1111 1111"))
  /\ exists m, pieceOf m (textAfter 1 "card 4111 1111 1111 1111") /\ luhnValid m.
Proof.
  assert (H : In "credit_card"%string
                (piiCategoriesFound (scrubPii "card 4111 1111 1111 1111")))
    by (vm_compute; left; reflexivity).
  split; [exact H|].
  exact (proj1 (proj2 luhn_gate) _ H).
Defined.

(** C2, as stated, fails: a phone match has no word boundary in front, so
    replacing a phone number that follows an SSN directly gives the SSN
    pattern, on the second pass, the boundary it missed on the first. *)
Lemma scrubPii_not_idempotent :
  text (scrubPii (text (scrubPii "123-45-6789555-123-4567")))
  <> text (scrubPii "123-45-6789555-123-4567").
Proof. vm_compute. discriminate. Qed.

(** C2, amended.  The placeholder tokens are never matched or altered by a
    redaction pass, whatever surrounds them: the pass works on the text
    before and on the text after a placeholder independently and keeps the
    placeholder between the two results.  A text without digits and at
    signs, such as a placeholder, is returned as it is with no category; so
    a second pass is a no-op whenever the first pass leaves no digit and no
    at sign. *)
Theorem placeholders_untouched :
  (forall P u v,
      In P placeholders ->
      text (scrubPii (u +:+ P +:+ v))
      = text (scrubPii u) +:+ P +:+ text (scrubPii v))
  /\ (forall t,
        inertText t = true ->
        scrubPii t = {| text := t; piiCategoriesFound := [] |})
  /\ (forall P, In P placeholders -> inertText P = true)
  /\ (forall t,
        inertText (text (scrubPii t)) = true ->
        text (scrubPii (text (scrubPii t))) = text (scrubPii t)).
Proof.
  assert (Hinert : forall t,
             inertText t = true ->
             scrubPii t = {| text := t; piiCategoriesFound := [] |}).
  { intros t Ht. unfold inertText in Ht. unfold scrubPii.
    assert (Hd := inert_free_digit _ Ht). assert (Ha := inert_free_at _ Ht).
    cbn [fold_left PII_PATTERNS].
    rewrite (scrubStep_free isDigit) by (reflexivity || assumption).
    rewrite (scrubStep_free isDigit) by (reflexivity || assumption).
    rewrite (scrubStep_free (isChar "@")) by (reflexivity || assumption).
    rewrite (scrubStep_free isDigit) by (reflexivity || assumption).
    reflexivity. }
  split; [|split; [exact Hinert|split]].
  - intros P u v HP.
    destruct (placeholder_shape P HP) as (w & -> & Hw).
    rewrite !scrubPii_text.
    now apply fold_stepText_bracketed.
  - intros P [<-|[<-|[<-|[<-|[]]]]]; reflexivity.
  - intros t Ht. now rewrite (Hinert _ Ht).
Qed.

(** A second pass over "123-45-6789[PHONE REDACTED].": the placeholder
    stays, the texts before and after it are scrubbed on their own. *)
Lemma placeholders_untouched_witness :
  In "[PHONE REDACTED]"%string placeholders
  /\ text (scrubPii ("123-45-6789" +:+ "[PHONE REDACTED]" +:+ "."))
     = text (scrubPii "123-45-6789") +:+ "[PHONE REDACTED]" +:+ text (scrubPii ".").
Proof.
  assert (H : In "[PHONE REDACTED]"%string placeholders)
    by (vm_compute; tauto).
  split; [exact H|].
  exact (proj1 placeholders_untouched _ _ _ H).
Defined.

End PiiClaims.

(** ** Sorting *)

Module SortFacts.
Import Sort.

Section Facts.
Context {A : Type}.
Variable neg : A -> A -> bool.

Lemma insert_perm (x : A) (l : list A) : Permutation (insert neg x l) (x :: l).
Proof.
  induction l as [|y l IH]; simpl; [reflexivity|].
  destruct (neg y x); [|reflexivity].
  rewrite IH. apply perm_swap.
Qed.

Lemma sort_perm (l : list A) : Permutation (sort neg l) l.
Proof.
  induction l as [|x l IH]; simpl; [reflexivity|].
  rewrite insert_perm. now rewrite IH.
Qed.

(** Stability: the elements of a class no two members of which the
    comparator orders keep their order. *)
Lemma insert_filter_in (P : A -> bool) (x : A) (l : list A) :
  (forall a b, P a = true -> P b = true -> neg a b = false) ->
  P x = true ->
  List.filter P (insert neg x l) = x :: List.filter P l.
Proof.
  intros Hcls Hx. induction l as [|y l IH]; simpl; [now rewrite Hx|].
  destruct (neg y x) eqn:Hyx; simpl.
  - destruct (P y) eqn:Hy; [rewrite (Hcls y x Hy Hx) in Hyx; discriminate|].
    exact IH.
  - now rewrite Hx.
Qed.

Lemma insert_filter_out (P : A -> bool) (x : A) (l : list A) :
  P x = false ->
  List.filter P (insert neg x l) = List.filter P l.
Proof.
  intros Hx. induction l as [|y l IH]; simpl; [now rewrite Hx|].
  destruct (neg y x); simpl.
  - now rewrite IH.
  - now rewrite Hx.
Qed.

Lemma sort_stable (P : A -> bool) (l : list A) :
  (forall a b, P a = true -> P b = true -> neg a b = false) ->
  List.filter P (sort neg l) = List.filter P l.
Proof.
  intros Hcls. induction l as [|x l IH]; simpl; [reflexivity|].
  destruct (P x) eqn:Hx.
  - rewrite insert_filter_in by assumption. now rewrite IH.
  - rewrite insert_filter_out by assumption. exact IH.
Qed.

(** Sortedness, for a comparator that is asymmetric and whose complement
    is transitive. *)
Hypothesis neg_asym : forall a b, neg a b = true -> neg b a = false.
Hypothesis neg_trans :
  forall a b c, neg b a = false -> neg c b = false -> neg c a = false.

Lemma insert_sorted (x : A) (l : list A) :
  StronglySorted (fun a b => neg b a = false) l ->
  StronglySorted (fun a b => neg b a = false) (insert neg x l).
Proof.
  induction 1 as [|y l Hl IH Hy]; simpl.
  - repeat constructor.
  - destruct (neg y x) eqn:Hyx.
    + constructor; [exact IH|].
      apply List.Forall_forall. intros z Hz.
      apply (Permutation_in _ (insert_perm x l)) in Hz.
      destruct Hz as [<-|Hz]; [now apply neg_asym|].
      rewrite List.Forall_forall in Hy. now apply Hy.
    + constructor; [now constructor|].
      constructor; [exact Hyx|].
      apply List.Forall_forall. intros z Hz.
      rewrite List.Forall_forall in Hy.
      apply (neg_trans x y z); [exact Hyx|now apply Hy].
Qed.

Lemma StronglySorted_weaken (R R' : A -> A -> Prop) (l : list A) :
  (forall a b, R a b -> R' a b) -> StronglySorted R l -> StronglySorted R' l.
Proof.
  intros HR. induction 1 as [|a l Hl IH Ha]; constructor; [exact IH|].
  revert Ha. apply List.Forall_impl. intros b. apply HR.
Qed.

Lemma sort_sorted (l : list A) :
  StronglySorted (fun a b => neg b a = false) (sort neg l).
Proof.
  induction l as [|x l IH]; simpl; [constructor|now apply insert_sorted].
Qed.
End Facts.

End SortFacts.

(** ** Emerging theme detection *)

Module EmergingFacts.
Import Analyzer Props.

Lemma addIndex_in (i j : nat) (pts : list nat) :
  In j (addIndex i pts) <-> j = i \/ In j pts.
Proof.
  unfold addIndex. destruct (existsb (Nat.eqb i) pts) eqn:E.
  - apply existsb_exists in E. destruct E as (x & Hx & Ex).
    apply Nat.eqb_eq in Ex. subst x. intuition congruence.
  - rewrite in_app_iff. simpl. intuition.
Qed.

Lemma addIndex_NoDup (i : nat) (pts : list nat) :
  NoDup pts -> NoDup (addIndex i pts).
Proof.
  intros Hnd. unfold addIndex. destruct (existsb (Nat.eqb i) pts) eqn:E; [exact Hnd|].
  apply NoDup_app. repeat split.
  - exact Hnd.
  - intros x Hx Hx'. apply list_elem_of_singleton in Hx'. subst x.
    apply list_elem_of_In in Hx.
    assert (existsb (Nat.eqb i) pts = true); [|congruence].
    apply existsb_exists. exists i. split; [exact Hx|apply Nat.eqb_refl].
  - apply NoDup_singleton.
Qed.

Lemma tableOk_mono (n n' : nat) (m : list (string * list nat)) :
  n <= n' -> tableOk n m -> tableOk n' m.
Proof.
  intros Hle. unfold tableOk. apply List.Forall_impl.
  intros e [Hnd Hlt]. split; [exact Hnd|].
  revert Hlt. apply List.Forall_impl. intros; lia.
Qed.

Lemma addPoint_ok (n i : nat) (ng : string) (m : list (string * list nat)) :
  i < n -> tableOk n m -> tableOk n (addPoint ng i m).
Proof.
  intros Hi. unfold tableOk.
  assert (Hnew : forall pts,
             NoDup pts /\ Forall (fun i => i < n) pts ->
             NoDup (addIndex i pts) /\ Forall (fun i => i < n) (addIndex i pts)).
  { intros pts [Hnd Hlt]. split; [now apply addIndex_NoDup|].
    apply List.Forall_forall. intros j Hj. apply addIndex_in in Hj.
    destruct Hj as [->|Hj]; [exact Hi|].
    rewrite List.Forall_forall in Hlt. now apply Hlt. }
  induction m as [|[k pts] m IH]; intros Hm; simpl.
  - constructor; [|constructor]. simpl. apply Hnew. split; constructor.
  - inversion Hm; subst. destruct (String.eqb k ng).
    + constructor; [|assumption]. simpl in *. now apply Hnew.
    + constructor; [assumption|now apply IH].
Qed.

Lemma recordNgrams_ok (n i : nat) (ngrams : list string) :
  i < n ->
  forall seen m, tableOk n m -> tableOk n (recordNgrams i ngrams seen m).
Proof.
  intros Hi. induction ngrams as [|ng rest IH]; intros seen m Hm; simpl.
  - exact Hm.
  - destruct (bool_decide (ng ∈ seen)); [now apply IH|].
    apply IH. now apply addPoint_ok.
Qed.

Lemma countNgrams_ok (points : list DataPoint.t) (stopWords : gset string) :
  forall i m,
    tableOk i m ->
    tableOk (i + length points) (countNgrams i points stopWords m).
Proof.
  induction points as [|p rest IH]; intros i m Hm; simpl.
  - now rewrite Nat.add_0_r.
  - replace (i + S (length rest)) with (S i + length rest) by lia.
    apply IH. apply recordNgrams_ok; [lia|].
    apply (tableOk_mono i); [lia|exact Hm].
Qed.

Lemma ngramTable_ok (unmatched : list DataPoint.t) (stopWords : gset string) :
  tableOk (length unmatched) (ngramTable unmatched stopWords).
Proof. apply (countNgrams_ok unmatched stopWords 0 []). constructor. Qed.

(** *** What the table records *)

Lemma addPoint_pointsFor (ng ng' : string) (i : nat)
    (m : list (string * list nat)) :
  pointsFor ng' (addPoint ng i m)
  = if String.eqb ng ng' then addIndex i (pointsFor ng m) else pointsFor ng' m.
Proof.
  unfold pointsFor. induction m as [|[k pts] m IH]; simpl.
  - destruct (String.eqb ng ng'); reflexivity.
  - destruct (String.eqb_spec k ng) as [->|Hk]; simpl.
    + destruct (String.eqb ng ng'); reflexivity.
    + destruct (String.eqb_spec k ng') as [->|Hk'].
      * destruct (String.eqb_spec ng ng') as [->|_]; [contradiction|].
        reflexivity.
      * rewrite IH. destruct (String.eqb_spec ng ng') as [->|_]; [|reflexivity].
        destruct (String.eqb_spec k ng'); [contradiction|reflexivity].
Qed.

Lemma addPoint_keys (ng k : string) (i : nat) (m : list (string * list nat)) :
  In k (map fst (addPoint ng i m)) -> k = ng \/ In k (map fst m).
Proof.
  induction m as [|[k0 pts] m IH]; simpl.
  - intros [<-|[]]. now left.
  - destruct (String.eqb k0 ng); simpl; [tauto|].
    intros [<-|H]; [right; now left|].
    destruct (IH H); [now left|right; now right].
Qed.

Lemma addPoint_keys_NoDup (ng : string) (i : nat) (m : list (string * list nat)) :
  NoDup (map fst m) -> NoDup (map fst (addPoint ng i m)).
Proof.
  induction m as [|[k pts] m IH]; simpl; intros Hnd.
  - apply NoDup_singleton.
  - destruct (String.eqb_spec k ng) as [->|Hk]; simpl; [exact Hnd|].
    apply NoDup_cons in Hnd. destruct Hnd as [Hk' Hnd].
    apply NoDup_cons. split; [|now apply IH].
    intros Hin. apply list_elem_of_In, addPoint_keys in Hin.
    destruct Hin as [->|Hin]; [contradiction|].
    apply Hk', list_elem_of_In. exact Hin.
Qed.

Lemma recordNgrams_keys_NoDup (i : nat) (ngrams : list string) :
  forall seen m,
    NoDup (map fst m) -> NoDup (map fst (recordNgrams i ngrams seen m)).
Proof.
  induction ngrams as [|ng rest IH]; intros seen m Hm; simpl; [exact Hm|].
  destruct (bool_decide (ng ∈ seen)); [now apply IH|].
  apply IH. now apply addPoint_keys_NoDup.
Qed.

Lemma recordNgrams_pointsFor (i : nat) (ngrams : list string) (ng' : string)
    (j : nat) :
  forall (seen : gset string) m,
    In j (pointsFor ng' (recordNgrams i ngrams seen m)) <->
    In j (pointsFor ng' m) \/ (j = i /\ In ng' ngrams /\ ng' ∉ seen).
Proof.
  induction ngrams as [|ng rest IH]; intros seen m; simpl.
  - tauto.
  - destruct (bool_decide (ng ∈ seen)) eqn:Hs.
    + apply bool_decide_eq_true in Hs. rewrite IH.
      split; [tauto|]. intros [H|(-> & [->|H] & Hn)]; tauto.
    + apply bool_decide_eq_false in Hs.
      rewrite IH, addPoint_pointsFor, elem_of_union, elem_of_singleton.
      destruct (String.eqb_spec ng ng') as [->|Hne].
      * rewrite addIndex_in. tauto.
      * split; [tauto|].
        intros [H|(-> & [H|H] & Hn)]; [tauto|contradiction|].
        right. repeat split; [exact H|]. intros [->|H']; tauto.
Qed.

Lemma countNgrams_keys_NoDup (points : list DataPoint.t)
    (stopWords : gset string) :
  forall i m,
    NoDup (map fst m) ->
    NoDup (map fst (countNgrams i points stopWords m)).
Proof.
  induction points as [|p rest IH]; intros i m Hm; simpl; [exact Hm|].
  apply IH. now apply recordNgrams_keys_NoDup.
Qed.

Lemma countNgrams_pointsFor (points : list DataPoint.t)
    (stopWords : gset string) (ng : string) (j : nat) :
  forall i m,
    In j (pointsFor ng (countNgrams i points stopWords m)) <->
    In j (pointsFor ng m)
    \/ (i <= j /\ exists p, points !! (j - i) = Some p
                             /\ In ng (ngramsOf stopWords p)).
Proof.
  induction points as [|p rest IH]; intros i m; simpl.
  - split; [tauto|]. intros [H|(_ & q & Hq & _)]; [exact H|discriminate].
  - rewrite IH, recordNgrams_pointsFor. fold (ngramsOf stopWords p). split.
    + intros [[H|(-> & H & _)]|(Hle & q & Hq & Hin)].
      * now left.
      * right. split; [lia|]. exists p. rewrite Nat.sub_diag. now split.
      * right. split; [lia|]. exists q.
        replace (j - i) with (S (j - S i)) by lia. now split.
    + intros [H|(Hle & q & Hq & Hin)]; [tauto|].
      destruct (j - i) as [|n] eqn:E.
      * injection Hq as <-. left. right.
        repeat split; [lia|exact Hin|apply not_elem_of_empty].
      * right. split; [lia|]. exists q.
        replace (j - S i) with n by lia. now split.
Qed.

Lemma entry_pointsFor (m : list (string * list nat)) (ng : string)
    (pts : list nat) :
  NoDup (map fst m) -> In (ng, pts) m -> pointsFor ng m = pts.
Proof.
  unfold pointsFor. induction m as [|[k ps] m IH]; simpl; [tauto|].
  intros Hnd [E|Hin].
  - injection E as -> ->. now rewrite String.eqb_refl.
  - apply NoDup_cons in Hnd. destruct Hnd as [Hk Hnd].
    destruct (String.eqb_spec k ng) as [->|_]; [|now apply IH].
    exfalso. apply Hk, list_elem_of_In.
    apply in_map_iff. now exists (ng, pts).
Qed.

Lemma ngramTable_keys (unmatched : list DataPoint.t) (stopWords : gset string) :
  NoDup (map fst (ngramTable unmatched stopWords)).
Proof. apply countNgrams_keys_NoDup. constructor. Qed.

(** An entry of the table lists the signals that contain its n-gram. *)
Lemma ngramTable_contains (unmatched : list DataPoint.t)
    (stopWords : gset string) (ng : string) (pts : list nat) :
  In (ng, pts) (ngramTable unmatched stopWords) ->
  forall i, In i pts <-> containsNgram unmatched stopWords ng i.
Proof.
  intros Hin i.
  rewrite <- (entry_pointsFor _ _ _ (ngramTable_keys unmatched stopWords) Hin).
  unfold ngramTable. rewrite countNgrams_pointsFor. unfold containsNgram.
  rewrite Nat.sub_0_r. split.
  - intros [[]|[_ H]]. exact H.
  - intros H. right. split; [lia|exact H].
Qed.

(** *** The greedy loop *)

Lemma claimLoop_fresh (minFrequency : Z) (sorted : list (string * list nat)) :
  forall (claimed : gset nat) i,
    In i (claimedIndices (claimLoop sorted minFrequency claimed)) -> i ∉ claimed.
Proof.
  induction sorted as [|[ng pts] rest IH]; intros claimed i Hi; simpl in Hi.
  - destruct Hi.
  - destruct (_ <? minFrequency)%Z.
    + now apply IH.
    + unfold claimedIndices in Hi. simpl in Hi. apply in_app_iff in Hi.
      destruct Hi as [Hi|Hi].
      * apply filter_In in Hi. destruct Hi as [_ Hi].
        apply negb_true_iff, bool_decide_eq_false in Hi. exact Hi.
      * apply IH in Hi. intros Hc. apply Hi. now apply elem_of_union_r.
Qed.

Lemma claimLoop_NoDup (minFrequency : Z) (sorted : list (string * list nat)) :
  Forall (fun e => NoDup (snd e)) sorted ->
  forall claimed : gset nat,
    NoDup (claimedIndices (claimLoop sorted minFrequency claimed)).
Proof.
  induction 1 as [|[ng pts] rest Hpts Hrest IH]; intros claimed; simpl.
  - constructor.
  - destruct (_ <? minFrequency)%Z; [apply IH|].
    unfold claimedIndices. simpl. apply NoDup_app. repeat split.
    + apply NoDup_ListNoDup, List.NoDup_filter, NoDup_ListNoDup. exact Hpts.
    + intros i Hi Hi'. apply list_elem_of_In in Hi, Hi'.
      apply claimLoop_fresh in Hi'. apply Hi'.
      apply elem_of_union_l, elem_of_list_to_set, list_elem_of_In. exact Hi.
    + apply IH.
Qed.

Lemma claimLoop_min (minFrequency : Z) (sorted : list (string * list nat)) :
  forall claimed : gset nat,
    Forall (fun e => (minFrequency <= Z.of_nat (length (snd e)))%Z)
      (claimLoop sorted minFrequency claimed).
Proof.
  induction sorted as [|[ng pts] rest IH]; intros claimed; simpl.
  - constructor.
  - destruct (Z.ltb_spec (Z.of_nat (length
       (List.filter (fun i => negb (bool_decide (i ∈ claimed))) pts))) minFrequency).
    + apply IH.
    + constructor; [simpl; lia|apply IH].
Qed.

Lemma claimLoop_order (minFrequency : Z) (sorted : list (string * list nat)) :
  forall claimed : gset nat,
    sublist (map fst (claimLoop sorted minFrequency claimed)) (map fst sorted).
Proof.
  induction sorted as [|[ng pts] rest IH]; intros claimed; simpl.
  - constructor.
  - destruct (_ <? minFrequency)%Z.
    + apply sublist_cons, IH.
    + simpl. apply sublist_skip, IH.
Qed.

(** What an n-gram claims is what higher-ranked n-grams left of its
    containing set. *)
Lemma claimLoop_exact (minFrequency : Z) (sorted : list (string * list nat)) :
  forall (claimed : gset nat) l1 ng idx l2,
    claimLoop sorted minFrequency claimed = l1 ++ (ng, idx) :: l2 ->
    exists pts,
      In (ng, pts) sorted
      /\ idx = List.filter
                 (fun i => negb (bool_decide
                                   (i ∈ list_to_set (claimedIndices l1) ∪ claimed)))
                 pts.
Proof.
  induction sorted as [|[ng0 pts0] rest IH]; intros claimed l1 ng idx l2 E;
    simpl in E.
  - destruct l1; discriminate.
  - destruct (_ <? minFrequency)%Z.
    + destruct (IH _ _ _ _ _ E) as (pts & Hin & ->).
      exists pts. split; [now right|reflexivity].
    + destruct l1 as [|e l1'].
      * simpl in E. injection E as <- <- _.
        exists pts0. split; [now left|].
        apply filter_ext. intros i. f_equal. apply bool_decide_ext.
        unfold claimedIndices. simpl.
        rewrite elem_of_union, elem_of_empty. tauto.
      * simpl in E. injection E as <- E.
        destruct (IH _ _ _ _ _ E) as (pts & Hin & ->).
        exists pts. split; [now right|].
        apply filter_ext. intros i. f_equal. apply bool_decide_ext.
        unfold claimedIndices. simpl. rewrite list_to_set_app.
        rewrite !elem_of_union. tauto.
Qed.

(** *** The order the n-grams are processed in *)

Lemma bySizeDesc_asym (a b : string * list nat) :
  bySizeDesc a b = true -> bySizeDesc b a = false.
Proof. unfold bySizeDesc. rewrite Z.ltb_lt, Z.ltb_ge. lia. Qed.

Lemma bySizeDesc_trans (a b c : string * list nat) :
  bySizeDesc b a = false -> bySizeDesc c b = false -> bySizeDesc c a = false.
Proof. unfold bySizeDesc. rewrite !Z.ltb_ge. lia. Qed.

Lemma sortedNgrams_sorted (m : list (string * list nat)) (minFrequency : Z) :
  StronglySorted sizeDesc (sortedNgrams m minFrequency).
Proof.
  unfold sortedNgrams.
  pose proof (SortFacts.sort_sorted bySizeDesc bySizeDesc_asym bySizeDesc_trans
                (List.filter
                   (fun e => (minFrequency <=? Z.of_nat (length (snd e)))%Z) m))
    as H.
  induction H as [|a l Hl IH Ha]; constructor; [exact IH|].
  revert Ha. apply List.Forall_impl. intros b.
  unfold bySizeDesc, sizeDesc. rewrite Z.ltb_ge. lia.
Qed.

Lemma sortedNgrams_in (m : list (string * list nat)) (minFrequency : Z)
    (e : string * list nat) :
  In e (sortedNgrams m minFrequency) <->
  In e m /\ (minFrequency <= Z.of_nat (length (snd e)))%Z.
Proof.
  unfold sortedNgrams. split.
  - intros H. apply (Permutation_in _ (SortFacts.sort_perm _ _)) in H.
    apply filter_In in H. now rewrite Z.leb_le in H.
  - intros H. apply (Permutation_in _ (Permutation_sym (SortFacts.sort_perm _ _))).
    apply filter_In. now rewrite Z.leb_le.
Qed.

(** *** The references pushed *)

Lemma data_points_refs (unmatched : list DataPoint.t) (idx : list nat) :
  Forall (fun i => i < length unmatched) idx ->
  refsOf unmatched idx (omap (fun i => pointRef <$> unmatched !! i) idx).
Proof.
  unfold refsOf. induction 1 as [|i idx Hi Hidx IH]; simpl; [constructor|].
  destruct (lookup_lt_is_Some_2 unmatched i Hi) as [p Hp].
  rewrite Hp. simpl. constructor; [|exact IH].
  exists p. now split.
Qed.

Lemma emergingClaims_in_range (unmatched : list DataPoint.t)
    (stopWords : gset string) (minFrequency : Z) :
  Forall (fun e => Forall (fun i => i < length unmatched) (snd e))
    (emergingClaims unmatched stopWords minFrequency).
Proof.
  apply List.Forall_forall. intros [ng idx] Hin.
  apply in_split in Hin. destruct Hin as (l1 & l2 & E).
  apply claimLoop_exact in E. destruct E as (pts & Hpts & ->).
  apply sortedNgrams_in in Hpts. destruct Hpts as [Hpts _].
  pose proof (ngramTable_ok unmatched stopWords) as Hok.
  unfold tableOk in Hok. rewrite List.Forall_forall in Hok.
  destruct (Hok _ Hpts) as [_ Hlt]. simpl in *.
  apply List.Forall_forall. intros i Hi. apply filter_In in Hi.
  rewrite List.Forall_forall in Hlt. now apply Hlt.
Qed.

Lemma themes_refs (unmatched : list DataPoint.t)
    (claims : list (string * list nat)) :
  Forall (fun e => Forall (fun i => i < length unmatched) (snd e)) claims ->
  Forall2 (fun e th => EmergingTheme.ngram th = fst e
                       /\ refsOf unmatched (snd e) (EmergingTheme.data_points th))
    claims (map (emergingTheme unmatched) claims).
Proof.
  induction 1 as [|e l He Hl IH]; simpl; constructor; [|exact IH].
  split; [reflexivity|]. now apply data_points_refs.
Qed.

(** Distinct signals have distinct references when their ids differ. *)
Lemma omap_NoDup {A B : Type} (f : A -> option B) (l : list A) :
  (forall i j r, f i = Some r -> f j = Some r -> i = j) ->
  NoDup l -> NoDup (omap f l).
Proof.
  intros Hinj. induction 1 as [|x l Hx Hl IH]; [constructor|].
  change (omap f (x :: l))
    with (match f x with Some y => y :: omap f l | None => omap f l end).
  destruct (f x) as [y|] eqn:Ey; [|exact IH].
  apply NoDup_cons. split; [|exact IH].
  intros Hy. apply list_elem_of_omap in Hy. destruct Hy as (j & Hj & Ej).
  rewrite (Hinj x j y Ey Ej) in Hx. contradiction.
Qed.

Lemma claimed_refs (unmatched : list DataPoint.t)
    (claims : list (string * list nat)) :
  concat (map (fun e => EmergingTheme.data_points (emergingTheme unmatched e))
            claims)
  = omap (fun i => pointRef <$> unmatched !! i) (claimedIndices claims).
Proof.
  unfold claimedIndices. induction claims as [|e claims IH]; [reflexivity|].
  cbn [map concat]. rewrite omap_app, IH. reflexivity.
Qed.

Lemma claimed_refs_NoDup (unmatched : list DataPoint.t)
    (claims : list (string * list nat)) :
  NoDup (map DataPoint.id unmatched) ->
  NoDup (claimedIndices claims) ->
  NoDup (concat (map (fun e => EmergingTheme.data_points
                                 (emergingTheme unmatched e)) claims)).
Proof.
  intros Hids Hnd. rewrite claimed_refs. apply omap_NoDup; [|exact Hnd].
  intros i j r Hi Hj.
  destruct (unmatched !! i) as [p|] eqn:Ep; [|discriminate].
  destruct (unmatched !! j) as [q|] eqn:Eq; [|discriminate].
  simpl in Hi, Hj. injection Hi as <-. injection Hj as Hj _ _.
  apply (NoDup_lookup _ i j (DataPoint.id p) Hids).
  - now rewrite list_lookup_fmap, Ep.
  - rewrite list_lookup_fmap, Eq. simpl. now rewrite Hj.
Qed.

End EmergingFacts.

Module EmergingClaims.
Import Analyzer Props EmergingFacts.

(** C7.  No unmatched signal is claimed by two emerging themes: the indices
    claimed across the returned list have no duplicate, the [data_points]
    of each theme are the references to the signals of its indices, and no
    reference occurs twice when the signals have distinct ids.  The table
    lists, for each n-gram, the signals that contain it; the n-grams with at
    least [minFrequency] signals are processed in descending order of the
    size of their containing set, the themes come out in that order, a
    theme is pushed only with at least [minFrequency] unclaimed signals, and
    it claims exactly the signals of its containing set that the themes
    before it left. *)
Theorem emerging_claims_disjoint (unmatched : list DataPoint.t)
    (stopWords : gset string) (minFrequency : Z) :
  let table := ngramTable unmatched stopWords in
  let sorted := sortedNgrams table minFrequency in
  let claims := emergingClaims unmatched stopWords minFrequency in
  let themes := detectEmergingThemes unmatched stopWords minFrequency in
  NoDup (claimedIndices claims)
  /\ Forall2 (fun e th => EmergingTheme.ngram th = fst e
                          /\ refsOf unmatched (snd e) (EmergingTheme.data_points th))
       claims themes
  /\ (NoDup (map DataPoint.id unmatched) ->
      NoDup (concat (map EmergingTheme.data_points themes)))
  /\ (NoDup (map fst table)
      /\ forall ng pts,
          In (ng, pts) table ->
          forall i, In i pts <-> containsNgram unmatched stopWords ng i)
  /\ StronglySorted sizeDesc sorted
  /\ (forall e, In e sorted <->
                In e table /\ (minFrequency <= Z.of_nat (length (snd e)))%Z)
  /\ sublist (map fst claims) (map fst sorted)
  /\ Forall (fun e => (minFrequency <= Z.of_nat (length (snd e)))%Z) claims
  /\ (forall l1 ng idx l2,
         claims = l1 ++ (ng, idx) :: l2 ->
         exists pts, In (ng, pts) sorted
                     /\ idx = unclaimedOf (claimedIndices l1) pts).
Proof.
  intros table sorted claims themes.
  assert (Hok : Forall (fun e => NoDup (snd e)) sorted).
  { apply List.Forall_forall. intros e He.
    apply sortedNgrams_in in He. destruct He as [He _].
    pose proof (ngramTable_ok unmatched stopWords) as Hok.
    unfold tableOk in Hok. rewrite List.Forall_forall in Hok.
    now destruct (Hok e He). }
  assert (Hnd : NoDup (claimedIndices claims)).
  { apply claimLoop_NoDup. exact Hok. }
  split; [exact Hnd|].
  split.
  { apply themes_refs, emergingClaims_in_range. }
  split.
  { intros Hids. subst themes. unfold detectEmergingThemes. fold claims.
    rewrite map_map. now apply claimed_refs_NoDup. }
  split.
  { split; [apply ngramTable_keys|]. intros ng pts.
    apply ngramTable_contains. }
  split; [apply sortedNgrams_sorted|].
  split; [intros e; apply sortedNgrams_in|].
  split; [apply claimLoop_order|].
  split; [apply claimLoop_min|].
  intros l1 ng idx l2 E. apply claimLoop_exact in E.
  destruct E as (pts & Hin & ->). exists pts. split; [exact Hin|].
  apply filter_ext. intros i. f_equal. apply bool_decide_ext.
  rewrite elem_of_union, elem_of_list_to_set, elem_of_empty. tauto.
Qed.

(** The greedy loop on [fiveSignals]: "dark mode" claims the first three,
    "export pdf" the two that are left. *)
Lemma emerging_claims_disjoint_witness :
  emergingClaims fiveSignals ∅ 2
  = [] ++ ("dark mode"%string, [0; 1; 2]) :: [("export pdf"%string, [3; 4])]
  /\ exists pts,
      In ("dark mode"%string, pts) (sortedNgrams (ngramTable fiveSignals ∅) 2)
      /\ [0; 1; 2] = unclaimedOf (claimedIndices []) pts.
Proof.
  assert (H : emergingClaims fiveSignals ∅ 2
              = [] ++ ("dark mode"%string, [0; 1; 2])
                   :: [("export pdf"%string, [3; 4])])
    by (vm_compute; reflexivity).
  split; [exact H|].
  exact (proj2 (proj2 (proj2 (proj2 (proj2 (proj2 (proj2 (proj2
           (emerging_claims_disjoint fiveSignals ∅ 2))))))))
           [] "dark mode"%string [0; 1; 2] [("export pdf"%string, [3; 4])] H).
Defined.

(** C10.  The themes are returned in the order of the claims of the greedy
    loop, one for each claim.  The theme of a claim carries the n-gram of
    the claim; the n-gram has an entry among the sorted candidates, which
    lists the unmatched signals that contain it; the claim holds the
    signals of this entry that the claims before it have left, in the order
    of the entry; the [data_points] of the theme are the references to
    these signals, and its [frequency] is their number: the length of
    [data_points], at most the number of signals that contain the n-gram.
    It can be smaller: in [fiveSignals], "export pdf" is in three signals
    and claims two. *)
Theorem emerging_frequency :
  (forall unmatched stopWords minFrequency,
     let sorted := sortedNgrams (ngramTable unmatched stopWords) minFrequency in
     let claims := emergingClaims unmatched stopWords minFrequency in
     let themes := detectEmergingThemes unmatched stopWords minFrequency in
     length themes = length claims
     /\ forall k th,
          themes !! k = Some th ->
          exists idx pts,
            claims !! k = Some (EmergingTheme.ngram th, idx)
            /\ In (EmergingTheme.ngram th, pts) sorted
            /\ (forall i, In i pts <->
                          containsNgram unmatched stopWords
                            (EmergingTheme.ngram th) i)
            /\ idx = unclaimedOf (claimedIndices (take k claims)) pts
            /\ refsOf unmatched idx (EmergingTheme.data_points th)
            /\ EmergingTheme.frequency th = length idx
            /\ EmergingTheme.frequency th
               = length (EmergingTheme.data_points th)
            /\ EmergingTheme.frequency th <= length pts)
  /\ (exists th pts,
        detectEmergingThemes fiveSignals ∅ 2 !! 1 = Some th
        /\ In (EmergingTheme.ngram th, pts)
             (sortedNgrams (ngramTable fiveSignals ∅) 2)
        /\ EmergingTheme.frequency th = 2
        /\ length pts = 3).
Proof.
  split.
  - intros unmatched stopWords minFrequency sorted claims themes.
    split; [apply length_map|].
    intros k th Hk. unfold themes, detectEmergingThemes in Hk.
    fold claims in Hk.
    change (map (emergingTheme unmatched) claims)
      with (emergingTheme unmatched <$> claims) in Hk.
    rewrite list_lookup_fmap in Hk.
    destruct (claims !! k) as [[ng idx]|] eqn:Ek; [|discriminate].
    injection Hk as <-. cbn [emergingTheme fst snd EmergingTheme.ngram
                              EmergingTheme.frequency
                              EmergingTheme.data_points].
    pose proof (take_drop_middle _ _ _ Ek) as E. symmetry in E.
    pose proof E as E'. apply claimLoop_exact in E'.
    destruct E' as (pts & Hin & Hidx).
    assert (Hrefs : refsOf unmatched idx
                      (omap (fun i => pointRef <$> unmatched !! i) idx)).
    { apply data_points_refs.
      pose proof (emergingClaims_in_range unmatched stopWords minFrequency)
        as Hr.
      rewrite List.Forall_forall in Hr.
      apply (Hr (ng, idx)). fold claims. rewrite E.
      apply in_elt. }
    exists idx, pts. split; [reflexivity|]. split; [exact Hin|].
    split.
    { apply ngramTable_contains. now apply sortedNgrams_in in Hin. }
    split.
    { rewrite Hidx. apply filter_ext. intros i. f_equal.
      apply bool_decide_ext.
      rewrite elem_of_union, elem_of_list_to_set, elem_of_empty. tauto. }
    split; [exact Hrefs|]. split; [reflexivity|].
    split; [exact (Forall2_length _ _ _ Hrefs)|].
    rewrite Hidx. apply List.filter_length_le.
  - exists (emergingTheme fiveSignals ("export pdf"%string, [3; 4])), [2; 3; 4].
    vm_compute. repeat split. tauto.
Qed.

(** In [fiveSignals] the second theme is "export pdf": of the signals 2, 3
    and 4 that contain it, "dark mode" has claimed the signal 2. *)
Lemma emerging_frequency_witness :
  exists th idx pts,
    detectEmergingThemes fiveSignals ∅ 2 !! 1 = Some th
    /\ EmergingTheme.ngram th = "export pdf"%string
    /\ emergingClaims fiveSignals ∅ 2 !! 1 = Some ("export pdf"%string, idx)
    /\ idx = unclaimedOf (claimedIndices (take 1 (emergingClaims fiveSignals ∅ 2)))
               pts
    /\ pts = [2; 3; 4]
    /\ idx = [3; 4]
    /\ EmergingTheme.frequency th = length idx.
Proof.
  assert (H : detectEmergingThemes fiveSignals ∅ 2 !! 1
              = Some (emergingTheme fiveSignals ("export pdf"%string, [3; 4])))
    by (vm_compute; reflexivity).
  destruct (proj2 (proj1 emerging_frequency fiveSignals ∅ 2%Z) 1 _ H)
    as (idx & pts & Hc & Hin & _ & Hidx & _ & Hf & _).
  exists (emergingTheme fiveSignals ("export pdf"%string, [3; 4])), idx, pts.
  split; [exact H|]. split; [reflexivity|]. split; [exact Hc|].
  split; [exact Hidx|].
  assert (Hpts : pts = [2; 3; 4]).
  { vm_compute in Hin. destruct Hin as [Hin|[Hin|[]]]; [discriminate|].
    now injection Hin as <-. }
  split; [exact Hpts|]. split; [|exact Hf].
  rewrite Hidx, Hpts. vm_compute. reflexivity.
Defined.

End EmergingClaims.

(** ** Scoring *)

Module ScoringFacts.
Import Analyzer Props.
Local Open Scope R_scope.

Lemma tagBoostLoop_bonus (tags : list string) (x : R) :
  tagBoostLoop tags x = x + IZR (firstTagBonus tags).
Proof.
  unfold firstTagBonus, tagValue.
  induction tags as [|tag rest IH]; cbn [tagBoostLoop List.find].
  - lra.
  - destruct (SEVERITY_TAG_BOOST !! toLowerCase tag) as [boost|] eqn:E;
      cbn [from_option Datatypes.id].
    + destruct (boost =? 0)%Z; cbn [negb from_option Datatypes.id];
        [exact IH|now rewrite E].
    + change (0 =? 0)%Z with true. cbn [negb]. exact IH.
Qed.

Lemma pointScore_contribution (now : Z) (p : DataPoint.t) :
  pointScore now p = contribution now p.
Proof.
  unfold pointScore, contribution, threadTerm, threadsOf, tagsOf, ageDays.
  rewrite tagBoostLoop_bonus. lra.
Qed.

Lemma fold_left_Rsum {A : Type} (f : A -> R) (l : list A) (a : R) :
  fold_left (fun total p => total + f p) l a = a + Rsum (map f l).
Proof.
  revert a. induction l as [|x l IH]; intros a; simpl.
  - lra.
  - rewrite IH. lra.
Qed.

Lemma computeSeverityScore_mean (now : Z) (points : list DataPoint.t) :
  computeSeverityScore now points = severityMean now points.
Proof.
  unfold computeSeverityScore, severityMean.
  destruct (List.filter isReactive points) as [|p reactive]; [reflexivity|].
  cbn [length Nat.eqb].
  rewrite fold_left_Rsum, Rplus_0_l.
  do 3 f_equal. apply map_ext. intros q. apply pointScore_contribution.
Qed.

Lemma exp_at_zero (x : R) : x = 0 -> exp x = 1.
Proof. intros ->. apply exp_0. Qed.

Lemma Rmin_left (a b : R) : a <= b -> Rmin a b = a.
Proof. intros H. unfold Rmin. destruct (Rle_dec a b); [reflexivity|lra]. Qed.

Lemma ageDays_zero (now : Z) (p : DataPoint.t) :
  now = DataPoint.created_at p -> ageDays now p = 0.
Proof.
  intros ->. unfold ageDays. rewrite Z.sub_diag. unfold Rdiv. apply Rmult_0_l.
Qed.

End ScoringFacts.

(** ** The analysis *)

Module AnalysisFacts.
Import Analyzer Props ScoringFacts.
Local Open Scope R_scope.

(** *** Rounding *)

Lemma round2_hundredths (z : Z) : round2 (IZR z / 100) = IZR z / 100.
Proof.
  unfold round2. f_equal. f_equal. apply Zfloor_eq.
  replace (IZR z / 100 * 100) with (IZR z) by (field; lra). lra.
Qed.

Lemma round2_int (z : Z) : round2 (IZR z) = IZR z.
Proof.
  replace (IZR z) with (IZR (z * 100) / 100) at 1.
  - rewrite round2_hundredths, mult_IZR. field.
  - rewrite mult_IZR. field.
Qed.

Lemma round2_mono (x y : R) : x <= y -> round2 x <= round2 y.
Proof.
  intros Hxy. unfold round2.
  apply Rmult_le_compat_r; [lra|]. apply IZR_le.
  apply Zfloor_lub.
  pose proof (Zfloor_bound (x * 100 + / 2)). lra.
Qed.

(** *** The maximum with 1 *)



(** *** The loop that builds the results *)

Lemma indexed_cons {A : Type} (i : nat) (x : A) (l : list A) :
  indexed i (x :: l) = (i, x) :: indexed (S i) l.
Proof. reflexivity. Qed.

Lemma indexed_in {A : Type} (l : list A) :
  forall i j x,
    In (j, x) (indexed i l) <-> (i <= j)%nat /\ l !! (j - i)%nat = Some x.
Proof.
  induction l as [|y l IH]; intros i j x.
  - simpl. split; [tauto|]. now intros [_ H].
  - rewrite indexed_cons. simpl. rewrite IH. split.
    + intros [E|[Hle Hl]].
      * injection E as <- <-. split; [lia|]. now rewrite Nat.sub_diag.
      * split; [lia|]. replace (j - i)%nat with (S (j - S i)) by lia. exact Hl.
    + intros [Hle Hl]. destruct (j - i)%nat as [|n] eqn:E.
      * left. simpl in Hl. injection Hl as ->. f_equal. lia.
      * right. split; [lia|]. simpl in Hl.
        replace (j - S i)%nat with n by lia. exact Hl.
Qed.

Lemma omap_cons {A B : Type} (f : A -> option B) (x : A) (l : list A) :
  omap f (x :: l)
  = match f x with Some y => y :: omap f l | None => omap f l end.
Proof. reflexivity. Qed.

Section Loop.
Variable clock : nat -> Z.
Variable conversations : list FormattedConversation.t.
Variable featureRequests : list FormattedFeatureRequest.t.
Variable config : ThemesConfig.t.

Lemma buildThemes_omap (themes : list ThemeDefinition.t) :
  forall i,
    buildThemes clock
      (fst (matchAll (ThemesConfig.themes config)
              (allDataPoints conversations featureRequests)))
      (frequencyCountsOf conversations featureRequests config)
      (rawVoteMomentumsOf conversations featureRequests config)
      (maxFrequencyOf conversations featureRequests config)
      (maxVoteMomentumOf conversations featureRequests config) i themes
    = omap (resultAt clock conversations featureRequests config)
        (indexed i themes).
Proof.
  induction themes as [|theme rest IH]; intros i; [reflexivity|].
  rewrite indexed_cons, omap_cons. cbn [buildThemes]. rewrite IH.
  change (resultAt clock conversations featureRequests config (i, theme))
    with (if (length (themePoints conversations featureRequests config theme)
              =? 0)%nat
          then None
          else Some (themeResult clock conversations featureRequests config
                       i theme)).
  unfold themeResult, themePoints.
  destruct (length _ =? 0)%nat; reflexivity.
Qed.

(** The results before the sort: one per theme with matched signals, in
    the order of the configuration. *)
Lemma unsortedThemes_omap :
  unsortedThemes clock conversations featureRequests config
  = omap (resultAt clock conversations featureRequests config)
      (indexed 0 (ThemesConfig.themes config)).
Proof. unfold unsortedThemes. apply buildThemes_omap. Qed.

Lemma unsortedThemes_in (tm : ThemeMatch.t) :
  In tm (unsortedThemes clock conversations featureRequests config) <->
  exists i theme,
    ThemesConfig.themes config !! i = Some theme
    /\ themePoints conversations featureRequests config theme <> []
    /\ tm = themeResult clock conversations featureRequests config i theme.
Proof.
  rewrite unsortedThemes_omap, <- list_elem_of_In, list_elem_of_omap.
  split.
  - intros ([i theme] & Hin & Hres).
    apply list_elem_of_In, indexed_in in Hin. destruct Hin as [_ Hin].
    rewrite Nat.sub_0_r in Hin. unfold resultAt in Hres. cbn [fst snd] in Hres.
    destruct (themePoints conversations featureRequests config theme) eqn:E;
      [discriminate|].
    simpl in Hres. injection Hres as <-.
    exists i, theme. rewrite E. repeat split; [exact Hin|discriminate].
  - intros (i & theme & Hin & Hne & ->).
    exists (i, theme). split.
    + apply list_elem_of_In, indexed_in. split; [lia|].
      now rewrite Nat.sub_0_r.
    + unfold resultAt. cbn [fst snd].
      destruct (themePoints conversations featureRequests config theme);
        [contradiction|reflexivity].
Qed.

Lemma result_themes_perm :
  Permutation
    (AnalysisResult.themes
       (analyzeFeedback clock conversations featureRequests config))
    (unsortedThemes clock conversations featureRequests config).
Proof. apply SortFacts.sort_perm. Qed.

Lemma result_themes_in (tm : ThemeMatch.t) :
  In tm (AnalysisResult.themes
           (analyzeFeedback clock conversations featureRequests config)) <->
  exists i theme,
    ThemesConfig.themes config !! i = Some theme
    /\ themePoints conversations featureRequests config theme <> []
    /\ tm = themeResult clock conversations featureRequests config i theme.
Proof.
  rewrite <- unsortedThemes_in. split; apply Permutation_in.
  - apply result_themes_perm.
  - apply Permutation_sym, result_themes_perm.
Qed.
End Loop.

(** *** The matching loops *)

Lemma getPoints_insert (m : gmap string (list DataPoint.t)) (id k : string)
    (pts : list DataPoint.t) :
  getPoints (<[id := pts]> m) k
  = if String.eqb id k then pts else getPoints m k.
Proof.
  unfold getPoints. destruct (String.eqb_spec id k) as [->|Hne].
  - now rewrite lookup_insert_eq.
  - now rewrite lookup_insert_ne.
Qed.

Lemma initMatches_empty (themes : list ThemeDefinition.t) (k : string) :
  getPoints (initMatches themes) k = [].
Proof.
  unfold initMatches.
  assert (H : forall m : gmap string (list DataPoint.t),
             getPoints m k = [] ->
             getPoints
               (fold_left (fun m theme => <[ThemeDefinition.id theme := []]> m)
                  themes m) k = []).
  { induction themes as [|theme rest IH]; intros m Hm; simpl; [exact Hm|].
    apply IH. rewrite getPoints_insert. now destruct (String.eqb _ k). }
  apply H. reflexivity.
Qed.

Lemma matchPoint_getPoints (themes : list ThemeDefinition.t) (dp : DataPoint.t)
    (k : string) :
  forall st,
    getPoints (fst (matchPoint themes st dp)) k
    = getPoints (fst st) k ++ matchesOf themes k dp.
Proof.
  unfold matchPoint, matchesOf.
  induction themes as [|theme rest IH]; intros [m ids]; simpl.
  - now rewrite app_nil_r.
  - destruct (matchesTheme (DataPoint.text dp) (ThemeDefinition.keywords theme)).
    + rewrite IH. cbn [fst]. rewrite getPoints_insert. simpl.
      destruct (String.eqb_spec (ThemeDefinition.id theme) k) as [->|Hne];
        simpl; [now rewrite <- app_assoc|reflexivity].
    + rewrite IH. reflexivity.
Qed.

Lemma matchLoop_getPoints (themes : list ThemeDefinition.t)
    (dataPoints : list DataPoint.t) (k : string) :
  forall st,
    getPoints (fst (fold_left (matchPoint themes) dataPoints st)) k
    = getPoints (fst st) k ++ flat_map (matchesOf themes k) dataPoints.
Proof.
  induction dataPoints as [|dp rest IH]; intros st; simpl.
  - now rewrite app_nil_r.
  - rewrite IH, matchPoint_getPoints. now rewrite <- app_assoc.
Qed.

(** The matched signals of a theme, in the order of the data points: each
    data point once for every theme of the same id that it matches. *)
Lemma themePoints_matches conversations featureRequests config theme :
  themePoints conversations featureRequests config theme
  = flat_map (matchesOf (ThemesConfig.themes config) (ThemeDefinition.id theme))
      (allDataPoints conversations featureRequests).
Proof.
  unfold themePoints, matchAll.
  rewrite matchLoop_getPoints. cbn [fst]. now rewrite initMatches_empty.
Qed.

Lemma matchesOf_distinct (themes : list ThemeDefinition.t)
    (theme : ThemeDefinition.t) (dp : DataPoint.t) :
  NoDup (map ThemeDefinition.id themes) -> In theme themes ->
  matchesOf themes (ThemeDefinition.id theme) dp
  = if matchesThemeOf theme dp then [dp] else [].
Proof.
  unfold matchesOf, matchesThemeOf.
  induction themes as [|t rest IH]; simpl; intros Hnd Hin; [destruct Hin|].
  apply NoDup_cons in Hnd. destruct Hnd as [Ht Hnd].
  destruct Hin as [->|Hin].
  - rewrite String.eqb_refl, andb_true_r.
    assert (Hrest : flat_map
              (fun t' =>
                 if matchesTheme (DataPoint.text dp) (ThemeDefinition.keywords t')
                    && String.eqb (ThemeDefinition.id t') (ThemeDefinition.id theme)
                 then [dp] else []) rest = []).
    { clear IH Hnd. induction rest as [|t' rest IH]; simpl; [reflexivity|].
      destruct (String.eqb_spec (ThemeDefinition.id t') (ThemeDefinition.id theme))
        as [E|_].
      - exfalso. apply Ht. rewrite <- E. simpl. left.
      - rewrite andb_false_r. simpl. apply IH.
        intros H. apply Ht. simpl. now right. }
    rewrite Hrest, app_nil_r. reflexivity.
  - destruct (String.eqb_spec (ThemeDefinition.id t) (ThemeDefinition.id theme))
      as [E|_].
    + exfalso. apply Ht. rewrite E. apply list_elem_of_In, in_map. exact Hin.
    + rewrite andb_false_r. simpl. now apply IH.
Qed.

(** With distinct theme ids, the matched signals of a theme are the data
    points it matches. *)
Lemma themePoints_filter conversations featureRequests config theme :
  NoDup (map ThemeDefinition.id (ThemesConfig.themes config)) ->
  In theme (ThemesConfig.themes config) ->
  themePoints conversations featureRequests config theme
  = List.filter (matchesThemeOf theme)
      (allDataPoints conversations featureRequests).
Proof.
  intros Hnd Hin. rewrite themePoints_matches.
  induction (allDataPoints conversations featureRequests) as [|dp rest IH];
    simpl; [reflexivity|].
  rewrite IH, matchesOf_distinct by assumption.
  destruct (matchesThemeOf theme dp); reflexivity.
Qed.

(** *** The scores of a result *)

Lemma nth_map_lookup {A B : Type} (f : A -> B) (l : list A) (d : B) :
  forall i x, l !! i = Some x -> nth i (map f l) d = f x.
Proof.
  induction l as [|y l IH]; intros [|i] x H; simpl in *; try discriminate.
  - now injection H as ->.
  - now apply IH.
Qed.

Section Scores.
Variable clock : nat -> Z.
Variable conversations : list FormattedConversation.t.
Variable featureRequests : list FormattedFeatureRequest.t.
Variable config : ThemesConfig.t.
Variable i : nat.
Variable theme : ThemeDefinition.t.
Hypothesis at_i : ThemesConfig.themes config !! i = Some theme.





End Scores.

Lemma filter_nonempty {A : Type} (f : A -> bool) (l : list A) :
  (0 <? length (List.filter f l))%nat = true <-> exists x, In x l /\ f x = true.
Proof.
  rewrite Nat.ltb_lt. split.
  - destruct (List.filter f l) as [|x l'] eqn:E; simpl; [lia|]. intros _.
    exists x. apply filter_In. rewrite E. now left.
  - intros (x & Hx & Hf).
    assert (Hin : In x (List.filter f l)) by now apply filter_In.
    destruct (List.filter f l); [destruct Hin|simpl; lia].
Qed.

Lemma hasSource_reactive (points : list DataPoint.t) :
  (exists p, In p points /\ isReactive p = true) <-> hasSource REACTIVE points.
Proof.
  unfold hasSource, isReactive.
  split; intros (p & Hp & Hs); exists p; (split; [exact Hp|]);
    destruct (DataPoint.source p); simpl in *; congruence.
Qed.

Lemma hasSource_proactive (points : list DataPoint.t) :
  (exists p, In p points /\ isProactive p = true) <-> hasSource PROACTIVE points.
Proof.
  unfold hasSource, isProactive.
  split; intros (p & Hp & Hs); exists p; (split; [exact Hp|]);
    destruct (DataPoint.source p); simpl in *; congruence.
Qed.

(** Every signal is reactive or proactive. *)
Lemma counts_add_up (points : list DataPoint.t) :
  (length (List.filter isReactive points)
   + length (List.filter isProactive points))%nat = length points.
Proof.
  induction points as [|p rest IH]; simpl; [reflexivity|].
  assert (Hp : (isReactive p = true /\ isProactive p = false)
               \/ (isReactive p = false /\ isProactive p = true)).
  { unfold isReactive, isProactive. destruct (DataPoint.source p); simpl; tauto. }
  destruct Hp as [[-> ->]|[-> ->]]; simpl; lia.
Qed.

(** *** The run of the example *)

Lemma example_points :
  themePoints [exampleConv] [exampleReq] exampleConfig calendarTheme
  = [ticketPoint; requestPoint].
Proof. vm_compute. reflexivity. Qed.

Lemma example_unsorted (clock : nat -> Z) :
  unsortedThemes clock [exampleConv] [exampleReq] exampleConfig
  = [themeResult clock [exampleConv] [exampleReq] exampleConfig 0 calendarTheme].
Proof.
  rewrite unsortedThemes_omap.
  change (indexed 0 (ThemesConfig.themes exampleConfig)) with [(0%nat, calendarTheme)].
  rewrite omap_cons. unfold resultAt at 1. cbn [fst snd].
  rewrite example_points. reflexivity.
Qed.

Lemma example_themes (clock : nat -> Z) :
  AnalysisResult.themes
    (analyzeFeedback clock [exampleConv] [exampleReq] exampleConfig)
  = [themeResult clock [exampleConv] [exampleReq] exampleConfig 0 calendarTheme].
Proof.
  unfold analyzeFeedback. cbn [AnalysisResult.themes].
  rewrite example_unsorted. reflexivity.
Qed.

Lemma exp_minus_one : exp (-1) <= / 2.
Proof.
  assert (H : exp (-1) * exp 1 = 1).
  { rewrite <- exp_plus. replace (-1 + 1) with 0 by lra. apply exp_0. }
  pose proof (exp_ineq1_le 1). pose proof (exp_pos (-1)). nra.
Qed.

(** The severity of the theme of the example when the clock reads the time
    the ticket was created, and a week later. *)
Lemma example_severity (now : Z) :
  computeSeverityScore now [ticketPoint; requestPoint]
  = Rmin (30 + 30 * exp (- ageDays now ticketPoint / 7)) 100.
Proof.
  rewrite computeSeverityScore_mean. unfold severityMean.
  change (List.filter isReactive [ticketPoint; requestPoint]) with [ticketPoint].
  cbn [map Rsum fold_right length INR]. unfold contribution, threadTerm.
  replace (threadsOf ticketPoint) with 1%Z by reflexivity.
  replace (firstTagBonus (tagsOf ticketPoint)) with 20%Z by (vm_compute; reflexivity).
  rewrite (Rmin_left (1 * 10) 50) by lra.
  f_equal. lra.
Qed.

Lemma example_severity_now :
  computeSeverityScore 0 [ticketPoint; requestPoint] = 60.
Proof.
  rewrite example_severity, ageDays_zero by reflexivity.
  rewrite exp_at_zero by lra. rewrite Rmin_left; lra.
Qed.

Lemma example_severity_later :
  computeSeverityScore 604800000 [ticketPoint; requestPoint] <= 45.
Proof.
  rewrite example_severity.
  replace (- ageDays 604800000 ticketPoint / 7) with (-1).
  - pose proof exp_minus_one. pose proof (exp_pos (-1)).
    rewrite Rmin_left; lra.
  - unfold ageDays. change (DataPoint.created_at ticketPoint) with 0%Z.
    rewrite Z.sub_0_r. lra.
Qed.

(** *** The order of the results *)

(** *** What the clock reaches *)

Lemma resultAt_eq clock conversations featureRequests config i theme :
  resultAt clock conversations featureRequests config (i, theme)
  = if (length (themePoints conversations featureRequests config theme) =? 0)%nat
    then None
    else Some (themeResult clock conversations featureRequests config i theme).
Proof. reflexivity. Qed.

Lemma omap_ext_in {A B : Type} (f g : A -> option B) (l : list A) :
  (forall x, In x l -> f x = g x) -> omap f l = omap g l.
Proof.
  induction l as [|x l IH]; intros H; [reflexivity|].
  rewrite !omap_cons, (H x) by now left.
  rewrite IH; [reflexivity|]. intros y Hy. apply H. now right.
Qed.

(** The clock is read only when there is a reactive signal to score. *)
Lemma severity_clock (now1 now2 : Z) (points : list DataPoint.t) :
  (hasSource REACTIVE points -> now1 = now2) ->
  computeSeverityScore now1 points = computeSeverityScore now2 points.
Proof.
  intros H.
  destruct (List.filter isReactive points) as [|p rest] eqn:E.
  - unfold computeSeverityScore. now rewrite E.
  - rewrite H; [reflexivity|]. apply hasSource_reactive. exists p.
    apply filter_In. rewrite E. now left.
Qed.

End AnalysisFacts.

Module AnalysisClaims.
Import Analyzer Props ScoringFacts AnalysisFacts.
Local Open Scope R_scope.

(** C8, as stated, fails: the clock is read inside the scoring and is not
    an argument of the analysis, so two runs on the same conversations,
    feature requests and configuration differ when the clock has moved.
    The example scored when the ticket is created and a week later: *)
Lemma clock_changes_result :
  analyzeFeedback (fun _ => 0%Z) [exampleConv] [exampleReq] exampleConfig
  <> analyzeFeedback (fun _ => 604800000%Z) [exampleConv] [exampleReq]
       exampleConfig.
Proof.
  intros E. apply (f_equal AnalysisResult.themes) in E.
  rewrite !example_themes in E.
  assert (E' : forall a b : ThemeMatch.t,
             [a] = [b] ->
             ThemeMatch.severity_score a = ThemeMatch.severity_score b)
    by (intros a b [= ->]; reflexivity).
  apply E' in E. cbn [ThemeMatch.severity_score themeResult themeMatch] in E.
  rewrite example_points, example_severity_now in E.
  pose proof (round2_mono _ _ example_severity_later) as Hlate.
  rewrite <- E in Hlate.
  change 60 with (IZR 60) in Hlate. change 45 with (IZR 45) in Hlate.
  rewrite !round2_int in Hlate. lra.
Qed.

(** C8, amended.  The analysis is a function of the conversations, the
    feature requests, the configuration and the clock readings made while
    scoring: two runs that read the same clock for every theme with a
    REACTIVE signal give the same result.  The clock reaches the severity
    and priority scores, and through them the order of the themes, and
    nothing else: the emerging themes, the counts and all other fields of
    the themes are the same whatever the clock reads. *)
Theorem clock_dependence (clock1 clock2 : nat -> Z)
    (conversations : list FormattedConversation.t)
    (featureRequests : list FormattedFeatureRequest.t)
    (config : ThemesConfig.t) :
  let run1 := analyzeFeedback clock1 conversations featureRequests config in
  let run2 := analyzeFeedback clock2 conversations featureRequests config in
  ((forall i theme,
       ThemesConfig.themes config !! i = Some theme ->
       hasSource REACTIVE (themePoints conversations featureRequests config theme) ->
       clock1 i = clock2 i) ->
   run1 = run2)
  /\ AnalysisResult.emerging_themes run1 = AnalysisResult.emerging_themes run2
  /\ AnalysisResult.unmatched_count run1 = AnalysisResult.unmatched_count run2
  /\ AnalysisResult.total_data_points run1 = AnalysisResult.total_data_points run2
  /\ (exists unsorted1 unsorted2,
        Permutation (AnalysisResult.themes run1) unsorted1
        /\ Permutation (AnalysisResult.themes run2) unsorted2
        /\ map withoutClock unsorted1 = map withoutClock unsorted2).
Proof.
  intros run1 run2. split; [|split; [|split; [|split]]]; try reflexivity.
  - intros Hclock. unfold run1, run2, analyzeFeedback. f_equal. f_equal.
    rewrite !unsortedThemes_omap. apply omap_ext_in.
    intros [i theme] Hin. apply indexed_in in Hin. destruct Hin as [_ Hin].
    rewrite Nat.sub_0_r in Hin. unfold resultAt. cbn [fst snd].
    destruct (length _ =? 0)%nat; [reflexivity|]. f_equal.
    unfold themeResult, themeMatch.
    rewrite (severity_clock (clock1 i) (clock2 i) _ (Hclock i theme Hin)).
    reflexivity.
  - exists (unsortedThemes clock1 conversations featureRequests config),
      (unsortedThemes clock2 conversations featureRequests config).
    split; [apply result_themes_perm|]. split; [apply result_themes_perm|].
    rewrite !unsortedThemes_omap.
    induction (indexed 0 (ThemesConfig.themes config)) as [|[i theme] l IH];
      [reflexivity|].
    rewrite !omap_cons, !resultAt_eq.
    destruct (length _ =? 0)%nat; [exact IH|].
    cbn [map]. rewrite IH. reflexivity.
Qed.

(** Two clocks that differ only where no theme is scored. *)
Lemma clock_dependence_witness :
  let clock1 := fun i : nat => match i with O => 5%Z | _ => 0%Z end in
  let clock2 := fun i : nat => match i with O => 5%Z | _ => 9%Z end in
  (forall i theme,
      ThemesConfig.themes exampleConfig !! i = Some theme ->
      hasSource REACTIVE
        (themePoints [exampleConv] [exampleReq] exampleConfig theme) ->
      clock1 i = clock2 i)
  /\ analyzeFeedback clock1 [exampleConv] [exampleReq] exampleConfig
     = analyzeFeedback clock2 [exampleConv] [exampleReq] exampleConfig.
Proof.
  intros clock1 clock2.
  assert (H : forall i theme,
             ThemesConfig.themes exampleConfig !! i = Some theme ->
             hasSource REACTIVE
               (themePoints [exampleConv] [exampleReq] exampleConfig theme) ->
             clock1 i = clock2 i).
  { intros [|i] theme Hi _; [reflexivity|]. simpl in Hi. discriminate. }
  split; [exact H|].
  exact (proj1 (clock_dependence clock1 clock2 [exampleConv] [exampleReq]
                  exampleConfig) H).
Defined.

End AnalysisClaims.

(** ** More about the PII scrubber *)

Module ScrubFacts.
Import Chars Regex Pii Props RegexFacts PiiFacts PiiArray PiiProps.

(** *** The categories *)

Lemma setAdd_nonempty (x : string) (s : list string) : setAdd x s <> [].
Proof.
  unfold setAdd. destruct (existsb (String.eqb x) s) eqn:E.
  - destruct s; [discriminate|discriminate].
  - destruct s; discriminate.
Qed.

Lemma setAdd_elem (x y : string) (s : list string) :
  In x (setAdd y s) <-> x = y \/ In x s.
Proof.
  split; [apply setAdd_in|].
  unfold setAdd. destruct (existsb (String.eqb y) s) eqn:E.
  - intros [->|H]; [|exact H].
    apply existsb_exists in E. destruct E as (z & Hz & Ez).
    apply String.eqb_eq in Ez. now subst.
  - rewrite in_app_iff. simpl. intuition.
Qed.

Lemma setAdd_NoDup (y : string) (s : list string) :
  NoDup s -> NoDup (setAdd y s).
Proof.
  intros Hs. unfold setAdd. destruct (existsb (String.eqb y) s) eqn:E; [exact Hs|].
  apply NoDup_app. split; [exact Hs|]. split; [|apply NoDup_singleton].
  intros x Hx Hy. apply list_elem_of_singleton in Hy. subst x.
  assert (existsb (String.eqb y) s = true); [|congruence].
  apply existsb_exists. exists y. split; [now apply list_elem_of_In|].
  apply String.eqb_refl.
Qed.

Lemma addAll_elem (l : list string) :
  forall cats x,
    In x (fold_left (fun cats cat => setAdd cat cats) l cats) <-> In x cats \/ In x l.
Proof.
  induction l as [|c l IH]; intros cats x; simpl; [tauto|].
  rewrite IH, setAdd_elem. intuition.
Qed.

Lemma addAll_NoDup (l : list string) :
  forall cats,
    NoDup cats -> NoDup (fold_left (fun cats cat => setAdd cat cats) l cats).
Proof.
  induction l as [|c l IH]; intros cats H; simpl; [exact H|].
  apply IH. now apply setAdd_NoDup.
Qed.

(** The categories after a step: those before, with the name of the pattern
    added or not. *)
Lemma scrubStep_cats (t : string) (cats : list string) (p : PiiPattern) :
  snd (scrubStep (t, cats) p) = cats
  \/ snd (scrubStep (t, cats) p) = setAdd (name p) cats.
Proof.
  unfold scrubStep. destruct (String.eqb (name p) "credit_card").
  - destruct (replace t (pattern p) _) as [out hit]. destruct hit; simpl; tauto.
  - destruct (replace t (pattern p) _) as [out hit].
    destruct (negb (String.eqb out t)); simpl; tauto.
Qed.

(** *** A replacer that gives back the match *)

Lemma firstn_cons_skipn {A : Type} (c : A) (s' m' : list A) (k : nat) (c0 : A) :
  firstn k (c :: s') = c0 :: m' -> (c0 :: m') ++ skipn (length m') s' = c :: s'.
Proof.
  intros E. destruct k as [|k]; [discriminate|].
  simpl in E. injection E as <- <-.
  rewrite length_take.
  destruct (Nat.le_gt_cases k (length s')) as [Hle|Hgt].
  - rewrite Nat.min_l by lia. simpl. f_equal. apply firstn_skipn.
  - rewrite Nat.min_r by lia. simpl. f_equal.
    rewrite firstn_all2 by lia. rewrite skipn_all. apply app_nil_r.
Qed.

Lemma replaceFrom_same (r : regex) (f : list ascii -> list ascii * bool) :
  (forall m, snd (f m) = false -> fst (f m) = m) ->
  forall s prev skip,
    skip <= length s ->
    snd (replaceFrom r f prev s skip) = false ->
    fst (replaceFrom r f prev s skip) = skipn skip s.
Proof.
  intros Hf. induction s as [|c s' IH]; intros prev skip Hskip H.
  - simpl in *. destruct skip; [|reflexivity].
    destruct (matchAt r prev []); [|reflexivity].
    now rewrite (Hf [] H).
  - destruct skip as [|n].
    + rewrite replaceFrom_step in *.
      destruct (matchAt r prev (c :: s')) as [rest|].
      * cbv zeta in *.
        remember (firstn (length (c :: s') - length rest) (c :: s')) as m eqn:Em.
        specialize (Hf m). destruct (f m) as [out hit].
        destruct m as [|c0 m'].
        -- destruct (replaceFrom r f (Some c) s' 0) as [o h] eqn:Er.
           simpl in H. apply orb_false_iff in H. destruct H as [-> ->].
           simpl in Hf. rewrite (Hf eq_refl).
           specialize (IH (Some c) 0 ltac:(lia)). rewrite Er in IH.
           simpl in *. now rewrite IH.
        -- assert (Hlen : length m' <= length s').
           { assert (L : length (c0 :: m') <= length (c :: s'))
               by (rewrite Em, length_take; lia).
             simpl in L. lia. }
           destruct (replaceFrom r f (Some c) s' (length m')) as [o h] eqn:Er.
           simpl in H. apply orb_false_iff in H. destruct H as [-> ->].
           simpl in Hf. rewrite (Hf eq_refl).
           specialize (IH (Some c) (length m') Hlen). rewrite Er in IH.
           cbn [fst snd] in *. rewrite (IH eq_refl).
           cbn [skipn]. symmetry in Em. exact (firstn_cons_skipn _ _ _ _ _ Em).
      * destruct (replaceFrom r f (Some c) s' 0) as [o h] eqn:Er.
        specialize (IH (Some c) 0 ltac:(lia)). rewrite Er in IH.
        simpl in *. now rewrite IH.
    + simpl in *. apply IH; [lia|exact H].
Qed.

Lemma creditCardReplacer_same (rep : string) (m : list ascii) :
  snd (creditCardReplacer rep m) = false -> fst (creditCardReplacer rep m) = m.
Proof.
  unfold creditCardReplacer.
  destruct (_ && _ && _); [discriminate|reflexivity].
Qed.

(** A step that reports nothing changes nothing. *)
Lemma scrubStep_silent (t : string) (cats : list string) (p : PiiPattern) :
  snd (scrubStep (t, cats) p) = [] -> scrubStep (t, cats) p = (t, []).
Proof.
  unfold scrubStep, replace, replaceAll.
  destruct (String.eqb (name p) "credit_card").
  - pose proof (replaceFrom_same (pattern p) (creditCardReplacer (replacement p))
                  (creditCardReplacer_same _) (list_ascii_of_string t) None 0
                  ltac:(lia)) as Hs.
    destruct (replaceFrom _ _ None _ 0) as [out hit]. destruct hit; simpl.
    + intros H. now apply setAdd_nonempty in H.
    + intros ->. simpl in Hs. rewrite (Hs eq_refl).
      rewrite drop_0. now rewrite string_of_list_ascii_of_string.
  - destruct (replaceFrom _ _ None _ 0) as [out hit].
    destruct (String.eqb_spec (string_of_list_ascii out) t) as [->|Hne]; simpl.
    + now intros ->.
    + intros H. now apply setAdd_nonempty in H.
Qed.

Lemma scrubStep_cats_grow (t : string) (cats : list string) (p : PiiPattern) :
  snd (scrubStep (t, cats) p) = [] -> cats = [].
Proof.
  destruct (scrubStep_cats t cats p) as [->| ->]; [tauto|].
  intros H. now apply setAdd_nonempty in H.
Qed.

Lemma fold_scrubStep_cats_grow (ps : list PiiPattern) :
  forall t cats, snd (fold_left scrubStep ps (t, cats)) = [] -> cats = [].
Proof.
  induction ps as [|p ps IH]; intros t cats H; cbn [fold_left] in H; [exact H|].
  destruct (scrubStep (t, cats) p) as [t' cats'] eqn:E.
  apply IH in H. subst cats'.
  apply (scrubStep_cats_grow t cats p). now rewrite E.
Qed.

Lemma fold_scrubStep_silent (ps : list PiiPattern) :
  forall t cats,
    snd (fold_left scrubStep ps (t, cats)) = [] ->
    fold_left scrubStep ps (t, cats) = (t, []).
Proof.
  induction ps as [|p ps IH]; intros t cats H; cbn [fold_left] in *.
  - simpl in H. now subst.
  - destruct (scrubStep (t, cats) p) as [t' cats'] eqn:E.
    rewrite (IH _ _ H).
    assert (Hc := fold_scrubStep_cats_grow _ _ _ H). subst cats'.
    assert (Hs := scrubStep_silent t cats p). rewrite E in Hs.
    specialize (Hs eq_refl). now injection Hs as ->.
Qed.

(** *** The array version *)

Lemma scrubOne_fold (ts : list string) :
  forall scrubbed cats,
    fst (fold_left scrubOne ts (scrubbed, cats))
    = scrubbed ++ map (fun t => text (scrubPii t)) ts
    /\ (NoDup cats -> NoDup (snd (fold_left scrubOne ts (scrubbed, cats))))
    /\ (forall c,
          In c (snd (fold_left scrubOne ts (scrubbed, cats))) <->
          In c cats
          \/ exists t, In t ts /\ In c (Pii.piiCategoriesFound (scrubPii t))).
Proof.
  induction ts as [|t ts IH]; intros scrubbed cats; cbn [fold_left map].
  - rewrite app_nil_r. repeat split; try tauto.
    intros [H|(t & [] & _)]. exact H.
  - unfold scrubOne at 2 4 6.
    destruct (IH (scrubbed ++ [text (scrubPii t)])
                (fold_left (fun cats cat => setAdd cat cats)
                   (Pii.piiCategoriesFound (scrubPii t)) cats))
      as (IH1 & IH2 & IH3).
    split; [|split].
    + rewrite IH1. now rewrite <- app_assoc.
    + intros Hc. apply IH2. now apply addAll_NoDup.
    + intros c. rewrite IH3, addAll_elem. split.
      * intros [[H|H]|(t' & Ht' & Hc)].
        -- now left.
        -- right. exists t. split; [now left|exact H].
        -- right. exists t'. split; [now right|exact Hc].
      * intros [H|(t' & [<-|Ht'] & Hc)].
        -- left. now left.
        -- left. now right.
        -- right. exists t'. now split.
Qed.

(** *** The Luhn checksum *)

Lemma digit_value (c : ascii) : isDigit c = true -> code c - 48 <= 9.
Proof.
  unfold isDigit, between. rewrite andb_true_iff, !Nat.leb_le. lia.
Qed.

Lemma digit_value_inj (a b : ascii) :
  isDigit a = true -> isDigit b = true -> code a - 48 = code b - 48 -> a = b.
Proof.
  unfold isDigit, between. rewrite !andb_true_iff, !Nat.leb_le.
  intros [Ha _] [Hb _] E.
  rewrite <- (ascii_nat_embedding a), <- (ascii_nat_embedding b).
  unfold code in *. f_equal. lia.
Qed.

Lemma luhnTerm_bound (alt : bool) (n : nat) : n <= 9 -> luhnTerm alt n <= 9.
Proof.
  unfold luhnTerm. destruct alt; [|lia].
  destruct (Nat.ltb_spec 9 (n * 2)); lia.
Qed.

Lemma luhnTerm_inj (alt : bool) (n m : nat) :
  n <= 9 -> m <= 9 -> luhnTerm alt n = luhnTerm alt m -> n = m.
Proof.
  unfold luhnTerm. destruct alt; [|lia].
  destruct (Nat.ltb_spec 9 (n * 2)), (Nat.ltb_spec 9 (m * 2)); lia.
Qed.

Lemma luhnLoop_digits (l : list ascii) :
  allDigits l ->
  forall alt a, luhnLoop l alt (Some a) = Some (a + luhnSum alt l).
Proof.
  induction 1 as [|d rest Hd _ IH]; intros alt a; simpl.
  - f_equal. lia.
  - unfold parseInt10. rewrite Hd.
    destruct alt; simpl; rewrite IH; f_equal; unfold luhnTerm; lia.
Qed.

Lemma luhnSum_app (l1 l2 : list ascii) :
  forall alt,
    luhnSum alt (l1 ++ l2)
    = luhnSum alt l1 + luhnSum (Nat.iter (length l1) negb alt) l2.
Proof.
  induction l1 as [|d l1 IH]; intros alt; simpl; [reflexivity|].
  rewrite IH. rewrite <- Nat.iter_succ_r. simpl. lia.
Qed.

Lemma passesLuhn_digits (l : list ascii) :
  allDigits l -> passesLuhn l = (luhnSum false (rev l) mod 10 =? 0).
Proof.
  intros H. unfold passesLuhn. rewrite luhnLoop_digits; [reflexivity|].
  unfold allDigits. apply List.Forall_rev. exact H.
Qed.

(** *** Renaming the characters of the input

    A pattern does not tell two inputs apart when its classes, and the
    test for word characters, give the same answers on them. *)
Section Rename.
Variable f : ascii -> ascii.
Hypothesis f_word : forall c, isWord (f c) = isWord c.

Lemma wordBefore_rename (prev : option ascii) :
  wordBefore (option_map f prev) = wordBefore prev.
Proof. destruct prev; simpl; [apply f_word|reflexivity]. Qed.

Lemma wordAfter_rename (s : list ascii) :
  wordAfter (map f s) = wordAfter s.
Proof. destruct s; simpl; [reflexivity|apply f_word]. Qed.

Lemma respects_class (p : ascii -> bool) (c : ascii) :
  forallb (fun c => Bool.eqb (p (f c)) (p c)) allChars = true -> p (f c) = p c.
Proof.
  rewrite forallb_forall. intros H.
  apply eqb_prop, H, allChars_complete.
Qed.

Lemma rmatch_rename (r : regex) :
  respects f r = true ->
  forall prev s (k k' : cont),
    (forall prev' s',
        k' (option_map f prev') (map f s') = option_map (map f) (k prev' s')) ->
    rmatch r (option_map f prev) (map f s) k'
    = option_map (map f) (rmatch r prev s k).
Proof.
  induction r as [p| |r1 IH1 r2 IH2|lo hi r1 IH1|lo p]; simpl;
    intros Hr prev s k k' Hk.
  - destruct s as [|c s']; simpl; [reflexivity|].
    rewrite (respects_class p c Hr).
    destruct (p c); [apply (Hk (Some c))|reflexivity].
  - unfold atBoundary. rewrite wordBefore_rename, wordAfter_rename.
    destruct (xorb _ _); [apply Hk|reflexivity].
  - apply andb_true_iff in Hr. destruct Hr as [Hr1 Hr2].
    apply IH1; [exact Hr1|]. intros prev' s'. now apply IH2.
  - revert lo prev s.
    induction hi as [|more IHm]; intros need prev s; simpl.
    + destruct need; [apply Hk|reflexivity].
    + rewrite (IH1 Hr prev s
                 (fun prev' s' => repLoop (rmatch r1) k (pred need) more prev' s')).
      * destruct (rmatch r1 prev s _); [reflexivity|].
        destruct need; [apply Hk|reflexivity].
      * intros prev' s'. apply IHm.
  - revert lo prev.
    induction s as [|c s' IHs]; intros need prev; simpl.
    + destruct need; [apply (Hk prev [])|reflexivity].
    + rewrite (respects_class p c Hr). destruct (p c).
      * pose proof (IHs (pred need) (Some c)) as IHc.
        cbn [option_map] in IHc. rewrite IHc.
        destruct (manyLoop p k (pred need) (Some c) s'); [reflexivity|].
        destruct need; [apply (Hk prev (c :: s'))|reflexivity].
      * destruct need; [apply (Hk prev (c :: s'))|reflexivity].
Qed.

Lemma matchAt_rename (r : regex) (prev : option ascii) (s : list ascii) :
  respects f r = true ->
  matchAt r (option_map f prev) (map f s) = option_map (map f) (matchAt r prev s).
Proof. intros Hr. unfold matchAt. now apply rmatch_rename. Qed.
End Rename.

Lemma zeroDigits_word (c : ascii) : isWord (zeroDigits c) = isWord c.
Proof.
  unfold zeroDigits. destruct (isDigit c) eqn:E; [|reflexivity].
  change (isWord "0") with true. unfold isWord. rewrite E.
  now destruct (isAlpha c).
Qed.

Lemma zeroDigits_digits (d : list ascii) :
  allDigits d -> map zeroDigits d = repeat "0"%char (length d).
Proof.
  induction 1 as [|c d Hc _ IH]; simpl; [reflexivity|].
  unfold zeroDigits at 1. now rewrite Hc, IH.
Qed.

(** The credit-card pattern matches a string of 13 to 19 digits as a
    whole. *)
Lemma creditCard_matches_digits (d : list ascii) :
  allDigits d -> 13 <= length d <= 19 ->
  matchAt creditCardPattern None d = Some [].
Proof.
  intros Hd Hlen.
  pose proof (matchAt_rename zeroDigits zeroDigits_word creditCardPattern None d
                eq_refl) as H.
  rewrite (zeroDigits_digits d Hd) in H. simpl option_map in H.
  assert (Hz : matchAt creditCardPattern None (repeat "0"%char (length d)) = Some []).
  { assert (Hn : length d = 13 \/ length d = 14 \/ length d = 15
                 \/ length d = 16 \/ length d = 17 \/ length d = 18
                 \/ length d = 19) by lia.
    destruct Hn as [->|[->|[->|[->|[->|[->| ->]]]]]]; vm_compute; reflexivity. }
  rewrite Hz in H. destruct (matchAt creditCardPattern None d) as [rest|];
    [|discriminate].
  simpl in H. injection H as H. destruct rest; [reflexivity|discriminate].
Qed.

Lemma digits_not_sep (d : list ascii) : allDigits d -> free dashOrSpace d.
Proof.
  unfold allDigits, free. apply List.Forall_impl. intros c Hc.
  assert (H : forallb (fun c => implb (isDigit c) (negb (dashOrSpace c))) allChars
              = true) by (vm_compute; reflexivity).
  rewrite forallb_forall in H. specialize (H c (allChars_complete c)).
  rewrite Hc in H. simpl in H. now apply negb_true_iff in H.
Qed.

Lemma digitsOnly_digits (d : list ascii) : allDigits d -> digitsOnly d = d.
Proof.
  induction 1 as [|c d Hc _ IH]; simpl; [reflexivity|].
  now rewrite Hc, IH.
Qed.

(** Stepping over a whole input whose end admits no match. *)
Lemma replaceFrom_skip_all (r : regex) (f : list ascii -> list ascii * bool) :
  (forall prev, matchAt r prev [] = None) ->
  forall s prev, replaceFrom r f prev s (length s) = ([], false).
Proof.
  intros Hend. induction s as [|c s' IH]; intros prev; simpl.
  - now rewrite Hend.
  - apply IH.
Qed.

End ScrubFacts.

Module ScrubProperties.
Import Chars Regex Pii Props RegexFacts PiiFacts PiiArray PiiProps ScrubFacts.

(** X1.  The categories [scrubPii] reports are some of the four names, each at
    most once and in the order of the patterns. *)
Theorem scrubPii_categories (t : string) :
  sublist (Pii.piiCategoriesFound (scrubPii t)) (map name PII_PATTERNS).
Proof.
  unfold scrubPii. cbn [fold_left PII_PATTERNS map name].
  destruct (scrubStep (t, []) _) as [t1 c1] eqn:E1.
  destruct (scrubStep (t1, c1) _) as [t2 c2] eqn:E2.
  destruct (scrubStep (t2, c2) _) as [t3 c3] eqn:E3.
  destruct (scrubStep (t3, c3) _) as [t4 c4] eqn:E4.
  cbn [Pii.piiCategoriesFound].
  pose proof (scrubStep_cats t [] (mkPiiPattern "ssn" ssnPattern "[SSN REDACTED]")) as H1.
  rewrite E1 in H1.
  pose proof (scrubStep_cats t1 c1
                (mkPiiPattern "credit_card" creditCardPattern "[CC REDACTED]")) as H2.
  rewrite E2 in H2.
  pose proof (scrubStep_cats t2 c2
                (mkPiiPattern "email" emailPattern "[EMAIL REDACTED]")) as H3.
  rewrite E3 in H3.
  pose proof (scrubStep_cats t3 c3
                (mkPiiPattern "phone" phonePattern "[PHONE REDACTED]")) as H4.
  rewrite E4 in H4.
  cbn [snd name] in *.
  destruct H1 as [->| ->], H2 as [->| ->], H3 as [->| ->], H4 as [->| ->];
    vm_compute;
    repeat first [apply sublist_nil | apply sublist_skip | apply sublist_cons].
Qed.

(** X2.  Every change is reported: when [scrubPii] reports no category, the text
    it returns is the text it was given. *)
Theorem scrubPii_silent_unchanged (t : string) :
  Pii.piiCategoriesFound (scrubPii t) = [] -> text (scrubPii t) = t.
Proof.
  unfold scrubPii.
  destruct (fold_left scrubStep PII_PATTERNS (t, [])) as [t' cats] eqn:E.
  cbn [Pii.piiCategoriesFound text]. intros ->.
  pose proof (fold_scrubStep_silent PII_PATTERNS t []) as H.
  rewrite E in H. specialize (H eq_refl). now injection H.
Qed.

Lemma scrubPii_silent_unchanged_witness :
  Pii.piiCategoriesFound (scrubPii "order 12345 arrived late") = []
  /\ text (scrubPii "order 12345 arrived late") = "order 12345 arrived late"%string.
Proof.
  assert (H : Pii.piiCategoriesFound (scrubPii "order 12345 arrived late") = [])
    by (vm_compute; reflexivity).
  split; [exact H|]. exact (scrubPii_silent_unchanged _ H).
Defined.

(** X3.  [scrubPiiArray] scrubs every text in place, and the categories it
    reports are those found in some text, each once. *)
Theorem scrubPiiArray_spec (ts : list string) :
  texts (scrubPiiArray ts) = map (fun t => text (scrubPii t)) ts
  /\ NoDup (PiiArray.piiCategoriesFound (scrubPiiArray ts))
  /\ forall c,
       In c (PiiArray.piiCategoriesFound (scrubPiiArray ts)) <->
       exists t, In t ts /\ In c (Pii.piiCategoriesFound (scrubPii t)).
Proof.
  unfold scrubPiiArray.
  destruct (scrubOne_fold ts [] []) as (H1 & H2 & H3).
  destruct (fold_left scrubOne ts ([], [])) as [scrubbed cats].
  cbn [texts PiiArray.piiCategoriesFound fst snd] in *.
  split; [exact H1|]. split; [apply H2; constructor|].
  intros c. rewrite H3. simpl. tauto.
Qed.

(** X4.  The Luhn checksum detects every single wrong digit: if a string of
    digits passes, the string with one digit replaced by another does
    not. *)
Theorem luhn_detects_single_error (pre post : list ascii) (a b : ascii) :
  allDigits pre -> allDigits post -> isDigit a = true -> isDigit b = true ->
  a <> b ->
  passesLuhn (pre ++ a :: post) = true ->
  passesLuhn (pre ++ b :: post) = false.
Proof.
  intros Hpre Hpost Ha Hb Hne Hpass.
  assert (Hall : forall x, isDigit x = true -> allDigits (pre ++ x :: post)).
  { intros x Hx. apply Forall_app. split; [exact Hpre|now constructor]. }
  rewrite passesLuhn_digits in * by now apply Hall.
  rewrite rev_app_distr in *. cbn [rev] in *.
  rewrite <- !app_assoc in *. cbn [app] in *.
  rewrite luhnSum_app in *. cbn [luhnSum] in *.
  set (alt := Nat.iter (length (rev post)) negb false) in *.
  set (x := luhnSum false (rev post)) in *.
  set (y := luhnSum (negb alt) (rev pre)) in *.
  pose proof (luhnTerm_bound alt _ (digit_value a Ha)) as Ba.
  pose proof (luhnTerm_bound alt _ (digit_value b Hb)) as Bb.
  apply Nat.eqb_eq in Hpass. apply Nat.eqb_neq. intros Hb0.
  assert (E : luhnTerm alt (code a - 48) = luhnTerm alt (code b - 48)).
  { set (ta := luhnTerm alt (code a - 48)) in *.
    set (tb := luhnTerm alt (code b - 48)) in *.
    clearbody ta tb x y. clear -Hpass Hb0 Ba Bb.
    apply Nat.Div0.mod_divides in Hpass, Hb0.
    destruct Hpass as [q1 H1], Hb0 as [q2 H2]. lia. }
  apply luhnTerm_inj in E; [|now apply digit_value|now apply digit_value].
  apply Hne. now apply digit_value_inj.
Qed.

Lemma luhn_detects_single_error_witness :
  passesLuhn (list_ascii_of_string "4111111111111111") = true
  /\ passesLuhn (list_ascii_of_string "4111111171111111") = false.
Proof.
  split; [vm_compute; reflexivity|].
  apply (luhn_detects_single_error
           (list_ascii_of_string "41111111") (list_ascii_of_string "1111111")
           "1"%char "7"%char).
  - unfold allDigits. repeat constructor.
  - unfold allDigits. repeat constructor.
  - reflexivity.
  - reflexivity.
  - discriminate.
  - vm_compute. reflexivity.
Defined.

(** X5.  A card number on its own is always redacted: a text that is 13 to 19
    digits passing the Luhn checksum comes back as the placeholder, with
    the category reported. *)
Theorem scrubPii_redacts_card_number (d : list ascii) :
  allDigits d -> 13 <= length d <= 19 -> passesLuhn d = true ->
  scrubPii (string_of_list_ascii d)
  = {| text := "[CC REDACTED]"; Pii.piiCategoriesFound := ["credit_card"%string] |}.
Proof.
  intros Hd Hlen Hluhn. unfold scrubPii. cbn [fold_left PII_PATTERNS].
  rewrite (scrubStep_free dashOrSpace);
    [|reflexivity|rewrite list_ascii_of_string_of_list_ascii; now apply digits_not_sep].
  assert (Hcc : scrubStep (string_of_list_ascii d, [])
                  (mkPiiPattern "credit_card" creditCardPattern "[CC REDACTED]")
                = ("[CC REDACTED]"%string, ["credit_card"%string])).
  { unfold scrubStep, replace, replaceAll. cbn [name pattern replacement].
    rewrite list_ascii_of_string_of_list_ascii.
    destruct d as [|c d']; [simpl in Hlen; lia|].
    rewrite replaceFrom_step, (creditCard_matches_digits _ Hd Hlen).
    cbv zeta. rewrite Nat.sub_0_r, firstn_all.
    unfold creditCardReplacer. rewrite (digitsOnly_digits _ Hd), Hluhn.
    destruct Hlen as [Hlo Hhi].
    apply Nat.leb_le in Hlo, Hhi. rewrite Hlo, Hhi. cbn [andb].
    rewrite replaceFrom_skip_all.
    - reflexivity.
    - intros prev. unfold matchAt.
      apply (rmatch_needs isDigit); [reflexivity|constructor]. }
  rewrite Hcc.
  rewrite (scrubStep_free (isChar "@")); [|reflexivity|repeat constructor].
  rewrite (scrubStep_free isDigit); [|reflexivity|repeat constructor].
  reflexivity.
Qed.

Lemma scrubPii_redacts_card_number_witness :
  scrubPii "5500005555555559"
  = {| text := "[CC REDACTED]"; Pii.piiCategoriesFound := ["credit_card"%string] |}.
Proof.
  apply (scrubPii_redacts_card_number (list_ascii_of_string "5500005555555559")).
  - unfold allDigits. repeat constructor.
  - simpl. lia.
  - vm_compute. reflexivity.
Defined.

End ScrubProperties.

(** ** More about the analyzer *)

Module TokenFacts.
Import Chars Regex Analyzer Props RegexFacts AnalyzerProps.

(** Replacing the characters of a class, one by one. *)
Lemma replaceFrom_cls (p : ascii -> bool) (x : ascii) (s : list ascii) :
  forall prev,
    fst (replaceFrom (Cls p) (fun _ => ([x], false)) prev s 0)
    = map (fun c => if p c then x else c) s.
Proof.
  induction s as [|c s' IH]; intros prev; [reflexivity|].
  rewrite replaceFrom_step. unfold matchAt. cbn [rmatch map].
  destruct (p c).
  - replace (length (c :: s') - length s') with 1 by (simpl; lia).
    change (firstn 1 (c :: s')) with (c :: firstn 0 s').
    rewrite firstn_O. cbn [length].
    specialize (IH (Some c)).
    destruct (replaceFrom (Cls p) _ (Some c) s' 0) as [o h].
    simpl in *. now rewrite IH.
  - specialize (IH (Some c)).
    destruct (replaceFrom (Cls p) _ (Some c) s' 0) as [o h].
    simpl in *. now rewrite IH.
Qed.

Lemma splitLoop_chars (Q : ascii -> Prop) (s : list ascii) :
  Forall (fun c => isSpace c = false -> Q c) s ->
  forall cur inSep,
    Forall Q cur ->
    Forall (fun w => Forall Q (list_ascii_of_string w)) (splitLoop cur inSep s).
Proof.
  induction 1 as [|c s' Hc _ IH]; intros cur inSep Hcur; simpl.
  - constructor; [|constructor].
    rewrite list_ascii_of_string_of_list_ascii. now apply List.Forall_rev.
  - destruct (isSpace c) eqn:Es.
    + destruct inSep.
      * apply IH. constructor.
      * constructor; [|apply IH; constructor].
        rewrite list_ascii_of_string_of_list_ascii. now apply List.Forall_rev.
    + apply IH. constructor; [now apply Hc|exact Hcur].
Qed.

End TokenFacts.

Module TokenProperties.
Import Chars Regex Analyzer Props RegexFacts AnalyzerProps TokenFacts.

(** X6.  Every token is at least three characters long, is no stop word, and is
    made of lower-case letters and digits only. *)
Theorem tokenize_tokens (text : string) (stopWords : gset string) (w : string) :
  In w (tokenize text stopWords) ->
  3 <= String.length w
  /\ (w ∉ stopWords)
  /\ Forall (fun c => tokenChar c = true) (list_ascii_of_string w).
Proof.
  unfold tokenize. intros H. apply filter_In in H. destruct H as [Hin Hc].
  apply andb_true_iff in Hc. destruct Hc as [Hlen Hstop].
  apply Nat.ltb_lt in Hlen. apply negb_true_iff, bool_decide_eq_false in Hstop.
  split; [lia|]. split; [exact Hstop|].
  unfold replaceAll in Hin. rewrite replaceFrom_cls in Hin.
  unfold splitSpaces in Hin.
  pose proof (splitLoop_chars (fun c => tokenChar c = true)
                (map (fun c => if notTokenChar c then " "%char else c)
                   (list_ascii_of_string text))) as Hs.
  assert (Hpre : Forall (fun c => isSpace c = false -> tokenChar c = true)
                   (map (fun c => if notTokenChar c then " "%char else c)
                      (list_ascii_of_string text))).
  2:{ specialize (Hs Hpre [] false ltac:(constructor)).
      rewrite List.Forall_forall in Hs. exact (Hs w Hin). }
  apply List.Forall_forall. intros c Hc Hsp.
  apply in_map_iff in Hc. destruct Hc as (c0 & <- & _).
  unfold notTokenChar, tokenChar in *.
  destruct (isLower c0 || isDigit c0 || isSpace c0) eqn:E; simpl in *.
  - rewrite Hsp in E. now rewrite orb_false_r in E.
  - discriminate.
Qed.

Lemma tokenize_tokens_witness :
  In "invoice"%string (tokenize "the invoice #42 is wrong" {["the"%string]})
  /\ 3 <= String.length "invoice"
  /\ ("invoice"%string ∉ ({["the"%string]} : gset string))
  /\ Forall (fun c => tokenChar c = true) (list_ascii_of_string "invoice").
Proof.
  assert (H : In "invoice"%string
                (tokenize "the invoice #42 is wrong" {["the"%string]})).
  { vm_compute. left. reflexivity. }
  split; [exact H|]. exact (tokenize_tokens _ _ _ H).
Defined.

End TokenProperties.

Module ScoreFacts.
Import Chars Regex Analyzer Props AnalyzerProps ScoringFacts AnalysisFacts.
Local Open Scope R_scope.

(** *** Vote momentum in closed form *)




(** *** Bounds *)







(** The matched signals of a theme are data points of the run. *)
Lemma themePoints_in conversations featureRequests config theme p :
  In p (themePoints conversations featureRequests config theme) ->
  In p (allDataPoints conversations featureRequests).
Proof.
  rewrite themePoints_matches. intros H. apply in_flat_map in H.
  destruct H as (dp & Hdp & H). unfold matchesOf in H.
  apply in_flat_map in H. destruct H as (t & _ & H).
  destruct (_ && _); [|destruct H]. destruct H as [<-|[]]. exact Hdp.
Qed.

Lemma allDataPoints_in conversations featureRequests p :
  In p (allDataPoints conversations featureRequests) ->
  (exists conv, In conv conversations /\ p = conversationToDataPoint conv)
  \/ (exists req, In req featureRequests /\ p = featureRequestToDataPoint req).
Proof.
  unfold allDataPoints. rewrite in_app_iff, !in_map_iff.
  intros [(c & <- & Hc)|(r & <- & Hr)]; [left|right]; eauto.
Qed.

End ScoreFacts.

Module ScoreProperties.
Import Chars Regex Analyzer Props AnalyzerProps ScoringFacts AnalysisFacts ScoreFacts.
Local Open Scope R_scope.



End ScoreProperties.

Module CoverageFacts.
Import Chars Regex Analyzer Props AnalyzerProps AnalysisFacts ScoreFacts.

(** *** The ids the matching loops collect *)

Lemma matchPoint_ids (themes : list ThemeDefinition.t) (dp : DataPoint.t)
    (id : string) :
  forall st,
    id ∈ snd (matchPoint themes st dp) <->
    id ∈ snd st
    \/ (id = DataPoint.id dp
        /\ exists theme, In theme themes /\ matchesThemeOf theme dp = true).
Proof.
  unfold matchPoint, matchesThemeOf.
  induction themes as [|theme rest IH]; intros [m ids]; simpl.
  - split; [tauto|]. intros [H|(_ & t & [] & _)]. exact H.
  - destruct (matchesTheme (DataPoint.text dp) (ThemeDefinition.keywords theme))
      eqn:E; rewrite IH; cbn [snd].
    + rewrite elem_of_union, elem_of_singleton. split.
      * intros [[->|H]|(-> & t & Ht & Hm)].
        -- right. split; [reflexivity|]. exists theme. split; [now left|exact E].
        -- now left.
        -- right. split; [reflexivity|]. exists t. split; [now right|exact Hm].
      * intros [H|(-> & t & Ht & Hm)]; [left; now right|].
        left. now left.
    + split.
      * intros [H|(-> & t & Ht & Hm)]; [now left|].
        right. split; [reflexivity|]. exists t. split; [now right|exact Hm].
      * intros [H|(-> & t & [<-|Ht] & Hm)]; [now left|congruence|].
        right. split; [reflexivity|]. now exists t.
Qed.

Lemma matchLoop_ids (themes : list ThemeDefinition.t)
    (dataPoints : list DataPoint.t) (id : string) :
  forall st,
    id ∈ snd (fold_left (matchPoint themes) dataPoints st) <->
    id ∈ snd st
    \/ exists dp theme,
         In dp dataPoints /\ DataPoint.id dp = id
         /\ In theme themes /\ matchesThemeOf theme dp = true.
Proof.
  induction dataPoints as [|dp rest IH]; intros st; simpl.
  - split; [tauto|]. intros [H|(dp & t & [] & _)]. exact H.
  - rewrite IH, matchPoint_ids. split.
    + intros [[H|(-> & t & Ht & Hm)]|(dp' & t & Hdp & Hid & Ht & Hm)].
      * now left.
      * right. exists dp, t. repeat split; try assumption. now left.
      * right. exists dp', t. repeat split; try assumption. now right.
    + intros [H|(dp' & t & [<-|Hdp] & Hid & Ht & Hm)].
      * left. now left.
      * left. right. split; [now symmetry|]. now exists t.
      * right. exists dp', t. now repeat split.
Qed.

(** An id is collected when a data point with this id matches a theme. *)
Lemma matchedIds_spec conversations featureRequests config (id : string) :
  id ∈ matchedIdsOf conversations featureRequests config <->
  exists dp theme,
    In dp (allDataPoints conversations featureRequests)
    /\ DataPoint.id dp = id
    /\ In theme (ThemesConfig.themes config)
    /\ matchesThemeOf theme dp = true.
Proof.
  unfold matchedIdsOf, matchAll. rewrite matchLoop_ids. cbn [snd].
  rewrite elem_of_empty. tauto.
Qed.

(** A data point that matches a theme is among the matched signals kept
    under the id of the theme. *)
Lemma themePoints_has conversations featureRequests config theme dp :
  In dp (allDataPoints conversations featureRequests) ->
  In theme (ThemesConfig.themes config) ->
  matchesThemeOf theme dp = true ->
  In dp (themePoints conversations featureRequests config theme).
Proof.
  intros Hdp Ht Hm. rewrite themePoints_matches.
  apply in_flat_map. exists dp. split; [exact Hdp|].
  unfold matchesOf. apply in_flat_map. exists theme. split; [exact Ht|].
  unfold matchesThemeOf in Hm. rewrite Hm, String.eqb_refl. now left.
Qed.

Lemma omap_length_le {A B : Type} (f : A -> option B) (l : list A) :
  length (omap f l) <= length l.
Proof.
  induction l as [|x l IH]; [simpl; lia|].
  rewrite omap_cons. destruct (f x); cbn [length]; lia.
Qed.

Lemma indexed_length {A : Type} (i : nat) (l : list A) :
  length (indexed i l) = length l.
Proof.
  unfold indexed. rewrite length_combine, length_seq. lia.
Qed.

End CoverageFacts.

Module CoverageProperties.
Import Chars Regex Analyzer Props AnalyzerProps AnalysisFacts ScoreFacts CoverageFacts.

(** X9.  The counts of a result agree with one another: the totals add up, no
    more themes are reported than are configured, and every reported theme
    has at least one signal, its two counts add up to the number of its
    data points, and it is convergent when both counts are positive. *)
Theorem result_counts (clock : nat -> Z)
    (conversations : list FormattedConversation.t)
    (featureRequests : list FormattedFeatureRequest.t)
    (config : ThemesConfig.t) :
  let r := analyzeFeedback clock conversations featureRequests config in
  AnalysisResult.total_data_points r
  = AnalysisResult.reactive_count r + AnalysisResult.proactive_count r
  /\ AnalysisResult.unmatched_count r <= AnalysisResult.total_data_points r
  /\ length (AnalysisResult.themes r) <= AnalysisResult.known_themes_count r
  /\ forall tm,
       In tm (AnalysisResult.themes r) ->
       0 < length (ThemeMatch.data_points tm)
       /\ ThemeMatch.reactive_count tm + ThemeMatch.proactive_count tm
          = length (ThemeMatch.data_points tm)
       /\ ThemeMatch.convergent tm
          = (0 <? ThemeMatch.reactive_count tm)
            && (0 <? ThemeMatch.proactive_count tm).
Proof.
  intros r. subst r.
  split; [|split; [|split]].
  - unfold analyzeFeedback. cbn [AnalysisResult.total_data_points
      AnalysisResult.reactive_count AnalysisResult.proactive_count].
    unfold allDataPoints. now rewrite length_app, !length_map.
  - unfold analyzeFeedback. cbn [AnalysisResult.total_data_points
      AnalysisResult.unmatched_count].
    unfold unmatchedPoints. apply List.filter_length_le.
  - rewrite (Permutation_length (result_themes_perm clock _ _ _)).
    change (AnalysisResult.known_themes_count
              (analyzeFeedback clock conversations featureRequests config))
      with (length (ThemesConfig.themes config)).
    rewrite unsortedThemes_omap.
    etransitivity; [apply omap_length_le|]. now rewrite indexed_length.
  - intros tm Hin. apply result_themes_in in Hin.
    destruct Hin as (i & theme & Hi & Hne & ->).
    unfold themeResult, themeMatch.
    cbn [ThemeMatch.data_points ThemeMatch.reactive_count
         ThemeMatch.proactive_count ThemeMatch.convergent].
    rewrite length_map, counts_add_up.
    split; [|split; reflexivity].
    destruct (themePoints conversations featureRequests config theme);
      [contradiction|simpl; lia].
Qed.

(** X10.  No signal is lost: a data point of the run is among the unmatched
    signals, or a reported theme lists a signal with its id.  The
    unmatched signals are data points that match no configured theme. *)
Theorem signals_accounted_for (clock : nat -> Z)
    (conversations : list FormattedConversation.t)
    (featureRequests : list FormattedFeatureRequest.t)
    (config : ThemesConfig.t) :
  (forall dp,
      In dp (allDataPoints conversations featureRequests) ->
      In dp (unmatchedPoints conversations featureRequests config)
      \/ exists tm,
           In tm (AnalysisResult.themes
                    (analyzeFeedback clock conversations featureRequests config))
           /\ In (DataPoint.id dp)
                (map PointRef.id (ThemeMatch.data_points tm)))
  /\ (forall dp,
        In dp (unmatchedPoints conversations featureRequests config) ->
        In dp (allDataPoints conversations featureRequests)
        /\ forall theme,
             In theme (ThemesConfig.themes config) ->
             matchesThemeOf theme dp = false).
Proof.
  split.
  - intros dp Hdp.
    destruct (decide (DataPoint.id dp
                      ∈ matchedIdsOf conversations featureRequests config))
      as [Hm|Hm].
    + right. apply matchedIds_spec in Hm.
      destruct Hm as (dp' & theme & Hdp' & Hid & Ht & Hmatch).
      pose proof (themePoints_has _ _ _ _ _ Hdp' Ht Hmatch) as Hin.
      apply list_elem_of_In, list_elem_of_lookup in Ht. destruct Ht as [i Hi].
      exists (themeResult clock conversations featureRequests config i theme).
      split.
      * apply result_themes_in. exists i, theme.
        split; [exact Hi|]. split; [|reflexivity].
        intros E. rewrite E in Hin. destruct Hin.
      * unfold themeResult, themeMatch. cbn [ThemeMatch.data_points].
        rewrite map_map. apply in_map_iff. exists dp'. now split.
    + left. unfold unmatchedPoints. apply filter_In. split; [exact Hdp|].
      apply negb_true_iff, bool_decide_eq_false. exact Hm.
  - intros dp Hdp. unfold unmatchedPoints in Hdp. apply filter_In in Hdp.
    destruct Hdp as [Hdp Hm]. split; [exact Hdp|].
    apply negb_true_iff, bool_decide_eq_false in Hm.
    intros theme Ht. destruct (matchesThemeOf theme dp) eqn:E; [|reflexivity].
    exfalso. apply Hm. apply matchedIds_spec. now exists dp, theme.
Qed.

(** X11.  Tickets with distinct ids and feature requests with distinct ids give
    data points with distinct ids: the prefixes ["hs-"] and ["pl-"] keep
    the two sources apart. *)
Theorem data_point_ids_distinct
    (conversations : list FormattedConversation.t)
    (featureRequests : list FormattedFeatureRequest.t) :
  NoDup (map FormattedConversation.id conversations) ->
  NoDup (map FormattedFeatureRequest.id featureRequests) ->
  NoDup (map DataPoint.id (allDataPoints conversations featureRequests)).
Proof.
  intros Hc Hr. unfold allDataPoints. rewrite map_app, !map_map.
  apply NoDup_app. split; [|split].
  - change (map (fun x => DataPoint.id (conversationToDataPoint x)) conversations)
      with (map (fun x => "hs-" +:+ pretty (FormattedConversation.id x))
              conversations).
    rewrite <- (map_map FormattedConversation.id (fun z => "hs-" +:+ pretty z)).
    assert (Hinj : Inj (=) (=) (fun z : Z => "hs-" +:+ pretty z)).
    { intros x y E. injection E as E. change (pretty x = pretty y) in E.
      now apply (inj pretty) in E. }
    now apply (NoDup_fmap_2 (fun z : Z => "hs-" +:+ pretty z)).
  - intros id H1 H2. apply list_elem_of_In, in_map_iff in H1, H2.
    destruct H1 as (c & <- & _), H2 as (q & E & _). discriminate.
  - change (map (fun x => DataPoint.id (featureRequestToDataPoint x)) featureRequests)
      with (map (fun x => "pl-" +:+ FormattedFeatureRequest.id x) featureRequests).
    rewrite <- (map_map FormattedFeatureRequest.id (fun z => "pl-" +:+ z)).
    assert (Hinj : Inj (=) (=) (fun z : string => "pl-" +:+ z)).
    { intros x y E. injection E as E. exact E. }
    now apply (NoDup_fmap_2 (fun z : string => "pl-" +:+ z)).
Qed.

Lemma data_point_ids_distinct_witness :
  NoDup (map DataPoint.id (allDataPoints [exampleConv] [exampleReq])).
Proof.
  apply data_point_ids_distinct; simpl; apply NoDup_singleton.
Defined.

End CoverageProperties.

Module KeywordFacts.
Import Chars Regex Analyzer Props AnalyzerProps.

Lemma lastOr_cons (prev : option ascii) (c : ascii) (m : list ascii) :
  lastOr prev (c :: m) = lastOr (Some c) m.
Proof.
  unfold lastOr. destruct m as [|d m]; [reflexivity|].
  change (last (c :: d :: m)) with (last (d :: m)).
  destruct (last (d :: m)) eqn:E; [reflexivity|].
  apply last_None in E. discriminate.
Qed.

Lemma lastOr_app (prev : option ascii) (pre m : list ascii) :
  lastOr (lastOr prev pre) m = lastOr prev (pre ++ m).
Proof.
  revert prev. induction pre as [|c pre IH]; intros prev; [reflexivity|].
  change ((c :: pre) ++ m) with (c :: (pre ++ m)).
  now rewrite !lastOr_cons, IH.
Qed.

(** The letters of a keyword, then a word boundary. *)
Lemma rmatch_letters (kw : list ascii) :
  forall prev s (k : cont) rest0,
    rmatch (fold_right (fun ch r => Cat (Cls (sameLetter ch)) r) Bnd kw) prev s k
    = Some rest0 <->
    exists m rest,
      s = m ++ rest /\ spells kw m
      /\ atBoundary (lastOr prev m) rest = true
      /\ k (lastOr prev m) rest = Some rest0.
Proof.
  induction kw as [|ch kw IH]; intros prev s k rest0; cbn [fold_right rmatch].
  - split.
    + intros H. exists [], s. destruct (atBoundary prev s) eqn:E; [|discriminate].
      repeat split; [constructor|exact E|exact H].
    + intros (m & rest & -> & Hm & Hb & Hk). inversion Hm; subst.
      simpl in *. unfold lastOr in *. simpl in *. now rewrite Hb.
  - destruct s as [|c s'].
    + split; [discriminate|].
      intros (m & rest & E & Hm & _). inversion Hm; subst. discriminate.
    + destruct (sameLetter ch c) eqn:El.
      * rewrite IH. split.
        -- intros (m & rest & -> & Hm & Hb & Hk).
           exists (c :: m), rest. rewrite lastOr_cons.
           repeat split; [now constructor|exact Hb|exact Hk].
        -- intros (m & rest & E & Hm & Hb & Hk). inversion Hm; subst.
           injection E as <- ->. rewrite lastOr_cons in Hb, Hk.
           now exists l', rest.
      * split; [discriminate|].
        intros (m & rest & E & Hm & _). inversion Hm; subst.
        injection E as <- _. congruence.
Qed.

Lemma matchAt_keyword (kw : string) (prev : option ascii) (s : list ascii) :
  matchAt (keywordRegex kw) prev s <> None <->
  atBoundary prev s = true
  /\ exists m rest,
       s = m ++ rest /\ spells (list_ascii_of_string kw) m
       /\ atBoundary (lastOr prev m) rest = true.
Proof.
  unfold matchAt, keywordRegex. cbn [rmatch].
  destruct (atBoundary prev s).
  - split.
    + intros H. split; [reflexivity|].
      destruct (rmatch _ prev s _) as [rest0|] eqn:E; [|contradiction].
      apply rmatch_letters in E. destruct E as (m & rest & -> & Hm & Hb & _).
      now exists m, rest.
    + intros (_ & m & rest & -> & Hm & Hb).
      assert (E : rmatch
                    (fold_right (fun ch r => Cat (Cls (sameLetter ch)) r) Bnd
                       (list_ascii_of_string kw))
                    prev (m ++ rest) (fun _ rest => Some rest) = Some rest).
      { apply rmatch_letters. now exists m, rest. }
      rewrite E. discriminate.
  - split; [now intros H|]. now intros [H _].
Qed.

(** [test] tries every position of the input. *)
Lemma test_somewhere (r : regex) (s : list ascii) :
  forall prev,
    test r prev s = true <->
    exists pre s2, s = pre ++ s2 /\ matchAt r (lastOr prev pre) s2 <> None.
Proof.
  induction s as [|c s' IH]; intros prev; cbn [test].
  - destruct (matchAt r prev []) eqn:E.
    + split; [|reflexivity]. intros _. exists [], []. split; [reflexivity|].
      unfold lastOr. simpl. now rewrite E.
    + split; [discriminate|].
      intros (pre & s2 & E2 & H). symmetry in E2. apply app_eq_nil in E2.
      destruct E2 as [-> ->]. unfold lastOr in H. simpl in H. contradiction.
  - destruct (matchAt r prev (c :: s')) eqn:E.
    + split; [|reflexivity]. intros _. exists [], (c :: s'). split; [reflexivity|].
      unfold lastOr. simpl. now rewrite E.
    + rewrite IH. split.
      * intros (pre & s2 & -> & H). exists (c :: pre), s2.
        split; [reflexivity|]. now rewrite lastOr_cons.
      * intros (pre & s2 & E2 & H). destruct pre as [|c0 pre].
        -- simpl in E2. subst s2. unfold lastOr in H. simpl in H. contradiction.
        -- injection E2 as <- ->. rewrite lastOr_cons in H. now exists pre, s2.
Qed.


Lemma test_keyword (text kw : string) :
  test (keywordRegex kw) None (list_ascii_of_string text) = true <->
  occursAsWord kw text.
Proof.
  rewrite test_somewhere. unfold occursAsWord, boundaryBetween.
  assert (L : forall l : list ascii, lastOr None l = last l)
    by (intros l; unfold lastOr; now destruct (last l)).
  split.
  - intros (pre & s2 & E & H). apply matchAt_keyword in H.
    destruct H as (Hb1 & m & rest & -> & Hm & Hb2).
    exists pre, m, rest. rewrite lastOr_app in Hb2. rewrite L in Hb1, Hb2.
    now repeat split.
  - intros (pre & m & post & E & Hm & Hb1 & Hb2).
    exists pre, (m ++ post). split; [exact E|].
    apply matchAt_keyword. split; [now rewrite L|].
    exists m, post. rewrite lastOr_app, L. now repeat split.
Qed.

(** [String.prototype.includes] *)
Lemma prefix_spec (a s : string) :
  String.prefix a s = true <-> exists post, s = a +:+ post.
Proof.
  revert s. induction a as [|c a IH]; intros s.
  - split; [intros _; now exists s|]. intros _. now destruct s.
  - destruct s as [|d s]; simpl.
    + split; [discriminate|]. intros (post & E). discriminate.
    + destruct (ascii_dec c d) as [->|Hne].
      * rewrite IH. split.
        -- intros (post & ->). now exists post.
        -- intros (post & E). injection E as ->. now exists post.
      * split; [discriminate|]. intros (post & E). injection E as <- _.
        contradiction.
Qed.

Lemma includes_spec (s kw : string) :
  includes s kw = true <-> containsText s kw.
Proof.
  unfold containsText. induction s as [|c s IH]; cbn [includes].
  - destruct (String.prefix kw EmptyString) eqn:E.
    + split; [|reflexivity]. intros _. apply prefix_spec in E.
      destruct E as (post & E). now exists EmptyString, post.
    + split; [discriminate|]. intros (pre & post & E').
      destruct pre; [|discriminate].
      assert (String.prefix kw EmptyString = true); [|congruence].
      apply prefix_spec. now exists post.
  - destruct (String.prefix kw (String c s)) eqn:E.
    + split; [|reflexivity]. intros _. apply prefix_spec in E.
      destruct E as (post & E). now exists EmptyString, post.
    + rewrite IH. split.
      * intros (pre & post & ->). now exists (String c pre), post.
      * intros (pre & post & E'). destruct pre as [|d pre].
        -- assert (String.prefix kw (String c s) = true); [|congruence].
           apply prefix_spec. now exists post.
        -- injection E' as _ ->. now exists pre, post.
Qed.

End KeywordFacts.

Module KeywordProperties.
Import Chars Regex Analyzer Props AnalyzerProps KeywordFacts.

(** X12.  A text matches a list of keywords when one of them occurs in it: a
    keyword with a space as a piece of the text, in lower case and
    wherever it is, a keyword without a space as a word of its own, in
    any case, with a word boundary on each side. *)
Theorem matchesTheme_spec (text : string) (keywords : list string) :
  matchesTheme text keywords = true <->
  exists kw, In kw keywords /\ keywordOccurs text kw.
Proof.
  induction keywords as [|kw rest IH]; cbn [matchesTheme].
  - split; [discriminate|]. intros (kw & [] & _).
  - assert (Hone : (if includes kw " "
                    then includes text (toLowerCase kw)
                    else test (keywordRegex kw) None (list_ascii_of_string text))
                   = true <-> keywordOccurs text kw).
    { unfold keywordOccurs. destruct (includes kw " ").
      - apply includes_spec.
      - apply test_keyword. }
    destruct (includes kw " ") eqn:Esp.
    + destruct (includes text (toLowerCase kw)) eqn:Ei.
      * split; [|reflexivity]. intros _. exists kw. split; [now left|].
        now apply Hone.
      * rewrite IH. split.
        -- intros (k & Hk & Ho). exists k. split; [now right|exact Ho].
        -- intros (k & [<-|Hk] & Ho); [|now exists k].
           apply Hone in Ho. discriminate.
    + destruct (test (keywordRegex kw) None (list_ascii_of_string text)) eqn:Et.
      * split; [|reflexivity]. intros _. exists kw. split; [now left|].
        now apply Hone.
      * rewrite IH. split.
        -- intros (k & Hk & Ho). exists k. split; [now right|exact Ho].
        -- intros (k & [<-|Hk] & Ho); [|now exists k].
           apply Hone in Ho. discriminate.
Qed.

End KeywordProperties.

Module EmergingBoundFacts.
Import Analyzer Props EmergingFacts.

Lemma NoDup_below (n : nat) (l : list nat) :
  NoDup l -> Forall (fun i => i < n) l -> length l <= n.
Proof.
  intros Hnd Hlt.
  transitivity (length (seq 0 n)); [|rewrite List.length_seq; lia].
  apply List.NoDup_incl_length; [now apply NoDup_ListNoDup|].
  intros i Hi. apply in_seq. rewrite List.Forall_forall in Hlt.
  specialize (Hlt i Hi). lia.
Qed.

Lemma claimedIndices_length (minFrequency : Z) (claims : list (string * list nat)) :
  Forall (fun e => (minFrequency <= Z.of_nat (length (snd e)))%Z) claims ->
  (Z.of_nat (length claims) * minFrequency
   <= Z.of_nat (length (claimedIndices claims)))%Z.
Proof.
  unfold claimedIndices.
  induction 1 as [|e claims He _ IH]; [simpl; lia|].
  cbn [map concat length]. rewrite length_app. lia.
Qed.

Lemma claimedIndices_below (n : nat) (claims : list (string * list nat)) :
  Forall (fun e => Forall (fun i => i < n) (snd e)) claims ->
  Forall (fun i => i < n) (claimedIndices claims).
Proof.
  unfold claimedIndices.
  induction 1 as [|e claims He _ IH]; [constructor|].
  cbn [map concat]. apply Forall_app. now split.
Qed.

End EmergingBoundFacts.

Module EmergingBoundProperties.
Import Analyzer Props EmergingFacts EmergingBoundFacts.

(** X13.  The emerging themes share the unmatched signals among themselves, each
    taking at least [minFrequency] of them: there are at most
    [n / minFrequency] themes for [n] unmatched signals, and none when
    [minFrequency] exceeds [n]. *)
Theorem emerging_themes_bound (unmatched : list DataPoint.t)
    (stopWords : gset string) (minFrequency : Z) :
  (Z.of_nat (length (detectEmergingThemes unmatched stopWords minFrequency))
   * minFrequency <= Z.of_nat (length unmatched))%Z
  /\ ((Z.of_nat (length unmatched) < minFrequency)%Z ->
      detectEmergingThemes unmatched stopWords minFrequency = []).
Proof.
  assert (Hb : (Z.of_nat (length (detectEmergingThemes unmatched stopWords
                                    minFrequency))
                * minFrequency <= Z.of_nat (length unmatched))%Z).
  { unfold detectEmergingThemes. rewrite length_map.
    set (claims := emergingClaims unmatched stopWords minFrequency).
    assert (Hmin : Forall (fun e => (minFrequency <= Z.of_nat (length (snd e)))%Z)
                     claims) by apply claimLoop_min.
    assert (Hnd : NoDup (claimedIndices claims)).
    { apply claimLoop_NoDup. apply List.Forall_forall. intros e He.
      apply sortedNgrams_in in He. destruct He as [He _].
      pose proof (ngramTable_ok unmatched stopWords) as Hok.
      unfold tableOk in Hok. rewrite List.Forall_forall in Hok.
      now destruct (Hok e He). }
    pose proof (claimedIndices_below _ _
                  (emergingClaims_in_range unmatched stopWords minFrequency))
      as Hlt.
    pose proof (NoDup_below _ _ Hnd Hlt) as Hlen.
    pose proof (claimedIndices_length _ _ Hmin). lia. }
  split; [exact Hb|].
  intros Hlt.
  destruct (detectEmergingThemes unmatched stopWords minFrequency) as [|th ths];
    [reflexivity|].
  exfalso. cbn [length] in Hb. nia.
Qed.

End EmergingBoundProperties.

(** ** helpscout.ts *)

Module HelpScoutFacts.
Import Chars Regex JsString HelpScout HelpScoutProps Props RegexFacts.
Import AnalyzerProps KeywordFacts.

(** *** The rate limiter *)

Lemma filter_sorted (f : Z -> bool) (l : list Z) :
  StronglySorted Z.le l -> StronglySorted Z.le (List.filter f l).
Proof.
  induction 1 as [|x l Hl IH Hx]; simpl; [constructor|].
  destruct (f x); [|exact IH].
  constructor; [exact IH|].
  apply List.Forall_forall. intros y Hy. apply filter_In in Hy.
  rewrite List.Forall_forall in Hx. now apply Hx.
Qed.

Lemma sorted_snoc (l : list Z) (x : Z) :
  StronglySorted Z.le l -> Forall (fun t => (t <= x)%Z) l ->
  StronglySorted Z.le (l ++ [x]).
Proof.
  induction 1 as [|y l Hl IH Hy]; intros Hx; simpl.
  - repeat constructor.
  - inversion Hx; subst. constructor; [now apply IH|].
    apply Forall_app. split; [exact Hy|]. now constructor.
Qed.

Lemma filter_length_mono (f g : Z -> bool) (l : list Z) :
  (forall x, In x l -> f x = true -> g x = true) ->
  length (List.filter f l) <= length (List.filter g l).
Proof.
  induction l as [|x l IH]; intros H; simpl; [lia|].
  assert (IH' := IH (fun y Hy => H y (or_intror Hy))).
  destruct (f x) eqn:Ef.
  - rewrite (H x (or_introl eq_refl) Ef). simpl. lia.
  - destruct (g x); simpl; lia.
Qed.

(** The window that ends at [later] holds none of the timestamps when the
    first one is out of it... *)
Lemma inWindow_tail (later x : Z) (l : list Z) :
  (RATE_LIMIT_WINDOW_MS <= later - x)%Z ->
  inWindow later (x :: l) <= length l.
Proof.
  intros H. unfold inWindow. simpl.
  destruct (Z.ltb_spec (later - x) RATE_LIMIT_WINDOW_MS); [lia|].
  apply List.filter_length_le.
Qed.

Lemma inWindow_app (t0 : Z) (l1 l2 : list Z) :
  inWindow t0 (l1 ++ l2) = inWindow t0 l1 + inWindow t0 l2.
Proof. unfold inWindow. now rewrite List.filter_app, length_app. Qed.


(** *** The loops of [fetchConversations] *)

Section FetchFacts.
Variable fetchConversationsPage : nat -> option (list ConversationSummary.t * nat).
Variable fetchThreads : Z -> option (list Thread.t).

Lemma remainingPages_ok (n : nat) :
  forall page acc,
    (forall p, page <= p < page + n -> fetchConversationsPage p <> None) ->
    remainingPages fetchConversationsPage page n acc
    = Some (acc ++ pagesFrom fetchConversationsPage page n).
Proof.
  unfold pagesFrom.
  induction n as [|n IH]; intros page acc Hok; simpl.
  - now rewrite app_nil_r.
  - destruct (fetchConversationsPage page) as [[convs total]|] eqn:E.
    + rewrite IH by (intros p Hp; apply Hok; lia). now rewrite <- app_assoc.
    + exfalso. apply (Hok page); [lia|exact E].
Qed.

Lemma fetchBatch_ok (th : Z -> list Thread.t) (batch : list ConversationSummary.t) :
  (forall conv, In conv batch ->
                fetchThreads (ConversationSummary.id conv)
                = Some (th (ConversationSummary.id conv))) ->
  fetchBatch fetchThreads batch
  = Some (map (fun conv => Conversation.mk conv (th (ConversationSummary.id conv)))
            batch).
Proof.
  induction batch as [|conv rest IH]; intros Hok; simpl; [reflexivity|].
  rewrite (Hok conv (or_introl eq_refl)).
  rewrite IH by (intros c Hc; apply Hok; now right). reflexivity.
Qed.

Lemma fetchBatches_ok (th : Z -> list Thread.t) (fuel : nat) :
  forall remaining acc,
    length remaining <= fuel ->
    (forall conv, In conv remaining ->
                  fetchThreads (ConversationSummary.id conv)
                  = Some (th (ConversationSummary.id conv))) ->
    fetchBatches fetchThreads fuel remaining acc
    = Some (acc ++ map (fun conv =>
                          Conversation.mk conv (th (ConversationSummary.id conv)))
                     remaining).
Proof.
  induction fuel as [|fuel IH]; intros remaining acc Hlen Hok.
  - destruct remaining; [|simpl in Hlen; lia]. simpl. now rewrite app_nil_r.
  - destruct remaining as [|conv rest]; [simpl; now rewrite app_nil_r|].
    cbn [fetchBatches].
    rewrite (fetchBatch_ok th).
    2:{ intros c Hc. apply Hok.
        rewrite <- (firstn_skipn CONCURRENCY (conv :: rest)).
        apply in_or_app. now left. }
    rewrite IH.
    + rewrite <- app_assoc, <- map_app, firstn_skipn. reflexivity.
    + rewrite length_skipn. unfold CONCURRENCY. simpl in *. lia.
    + intros c Hc. apply Hok.
      rewrite <- (firstn_skipn CONCURRENCY (conv :: rest)).
      apply in_or_app. now right.
Qed.
End FetchFacts.

(** *** Trimming *)

Lemma trimStart_idem (s : list ascii) : trimStart (trimStart s) = trimStart s.
Proof.
  induction s as [|c s IH]; simpl; [reflexivity|].
  destruct (isSpace c) eqn:E; [exact IH|]. simpl. now rewrite E.
Qed.

Lemma trimStart_nonspace (s : list ascii) :
  trimStart s = s <-> match s with c :: _ => isSpace c = false | [] => True end.
Proof.
  destruct s as [|c s]; simpl; [tauto|].
  destruct (isSpace c) eqn:E; split; try tauto; try discriminate.
  intros H. exfalso.
  assert (L : forall l, length (trimStart l) <= length l).
  { induction l as [|d l IHl]; simpl; [lia|]. destruct (isSpace d); simpl; lia. }
  pose proof (L s) as Hl. rewrite H in Hl. simpl in Hl. lia.
Qed.

Lemma trimStart_app_nonspace (s : list ascii) (c : ascii) :
  isSpace c = false -> forall t, trimStart (s ++ c :: t) = trimStart s ++ c :: t.
Proof.
  intros Hc t. induction s as [|d s IH]; simpl.
  - now rewrite Hc.
  - destruct (isSpace d); [exact IH|reflexivity].
Qed.

Lemma trimStart_spaces (s : list ascii) :
  Forall (fun c => isSpace c = true) s -> trimStart s = [].
Proof. induction 1 as [|c s Hc _ IH]; simpl; [reflexivity|]. now rewrite Hc. Qed.

Lemma trimStart_cases (s : list ascii) :
  (trimStart s = [] /\ Forall (fun c => isSpace c = true) s)
  \/ exists c t, trimStart s = c :: t /\ isSpace c = false.
Proof.
  induction s as [|d s IH]; simpl.
  - left. split; [reflexivity|constructor].
  - destruct (isSpace d) eqn:E.
    + destruct IH as [[H1 H2]|H]; [left|right; exact H].
      split; [exact H1|]. now constructor.
    + right. now exists d, s.
Qed.

(** The end of a trimmed text is no white space either. *)
Lemma trim_idem (s : list ascii) : trim (trim s) = trim s.
Proof.
  unfold trim, trimEnd.
  set (u := trimStart s).
  (* [w] is [rev u] without its leading white space *)
  set (w := trimStart (rev u)).
  assert (Hw : trimStart w = w) by apply trimStart_idem.
  assert (Hu : trimStart (rev w) = rev w).
  { destruct (trimStart_cases (rev u)) as [[H1 H2]|(c & t & H1 & H2)].
    - unfold w. rewrite H1. reflexivity.
    - (* [rev u = sp ++ c :: t]: [u = rev t ++ c :: rev sp] *)
      assert (Hsplit : exists sp, rev u = sp ++ c :: t
                                  /\ Forall (fun x => isSpace x = true) sp).
      { clear -H1. revert H1. generalize (rev u) as l.
        induction l as [|d l IHl]; simpl; intros H; [discriminate|].
        destruct (isSpace d) eqn:E.
        - destruct (IHl H) as (sp & -> & Hsp). exists (d :: sp).
          split; [reflexivity|now constructor].
        - injection H as -> ->. exists []. split; [reflexivity|constructor]. }
      destruct Hsplit as (sp & Eu & Hsp).
      unfold w. rewrite H1.
      assert (Eu' : u = rev t ++ c :: rev sp).
      { rewrite <- (rev_involutive u), Eu, rev_app_distr. simpl.
        now rewrite <- app_assoc. }
      simpl.
      destruct (rev t) as [|x rt] eqn:Ert.
      + simpl. now rewrite H2.
      + (* the first character of [u] is no white space, as [u] is trimmed *)
        assert (Hx : isSpace x = false).
        { assert (Htu : trimStart u = u) by apply trimStart_idem.
          apply trimStart_nonspace in Htu. rewrite Eu' in Htu. exact Htu. }
        simpl. now rewrite Hx. }
  rewrite Hu, rev_involutive, Hw. reflexivity.
Qed.

Lemma trim_sub (s : list ascii) : exists pre post, s = pre ++ trim s ++ post.
Proof.
  assert (L : forall l, exists sp, l = sp ++ trimStart l).
  { induction l as [|d l IHl]; simpl; [now exists []|].
    destruct (isSpace d).
    - destruct IHl as [sp E]. exists (d :: sp). simpl. now f_equal.
    - now exists []. }
  unfold trim, trimEnd.
  destruct (L s) as [pre E1].
  destruct (L (rev (trimStart s))) as [sp E2].
  exists pre, (rev sp).
  rewrite E1 at 1. f_equal.
  rewrite <- (rev_involutive (trimStart s)) at 1.
  rewrite E2 at 1. now rewrite rev_app_distr.
Qed.

(** *** Texts without the characters a pattern needs *)

Lemma without_free (c1 c2 : ascii) (t : string) :
  without c1 c2 t ->
  free (isChar c1) (list_ascii_of_string t)
  /\ free (isChar c2) (list_ascii_of_string t).
Proof.
  unfold without, free. intros H. split; revert H; apply List.Forall_impl;
    intros c [H1 H2]; unfold isChar.
  - destruct (Ascii.eqb_spec c1 c); [congruence|reflexivity].
  - destruct (Ascii.eqb_spec c2 c); [congruence|reflexivity].
Qed.

Lemma replaceWith_free (q : ascii -> bool) (r : regex) (rep : string)
    (s : list ascii) :
  needs q r = true -> free q s -> replaceWith r rep s = s.
Proof.
  intros Hn Hf. unfold replaceWith, replaceAll.
  now rewrite (replaceFrom_free q).
Qed.


(** *** Removing the tags *)

(** The continuation of [[^>]+] in the tag pattern: a [">"] comes next. *)
Lemma tag_many (s : list ascii) :
  forall need prev r,
    manyLoop notGt
      (fun prev' s' => rmatch (chr ">") prev' s' (fun _ rest => Some rest))
      need prev s = Some r <->
    exists x, s = x ++ ">"%char :: r
              /\ Forall (fun c => notGt c = true) x /\ need <= length x.
Proof.
  induction s as [|c s' IH]; intros need prev r.
  - simpl. split.
    + destruct need; discriminate.
    + intros (x & E & _). destruct x; discriminate.
  - cbn [manyLoop]. destruct (notGt c) eqn:Ec.
    + destruct (manyLoop notGt _ (pred need) (Some c) s') as [r'|] eqn:Em.
      * apply IH in Em. destruct Em as (x & -> & Hx & Hn). split.
        -- intros [= <-]. exists (c :: x). repeat split; [now constructor|simpl; lia].
        -- intros (x' & E & Hx' & Hn'). f_equal.
           destruct x' as [|c' x']; [injection E as -> _; discriminate|].
           injection E as <- E.
           assert (Hu : forall (a b : list ascii) ra rb,
                      a ++ ">"%char :: ra = b ++ ">"%char :: rb ->
                      Forall (fun c => notGt c = true) a ->
                      Forall (fun c => notGt c = true) b -> ra = rb).
           { clear. induction a as [|y a IHa]; intros b ra rb E Ha Hb.
             - destruct b as [|z b]; [now injection E|].
               injection E as <- _. inversion Hb; subst. discriminate.
             - destruct b as [|z b].
               + injection E as -> _. inversion Ha; subst. discriminate.
               + injection E as _ E. inversion Ha; inversion Hb; subst.
                 now apply (IHa b). }
           inversion Hx'; subst. exact (Hu _ _ _ _ E Hx H2).
      * (* no longer repetition: the class stops here, and [c] is no [">"] *)
        assert (Hstop : match need with
                        | 0 => rmatch (chr ">") prev (c :: s') (fun _ rest => Some rest)
                        | S _ => None
                        end = None).
        { destruct need; [|reflexivity]. unfold chr. cbn [rmatch].
          unfold notGt in Ec. apply negb_true_iff in Ec. now rewrite Ec. }
        rewrite Hstop. split; [discriminate|].
        intros (x & E & Hx & Hn). exfalso.
        destruct x as [|c' x]; [injection E as -> _; discriminate|].
        injection E as <- E. inversion Hx; subst.
        assert (Hsome : manyLoop notGt
                          (fun prev' s' =>
                             rmatch (chr ">") prev' s' (fun _ rest => Some rest))
                          (pred need) (Some c) (x ++ ">"%char :: r) = Some r).
        { apply IH. exists x. repeat split; [assumption|simpl in Hn; lia]. }
        congruence.
    + unfold notGt in Ec. apply negb_false_iff in Ec. split.
      * destruct need; [|discriminate]. unfold chr. cbn [rmatch].
        rewrite Ec. intros [= <-].
        exists []. unfold isChar in Ec. apply Ascii.eqb_eq in Ec. subst c.
        repeat split; [constructor|simpl; lia].
      * intros (x & E & Hx & Hn). destruct x as [|c' x].
        -- injection E as _ E. subst s'. destruct need; [|simpl in Hn; lia].
           unfold chr. cbn [rmatch]. now rewrite Ec.
        -- injection E as <- _. inversion Hx; subst. unfold notGt in *.
           rewrite Ec in *. discriminate.
Qed.

Lemma matchAt_tag (prev : option ascii) (s rest : list ascii) :
  matchAt tagPattern prev s = Some rest <->
  exists x, s = "<"%char :: x ++ ">"%char :: rest
            /\ Forall (fun c => notGt c = true) x /\ x <> [].
Proof.
  unfold matchAt, tagPattern. cbn [rmatch]. unfold chr at 1. cbn [rmatch].
  destruct s as [|c s'].
  - split; [discriminate|]. intros (x & E & _). discriminate.
  - destruct (isChar "<" c) eqn:Ec.
    + unfold isChar in Ec. apply Ascii.eqb_eq in Ec. subst c.
      rewrite tag_many. split.
      * intros (x & -> & Hx & Hn). exists x. repeat split; try assumption.
        intros ->. simpl in Hn. lia.
      * intros (x & E & Hx & Hn). injection E as ->. exists x.
        repeat split; try assumption. destruct x; [contradiction|simpl; lia].
    + split; [discriminate|]. intros (x & E & _). injection E as -> _.
      discriminate.
Qed.

Lemma matchAt_tag_none (prev : option ascii) (s : list ascii) :
  matchAt tagPattern prev s = None <-> ~ tagAt s.
Proof.
  unfold tagAt. split.
  - intros H (x & rest & E). pose proof (proj2 (matchAt_tag prev s rest)) as H2.
    rewrite H in H2. discriminate H2. now exists x.
  - intros H. destruct (matchAt tagPattern prev s) as [rest|] eqn:E; [|reflexivity].
    exfalso. apply H. apply matchAt_tag in E. destruct E as (x & E).
    now exists x, rest.
Qed.

(** Stepping over the rest of a match. *)
Lemma replaceFrom_skip (r : regex) (f : list ascii -> list ascii * bool)
    (u v : list ascii) :
  forall prev,
    replaceFrom r f prev (u ++ v) (length u) = replaceFrom r f (lastOr prev u) v 0.
Proof.
  induction u as [|c u IH]; intros prev; [reflexivity|].
  cbn [app length replaceFrom]. rewrite IH. now rewrite lastOr_cons.
Qed.

(** What a global replace with a constant replacement is made of. *)
Lemma replaceFrom_chars (r : regex) (rep : list ascii) (s : list ascii) :
  forall prev skip c,
    In c (fst (replaceFrom r (fun _ => (rep, false)) prev s skip)) ->
    In c s \/ In c rep.
Proof.
  induction s as [|d s' IH]; intros prev skip c H.
  - simpl in H. destruct skip; [|destruct H].
    destruct (matchAt r prev []); [now right|destruct H].
  - destruct skip as [|n].
    + rewrite replaceFrom_step in H.
      destruct (matchAt r prev (d :: s')) as [rest|].
      * cbv zeta in H.
        destruct (firstn (length (d :: s') - length rest) (d :: s')) as [|c0 m'].
        -- destruct (replaceFrom r _ (Some d) s' 0) as [o h] eqn:Er.
           simpl in H. apply in_app_iff in H. destruct H as [H|[<-|H]].
           ++ now right.
           ++ left. now left.
           ++ specialize (IH (Some d) 0 c). rewrite Er in IH.
              destruct (IH H); [left; now right|now right].
        -- destruct (replaceFrom r _ (Some d) s' (length m')) as [o h] eqn:Er.
           simpl in H. apply in_app_iff in H. destruct H as [H|H].
           ++ now right.
           ++ specialize (IH (Some d) (length m') c). rewrite Er in IH.
              destruct (IH H); [left; now right|now right].
      * destruct (replaceFrom r _ (Some d) s' 0) as [o h] eqn:Er.
        simpl in H. destruct H as [<-|H]; [left; now left|].
        specialize (IH (Some d) 0 c). rewrite Er in IH.
        destruct (IH H); [left; now right|now right].
    + simpl in H. destruct (IH (Some d) n c H); [left; now right|now right].
Qed.

Lemma noTag_cons (c : ascii) (o : list ascii) :
  ~ tagAt (c :: o) -> noTag o -> noTag (c :: o).
Proof.
  intros H0 Ho pre s2 E. destruct pre as [|c' pre].
  - simpl in E. now subst s2.
  - injection E as _ E. now apply (Ho pre).
Qed.

(** A text that does not start with [">"] and has one starts with text
    that a [">"] ends. *)
Lemma first_gt (s : list ascii) :
  In ">"%char s ->
  exists x rest, s = x ++ ">"%char :: rest /\ Forall (fun c => notGt c = true) x.
Proof.
  induction s as [|c s IH]; intros H; [destruct H|].
  destruct (Ascii.eqb_spec ">"%char c) as [<-|Hne].
  - exists [], s. split; [reflexivity|constructor].
  - destruct H as [H|H]; [congruence|].
    destruct (IH H) as (x & rest & -> & Hx).
    exists (c :: x), rest. split; [reflexivity|].
    constructor; [|exact Hx]. unfold notGt, isChar.
    destruct (Ascii.eqb_spec ">"%char c); [contradiction|reflexivity].
Qed.

(** After the tags are removed, no tag is left. *)
Lemma removeTags_noTag (n : nat) :
  forall s prev,
    length s <= n ->
    let o := fst (replaceFrom tagPattern (fun _ => ([], false)) prev s 0) in
    noTag o
    /\ (forall s', s = ">"%char :: s' -> exists o', o = ">"%char :: o').
Proof.
  induction n as [|n IH]; intros s prev Hlen.
  - destruct s; [|simpl in Hlen; lia]. cbv zeta. cbn [replaceFrom].
    assert (E : matchAt tagPattern prev [] = None).
    { apply matchAt_tag_none. intros (x & rest & E & _). discriminate. }
    rewrite E. cbn [fst]. split; [|discriminate].
    intros pre s2 E2. symmetry in E2. apply app_eq_nil in E2.
    destruct E2 as [_ ->]. intros (x & rest & E3 & _). discriminate.
  - destruct s as [|c s'].
    { apply (IH [] prev). simpl. lia. }
    simpl in Hlen. cbv zeta. rewrite replaceFrom_step.
    destruct (matchAt tagPattern prev (c :: s')) as [rest|] eqn:Em.
    + apply matchAt_tag in Em. destruct Em as (x & E & Hx & Hne).
      injection E as -> ->.
      cbv zeta.
      assert (Hm : firstn (length ("<"%char :: x ++ ">"%char :: rest) - length rest)
                     ("<"%char :: x ++ ">"%char :: rest)
                   = "<"%char :: x ++ [">"%char]).
      { replace (length ("<"%char :: x ++ ">"%char :: rest) - length rest)
          with (length ("<"%char :: x ++ [">"%char]))
          by (simpl; rewrite !length_app; simpl; lia).
        change ("<"%char :: x ++ ">"%char :: rest)
          with (("<"%char :: x) ++ [">"%char] ++ rest).
        rewrite app_assoc. apply take_app_length. }
      rewrite Hm.
      replace (x ++ ">"%char :: rest) with ((x ++ [">"%char]) ++ rest)
        by (now rewrite <- app_assoc).
      rewrite replaceFrom_skip.
      destruct (IH rest (lastOr (Some "<"%char) (x ++ [">"%char]))) as [H1 H2].
      { rewrite length_app in Hlen. simpl in Hlen. lia. }
      destruct (replaceFrom tagPattern _ _ rest 0) as [o h].
      simpl in *. split; [exact H1|]. discriminate.
    + pose proof (IH s' (Some c) ltac:(lia)) as [H1 H2].
      pose proof (replaceFrom_chars tagPattern [] s' (Some c) 0) as Hc.
      destruct (replaceFrom tagPattern _ (Some c) s' 0) as [o h].
      cbn [fst] in *. split.
      * apply noTag_cons; [|exact H1].
        intros (x & rest & E & Hx & Hne). injection E as -> ->.
        apply matchAt_tag_none in Em. apply Em.
        (* [s'] has a [">"], and does not start with one *)
        assert (Hin : In ">"%char s').
        { destruct (Hc ">"%char) as [H|[]]; [|exact H].
          apply in_app_iff. right. now left. }
        destruct (first_gt s' Hin) as (x' & rest' & -> & Hx').
        exists x', rest'. repeat split; [exact Hx'|].
        intros ->. destruct (H2 rest' eq_refl) as [o' Eo].
        destruct x as [|y x]; [contradiction|].
        injection Eo as -> _. inversion Hx; subst. discriminate.
      * intros s'' [= -> ->]. now exists o.
Qed.

Lemma noTag_piece (pre t post : list ascii) : noTag (pre ++ t ++ post) -> noTag t.
Proof.
  intros H p2 s2 -> (x & rest & -> & Hx & Hne).
  apply (H (pre ++ p2) (("<"%char :: x ++ ">"%char :: rest) ++ post)).
  - now rewrite <- !app_assoc.
  - exists x, (rest ++ post). repeat split; try assumption.
    simpl. now rewrite <- app_assoc.
Qed.

Lemma noTag_test (s : list ascii) : noTag s -> test tagPattern None s = false.
Proof.
  intros H. destruct (test tagPattern None s) eqn:E; [|reflexivity].
  apply test_somewhere in E. destruct E as (pre & s2 & -> & Hm).
  exfalso. apply Hm. apply matchAt_tag_none. now apply (H pre).
Qed.

Lemma replaceWith_keeps_free (q : ascii -> bool) (r : regex) (rep : string)
    (s : list ascii) :
  free q s -> free q (list_ascii_of_string rep) -> free q (replaceWith r rep s).
Proof.
  unfold free, replaceWith, replaceAll. rewrite !List.Forall_forall.
  intros Hs Hr c Hc. apply replaceFrom_chars in Hc.
  destruct Hc; [now apply Hs|now apply Hr].
Qed.

End HelpScoutFacts.

Module HelpScoutProperties.
Import Chars Regex JsString HelpScout HelpScoutProps Props RegexFacts HelpScoutFacts.
Import AnalyzerProps KeywordFacts.

(** X14.  The rate limiter keeps its bound when the requests come one after the
    other: if at most 170 requests were in the minute that ended at the
    last one, then after a call of [rateLimit], whose timer waits at least
    the time asked for, the new request is recorded last and at most 170
    requests, the new one included, are in the minute that ends at it. *)
Theorem rateLimit_keeps_bound (last now later : Z) (requestTimestamps : list Z) :
  limiterOk last requestTimestamps ->
  (last <= now)%Z ->
  timerOk now later (snd (pruneAndWait now requestTimestamps)) ->
  limiterOk later (rateLimit now later requestTimestamps)
  /\ List.last (rateLimit now later requestTimestamps) 0%Z = later.
Proof.
  intros (Hs & Hle & Hw) Hnow Htimer.
  unfold rateLimit, pruneAndWait in *.
  set (ts1 := List.filter (fun t => (now - t <? RATE_LIMIT_WINDOW_MS)%Z)
                requestTimestamps) in *.
  assert (Hs1 : StronglySorted Z.le ts1) by now apply filter_sorted.
  assert (Hle1 : Forall (fun t => (t <= last)%Z) ts1).
  { apply List.Forall_forall. intros t Ht. apply filter_In in Ht.
    rewrite List.Forall_forall in Hle. now apply Hle. }
  assert (Hin1 : Forall (fun t => (now - t < RATE_LIMIT_WINDOW_MS)%Z) ts1).
  { apply List.Forall_forall. intros t Ht. apply filter_In in Ht.
    destruct Ht as [_ Ht]. now apply Z.ltb_lt in Ht. }
  assert (Hlen1 : length ts1 <= MAX_REQUESTS_PER_WINDOW).
  { etransitivity; [|exact Hw]. unfold ts1, inWindow.
    apply filter_length_mono. intros t _ Ht.
    apply Z.ltb_lt in Ht. apply Z.ltb_lt. lia. }
  assert (Hlater : (now <= later)%Z
                   /\ inWindow later ts1 < MAX_REQUESTS_PER_WINDOW).
  { destruct (Nat.leb_spec MAX_REQUESTS_PER_WINDOW (length ts1)) as [Hfull|Hroom];
      cbn [snd timerOk] in Htimer.
    - destruct ts1 as [|oldest rest] eqn:E;
        [unfold MAX_REQUESTS_PER_WINDOW in Hfull; simpl in Hfull; lia|].
      cbn [hd] in Htimer. inversion Hin1; subst.
      unfold RATE_LIMIT_WINDOW_MS in *. split; [lia|].
      pose proof (inWindow_tail later oldest rest) as Ht.
      unfold RATE_LIMIT_WINDOW_MS in Ht. specialize (Ht ltac:(lia)).
      simpl in Hlen1. lia.
    - split; [exact Htimer|].
      unfold inWindow. pose proof (List.filter_length_le
        (fun t => (later - t <? RATE_LIMIT_WINDOW_MS)%Z) ts1). lia. }
  destruct Hlater as [Hnl Hcount].
  assert (Hfst : fst (if MAX_REQUESTS_PER_WINDOW <=? length ts1
                      then (ts1, Some (RATE_LIMIT_WINDOW_MS - (now - hd now ts1) + 100)%Z)
                      else (ts1, None)) = ts1)
    by now destruct (MAX_REQUESTS_PER_WINDOW <=? length ts1).
  rewrite Hfst. split; [|apply last_last].
  split; [|split].
  - apply sorted_snoc; [exact Hs1|].
    revert Hle1. apply List.Forall_impl. intros t Ht. lia.
  - apply Forall_app. split.
    + revert Hle1. apply List.Forall_impl. intros t Ht. lia.
    + constructor; [lia|constructor].
  - rewrite inWindow_app. unfold inWindow at 2. simpl.
    destruct (Z.ltb_spec (later - later) RATE_LIMIT_WINDOW_MS); simpl; lia.
Qed.

(** The first request of a client, and a burst of requests the limiter has
    room for. *)
Lemma rateLimit_keeps_bound_witness :
  limiterOk 1000 (rateLimit 1000 1000 [])
  /\ limiterOk 1005 (rateLimit 1005 1005 (rateLimit 1000 1000 [])).
Proof.
  assert (H0 : limiterOk 0 []).
  { split; [constructor|]. split; [constructor|].
    unfold inWindow, MAX_REQUESTS_PER_WINDOW. simpl. lia. }
  assert (H1 : limiterOk 1000 (rateLimit 1000 1000 [])).
  { apply (rateLimit_keeps_bound 0 1000 1000 [] H0); [lia|simpl; lia]. }
  split; [exact H1|].
  apply (rateLimit_keeps_bound 1000 1005 1005 _ H1); [lia|].
  vm_compute. discriminate.
Defined.


(** X15.  [fetchConversations] returns one conversation for every summary of the
    pages 1 to [totalPages], in the order of the pages; without
    [includeThreads] none has a thread, and with it each has the threads
    fetched for its id: the batches of five lose and reorder nothing. *)
Theorem fetchConversations_complete
    (fetchConversationsPage : nat -> option (list ConversationSummary.t * nat))
    (fetchThreads : Z -> option (list Thread.t))
    (firstPage : list ConversationSummary.t) (totalPages : nat)
    (th : Z -> list Thread.t) :
  fetchConversationsPage 1 = Some (firstPage, totalPages) ->
  (forall p, 2 <= p <= totalPages -> fetchConversationsPage p <> None) ->
  let allConversations :=
    firstPage ++ pagesFrom fetchConversationsPage 2 (totalPages - 1) in
  fetchConversations fetchConversationsPage fetchThreads false
  = Some (map (fun conv => Conversation.mk conv []) allConversations)
  /\ ((forall conv, In conv allConversations ->
                    fetchThreads (ConversationSummary.id conv)
                    = Some (th (ConversationSummary.id conv))) ->
      fetchConversations fetchConversationsPage fetchThreads true
      = Some (map (fun conv =>
                     Conversation.mk conv (th (ConversationSummary.id conv)))
                allConversations)).
Proof.
  intros H1 Hpages allConversations. unfold fetchConversations. rewrite H1.
  rewrite remainingPages_ok by (intros p Hp; apply Hpages; lia).
  fold allConversations. split; [reflexivity|].
  intros Hth. cbn [negb]. now rewrite (fetchBatches_ok fetchThreads th).
Qed.

(** Two pages, three conversations, threads asked for. *)
Lemma fetchConversations_complete_witness :
  fetchConversations examplePages (fun _ => Some []) true
  = Some [Conversation.mk (exampleSummary 1) [];
          Conversation.mk (exampleSummary 2) [];
          Conversation.mk (exampleSummary 3) []].
Proof.
  refine (proj2 (fetchConversations_complete examplePages (fun _ => Some [])
                   [exampleSummary 1; exampleSummary 2] 2 (fun _ => [])
                   eq_refl _) _).
  - intros p Hp. assert (p = 2) as -> by lia. discriminate.
  - intros conv _. reflexivity.
Defined.

(** X16.  A body without ["<"] and ["&"] has no tag and no entity: [stripHtml]
    only trims it. *)
Theorem stripHtml_plain (html : string) :
  without "<" "&" html ->
  stripHtml html = string_of_list_ascii (trim (list_ascii_of_string html)).
Proof.
  intros H. apply without_free in H. destruct H as [Hlt Hamp].
  unfold stripHtml.
  rewrite (replaceWith_free (isChar "<") brPattern) by (reflexivity || assumption).
  rewrite (replaceWith_free (isChar "<") endParagraphPattern)
    by (reflexivity || assumption).
  rewrite (replaceWith_free (isChar "<") tagPattern) by (reflexivity || assumption).
  rewrite (replaceWith_free (isChar "&") nbspPattern) by (reflexivity || assumption).
  rewrite (replaceWith_free (isChar "&") ampPattern) by (reflexivity || assumption).
  rewrite (replaceWith_free (isChar "&") ltPattern) by (reflexivity || assumption).
  rewrite (replaceWith_free (isChar "&") gtPattern) by (reflexivity || assumption).
  rewrite (replaceWith_free (isChar "&") aposPattern) by (reflexivity || assumption).
  rewrite (replaceWith_free (isChar "&") quotPattern) by (reflexivity || assumption).
  reflexivity.
Qed.

Lemma stripHtml_plain_witness :
  stripHtml "  the export fails > 10 rows "
  = string_of_list_ascii
      (trim (list_ascii_of_string "  the export fails > 10 rows ")).
Proof.
  apply stripHtml_plain. unfold without.
  apply List.Forall_forall. intros c Hc. simpl in Hc.
  repeat (destruct Hc as [<-|Hc]; [split; discriminate|]). destruct Hc.
Defined.

(** X17.  The customer messages of a conversation come from its threads written
    by the customer, in order; each is the cleaned body of such a thread,
    is not empty, and has no white space at its ends. *)
Theorem extractCustomerMessages_clean (conv : Conversation.t) :
  sublist (extractCustomerMessages conv)
    (map (fun t => stripHtml (Thread.body t))
       (List.filter (fun t => String.eqb (Thread.createdByType t) "customer")
          (Conversation.threads conv)))
  /\ Forall (fun msg => msg <> EmptyString /\ trimmed msg)
       (extractCustomerMessages conv).
Proof.
  unfold extractCustomerMessages. split.
  - induction (Conversation.threads conv) as [|t ts IH]; [constructor|].
    cbn [List.filter map].
    destruct (String.eqb (Thread.createdByType t) "customer");
      cbn [andb]; [|exact IH].
    destruct (truthy (Thread.body t)); cbn [List.filter map].
    + destruct (0 <? String.length (stripHtml (Thread.body t)));
        [apply sublist_skip|apply sublist_cons]; exact IH.
    + apply sublist_cons. exact IH.
  - apply List.Forall_forall. intros msg Hmsg.
    apply filter_In in Hmsg. destruct Hmsg as [Hin Hlen].
    apply Nat.ltb_lt in Hlen. split.
    + intros ->. simpl in Hlen. lia.
    + apply in_map_iff in Hin. destruct Hin as (t & <- & _).
      unfold trimmed, stripHtml.
      rewrite list_ascii_of_string_of_list_ascii. apply trim_idem.
Qed.

(** X18.  A body without ["&"] comes back without any tag: nowhere in the result
    does ["<"], one character or more other than [">"], and [">"] occur.
    With entities this fails: their replacement comes after the removal of
    the tags, and ["&lt;b&gt;"] gives ["<b>"]. *)
Theorem stripHtml_removes_tags (html : string) :
  free (isChar "&") (list_ascii_of_string html) ->
  tagFree (stripHtml html)
  /\ stripHtml "&lt;b&gt;" = "<b>"%string.
Proof.
  intros Hamp. split; [|vm_compute; reflexivity].
  unfold tagFree, stripHtml. rewrite list_ascii_of_string_of_list_ascii.
  set (s1 := replaceWith brPattern _ _).
  set (s2 := replaceWith endParagraphPattern _ s1).
  set (s3 := replaceWith tagPattern _ s2).
  assert (H1 : free (isChar "&") s1)
    by (apply replaceWith_keeps_free; [exact Hamp|repeat constructor]).
  assert (H2 : free (isChar "&") s2)
    by (apply replaceWith_keeps_free; [exact H1|repeat constructor]).
  assert (H3 : free (isChar "&") s3)
    by (apply replaceWith_keeps_free; [exact H2|repeat constructor]).
  rewrite (replaceWith_free (isChar "&") nbspPattern) by (reflexivity || assumption).
  rewrite (replaceWith_free (isChar "&") ampPattern) by (reflexivity || assumption).
  rewrite (replaceWith_free (isChar "&") ltPattern) by (reflexivity || assumption).
  rewrite (replaceWith_free (isChar "&") gtPattern) by (reflexivity || assumption).
  rewrite (replaceWith_free (isChar "&") aposPattern) by (reflexivity || assumption).
  rewrite (replaceWith_free (isChar "&") quotPattern) by (reflexivity || assumption).
  apply noTag_test.
  destruct (trim_sub s3) as (pre & post & E).
  apply (noTag_piece pre (trim s3) post). rewrite <- E.
  unfold s3, replaceWith, replaceAll.
  exact (proj1 (removeTags_noTag (length s2) s2 None (le_n _))).
Qed.

Lemma stripHtml_removes_tags_witness :
  tagFree (stripHtml "<p>Hi <b>there</b><br/>the <<a>export</p> fails")
  /\ stripHtml "<p>Hi <b>there</b><br/>the <<a>export</p> fails"
     = String "H" (String "i" (String " " (String "t" (String "h" (String "e"
         (String "r" (String "e" (String LF "the export" +:+ String LF " fails")))))))).
Proof.
  split; [|vm_compute; reflexivity].
  apply stripHtml_removes_tags. unfold free.
  apply List.Forall_forall. intros c Hc. simpl in Hc.
  repeat (destruct Hc as [<-|Hc]; [reflexivity|]). destruct Hc.
Defined.

End HelpScoutProperties.

(** ** productlift.ts *)

Module ProductLiftFacts.
Import Chars JsString ProductLift ProductLiftProps SortFacts HelpScoutFacts.

(** *** Sorting by votes *)

Lemma byVotesDesc_asym (a b : PostSummary.t) :
  byVotesDesc a b = true -> byVotesDesc b a = false.
Proof. unfold byVotesDesc. rewrite Z.ltb_lt, Z.ltb_ge. lia. Qed.

Lemma byVotesDesc_trans (a b c : PostSummary.t) :
  byVotesDesc b a = false -> byVotesDesc c b = false -> byVotesDesc c a = false.
Proof. unfold byVotesDesc. rewrite !Z.ltb_ge. lia. Qed.

Lemma sorted_app_inv {A : Type} (R : A -> A -> Prop) (l1 l2 : list A) :
  StronglySorted R (l1 ++ l2) ->
  StronglySorted R l1 /\ StronglySorted R l2
  /\ forall x y, In x l1 -> In y l2 -> R x y.
Proof.
  induction l1 as [|a l1 IH]; simpl; intros H.
  - repeat split; [constructor|exact H|]. intros x y [].
  - inversion H as [|? ? Hs Ha]; subst. destruct (IH Hs) as (H1 & H2 & H3).
    apply Forall_app in Ha. destruct Ha as [Ha1 Ha2].
    repeat split.
    + now constructor.
    + exact H2.
    + intros x y [<-|Hx] Hy; [|now apply H3].
      rewrite List.Forall_forall in Ha2. now apply Ha2.
Qed.

(** *** Splitting and joining *)

Lemma splitOn_nonempty (sep : ascii) (s : list ascii) : splitOn sep s <> [].
Proof.
  induction s as [|c s IH]; simpl; [discriminate|].
  destruct (Ascii.eqb c sep); [discriminate|].
  destruct (splitOn sep s); [contradiction|discriminate].
Qed.

Lemma splitOn_lacks (sep : ascii) (s : list ascii) :
  lacks sep s -> splitOn sep s = [s].
Proof.
  unfold lacks. induction s as [|c s IH]; intros H; simpl; [reflexivity|].
  destruct (Ascii.eqb_spec c sep) as [->|Hne].
  - exfalso. apply H. now left.
  - rewrite IH; [reflexivity|]. intros Hin. apply H. now right.
Qed.

Lemma splitOn_app (sep : ascii) (a b : list ascii) :
  lacks sep a -> splitOn sep (a ++ sep :: b) = a :: splitOn sep b.
Proof.
  unfold lacks. induction a as [|c a IH]; intros H; simpl.
  - now rewrite Ascii.eqb_refl.
  - destruct (Ascii.eqb_spec c sep) as [->|Hne].
    + exfalso. apply H. now left.
    + rewrite IH; [reflexivity|]. intros Hin. apply H. now right.
Qed.

Lemma joinWith_cons (sep p q : list ascii) (r : list (list ascii)) :
  joinWith sep (p :: q :: r) = p ++ sep ++ joinWith sep (q :: r).
Proof. reflexivity. Qed.

(** Joining the pieces gives the text back. *)
Lemma joinWith_splitOn (sep : ascii) (s : list ascii) :
  joinWith [sep] (splitOn sep s) = s.
Proof.
  induction s as [|c s IH]; simpl; [reflexivity|].
  pose proof (splitOn_nonempty sep s) as Hn.
  destruct (splitOn sep s) as [|p ps]; [contradiction|].
  destruct (Ascii.eqb_spec c sep) as [->|Hne].
  - rewrite joinWith_cons, IH. reflexivity.
  - destruct ps as [|p' ps].
    + simpl in *. now rewrite IH.
    + rewrite joinWith_cons in *. rewrite <- IH. reflexivity.
Qed.

(** The pieces have no separator, and a text with [n] separators has
    [n + 1] pieces. *)
Lemma splitOn_pieces (sep : ascii) (s : list ascii) :
  Forall (lacks sep) (splitOn sep s).
Proof.
  unfold lacks. induction s as [|c s IH]; simpl.
  - constructor; [tauto|constructor].
  - destruct (Ascii.eqb_spec c sep) as [->|Hne].
    + constructor; [tauto|exact IH].
    + destruct (splitOn sep s) as [|p ps]; [repeat constructor; simpl; intuition|].
      inversion IH; subst. constructor; [|assumption].
      simpl. intuition.
Qed.

Lemma splitOn_join (sep : ascii) (pieces : list (list ascii)) :
  pieces <> [] -> Forall (lacks sep) pieces ->
  splitOn sep (joinWith [sep] pieces) = pieces.
Proof.
  intros Hne H. induction H as [|p ps Hp Hps IH]; [contradiction|].
  destruct ps as [|p' ps].
  - simpl. now apply splitOn_lacks.
  - rewrite joinWith_cons.
    change (p ++ [sep] ++ joinWith [sep] (p' :: ps))
      with (p ++ sep :: joinWith [sep] (p' :: ps)).
    rewrite splitOn_app by exact Hp. f_equal. apply IH. discriminate.
Qed.

(** *** Trimming an entry *)

Lemma trim_id (c d : ascii) (mid : list ascii) :
  isSpace c = false -> isSpace d = false ->
  trim (c :: mid ++ [d]) = c :: mid ++ [d].
Proof.
  intros Hc Hd. unfold trim, trimEnd.
  rewrite (proj2 (trimStart_nonspace (c :: mid ++ [d])) Hc).
  change (c :: mid ++ [d]) with ((c :: mid) ++ [d]).
  rewrite rev_app_distr.
  change (rev [d] ++ rev (c :: mid)) with (d :: rev (c :: mid)).
  rewrite (proj2 (trimStart_nonspace (d :: rev (c :: mid))) Hd).
  change (d :: rev (c :: mid)) with (rev [d] ++ rev (c :: mid)).
  rewrite <- rev_app_distr. apply rev_involutive.
Qed.

Lemma stripSlash_id (front : list ascii) (c : ascii) :
  c <> "/"%char -> stripSlash (front ++ [c]) = front ++ [c].
Proof.
  intros Hc. unfold stripSlash. rewrite rev_app_distr. simpl.
  destruct (Ascii.eqb_spec c "/"); [contradiction|reflexivity].
Qed.


(** *** Entries *)

Lemma parseEntry_decodes (entry : list ascii) (config : PortalConfig.t) :
  parseEntry entry = inr config <-> decodes entry config.
Proof.
  unfold parseEntry, decodes.
  pose proof (joinWith_splitOn "|" (trim entry)) as Hjoin.
  pose proof (splitOn_pieces "|" (trim entry)) as Hpieces.
  split.
  - destruct (splitOn "|" (trim entry)) as [|name parts]; [discriminate|].
    cbn [nth nth_error skipn].
    destruct name as [|c name]; [discriminate|].
    destruct parts as [|rawUrl parts]; [discriminate|].
    cbn [nth_error skipn]. destruct rawUrl as [|d rawUrl]; [discriminate|].
    destruct parts as [|k parts]; [discriminate|]. rewrite drop_0.
    destruct (joinWith ["|"%char] (k :: parts)) as [|e apiKey] eqn:Ek;
      [discriminate|].
    intros [= <-].
    rewrite !joinWith_cons, Ek in Hjoin.
    inversion Hpieces as [|? ? H1 Hp1]; subst.
    inversion Hp1 as [|? ? H2 _]; subst.
    exists (c :: name), (d :: rawUrl), (e :: apiKey).
    repeat split; try assumption; try discriminate.
    now rewrite <- Hjoin.
  - intros (name & rawUrl & apiKey & E & Hn & Hu & Hne1 & Hne2 & Hne3 & ->).
    rewrite E. rewrite (splitOn_app "|" name) by exact Hn.
    rewrite (splitOn_app "|" rawUrl) by exact Hu.
    change (drop 2 (name :: rawUrl :: splitOn "|" apiKey))
      with (splitOn "|" apiKey).
    cbn [nth nth_error]. rewrite joinWith_splitOn.
    destruct name; [contradiction|]. destruct rawUrl; [contradiction|].
    destruct apiKey; [contradiction|]. reflexivity.
Qed.

Lemma mapEntries_decodes (entries : list (list ascii))
    (configs : list PortalConfig.t) :
  mapEntries entries = inr configs <-> Forall2 decodes entries configs.
Proof.
  revert configs. induction entries as [|entry rest IH]; intros configs; simpl.
  - split.
    + intros [= <-]. constructor.
    + intros H. inversion H. reflexivity.
  - destruct (parseEntry entry) as [msg|config] eqn:Ee.
    + split; [discriminate|]. intros H. inversion H; subst.
      apply parseEntry_decodes in H2. congruence.
    + apply parseEntry_decodes in Ee.
      destruct (mapEntries rest) as [msg|cs] eqn:Er.
      * split; [discriminate|]. intros H. inversion H; subst.
        apply IH in H4. discriminate.
      * split.
        -- intros [= <-]. constructor; [exact Ee|]. now apply IH.
        -- intros H. inversion H; subst. apply IH in H4. injection H4 as ->.
           apply parseEntry_decodes in Ee, H2. congruence.
Qed.

Lemma lacks_app (c : ascii) (a b : list ascii) :
  lacks c (a ++ b) <-> lacks c a /\ lacks c b.
Proof. unfold lacks. rewrite in_app_iff. tauto. Qed.

Lemma lacks_cons (c d : ascii) (a : list ascii) :
  lacks c (d :: a) <-> d <> c /\ lacks c a.
Proof. unfold lacks. simpl. tauto. Qed.

(** *** The loop of [fetchPosts] against a server that pages a list *)

Lemma fetchPostsLoop_paged (all : list PostSummary.t) (pageSize : nat)
    (more : nat -> bool) :
  0 < pageSize ->
  (forall skip, skip + pageSize < length all -> more skip = true) ->
  forall fuel skip acc,
    length all - skip < fuel ->
    fetchPostsLoop (pagedServer all pageSize more) fuel skip acc
    = Returns (acc ++ skipn skip all).
Proof.
  intros Hps Hmore.
  induction fuel as [|fuel IH]; intros skip acc Hfuel; [lia|].
  cbn [fetchPostsLoop]. unfold pagedServer at 1.
  set (data := firstn pageSize (skipn skip all)).
  assert (Hlen : length data = Nat.min pageSize (length all - skip)).
  { unfold data. now rewrite length_take, length_skipn. }
  assert (Hsplit : skipn skip all = data ++ skipn pageSize (skipn skip all))
    by (unfold data; symmetry; apply firstn_skipn).
  destruct (negb (more skip) || (length data =? 0)) eqn:Estop.
  - (* the page is the last one: nothing is left after it *)
    assert (Hrest : skipn pageSize (skipn skip all) = []).
    { apply skipn_all2. rewrite length_skipn.
      apply orb_true_iff in Estop. destruct Estop as [Em|El].
      - apply negb_true_iff in Em.
        destruct (Nat.lt_ge_cases (skip + pageSize) (length all)) as [Hlt|Hge];
          [|lia].
        rewrite (Hmore skip Hlt) in Em. discriminate.
      - apply Nat.eqb_eq in El. lia. }
    rewrite Hsplit, Hrest, app_nil_r. reflexivity.
  - apply orb_false_iff in Estop. destruct Estop as [_ El].
    apply Nat.eqb_neq in El.
    rewrite IH by lia. rewrite Hsplit, <- app_assoc. do 3 f_equal.
    destruct (Nat.le_gt_cases pageSize (length all - skip)) as [Hle|Hgt].
    + rewrite skipn_skipn. f_equal. lia.
    + rewrite (skipn_all2 (n := pageSize)) by (rewrite length_skipn; lia).
      apply skipn_all2. lia.
Qed.

Lemma parse_decodes (portals : string) (configs : list PortalConfig.t) :
  portals <> EmptyString ->
  (parsePortalConfigs (envOf portals) = inr configs <->
   Forall2 decodes (splitOn "," (list_ascii_of_string portals)) configs).
Proof.
  intros Hne. unfold parsePortalConfigs, envOf. cbn [Env.PRODUCTLIFT_PORTALS].
  destruct portals as [|c portals]; [contradiction|].
  apply mapEntries_decodes.
Qed.

End ProductLiftFacts.

Module ProductLiftProperties.
Import Chars JsString ProductLift ProductLiftProps SortFacts HelpScoutFacts.
Import ProductLiftFacts.

(** X19.  [sortByVotes] returns the [limit] posts with the most votes, the most
    voted first: it has [limit] posts, or all of them when there are
    fewer, it is in descending order of votes, and together with the posts
    it leaves out, none of which has more votes than one it returns, it
    makes up the input. *)
Theorem sortByVotes_top (posts : list PostSummary.t) (limit : Z) :
  (0 <= limit)%Z ->
  length (sortByVotes posts limit) = Nat.min (Z.to_nat limit) (length posts)
  /\ StronglySorted votesDesc (sortByVotes posts limit)
  /\ exists rest,
       Permutation (sortByVotes posts limit ++ rest) posts
       /\ forall x y, In x (sortByVotes posts limit) -> In y rest -> votesDesc x y.
Proof.
  intros Hlimit. unfold sortByVotes, slice0.
  set (sorted := Sort.sort byVotesDesc posts).
  assert (Hperm : Permutation sorted posts) by apply sort_perm.
  assert (Hlen : length sorted = length posts) by now apply Permutation_length.
  assert (Hsorted : StronglySorted votesDesc sorted).
  { pose proof (sort_sorted byVotesDesc byVotesDesc_asym byVotesDesc_trans posts)
      as H.
    eapply StronglySorted_weaken; [|exact H].
    intros a b. unfold byVotesDesc, votesDesc, postVotes. rewrite Z.ltb_ge. lia. }
  destruct (Z.ltb_spec limit 0) as [Hneg|_]; [lia|].
  set (k := Z.to_nat (Z.min limit (Z.of_nat (length sorted)))).
  assert (Hk : k = Nat.min (Z.to_nat limit) (length posts)) by (unfold k; lia).
  rewrite <- (firstn_skipn k sorted) in Hsorted, Hperm.
  destruct (sorted_app_inv _ _ _ Hsorted) as (H1 & _ & H3).
  split; [|split].
  - rewrite length_take. lia.
  - exact H1.
  - exists (skipn k sorted). split; [exact Hperm|exact H3].
Qed.

(** The two most voted of four posts; a post without a vote count counts
    as having none. *)
Lemma sortByVotes_top_witness :
  map PostSummary.id (sortByVotes examplePosts 2) = ["c"%string; "a"%string]
  /\ length (sortByVotes examplePosts 2) = 2.
Proof.
  split; [vm_compute; reflexivity|].
  exact (proj1 (sortByVotes_top examplePosts 2 ltac:(lia))).
Defined.

(** X20.  Against a server that pages a list of posts, whatever its page size,
    [fetchPosts] returns the whole list, in order, provided the server
    announces more whenever posts are left after a page. *)
Theorem fetchPosts_all (all : list PostSummary.t) (pageSize : nat)
    (more : nat -> bool) (fuel : nat) :
  0 < pageSize ->
  (forall skip, skip + pageSize < length all -> more skip = true) ->
  length all < fuel ->
  fetchPosts (pagedServer all pageSize more) fuel = Returns all.
Proof.
  intros Hps Hmore Hfuel. unfold fetchPosts.
  rewrite (fetchPostsLoop_paged all pageSize more Hps Hmore) by lia.
  reflexivity.
Qed.

(** Four posts, three at a time, from a server that always announces
    more: the empty page ends the loop. *)
Lemma fetchPosts_all_witness :
  fetchPosts (pagedServer examplePosts 3 (fun _ => true)) 5 = Returns examplePosts.
Proof.
  apply fetchPosts_all; [lia|reflexivity|simpl; lia].
Defined.

(** X21.  [PRODUCTLIFT_PORTALS] parses when every entry between commas, trimmed,
    is a name, a URL and a key between its first two bars, none of them
    empty; the configurations are then what the entries say, the key
    with the bars it contains and the URL without one slash at its end. *)
Theorem parsePortalConfigs_decodes (portals : string)
    (configs : list PortalConfig.t) :
  portals <> EmptyString ->
  (parsePortalConfigs (envOf portals) = inr configs <->
   Forall2 decodes (splitOn "," (list_ascii_of_string portals)) configs).
Proof.
  intros Hne. unfold parsePortalConfigs, envOf. cbn [Env.PRODUCTLIFT_PORTALS].
  destruct portals as [|c portals]; [contradiction|].
  apply mapEntries_decodes.
Qed.

Lemma parsePortalConfigs_decodes_witness :
  parsePortalConfigs (envOf " tidycal|https://roadmap.tidycal.com/|a|b ,x|/|k")
  = inr [PortalConfig.mk "tidycal" "https://roadmap.tidycal.com" "a|b";
         PortalConfig.mk "x" EmptyString "k"]
  /\ Forall2 decodes
       (splitOn ","
          (list_ascii_of_string " tidycal|https://roadmap.tidycal.com/|a|b ,x|/|k"))
       [PortalConfig.mk "tidycal" "https://roadmap.tidycal.com" "a|b";
        PortalConfig.mk "x" EmptyString "k"].
Proof.
  assert (H : parsePortalConfigs
                (envOf " tidycal|https://roadmap.tidycal.com/|a|b ,x|/|k")
              = inr [PortalConfig.mk "tidycal" "https://roadmap.tidycal.com" "a|b";
                     PortalConfig.mk "x" EmptyString "k"])
    by (vm_compute; reflexivity).
  split; [exact H|].
  refine (proj1 (parsePortalConfigs_decodes
                   " tidycal|https://roadmap.tidycal.com/|a|b ,x|/|k" _ _) H).
  discriminate.
Defined.

(** X22.  Writing configurations in the documented format and parsing them gives
    them back, when no name or URL has a bar or a comma, no key a comma, no
    URL a slash at its end, and no entry white space at its two ends. *)
Theorem parsePortalConfigs_round_trip (configs : list PortalConfig.t) :
  configs <> [] -> Forall wellFormed configs ->
  parsePortalConfigs (envOf (renderPortals configs)) = inr configs.
Proof.
  intros Hne Hwf.
  assert (Hentry : forall c, wellFormed c ->
             lacks "," (renderEntry c) /\ decodes (renderEntry c) c
             /\ renderEntry c <> []).
  { intros [name url key]. unfold wellFormed, renderEntry.
    cbn [PortalConfig.name PortalConfig.baseUrl PortalConfig.apiKey].
    intros ((c & nrest & En & Hc) & Hn1 & Hn2 & (u & ufront & Eu & Hu)
            & Hu1 & Hu2 & (d & kfront & Ek & Hd) & Hk).
    split; [|split].
    - rewrite lacks_app, lacks_cons, lacks_app, lacks_cons.
      repeat split; try assumption; discriminate.
    - exists (list_ascii_of_string name), (list_ascii_of_string url),
        (list_ascii_of_string key).
      repeat split; try assumption.
      + rewrite En, Ek. cbn [app].
        replace (nrest ++ "|"%char :: list_ascii_of_string url
                 ++ "|"%char :: kfront ++ [d])
          with ((nrest ++ "|"%char :: list_ascii_of_string url
                 ++ "|"%char :: kfront) ++ [d]).
        * now apply trim_id.
        * rewrite <- !app_assoc. cbn [app]. rewrite <- !app_assoc. reflexivity.
      + rewrite En. discriminate.
      + rewrite Eu. destruct ufront; discriminate.
      + rewrite Ek. destruct kfront; discriminate.
      + rewrite Eu, (stripSlash_id ufront u Hu), <- Eu.
        now rewrite !string_of_list_ascii_of_string.
    - rewrite En. discriminate. }
  assert (Hrender : list_ascii_of_string (renderPortals configs)
                    = joinWith [","%char] (map renderEntry configs)).
  { unfold renderPortals. apply list_ascii_of_string_of_list_ascii. }
  apply parse_decodes.
  - intros E. rewrite E in Hrender. simpl in Hrender.
    destruct configs as [|c cs]; [contradiction|].
    inversion Hwf; subst. destruct (Hentry c H1) as (_ & _ & Hc).
    cbn [map] in Hrender. destruct (map renderEntry cs) as [|e es].
    + simpl in Hrender. congruence.
    + rewrite joinWith_cons in Hrender.
      destruct (renderEntry c); [contradiction|discriminate].
  - rewrite Hrender, splitOn_join.
    + clear Hne Hrender. induction Hwf as [|c cs Hc _ IH]; simpl; constructor.
      * now apply Hentry.
      * exact IH.
    + destruct configs; [contradiction|discriminate].
    + clear Hne Hrender. induction Hwf as [|c cs Hc _ IH]; simpl; constructor.
      * now apply Hentry.
      * exact IH.
Qed.

Lemma parsePortalConfigs_round_trip_witness :
  parsePortalConfigs (envOf (renderPortals examplePortals)) = inr examplePortals.
Proof.
  apply parsePortalConfigs_round_trip; [discriminate|].
  unfold examplePortals, wellFormed, lacks.
  repeat constructor; cbn [PortalConfig.name PortalConfig.baseUrl
    PortalConfig.apiKey]; simpl;
    try (intros H; repeat (destruct H as [H|H]; [discriminate H|]);
         exact H).
  - now exists "t"%char, (list_ascii_of_string "idycal").
  - exists "m"%char, (list_ascii_of_string "https://roadmap.tidycal.co").
    split; [reflexivity|discriminate].
  - now exists "s"%char, (list_ascii_of_string "key|with|bar").
  - now exists "b"%char, (list_ascii_of_string "reezedoc").
  - exists "m"%char, (list_ascii_of_string "https://roadmap.breezedoc.co").
    split; [reflexivity|discriminate].
  - now exists "2"%char, (list_ascii_of_string "k").
Defined.

End ProductLiftProperties.

(** ** index.ts *)

Module ServerFacts.
Import Chars Regex JsString Pii HelpScout Server ServerProps.
Import Props PiiFacts ScrubFacts.

(** *** The digits of a number *)

Lemma pretty_N_char_digit (x : N) : isDigit (pretty_N_char x) = true.
Proof.
  unfold pretty_N_char.
  destruct x as [|p]; [reflexivity|].
  do 4 (destruct p as [p|p|]; try reflexivity).
Qed.

Lemma pretty_N_go_digits (x : N) :
  forall s,
    exists ds,
      list_ascii_of_string (pretty_N_go x s) = ds ++ list_ascii_of_string s
      /\ Forall (fun c => isDigit c = true) ds.
Proof.
  induction (N.lt_wf_0 x) as [x _ IH]; intros s.
  destruct (N.eq_dec x 0%N) as [->|Hx].
  - rewrite pretty_N_go_0. exists []. split; [reflexivity|constructor].
  - rewrite pretty_N_go_step by lia.
    destruct (IH (x `div` 10)%N ltac:(apply N.div_lt; lia)
                (String (pretty_N_char (x `mod` 10)) s)) as (ds & E & Hds).
    exists (ds ++ [pretty_N_char (x `mod` 10)]). split.
    + rewrite E. simpl. now rewrite <- app_assoc.
    + apply Forall_app. split; [exact Hds|].
      constructor; [apply pretty_N_char_digit|constructor].
Qed.

Lemma pretty_N_digits (x : N) :
  Forall (fun c => isDigit c = true) (list_ascii_of_string (pretty x)).
Proof.
  unfold pretty, pretty_N. destruct (decide (x = 0%N)).
  - repeat constructor.
  - destruct (pretty_N_go_digits x EmptyString) as (ds & E & Hds).
    rewrite E. simpl. now rewrite app_nil_r.
Qed.

(** A number in decimal has no bar. *)
Lemma pretty_Z_barFree (z : Z) : barFree (pretty z).
Proof.
  assert (Hd : forall l, Forall (fun c => isDigit c = true) l -> ~ In "|"%char l).
  { intros l Hl Hin. rewrite List.Forall_forall in Hl.
    specialize (Hl _ Hin). discriminate. }
  unfold barFree, pretty, pretty_Z. destruct z as [|p|p].
  - simpl. intros [H|[]]. discriminate.
  - apply Hd. apply (pretty_N_digits (N.pos p)).
  - change (list_ascii_of_string ("-" +:+ pretty p))
      with ("-"%char :: list_ascii_of_string (pretty (N.pos p))).
    intros [H|H]; [discriminate|]. revert H. apply Hd, pretty_N_digits.
Qed.

(** The first bar of a text splits it in one way only. *)
Lemma split_at_bar (a a' b b' : list ascii) :
  ~ In "|"%char a -> ~ In "|"%char a' ->
  a ++ "|"%char :: b = a' ++ "|"%char :: b' -> a = a' /\ b = b'.
Proof.
  revert a'. induction a as [|c a IH]; intros a' Ha Ha' E.
  - destruct a' as [|c' a']; [now injection E|].
    injection E as <- _. exfalso. apply Ha'. now left.
  - destruct a' as [|c' a'].
    + injection E as -> _. exfalso. apply Ha. now left.
    + injection E as <- E.
      destruct (IH a') as [-> ->]; try assumption.
      * intros H. apply Ha. now right.
      * intros H. apply Ha'. now right.
      * now split.
Qed.

Lemma string_inj (a b : string) :
  list_ascii_of_string a = list_ascii_of_string b -> a = b.
Proof.
  intros E. rewrite <- (string_of_list_ascii_of_string a),
    <- (string_of_list_ascii_of_string b). now rewrite E.
Qed.

Lemma cacheKey_chars (params : FetchParams.t) :
  list_ascii_of_string (cacheKey params)
  = list_ascii_of_string (pretty (FetchParams.timeframe_days params))
    ++ "|"%char :: list_ascii_of_string (mailboxOf params)
    ++ "|"%char :: list_ascii_of_string (portalOf params)
    ++ "|"%char :: list_ascii_of_string (pretty (FetchParams.top_voted_limit params)).
Proof.
  unfold cacheKey, mailboxOf, portalOf. rewrite !list_ascii_app. reflexivity.
Qed.


(** *** Patterns match pieces of the text *)

Lemma literalI_app (w s rest v : list ascii) :
  literalI w s = Some rest -> literalI w (s ++ v) = Some (rest ++ v).
Proof.
  revert s. induction w as [|k w IH]; intros s; simpl.
  - now intros [= ->].
  - destruct s as [|c s]; [discriminate|]. simpl.
    destruct (Analyzer.sameLetter k c); [apply IH|discriminate].
Qed.

Lemma anyStar_app (k k' : list ascii -> bool) (v : list ascii) :
  (forall s, k s = true -> k' (s ++ v) = true) ->
  forall s, anyStar k s = true -> anyStar k' (s ++ v) = true.
Proof.
  intros Hk. induction s as [|c s IH]; simpl.
  - intros H. specialize (Hk [] H). simpl in Hk.
    destruct v as [|d v]; simpl; [exact Hk|].
    destruct (isLineTerminator d); [exact Hk|]. rewrite Hk. apply orb_true_r.
  - destruct (isLineTerminator c); [apply (Hk (c :: s))|].
    intros H. apply orb_true_iff in H. destruct H as [H|H].
    + rewrite (IH H). reflexivity.
    + pose proof (Hk (c :: s) H) as Hc. simpl in Hc. rewrite Hc.
      apply orb_true_r.
Qed.

(** A match stays a match when text is added after the input. *)
Lemma pmatch_app (p : pat) (v : list ascii) :
  forall s (k k' : list ascii -> bool),
    (forall s', k s' = true -> k' (s' ++ v) = true) ->
    pmatch p s k = true -> pmatch p (s ++ v) k' = true.
Proof.
  induction p as [w|a IHa b IHb|a IHa b IHb| |a IHa]; intros s k k' Hk; simpl.
  - destruct (literalI (list_ascii_of_string w) s) as [rest|] eqn:E;
      [|discriminate].
    rewrite (literalI_app _ _ _ v E). apply Hk.
  - apply IHa. intros s'. now apply IHb.
  - rewrite !orb_true_iff. intros [H|H]; [left; now apply (IHa s k)|].
    right. now apply (IHb s k).
  - now apply anyStar_app.
  - rewrite !orb_true_iff. intros [H|H]; [left; now apply (IHa s k)|].
    right. now apply Hk.
Qed.

Lemma ptest_app (p : pat) (u t v : list ascii) :
  ptest p t = true -> ptest p (u ++ t ++ v) = true.
Proof.
  intros H.
  assert (Hv : ptest p (t ++ v) = true).
  { clear u. induction t as [|c t IH]; simpl in *.
    - rewrite orb_false_r in H.
      assert (H' : pmatch p ([] ++ v) (fun _ => true) = true)
        by (apply (pmatch_app p v [] (fun _ => true)); auto).
      simpl in H'. destruct v; simpl; rewrite H'; reflexivity.
    - apply orb_true_iff in H. destruct H as [H|H].
      + assert (H' : pmatch p ((c :: t) ++ v) (fun _ => true) = true)
          by (apply (pmatch_app p v (c :: t) (fun _ => true)); auto).
        simpl in H'. now rewrite H'.
      + rewrite (IH H). apply orb_true_r. }
  induction u as [|c u IH]; [exact Hv|].
  simpl. rewrite IH. apply orb_true_r.
Qed.

Lemma truthy_length (t : string) : truthy t = true <-> 0 < String.length t.
Proof. destruct t; simpl; split; (discriminate || lia || reflexivity). Qed.

(** *** The quotes *)

Lemma string_length_chars (t : string) :
  String.length t = length (list_ascii_of_string t).
Proof. induction t as [|c t IH]; simpl; [reflexivity|now rewrite IH]. Qed.

Lemma truncated_length (msg : string) : String.length (truncated msg) <= 200.
Proof.
  unfold truncated. destruct (Nat.ltb_spec 200 (String.length msg)); [|lia].
  rewrite string_length_chars, list_ascii_app, length_app,
    list_ascii_of_string_of_list_ascii, length_take.
  change (length (list_ascii_of_string "...")) with 3. lia.
Qed.

Lemma quotesLoop_spec (conversationMap : gmap string FormattedConversation.t)
    (featureRequestMap : gmap string FormattedFeatureRequest.t) (maxQuotes : Z)
    (themeDataPoints : list PointRef.t) :
  forall quotes,
    let result :=
      quotesLoop themeDataPoints conversationMap featureRequestMap maxQuotes
        quotes in
    (exists more,
        result = quotes ++ more
        /\ Forall (fun quote =>
                     exists dp, In dp themeDataPoints
                                /\ quoteFor dp conversationMap featureRequestMap
                                   = Some quote) more)
    /\ (Z.of_nat (length result) <= Z.max maxQuotes (Z.of_nat (length quotes)))%Z.
Proof.
  induction themeDataPoints as [|dp rest IH]; intros quotes; cbn [quotesLoop].
  - split; [|lia]. exists []. split; [now rewrite app_nil_r|constructor].
  - destruct (Z.leb_spec maxQuotes (Z.of_nat (length quotes))) as [Hfull|Hroom].
    + split; [|lia]. exists []. split; [now rewrite app_nil_r|constructor].
    + destruct (quoteFor dp conversationMap featureRequestMap) as [quote|] eqn:Eq.
      * destruct (IH (quotes ++ [quote])) as ((more & E & Hmore) & Hlen).
        split.
        -- exists (quote :: more). split; [now rewrite E, <- app_assoc|].
           constructor; [exists dp; split; [now left|exact Eq]|].
           revert Hmore. apply List.Forall_impl.
           intros q (dp' & Hdp' & Hq). exists dp'. split; [now right|exact Hq].
        -- rewrite length_app in Hlen. simpl in Hlen. lia.
      * destruct (IH quotes) as ((more & E & Hmore) & Hlen).
        split; [|exact Hlen].
        exists more. split; [exact E|].
        revert Hmore. apply List.Forall_impl.
        intros q (dp' & Hdp' & Hq). exists dp'. split; [now right|exact Hq].
Qed.

(** *** The log of the categories *)

Lemma logAll_elem (cats log : list string) (c : string) :
  In c (logAll cats log) <-> In c log \/ In c cats.
Proof. apply addAll_elem. Qed.

Lemma logAll_NoDup (cats log : list string) : NoDup log -> NoDup (logAll cats log).
Proof. apply addAll_NoDup. Qed.

Lemma formatComment_fold (cs : list ProductLift.Comment.t) :
  forall comments log,
    let r := fold_left formatComment cs (comments, log) in
    (NoDup log -> NoDup (snd r))
    /\ (forall c, In c (snd r) <->
                  In c log \/ foundIn (map ProductLift.Comment.comment cs) c)
    /\ length (fst r) = length comments + length cs.
Proof.
  unfold foundIn.
  induction cs as [|x cs IH]; intros comments log; cbn [fold_left map].
  - repeat split; try tauto; [|simpl; lia].
    intros [H|(t & [] & _)]. exact H.
  - unfold formatComment at 2 4 6.
    destruct (IH (comments
                  ++ [ {| Comment.author := ProductLift.Comment.authorName x;
                          Comment.role := ProductLift.Comment.authorRole x;
                          Comment.comment :=
                            text (scrubPii (ProductLift.Comment.comment x));
                          Comment.created_at := ProductLift.Comment.created_at x |} ])
                (logAll (piiCategoriesFound (scrubPii (ProductLift.Comment.comment x)))
                   log)) as (IH1 & IH2 & IH3).
    cbv zeta in *. split; [|split].
    + intros Hn. apply IH1. now apply logAll_NoDup.
    + intros c. rewrite IH2, logAll_elem. split.
      * intros [[H|H]|(t & Ht & Hc)].
        -- now left.
        -- right. exists (ProductLift.Comment.comment x). split; [now left|exact H].
        -- right. exists t. split; [now right|exact Hc].
      * intros [H|(t & [<-|Ht] & Hc)].
        -- left. now left.
        -- left. now right.
        -- right. exists t. now split.
    + rewrite IH3, length_app. simpl. lia.
Qed.


(** The categories [scrubPiiArray] reports, and the texts it returns. *)
Lemma scrubPiiArray_found (ts : list string) (c : string) :
  In c (PiiArray.piiCategoriesFound (PiiArray.scrubPiiArray ts)) <-> foundIn ts c.
Proof.
  unfold PiiArray.scrubPiiArray, foundIn.
  destruct (scrubOne_fold ts [] []) as (_ & _ & H3).
  destruct (fold_left PiiArray.scrubOne ts ([], [])) as [scrubbed cats].
  cbn [PiiArray.piiCategoriesFound snd] in *. rewrite H3. simpl. tauto.
Qed.

Lemma scrubPiiArray_texts (ts : list string) :
  PiiArray.texts (PiiArray.scrubPiiArray ts) = map (fun t => text (scrubPii t)) ts.
Proof.
  unfold PiiArray.scrubPiiArray.
  destruct (scrubOne_fold ts [] []) as (H1 & _ & _).
  destruct (fold_left PiiArray.scrubOne ts ([], [])) as [scrubbed cats].
  exact H1.
Qed.

Lemma foundIn_app (a b : list string) (c : string) :
  foundIn (a ++ b) c <-> foundIn a c \/ foundIn b c.
Proof.
  unfold foundIn. split.
  - intros (t & Ht & Hc). apply in_app_iff in Ht.
    destruct Ht; [left|right]; now exists t.
  - intros [(t & Ht & Hc)|(t & Ht & Hc)]; exists t; split; try assumption;
      apply in_app_iff; tauto.
Qed.

Lemma foundIn_one (t : string) (c : string) :
  foundIn [t] c <-> In c (piiCategoriesFound (scrubPii t)).
Proof.
  unfold foundIn. split.
  - intros (t' & [<-|[]] & Hc). exact Hc.
  - intros Hc. exists t. split; [now left|exact Hc].
Qed.

(** *** The posts kept *)

Lemma dedupe_spec (posts : list ProductLift.PostSummary.t) :
  forall seenIds : gset string,
    NoDup (map ProductLift.PostSummary.id (dedupe seenIds posts))
    /\ sublist (dedupe seenIds posts) posts
    /\ (forall id, In id (map ProductLift.PostSummary.id (dedupe seenIds posts)) <->
                   In id (map ProductLift.PostSummary.id posts) /\ id ∉ seenIds).
Proof.
  induction posts as [|p rest IH]; intros seenIds; cbn [dedupe map].
  - split; [constructor|]. split; [constructor|]. simpl. tauto.
  - destruct (decide (ProductLift.PostSummary.id p ∈ seenIds)) as [Hin|Hout].
    + rewrite bool_decide_eq_true_2 by exact Hin.
      destruct (IH seenIds) as (H1 & H2 & H3).
      split; [exact H1|]. split; [now apply sublist_cons|].
      intros id. rewrite H3. simpl. split; [tauto|].
      intros [[<-|H] Hn]; [contradiction|tauto].
    + rewrite bool_decide_eq_false_2 by exact Hout.
      destruct (IH ({[ProductLift.PostSummary.id p]} ∪ seenIds)) as (H1 & H2 & H3).
      cbn [map]. split; [|split].
      * apply NoDup_cons. split; [|exact H1].
        intros Hin. apply list_elem_of_In, H3 in Hin. destruct Hin as [_ Hn].
        apply Hn, elem_of_union_l, elem_of_singleton. reflexivity.
      * now apply sublist_skip.
      * intros id. simpl. rewrite H3, elem_of_union, elem_of_singleton. split.
        -- intros [<-|[Hin Hn]]; [split; [now left|exact Hout]|].
           split; [now right|tauto].
        -- intros [[<-|Hin] Hn]; [now left|].
           destruct (String.eqb_spec (ProductLift.PostSummary.id p) id) as [E|Hne];
             [now left|].
           right. split; [exact Hin|]. intros [E|E]; [congruence|contradiction].
Qed.

Lemma slice0_in {A : Type} (finish : Z) (l : list A) (x : A) :
  In x (slice0 finish l) -> In x l.
Proof.
  unfold slice0. cbv zeta. generalize (Z.to_nat
    (if (finish <? 0)%Z then Z.max (Z.of_nat (length l) + finish) 0
     else Z.min finish (Z.of_nat (length l)))).
  intros k H. rewrite <- (firstn_skipn k l). apply in_or_app. now left.
Qed.

(** *** The lookup maps *)

Lemma mapOf_lookup {A : Type} (key : A -> string) (l : list A) (x : A) :
  In x l ->
  exists y,
    fold_left (fun (m : gmap string A) a => <[key a := a]> m) l ∅ !! key x
    = Some y
    /\ In y l /\ key y = key x.
Proof.
  induction l as [|a l IH] using rev_ind; [intros []|].
  intros Hx. rewrite fold_left_app. cbn [fold_left].
  destruct (decide (key a = key x)) as [E|E].
  - exists a. split; [rewrite <- E; apply lookup_insert_eq|].
    split; [|exact E]. apply in_or_app. right. now left.
  - rewrite lookup_insert_ne by exact E.
    apply in_app_or in Hx. destruct Hx as [Hx|[->|[]]]; [|contradiction].
    destruct (IH Hx) as (y & Hy & Hin & Hk). exists y.
    split; [exact Hy|]. split; [|exact Hk]. apply in_or_app. now left.
Qed.

End ServerFacts.

Module ServerProperties.
Import Chars Regex JsString Pii HelpScout Server ServerProps.
Import Props PiiFacts ScrubFacts ServerFacts.

(** X23.  Two requests whose mailbox and portal have no bar share a cache key
    only if they have the same four parameters, an absent mailbox or
    portal counting as the empty string.  With a bar in them, distinct
    requests can share a key. *)
Theorem cacheKey_injective (p q : FetchParams.t) :
  barFree (mailboxOf p) -> barFree (portalOf p) ->
  barFree (mailboxOf q) -> barFree (portalOf q) ->
  cacheKey p = cacheKey q ->
  (FetchParams.timeframe_days p = FetchParams.timeframe_days q
   /\ mailboxOf p = mailboxOf q /\ portalOf p = portalOf q
   /\ FetchParams.top_voted_limit p = FetchParams.top_voted_limit q)
  /\ (cacheKey paramsA = cacheKey paramsB /\ mailboxOf paramsA <> mailboxOf paramsB).
Proof.
  intros Hmp Hpp Hmq Hpq E. split; [|split; [reflexivity|discriminate]].
  apply (f_equal list_ascii_of_string) in E. rewrite !cacheKey_chars in E.
  apply split_at_bar in E; [|apply pretty_Z_barFree..].
  destruct E as [E1 E]. apply split_at_bar in E; [|assumption..].
  destruct E as [E2 E]. apply split_at_bar in E; [|assumption..].
  destruct E as [E3 E4].
  apply string_inj in E1, E2, E3, E4.
  apply (inj pretty) in E1, E4. now repeat split.
Qed.

Lemma cacheKey_injective_witness :
  cacheKey (FetchParams.mk 30 50 None (Some "tidycal"%string))
  = cacheKey (FetchParams.mk 30 50 (Some EmptyString) (Some "tidycal"%string))
  /\ mailboxOf (FetchParams.mk 30 50 None (Some "tidycal"%string))
     = mailboxOf (FetchParams.mk 30 50 (Some EmptyString) (Some "tidycal"%string)).
Proof.
  assert (E : cacheKey (FetchParams.mk 30 50 None (Some "tidycal"%string))
              = cacheKey (FetchParams.mk 30 50 (Some EmptyString)
                            (Some "tidycal"%string))) by reflexivity.
  split; [exact E|].
  refine (proj1 (proj2 (proj1 (cacheKey_injective _ _ _ _ _ _ E)))).
  - intros [].
  - unfold barFree. simpl. intros H.
    repeat (destruct H as [H|H]; [discriminate H|]). exact H.
  - intros [].
  - unfold barFree. simpl. intros H.
    repeat (destruct H as [H|H]; [discriminate H|]). exact H.
Defined.


(** X24.  Detection looks for phrases anywhere in the text: a text that contains
    a text taken for an agent response, the empty one aside, is taken for
    one too.  So is every message that mentions "your team", which contains
    "our team". *)
Theorem agent_response_contained (u t v : string) :
  t <> EmptyString ->
  isLikelyAgentResponse t = true ->
  isLikelyAgentResponse (u +:+ t +:+ v) = true
  /\ isLikelyAgentResponse (u +:+ "your team" +:+ v) = true.
Proof.
  assert (Hgen : forall t u v,
             t <> EmptyString -> isLikelyAgentResponse t = true ->
             isLikelyAgentResponse (u +:+ t +:+ v) = true).
  { clear. intros t u v Hne H. unfold isLikelyAgentResponse in *.
    destruct (negb (truthy (u +:+ t +:+ v))
              || (String.length (u +:+ t +:+ v) =? 0)); [reflexivity|].
    destruct t as [|c t]; [contradiction|]. cbn [truthy negb orb] in H.
    change (String.length (String c t) =? 0) with false in H.
    apply existsb_exists in H. destruct H as (p & Hp & Ht).
    apply existsb_exists. exists p. split; [exact Hp|].
    rewrite !list_ascii_app. now apply ptest_app. }
  intros Hne H. split; [now apply Hgen|].
  apply Hgen; [discriminate|]. vm_compute. reflexivity.
Qed.

Lemma agent_response_contained_witness :
  isLikelyAgentResponse ("Hi, " +:+ "hope this helps" +:+ "!") = true
  /\ isLikelyAgentResponse ("Hi, " +:+ "your team" +:+ "!") = true.
Proof.
  apply agent_response_contained; [discriminate|vm_compute; reflexivity].
Defined.

(** X25.  [extractQuotesForTheme] never returns an empty list and never more
    than [maxQuotes] quotes, or one when [maxQuotes] is less: the quotes
    are those of data points of the theme, and when there is none the
    list is the one fallback line.  A message is quoted in at most 200
    characters. *)
Theorem extractQuotes_bounds (themeDataPoints : list PointRef.t)
    (conversationMap : gmap string FormattedConversation.t)
    (featureRequestMap : gmap string FormattedFeatureRequest.t)
    (maxQuotes : Z) :
  let quotes :=
    extractQuotesForTheme themeDataPoints conversationMap featureRequestMap
      maxQuotes in
  quotes <> []
  /\ (Z.of_nat (length quotes) <= Z.max maxQuotes 1)%Z
  /\ (quotes = [noQuote]
      \/ Forall (fun quote =>
                   exists dp, In dp themeDataPoints
                              /\ quoteFor dp conversationMap featureRequestMap
                                 = Some quote) quotes)
  /\ forall msg, String.length (truncated msg) <= 200.
Proof.
  intros quotes. subst quotes. unfold extractQuotesForTheme.
  destruct (quotesLoop_spec conversationMap featureRequestMap maxQuotes
              themeDataPoints []) as ((more & E & Hmore) & Hlen).
  cbv zeta in *. simpl in E, Hlen.
  destruct (quotesLoop themeDataPoints conversationMap featureRequestMap
              maxQuotes []) as [|q qs] eqn:Eq.
  - cbn [length Nat.eqb]. repeat split; try discriminate.
    + simpl. lia.
    + now left.
    + apply truncated_length.
  - cbn [length Nat.eqb]. repeat split; try discriminate.
    + cbn [length] in *. lia.
    + right. now rewrite E.
    + apply truncated_length.
Qed.

(** X26.  What [fetchProductLift] keeps of the posts of a portal: the recent
    posts and the most voted ones, each id once.  Every post kept is a
    post of the portal, and a post is kept when it is recent or among the
    most voted. *)
Theorem combined_posts (cutoff top_voted_limit : Z)
    (posts : list ProductLift.PostSummary.t) :
  let kept := combined cutoff top_voted_limit posts in
  NoDup (map ProductLift.PostSummary.id kept)
  /\ (forall p, In p kept -> In p posts)
  /\ (forall id,
        In id (map ProductLift.PostSummary.id kept) <->
        In id (map ProductLift.PostSummary.id
                 (ProductLift.filterRecent cutoff posts))
        \/ In id (map ProductLift.PostSummary.id
                    (ProductLift.sortByVotes posts top_voted_limit))).
Proof.
  intros kept. subst kept. unfold combined.
  destruct (dedupe_spec (ProductLift.filterRecent cutoff posts
                         ++ ProductLift.sortByVotes posts top_voted_limit) ∅)
    as (H1 & H2 & H3).
  split; [exact H1|]. split.
  - intros p Hp. apply list_elem_of_In in Hp.
    apply (fun H => elem_of_sublist _ _ _ H H2) in Hp.
    apply list_elem_of_In, in_app_iff in Hp.
    destruct Hp as [Hp|Hp].
    + unfold ProductLift.filterRecent in Hp. now apply filter_In in Hp.
    + unfold ProductLift.sortByVotes in Hp. apply slice0_in in Hp.
      exact (Permutation_in _
               (SortFacts.sort_perm ProductLift.byVotesDesc posts) Hp).
  - intros id. rewrite H3, map_app, in_app_iff, elem_of_empty. tauto.
Qed.

(** X27.  Tickets fetched without their threads, which is how the analysis
    fetches them: the thread count is 0, so the thread term of the severity
    of the ticket is 0; the only customer message is the preview, so the
    text of the data point reads the preview twice. *)
Theorem tickets_without_threads (conv : Conversation.t) (log : list string) :
  Conversation.threads conv = [] ->
  let fc := fst (formatConversation conv log) in
  let dp := Analyzer.conversationToDataPoint fc in
  FormattedConversation.threadCount fc = 0%Z
  /\ threadTerm dp = 0%R
  /\ forall preview,
       ConversationSummary.preview (Conversation.summary conv) = Some preview ->
       preview <> EmptyString ->
       FormattedConversation.customerMessages fc = [text (scrubPii preview)]
       /\ DataPoint.text dp
          = Analyzer.toLowerCase
              (FormattedConversation.subject fc +:+ " "
               +:+ text (scrubPii preview) +:+ " " +:+ text (scrubPii preview)).
Proof.
  intros Hth fc dp.
  assert (Hcount : FormattedConversation.threadCount fc = 0%Z).
  { subst fc. unfold formatConversation. cbn [fst FormattedConversation.threadCount].
    now rewrite Hth. }
  assert (Hterm : threadTerm dp = 0%R).
  { subst dp. unfold threadTerm, threadsOf, Analyzer.conversationToDataPoint.
    cbn [DataPoint.metadata Metadata.thread_count default from_option Datatypes.id].
    rewrite Hcount. rewrite Rmult_0_l. apply Rmin_left. lra. }
  split; [exact Hcount|]. split; [exact Hterm|].
  intros preview Hp Hne.
  assert (Hmsgs : FormattedConversation.customerMessages fc
                  = [text (scrubPii preview)]).
  { subst fc. unfold formatConversation.
    cbn [fst FormattedConversation.customerMessages].
    rewrite Hth, Hp. cbn [length Nat.ltb Nat.leb].
    rewrite scrubPiiArray_texts.
    destruct preview; [contradiction|]. reflexivity. }
  split; [exact Hmsgs|].
  subst dp. unfold Analyzer.conversationToDataPoint. cbn [DataPoint.text].
  rewrite Hmsgs.
  assert (Hprev : FormattedConversation.preview fc = text (scrubPii preview)).
  { subst fc. unfold formatConversation.
    cbn [fst FormattedConversation.preview]. now rewrite Hp. }
  rewrite Hprev. reflexivity.
Qed.

Lemma tickets_without_threads_witness :
  threadTerm
    (Analyzer.conversationToDataPoint
       (fst (formatConversation exampleConversation []))) = 0%R
  /\ DataPoint.text
       (Analyzer.conversationToDataPoint
          (fst (formatConversation exampleConversation [])))
     = "export fails the export fails the export fails"%string.
Proof.
  pose proof (tickets_without_threads exampleConversation [] eq_refl)
    as (_ & H2 & H4).
  split; [exact H2|].
  destruct (H4 "the export fails"%string eq_refl ltac:(discriminate)) as [_ ->].
  vm_compute. reflexivity.
Defined.

(** X28.  The log of the redacted categories is complete: after a conversation or
    a feature request is formatted, the log holds what it held before and
    the categories [scrubPii] finds in one of the texts formatted, and
    nothing else; no category is in it twice. *)
Theorem pii_log_complete (conv : Conversation.t)
    (req : ProductLift.FeatureRequest.t) (log : list string) :
  (forall c,
      In c (snd (formatConversation conv log)) <->
      In c log \/ foundIn (conversationTexts conv) c)
  /\ (forall c,
        In c (snd (formatFeatureRequest req log)) <->
        In c log \/ foundIn (featureRequestTexts req) c)
  /\ (NoDup log ->
      NoDup (snd (formatConversation conv log))
      /\ NoDup (snd (formatFeatureRequest req log))).
Proof.
  split; [|split].
  - intros c. unfold formatConversation, conversationTexts. cbn [snd].
    fold (rawMessagesOf conv).
    rewrite logAll_elem, !in_app_iff, scrubPiiArray_found.
    rewrite foundIn_app.
    change [default EmptyString
              (ConversationSummary.subject (Conversation.summary conv));
            default EmptyString
              (ConversationSummary.preview (Conversation.summary conv))]
      with ([default EmptyString
               (ConversationSummary.subject (Conversation.summary conv))]
            ++ [default EmptyString
                  (ConversationSummary.preview (Conversation.summary conv))]).
    rewrite foundIn_app, !foundIn_one. tauto.
  - intros c. unfold formatFeatureRequest, featureRequestTexts.
    pose proof (formatComment_fold
                  (ProductLift.FeatureRequest.comments req) []
                  (logAll
                     (piiCategoriesFound
                        (scrubPii (ProductLift.PostSummary.title
                                     (ProductLift.FeatureRequest.post req)))
                      ++ piiCategoriesFound
                           (scrubPii (ProductLift.PostSummary.description
                                        (ProductLift.FeatureRequest.post req))))
                     log)) as (_ & H2 & _).
    cbv zeta in H2.
    destruct (fold_left formatComment _ _) as [comments log'].
    cbn [snd] in *. rewrite H2, logAll_elem, in_app_iff.
    change [ProductLift.PostSummary.title (ProductLift.FeatureRequest.post req);
            ProductLift.PostSummary.description
              (ProductLift.FeatureRequest.post req)]
      with ([ProductLift.PostSummary.title (ProductLift.FeatureRequest.post req)]
            ++ [ProductLift.PostSummary.description
                  (ProductLift.FeatureRequest.post req)]).
    rewrite !foundIn_app, !foundIn_one. tauto.
  - intros Hn. split.
    + unfold formatConversation. cbn [snd]. now apply logAll_NoDup.
    + unfold formatFeatureRequest.
      pose proof (formatComment_fold
                    (ProductLift.FeatureRequest.comments req) []
                    (logAll
                       (piiCategoriesFound
                          (scrubPii (ProductLift.PostSummary.title
                                       (ProductLift.FeatureRequest.post req)))
                        ++ piiCategoriesFound
                             (scrubPii (ProductLift.PostSummary.description
                                          (ProductLift.FeatureRequest.post req))))
                       log)) as (H1 & _ & _).
      cbv zeta in H1.
      destruct (fold_left formatComment _ _) as [comments log'].
      cbn [snd] in *. apply H1. now apply logAll_NoDup.
Qed.

(** X29.  The lookup maps of the plan never miss a signal of the analysis: a
    data point listed by a reported theme is a key of the map built from
    the same conversations when it is a support ticket, of the map built
    from the same feature requests otherwise, and the entry found there
    has the id of the data point. *)
Theorem quote_lookup_total (clock : nat -> Z)
    (conversations : list FormattedConversation.t)
    (featureRequests : list FormattedFeatureRequest.t)
    (config : ThemesConfig.t) (tm : ThemeMatch.t) (dp : PointRef.t) :
  In tm (AnalysisResult.themes
           (Analyzer.analyzeFeedback clock conversations featureRequests config)) ->
  In dp (ThemeMatch.data_points tm) ->
  match PointRef.source dp with
  | REACTIVE =>
      exists conv,
        conversationMapOf conversations !! PointRef.id dp = Some conv
        /\ In conv conversations
        /\ "hs-" +:+ pretty (FormattedConversation.id conv) = PointRef.id dp
  | PROACTIVE =>
      exists req,
        featureRequestMapOf featureRequests !! PointRef.id dp = Some req
        /\ In req featureRequests
        /\ "pl-" +:+ FormattedFeatureRequest.id req = PointRef.id dp
  end.
Proof.
  intros Htm Hdp. apply AnalysisFacts.result_themes_in in Htm.
  destruct Htm as (i & theme & _ & _ & ->).
  unfold themeResult, Analyzer.themeMatch in Hdp.
  cbn [ThemeMatch.data_points] in Hdp. apply in_map_iff in Hdp.
  destruct Hdp as (p & <- & Hp).
  apply ScoreFacts.themePoints_in, ScoreFacts.allDataPoints_in in Hp.
  destruct Hp as [(conv & Hc & ->)|(req & Hr & ->)];
    cbn [Analyzer.pointRef PointRef.source PointRef.id
         Analyzer.conversationToDataPoint Analyzer.featureRequestToDataPoint
         DataPoint.source DataPoint.id].
  - exact (mapOf_lookup
             (fun c => "hs-" +:+ pretty (FormattedConversation.id c))
             conversations conv Hc).
  - exact (mapOf_lookup
             (fun r => "pl-" +:+ FormattedFeatureRequest.id r)
             featureRequests req Hr).
Qed.

Lemma quote_lookup_total_witness :
  exists tm dp,
    In tm (AnalysisResult.themes
             (Analyzer.analyzeFeedback (fun _ => 0%Z) [exampleConv] [exampleReq]
                exampleConfig))
    /\ In dp (ThemeMatch.data_points tm)
    /\ PointRef.source dp = REACTIVE
    /\ exists conv,
         conversationMapOf [exampleConv] !! PointRef.id dp = Some conv
         /\ In conv [exampleConv]
         /\ "hs-" +:+ pretty (FormattedConversation.id conv) = PointRef.id dp.
Proof.
  pose proof (AnalysisFacts.example_themes (fun _ => 0%Z)) as E.
  exists (themeResult (fun _ => 0%Z) [exampleConv] [exampleReq] exampleConfig 0
            calendarTheme).
  exists (Analyzer.pointRef (Analyzer.conversationToDataPoint exampleConv)).
  assert (Hdp : In (Analyzer.pointRef (Analyzer.conversationToDataPoint exampleConv))
                  (ThemeMatch.data_points
                     (themeResult (fun _ => 0%Z) [exampleConv] [exampleReq]
                        exampleConfig 0 calendarTheme))).
  { unfold themeResult, Analyzer.themeMatch. cbn [ThemeMatch.data_points].
    apply in_map. vm_compute. left. reflexivity. }
  split; [rewrite E; left; reflexivity|]. split; [exact Hdp|].
  split; [reflexivity|].
  refine (quote_lookup_total (fun _ => 0%Z) [exampleConv] [exampleReq]
            exampleConfig _ _ _ Hdp).
  rewrite E. left. reflexivity.
Defined.

End ServerProperties.

Module DoubleFacts.
Import Double DoubleProps.
Local Open Scope Z_scope.

(** *** The number of binary digits *)

Lemma digits2_size (p : positive) : digits2_pos p = Pos.size p.
Proof. induction p as [p IH|p IH|]; simpl; congruence. Qed.

Lemma Zdigits2_log2 (p : positive) : Zdigits2 (Zpos p) = Z.log2 (Zpos p) + 1.
Proof.
  unfold Zdigits2. rewrite digits2_size.
  destruct p as [p|p|]; simpl; try reflexivity; lia.
Qed.

Lemma Zdigits2_nonneg (m : Z) : 0 <= Zdigits2 m.
Proof. destruct m; simpl; lia. Qed.

Lemma Zdigits2_bounds (m : Z) :
  0 < m -> 2 ^ (Zdigits2 m - 1) <= m < 2 ^ Zdigits2 m.
Proof.
  intros Hm. destruct m as [|p|p]; try lia.
  rewrite Zdigits2_log2.
  replace (Z.log2 (Zpos p) + 1 - 1) with (Z.log2 (Zpos p)) by lia.
  replace (Z.log2 (Zpos p) + 1) with (Z.succ (Z.log2 (Zpos p))) by lia.
  apply Z.log2_spec. lia.
Qed.

Lemma Zdigits2_unique (m d : Z) :
  0 < d -> 2 ^ (d - 1) <= m < 2 ^ d -> Zdigits2 m = d.
Proof.
  intros Hd Hm.
  assert (0 < m).
  { assert (0 < 2 ^ (d - 1)) by (apply Z.pow_pos_nonneg; lia). lia. }
  destruct m as [|p|p]; try lia.
  rewrite Zdigits2_log2.
  assert (Z.log2 (Zpos p) = d - 1); [|lia].
  apply Z.log2_unique; [lia|].
  replace (Z.succ (d - 1)) with d by lia. exact Hm.
Qed.

Lemma Zdigits2_pos (m : Z) : 0 < m -> 0 < Zdigits2 m.
Proof. destruct m; simpl; lia. Qed.

Lemma Zdigits2_div (m n : Z) :
  0 < m -> 0 <= n < Zdigits2 m ->
  0 < m / 2 ^ n /\ Zdigits2 (m / 2 ^ n) = Zdigits2 m - n.
Proof.
  intros Hm Hn. pose proof (Zdigits2_bounds m Hm) as [Hlo Hhi].
  set (d := Zdigits2 m) in *.
  assert (Hp : 0 < 2 ^ n) by (apply Z.pow_pos_nonneg; lia).
  assert (Hlo' : 2 ^ (d - n - 1) <= m / 2 ^ n).
  { apply Z.div_le_lower_bound; [exact Hp|].
    rewrite <- Z.pow_add_r by lia.
    replace (n + (d - n - 1)) with (d - 1) by lia. exact Hlo. }
  assert (Hhi' : m / 2 ^ n < 2 ^ (d - n)).
  { apply Z.div_lt_upper_bound; [exact Hp|].
    rewrite <- Z.pow_add_r by lia.
    replace (n + (d - n)) with d by lia. exact Hhi. }
  assert (0 < 2 ^ (d - n - 1)) by (apply Z.pow_pos_nonneg; lia).
  split; [lia|]. apply Zdigits2_unique; [lia|].
  replace (d - n - 1) with (d - n - 1) by lia. split; [exact Hlo'|exact Hhi'].
Qed.

Lemma Zdigits2_small (m n : Z) :
  0 <= m -> Zdigits2 m <= n -> m / 2 ^ n = 0.
Proof.
  intros Hm Hn. destruct (Z.eq_dec m 0) as [->|Hne].
  - apply Z.div_0_l. apply Z.pow_nonzero; [lia|].
    pose proof (Zdigits2_nonneg 0). simpl in *. lia.
  - pose proof (Zdigits2_bounds m ltac:(lia)) as [_ Hhi].
    apply Z.div_small. split; [lia|].
    apply Z.lt_le_trans with (1 := Hhi).
    apply Z.pow_le_mono_r; lia.
Qed.

Lemma Zdigits2_shift (m k : Z) :
  0 < m -> 0 <= k -> Zdigits2 (m * 2 ^ k) = Zdigits2 m + k.
Proof.
  intros Hm Hk. pose proof (Zdigits2_bounds m Hm) as [Hlo Hhi].
  pose proof (Zdigits2_pos m Hm).
  assert (Hp : 0 < 2 ^ k) by (apply Z.pow_pos_nonneg; lia).
  apply Zdigits2_unique; [lia|].
  replace (Zdigits2 m + k - 1) with (Zdigits2 m - 1 + k) by lia.
  rewrite !Z.pow_add_r by lia. split; nia.
Qed.

Lemma Zdigits2_mono (a b : Z) : 0 < a <= b -> Zdigits2 a <= Zdigits2 b.
Proof.
  intros H. pose proof (Zdigits2_bounds a ltac:(lia)) as [Hlo _].
  pose proof (Zdigits2_bounds b ltac:(lia)) as [_ Hhi].
  destruct (Z_lt_le_dec (Zdigits2 b) (Zdigits2 a)) as [Hlt|]; [|lia].
  exfalso.
  assert (2 ^ Zdigits2 b <= 2 ^ (Zdigits2 a - 1))
    by (apply Z.pow_le_mono_r; pose proof (Zdigits2_nonneg b); lia).
  lia.
Qed.

Lemma iter_xO (m k : positive) : Zpos (Pos.iter xO m k) = Zpos m * 2 ^ Zpos k.
Proof.
  induction k as [|k IH] using Pos.peano_ind.
  - simpl. lia.
  - rewrite Pos.iter_succ, Pos2Z.inj_succ, Z.pow_succ_r by lia.
    rewrite Pos2Z.inj_xO, IH. lia.
Qed.

(** *** Shifting to the right *)

Lemma shr_1_m (mrs : shr_record) :
  0 <= shr_m mrs -> shr_m (shr_1 mrs) = shr_m mrs / 2.
Proof.
  destruct mrs as [m r s]. cbn [shr_m]. intros Hm.
  destruct m as [|[p|p|]|p]; cbn [shr_1 shr_m]; try lia.
  - reflexivity.
  - rewrite Pos2Z.inj_xI. symmetry.
    replace (2 * Zpos p + 1) with (1 + Zpos p * 2) by lia.
    rewrite Z.div_add by lia. reflexivity.
  - rewrite Pos2Z.inj_xO. symmetry.
    replace (2 * Zpos p) with (Zpos p * 2) by lia.
    apply Z.div_mul. lia.
  - reflexivity.
Qed.

Lemma div_pow2_nonneg (m n : Z) : 0 <= m -> 0 <= m / 2 ^ n.
Proof.
  intros Hm. destruct (Z_lt_le_dec n 0) as [Hn|Hn].
  - rewrite Z.pow_neg_r by exact Hn. now rewrite Z.div_0_r.
  - apply Z.div_pos; [exact Hm|]. apply Z.pow_pos_nonneg; lia.
Qed.

Lemma div_pow2_twice (m a b : Z) :
  0 <= a -> 0 <= b -> m / 2 ^ a / 2 ^ b = m / 2 ^ (a + b).
Proof.
  intros Ha Hb.
  assert (0 < 2 ^ a) by (apply Z.pow_pos_nonneg; lia).
  assert (0 < 2 ^ b) by (apply Z.pow_pos_nonneg; lia).
  rewrite Z.pow_add_r by assumption.
  apply Zdiv_Zdiv; lia.
Qed.

Lemma iter_shr_m (p : positive) :
  forall mrs,
    0 <= shr_m mrs ->
    shr_m (SpecFloat.iter_pos shr_1 p mrs) = shr_m mrs / 2 ^ Zpos p.
Proof.
  induction p as [p IH|p IH|]; intros mrs Hm; cbn [SpecFloat.iter_pos].
  - assert (H1 : 0 <= shr_m (shr_1 mrs)).
    { rewrite shr_1_m by exact Hm. apply Z.div_pos; lia. }
    assert (H2 : 0 <= shr_m (SpecFloat.iter_pos shr_1 p (shr_1 mrs))).
    { rewrite IH by exact H1. now apply div_pow2_nonneg. }
    rewrite IH by exact H2. rewrite IH by exact H1.
    rewrite shr_1_m by exact Hm.
    change 2 with (2 ^ 1) at 1.
    rewrite !div_pow2_twice by lia. f_equal. f_equal. lia.
  - assert (H2 : 0 <= shr_m (SpecFloat.iter_pos shr_1 p mrs)).
    { rewrite IH by exact Hm. now apply div_pow2_nonneg. }
    rewrite IH by exact H2. rewrite IH by exact Hm.
    rewrite div_pow2_twice by lia. f_equal. f_equal. lia.
  - rewrite shr_1_m by exact Hm. reflexivity.
Qed.

Lemma shr_record_of_loc_m (m : Z) (l : location) :
  shr_m (shr_record_of_loc m l) = m.
Proof. destruct l as [|[]]; reflexivity. Qed.

(** The exponent a number of [d] digits and exponent [e] is rounded at. *)
Lemma fexp_eq (x : Z) : fexp prec emax x = Z.max (x - 53) (-1074).
Proof. reflexivity. Qed.

(** [shr_fexp]: the mantissa divided by the power of two that brings the
    exponent to [fexp]. *)
Lemma shr_fexp_m (m e : Z) (l : location) :
  0 <= m ->
  let n := Z.max (fexp prec emax (Zdigits2 m + e) - e) 0 in
  shr_m (fst (shr_fexp prec emax m e l)) = m / 2 ^ n
  /\ snd (shr_fexp prec emax m e l) = e + n.
Proof.
  intros Hm n. unfold shr_fexp, shr. subst n.
  destruct (fexp prec emax (Zdigits2 m + e) - e) as [|p|p] eqn:E;
    cbn [fst snd].
  - rewrite shr_record_of_loc_m. simpl. rewrite Z.div_1_r. lia.
  - rewrite iter_shr_m by (rewrite shr_record_of_loc_m; exact Hm).
    rewrite shr_record_of_loc_m.
    replace (Z.max (Zpos p) 0) with (Zpos p) by lia. lia.
  - rewrite shr_record_of_loc_m.
    replace (Z.max (Zneg p) 0) with 0 by lia. simpl. rewrite Z.div_1_r. lia.
Qed.

Lemma round_nearest_even_bounds (m : Z) (l : location) :
  m <= round_nearest_even m l <= m + 1.
Proof.
  destruct l as [|[]]; cbn [round_nearest_even]; try lia.
  destruct (Z.even m); lia.
Qed.

(** *** Rounding *)

Ltac fexp_lia := rewrite ?fexp_eq in *; lia.

Lemma binary_round_aux_rounded (s : bool) (m e : Z) (l : location) :
  0 <= m -> e <= fexp prec emax (Zdigits2 m + e) ->
  rounded s (binary_round_aux prec emax s m e l)
  /\ (0 < m -> -1074 <= e ->
      binary_round_aux prec emax s m e l <> S754_zero s).
Proof.
  intros Hm He. unfold binary_round_aux.
  pose proof (shr_fexp_m m e l Hm) as [H1m H1e]. cbv zeta in H1m, H1e.
  destruct (shr_fexp prec emax m e l) as [mrs1 e1]. cbn [fst snd] in H1m, H1e.
  set (n1 := Z.max (fexp prec emax (Zdigits2 m + e) - e) 0) in *.
  assert (Hn1 : n1 = fexp prec emax (Zdigits2 m + e) - e) by lia.
  set (m1 := shr_m mrs1) in *.
  assert (Hm1 : 0 <= m1) by (rewrite H1m; now apply div_pow2_nonneg).
  pose proof (round_nearest_even_bounds m1 (loc_of_shr_record mrs1)) as Hr.
  set (m1r := round_nearest_even m1 (loc_of_shr_record mrs1)) in *.
  pose proof (shr_fexp_m m1r e1 loc_Exact ltac:(lia)) as [H2m H2e].
  cbv zeta in H2m, H2e.
  destruct (shr_fexp prec emax m1r e1 loc_Exact) as [mrs2 e2].
  cbn [fst snd] in H2m, H2e.
  set (n2 := Z.max (fexp prec emax (Zdigits2 m1r + e1) - e1) 0) in *.
  assert (He1 : e1 = fexp prec emax (Zdigits2 m + e)) by lia.
  assert (He1' : -1074 <= e1) by fexp_lia.
  (* the mantissa after the first shift has 53 digits, unless the exponent
     is the smallest one *)
  assert (Hd1 : 0 < m1r -> e1 <= fexp prec emax (Zdigits2 m1r + e1)).
  { intros Hpos.
    destruct (Z.eq_dec e1 (-1074)) as [->|Hne]; [fexp_lia|].
    assert (Hd : Zdigits2 m + e - 53 = e1 /\ 0 <= Zdigits2 m - 53)
      by fexp_lia.
    assert (Hmpos : 0 < m).
    { destruct (Z.eq_dec m 0) as [->|]; [simpl in Hd; lia|lia]. }
    assert (Hn1' : n1 = Zdigits2 m - 53) by lia.
    destruct (Zdigits2_div m n1 Hmpos ltac:(lia)) as [Hq Hdq].
    rewrite <- H1m in Hq, Hdq.
    pose proof (Zdigits2_mono m1 m1r ltac:(lia)). fexp_lia. }
  destruct (Z.eq_dec m1r 0) as [E0|Hne].
  - (* rounded to zero *)
    rewrite E0 in H2m. rewrite Z.div_0_l in H2m
      by (apply Z.pow_nonzero; [lia|subst n2; lia]).
    rewrite H2m. split; [left; reflexivity|].
    intros Hpos Hemin. exfalso.
    assert (Hn1' : n1 < Zdigits2 m).
    { pose proof (Zdigits2_pos m Hpos). fexp_lia. }
    destruct (Zdigits2_div m n1 Hpos ltac:(lia)) as [Hq _].
    rewrite <- H1m in Hq. lia.
  - assert (Hpos : 0 < m1r) by lia.
    specialize (Hd1 Hpos).
    assert (Hn2 : n2 = fexp prec emax (Zdigits2 m1r + e1) - e1) by lia.
    assert (Hn2' : 0 <= n2 < Zdigits2 m1r).
    { pose proof (Zdigits2_pos m1r Hpos). fexp_lia. }
    destruct (Zdigits2_div m1r n2 Hpos Hn2') as [Hq Hdq].
    rewrite <- H2m in Hq, Hdq.
    destruct (shr_m mrs2) as [|p|p] eqn:Ep; try lia.
    split.
    + destruct (e2 <=? emax - prec) eqn:Eb.
      * right. right. exists p, e2. split; [reflexivity|].
        unfold bounded, canonical_mantissa. rewrite Eb, andb_true_r.
        apply Z.eqb_eq.
        change (Zpos (digits2_pos p)) with (Zdigits2 (Zpos p)).
        rewrite Hdq. replace (Zdigits2 m1r - n2 + e2)
          with (Zdigits2 m1r + e1) by lia. lia.
      * right. left. reflexivity.
    + intros _ _. destruct (e2 <=? emax - prec); discriminate.
Qed.

Lemma binary_round_rounded (s : bool) (m : positive) (e : Z) :
  rounded s (binary_round prec emax s m e)
  /\ (-1074 <= e -> binary_round prec emax s m e <> S754_zero s).
Proof.
  unfold binary_round, shl_align.
  destruct (fexp prec emax (Zpos (digits2_pos m) + e) - e) as [|k|k] eqn:E.
  - destruct (binary_round_aux_rounded s (Zpos m) e loc_Exact) as [H1 H2];
      [lia|change (Zdigits2 (Zpos m)) with (Zpos (digits2_pos m)); lia|].
    split; [exact H1|]. intros He. apply H2; lia.
  - destruct (binary_round_aux_rounded s (Zpos m) e loc_Exact) as [H1 H2];
      [lia|change (Zdigits2 (Zpos m)) with (Zpos (digits2_pos m)); lia|].
    split; [exact H1|]. intros He. apply H2; lia.
  - assert (Hd : Zdigits2 (Zpos (Pos.iter xO m k))
                 = Zpos (digits2_pos m) + Zpos k).
    { rewrite iter_xO. change (Zpos (digits2_pos m)) with (Zdigits2 (Zpos m)).
      apply Zdigits2_shift; lia. }
    set (E' := fexp prec emax (Zpos (digits2_pos m) + e)) in *.
    destruct (binary_round_aux_rounded s (Zpos (Pos.iter xO m k)) E' loc_Exact)
      as [H1 H2]; [lia| |].
    + rewrite Hd. subst E'.
      replace (Zpos (digits2_pos m) + Zpos k
               + fexp prec emax (Zpos (digits2_pos m) + e))
        with (Zpos (digits2_pos m) + e) by lia.
      lia.
    + split; [exact H1|]. intros _. apply H2; [lia|].
      subst E'. fexp_lia.
Qed.

Lemma rounded_isDouble (s : bool) (x : double) : rounded s x -> isDouble x.
Proof.
  intros [->|[->|(m & e & -> & H)]]; unfold isDouble; simpl; auto.
Qed.

End DoubleFacts.

Module OrderFacts.
Import Double DoubleProps DoubleFacts.
Local Open Scope Z_scope.

(** *** The order of the numbers *)

Lemma compare_rank (x y : double) :
  SFcompare x y
  = match rank x, rank y with
    | Some a, Some b => Some (lex3 a b)
    | _, _ => None
    end.
Proof.
  destruct x as [[]|[]| |[] mx ex]; destruct y as [[]|[]| |[] my ey];
    try reflexivity; cbn [SFcompare rank lex3].
  - (* both negative *)
    change (-1 ?= -1) with Eq. cbv iota.
    rewrite Z.compare_opp, (Z.compare_antisym ex ey).
    destruct (ex ?= ey); reflexivity.
Qed.

Lemma lex3_refl (a : Z * Z * Z) : lex3 a a = Eq.
Proof. destruct a as [[a1 a2] a3]. simpl. now rewrite !Z.compare_refl. Qed.

Lemma lex3_eq (a b : Z * Z * Z) : lex3 a b = Eq -> a = b.
Proof.
  destruct a as [[a1 a2] a3], b as [[b1 b2] b3]. simpl.
  destruct (Z.compare_spec a1 b1); try discriminate.
  destruct (Z.compare_spec a2 b2); try discriminate.
  destruct (Z.compare_spec a3 b3); try discriminate.
  congruence.
Qed.

Lemma lex3_antisym (a b : Z * Z * Z) : lex3 b a = CompOpp (lex3 a b).
Proof.
  destruct a as [[a1 a2] a3], b as [[b1 b2] b3]. simpl.
  rewrite (Z.compare_antisym a1 b1), (Z.compare_antisym a2 b2),
    (Z.compare_antisym a3 b3).
  destruct (a1 ?= b1); simpl; try reflexivity.
  destruct (a2 ?= b2); reflexivity.
Qed.


Lemma rank_inj (x y : double) (a : Z * Z * Z) :
  rank x = Some a -> rank y = Some a -> isZero x = false -> x = y.
Proof.
  destruct x as [[]|[]| |[] mx ex]; destruct y as [[]|[]| |[] my ey];
    cbn [rank isZero]; intros [= <-] E; try discriminate;
    try reflexivity; intros _; injection E as E1 E2.
  - assert (ex = ey) by lia. assert (mx = my) by lia. congruence.
  - congruence.
Qed.

Lemma compare_antisym (x y : double) :
  SFcompare y x = option_map CompOpp (SFcompare x y).
Proof.
  rewrite !compare_rank. destruct (rank x), (rank y); try reflexivity.
  simpl. now rewrite lex3_antisym.
Qed.

Lemma compare_eq (x y : double) :
  SFcompare x y = Some Eq -> isZero x = false -> x = y.
Proof.
  rewrite compare_rank. destruct (rank x) as [a|] eqn:Ex; [|discriminate].
  destruct (rank y) as [b|] eqn:Ey; [|discriminate].
  intros [= E]. apply lex3_eq in E. subst b. now apply rank_inj with a.
Qed.

Lemma leb_rank (x y : double) :
  leb x y = true <->
  exists a b, rank x = Some a /\ rank y = Some b /\ lex3 a b <> Gt.
Proof.
  unfold leb, SFleb. rewrite compare_rank.
  destruct (rank x) as [a|]; [|split; [discriminate|intros (? & ? & [=] & _)]].
  destruct (rank y) as [b|];
    [|split; [discriminate|intros (? & ? & _ & [=] & _)]].
  split.
  - intros H. exists a, b. repeat split. intros E. now rewrite E in H.
  - intros (a' & b' & [= <-] & [= <-] & H). destruct (lex3 a b); congruence.
Qed.

Lemma leb_refl (x : double) : isNaN x = false -> leb x x = true.
Proof.
  intros H. apply leb_rank. destruct (rank x) as [a|] eqn:E.
  - exists a, a. rewrite lex3_refl. repeat split. discriminate.
  - destruct x as [[]|[]| |[]]; discriminate.
Qed.


Lemma leb_not_NaN (x y : double) :
  leb x y = true -> isNaN x = false /\ isNaN y = false.
Proof.
  rewrite leb_rank. intros (a & b & Ha & Hb & _).
  destruct x as [[]|[]| |[]], y as [[]|[]| |[]]; try discriminate; now split.
Qed.


Lemma ltb_leb (x y : double) :
  isNaN x = false -> isNaN y = false ->
  ltb x y = negb (leb y x).
Proof.
  intros Hx Hy. unfold ltb, leb, SFltb, SFleb.
  rewrite (compare_antisym x y).
  destruct (SFcompare x y) as [[]|] eqn:E; try reflexivity.
  rewrite compare_rank in E.
  destruct x as [[]|[]| |[]], y as [[]|[]| |[]]; discriminate.
Qed.

End OrderFacts.

Module ArithFacts.
Import Double DoubleProps DoubleFacts OrderFacts.
Local Open Scope Z_scope.

(** *** The operations give doubles *)

Lemma binary_normalize_rounded (z e : Z) (szero : bool) :
  match z with
  | Z0 => binary_normalize prec emax z e szero = S754_zero szero
  | Zpos _ =>
      rounded false (binary_normalize prec emax z e szero)
      /\ (-1074 <= e -> isPositive (binary_normalize prec emax z e szero))
  | Zneg _ =>
      rounded true (binary_normalize prec emax z e szero)
      /\ (-1074 <= e -> isNegative (binary_normalize prec emax z e szero))
  end.
Proof.
  destruct z as [|p|p]; cbn [binary_normalize]; [reflexivity| |].
  - destruct (binary_round_rounded false p e) as [H1 H2].
    split; [exact H1|]. intros He. specialize (H2 He).
    destruct H1 as [E|[E|(m & e' & E & _)]]; [contradiction| |].
    + left. exact E.
    + right. now exists m, e'.
  - destruct (binary_round_rounded true p e) as [H1 H2].
    split; [exact H1|]. intros He. specialize (H2 He).
    destruct H1 as [E|[E|(m & e' & E & _)]]; [contradiction| |].
    + left. exact E.
    + right. now exists m, e'.
Qed.

Lemma ofZ_isDouble (z : Z) : isDouble (ofZ z).
Proof.
  unfold ofZ. pose proof (binary_normalize_rounded z 0 false) as H.
  destruct z; [rewrite H; reflexivity| |];
    destruct H as [H _]; now apply rounded_isDouble in H.
Qed.



(** *** A number divided by itself *)

Lemma div_self (s : bool) (m : positive) (e : Z) :
  div (S754_finite s m e) (S754_finite s m e) = one.
Proof.
  unfold div, SFdiv, SFdiv_core_binary.
  replace (Zdigits2 (Zpos m) + e - (Zdigits2 (Zpos m) + e)) with 0 by lia.
  replace (e - e) with 0 by lia.
  change (Z.min (fexp prec emax 0) 0) with (-53).
  change (0 - -53) with 53. cbv iota.
  rewrite Z.shiftl_mul_pow2 by lia.
  pose proof (Z_div_mod (Zpos m * 2 ^ 53) (Zpos m) ltac:(lia)) as Hdm.
  destruct (Z.div_eucl (Zpos m * 2 ^ 53) (Zpos m)) as [q r].
  destruct Hdm as [Hq Hr].
  assert (Hq' : q = 2 ^ 53).
  { generalize dependent (2 ^ 53). intros P Hq.
    destruct (Z_lt_le_dec q P); [nia|].
    destruct (Z_lt_le_dec P q); [nia|lia]. }
  subst q. assert (r = 0) by lia. subst r.
  assert (Hl : new_location (Zpos m) 0 = loc_Exact).
  { unfold new_location. destruct (Z.even (Zpos m)); reflexivity. }
  rewrite Hl. destruct s; reflexivity.
Qed.

(** *** The sign of a difference *)








(** *** NaN *)

Lemma add_NaN_l (x : double) : add NaN x = NaN.
Proof. reflexivity. Qed.


Lemma mul_NaN_l (x : double) : mul NaN x = NaN.
Proof. reflexivity. Qed.

Lemma mul_NaN_r (x : double) : mul x NaN = NaN.
Proof. now destruct x. Qed.

Lemma div_NaN_l (x : double) : div NaN x = NaN.
Proof. reflexivity. Qed.

(** *** Integers *)

Lemma round_aux_canonical (s : bool) (m : positive) (e : Z) :
  bounded prec emax m e = true ->
  binary_round_aux prec emax s (Zpos m) e loc_Exact = S754_finite s m e.
Proof.
  intros H. pose proof H as Hb. unfold bounded, canonical_mantissa in H.
  apply andb_true_iff in H. destruct H as [Hc He]. apply Z.eqb_eq in Hc.
  unfold binary_round_aux, shr_fexp.
  change (Zdigits2 (Zpos m)) with (Zpos (digits2_pos m)).
  rewrite Hc, Z.sub_diag.
  cbn [shr shr_record_of_loc shr_m loc_of_shr_record round_nearest_even].
  change (Zdigits2 (Zpos m)) with (Zpos (digits2_pos m)).
  rewrite Hc, Z.sub_diag.
  cbn [shr shr_record_of_loc shr_m]. now rewrite He.
Qed.

(** An integer below 2^53 is a double. *)
Lemma ofZ_small (z : Z) :
  0 < z < 2 ^ 53 ->
  exists m e,
    ofZ z = S754_finite false m e
    /\ Zpos m = z * 2 ^ (53 - Zdigits2 z)
    /\ e = Zdigits2 z - 53.
Proof.
  intros Hz. destruct z as [|p|p]; try lia.
  pose proof (Zdigits2_bounds (Zpos p) ltac:(lia)) as [Hlo Hhi].
  pose proof (Zdigits2_pos (Zpos p) ltac:(lia)) as Hd.
  set (d := Zdigits2 (Zpos p)) in *.
  assert (Hd53 : d <= 53).
  { destruct (Z_lt_le_dec 53 d) as [Hlt|]; [|lia]. exfalso.
    assert (2 ^ 53 <= 2 ^ (d - 1)) by (apply Z.pow_le_mono_r; lia). lia. }
  unfold ofZ. cbn [binary_normalize]. unfold binary_round.
  change (Zpos (digits2_pos p)) with d. rewrite Z.add_0_r.
  assert (Hf : fexp prec emax d = d - 53) by fexp_lia. rewrite Hf.
  destruct (shl_align p 0 (d - 53)) as [mz ez] eqn:Es.
  assert (Hmz : Zpos mz = Zpos p * 2 ^ (53 - d) /\ ez = d - 53).
  { unfold shl_align in Es. destruct (d - 53 - 0) as [|k|k] eqn:Ek.
    - injection Es as <- <-. replace (53 - d) with 0 by lia. simpl. lia.
    - lia.
    - injection Es as <- <-. rewrite iter_xO.
      replace (Zpos k) with (53 - d) by lia. lia. }
  destruct Hmz as [Hmz ->].
  exists mz, (d - 53). split; [|split; [exact Hmz|reflexivity]].
  apply round_aux_canonical. unfold bounded, canonical_mantissa.
  change (Zpos (digits2_pos mz)) with (Zdigits2 (Zpos mz)).
  rewrite Hmz, Zdigits2_shift by lia. fold d.
  apply andb_true_iff. split; [apply Z.eqb_eq; fexp_lia|].
  apply Z.leb_le. unfold emax, prec. lia.
Qed.

Lemma ofZ_mono (a b : Z) :
  0 <= a <= b -> b < 2 ^ 53 -> leb (ofZ a) (ofZ b) = true.
Proof.
  intros Hab Hb.
  destruct (Z.eq_dec a 0) as [->|Ha].
  - destruct (Z.eq_dec b 0) as [->|Hb0]; [reflexivity|].
    destruct (ofZ_small b ltac:(lia)) as (m & e & -> & _). reflexivity.
  - destruct (ofZ_small a ltac:(lia)) as (ma & ea & -> & Hma & ->).
    destruct (ofZ_small b ltac:(lia)) as (mb & eb & -> & Hmb & ->).
    pose proof (Zdigits2_mono a b ltac:(lia)) as Hd.
    unfold leb, SFleb. cbn [SFcompare].
    destruct (Z.compare_spec (Zdigits2 a - 53) (Zdigits2 b - 53)) as [E|E|E];
      [|reflexivity|lia].
    change (Pos.compare_cont Eq ma mb) with (Zpos ma ?= Zpos mb).
    rewrite Hma, Hmb. replace (Zdigits2 a) with (Zdigits2 b) by lia.
    assert (0 < 2 ^ (53 - Zdigits2 b)).
    { apply Z.pow_pos_nonneg; [lia|].
      pose proof (Zdigits2_bounds b ltac:(lia)) as [Hlo _].
      destruct (Z_lt_le_dec 53 (Zdigits2 b)) as [Hlt|]; [|lia]. exfalso.
      assert (2 ^ 53 <= 2 ^ (Zdigits2 b - 1))
        by (apply Z.pow_le_mono_r; lia). lia. }
    destruct (Z.compare_spec (a * 2 ^ (53 - Zdigits2 b))
                (b * 2 ^ (53 - Zdigits2 b))); try reflexivity. nia.
Qed.

Lemma ofZ_finite (z : Z) :
  0 < z < 2 ^ 53 -> exists m e, ofZ z = S754_finite false m e.
Proof.
  intros H. destruct (ofZ_small z H) as (m & e & E & _). eauto.
Qed.

(** *** [Math.max] *)

Lemma maxLoop_largest (x : double) (xs : list double) :
  forall highest,
    (forall y, In y xs -> leb y x = true) ->
    leb highest x = true ->
    In x xs \/ highest = x ->
    isZero x = false ->
    maxLoop highest xs = x.
Proof.
  induction xs as [|y rest IH]; intros highest Hall Hh Hin Hx.
  - destruct Hin as [[]|Hin]. exact Hin.
  - cbn [maxLoop].
    pose proof (Hall y (or_introl eq_refl)) as Hy.
    destruct (leb_not_NaN _ _ Hy) as [Hyn Hxn].
    destruct (leb_not_NaN _ _ Hh) as [Hhn _].
    rewrite Hyn.
    assert (Hrest : forall z, In z rest -> leb z x = true)
      by (intros z Hz; apply Hall; now right).
    assert (Hstay : ltb highest y = false ->
                    maxLoop highest rest = x).
    { intros Hlt. apply IH; try assumption.
      destruct Hin as [[E|Hin]|Hin]; [|now left|now right].
      right. subst y. rewrite ltb_leb in Hlt by assumption.
      apply negb_false_iff in Hlt.
      (* highest and x compare equal *)
      unfold leb, SFleb in Hh, Hlt. rewrite (compare_antisym highest x) in Hlt.
      destruct (SFcompare highest x) as [[]|] eqn:E; try discriminate.
      symmetry. apply compare_eq.
      - rewrite compare_antisym, E. reflexivity.
      - exact Hx. }
    assert (Hno : highest = x -> ltb highest y = true -> False).
    { intros -> Hlt. rewrite ltb_leb in Hlt by assumption.
      rewrite Hy in Hlt. discriminate. }
    destruct y as [[]|sy| |sy my ey]; try discriminate;
      destruct highest as [[]|sh| |sh mh eh]; try discriminate;
      try (destruct (ltb _ _) eqn:El;
           [apply IH; try assumption;
            destruct Hin as [[E|Hin]|Hin];
            [now right|now left|exfalso; now apply (Hno Hin)]
           |now apply Hstay]).
    (* +0 after -0 *)
    apply IH; try assumption.
    destruct Hin as [[E|Hin]|Hin]; [now right|now left|].
    subst x. discriminate.
Qed.

Lemma Math_max_largest (x : double) (xs : list double) :
  In x xs -> (forall y, In y xs -> leb y x = true) -> isZero x = false ->
  Math_max xs = x.
Proof.
  intros Hin Hall Hx. unfold Math_max.
  apply maxLoop_largest; try assumption; [|now left].
  destruct (leb_not_NaN _ _ (Hall x Hin)) as [Hn _].
  destruct x as [[]|[]| |[]]; try discriminate; reflexivity.
Qed.

End ArithFacts.

(** ** The analysis, in double arithmetic *)

Module Analysis64Facts.
Import Double DoubleProps Analyzer64 Props Props64.
Import DoubleFacts OrderFacts ArithFacts AnalysisFacts.

(** *** The loop that builds the results *)

Section Loop.
Variable Math_exp : double -> double.
Variable clock : nat -> Z.
Variable conversations : list FormattedConversation.t.
Variable featureRequests : list FormattedFeatureRequest.t.
Variable config : ThemesConfig.t.

Lemma buildThemes64_omap (themes : list ThemeDefinition.t) :
  forall i,
    buildThemes Math_exp clock
      (fst (Analyzer.matchAll (ThemesConfig.themes config)
              (Analyzer.allDataPoints conversations featureRequests)))
      (frequencyCountsOf conversations featureRequests config)
      (rawVoteMomentumsOf conversations featureRequests config)
      (maxFrequencyOf conversations featureRequests config)
      (maxVoteMomentumOf conversations featureRequests config) i themes
    = omap (resultAt Math_exp clock conversations featureRequests config)
        (indexed i themes).
Proof.
  induction themes as [|theme rest IH]; intros i; [reflexivity|].
  rewrite indexed_cons, omap_cons. cbn [buildThemes]. rewrite IH.
  change (resultAt Math_exp clock conversations featureRequests config
            (i, theme))
    with (if length (themePoints conversations featureRequests config theme)
             =? 0
          then None
          else Some (themeResult Math_exp clock conversations featureRequests
                       config i theme)).
  unfold themeResult, themePoints.
  destruct (length _ =? 0); reflexivity.
Qed.

Lemma unsortedThemes64_omap :
  unsortedThemes Math_exp clock conversations featureRequests config
  = omap (resultAt Math_exp clock conversations featureRequests config)
      (indexed 0 (ThemesConfig.themes config)).
Proof. unfold unsortedThemes. apply buildThemes64_omap. Qed.

Lemma unsortedThemes64_in (tm : ThemeMatch64.t) :
  In tm (unsortedThemes Math_exp clock conversations featureRequests config) <->
  exists i theme,
    ThemesConfig.themes config !! i = Some theme
    /\ themePoints conversations featureRequests config theme <> []
    /\ tm = themeResult Math_exp clock conversations featureRequests config
              i theme.
Proof.
  rewrite unsortedThemes64_omap, <- list_elem_of_In, list_elem_of_omap.
  split.
  - intros ([i theme] & Hin & Hres).
    apply list_elem_of_In, indexed_in in Hin. destruct Hin as [_ Hin].
    rewrite Nat.sub_0_r in Hin. unfold resultAt in Hres. cbn [fst snd] in Hres.
    destruct (themePoints conversations featureRequests config theme) eqn:E;
      [discriminate|].
    simpl in Hres. injection Hres as <-.
    exists i, theme. rewrite E. repeat split; [exact Hin|discriminate].
  - intros (i & theme & Hin & Hne & ->).
    exists (i, theme). split.
    + apply list_elem_of_In, indexed_in. split; [lia|].
      now rewrite Nat.sub_0_r.
    + unfold resultAt. cbn [fst snd].
      destruct (themePoints conversations featureRequests config theme);
        [contradiction|reflexivity].
Qed.

Lemma result64_in (tm : ThemeMatch64.t) :
  In tm (AnalysisResult64.themes
           (analyzeFeedback Math_exp clock conversations featureRequests
              config)) <->
  exists i theme,
    ThemesConfig.themes config !! i = Some theme
    /\ themePoints conversations featureRequests config theme <> []
    /\ tm = themeResult Math_exp clock conversations featureRequests config
              i theme.
Proof.
  rewrite <- unsortedThemes64_in. split; apply Permutation_in.
  - apply SortFacts.sort_perm.
  - apply Permutation_sym, SortFacts.sort_perm.
Qed.

Section Scores.
Variable i : nat.
Variable theme : ThemeDefinition.t.
Hypothesis at_i : ThemesConfig.themes config !! i = Some theme.

Lemma themeResult64_frequency :
  ThemeMatch64.frequency_score
    (themeResult Math_exp clock conversations featureRequests config i theme)
  = round2 (frequencyScoreOf conversations featureRequests config theme).
Proof.
  cbn. unfold frequencyScoreAt, frequencyScoreOf, frequencyCountsOf.
  now rewrite (nth_map_lookup _ _ _ _ _ at_i).
Qed.

Lemma themeResult64_voteMomentum :
  ThemeMatch64.vote_momentum_score
    (themeResult Math_exp clock conversations featureRequests config i theme)
  = round2 (voteMomentumScoreOf conversations featureRequests config theme).
Proof.
  cbn. unfold voteMomentumScoreAt, voteMomentumScoreOf, rawVoteMomentumsOf.
  now rewrite (nth_map_lookup _ _ _ _ _ at_i).
Qed.

Lemma themeResult64_priority :
  ThemeMatch64.priority_score
    (themeResult Math_exp clock conversations featureRequests config i theme)
  = round2
      (mul (baseScore Math_exp clock conversations featureRequests config
              i theme)
         (if ThemeMatch64.convergent
               (themeResult Math_exp clock conversations featureRequests
                  config i theme)
          then ofZ 2 else ofZ 1)).
Proof.
  cbn. unfold baseScore, frequencyScoreAt, frequencyScoreOf, frequencyCountsOf,
    voteMomentumScoreAt, voteMomentumScoreOf, rawVoteMomentumsOf.
  now rewrite !(nth_map_lookup _ _ _ _ _ at_i).
Qed.
End Scores.
End Loop.

Lemma themeResult64_convergent Math_exp clock conversations featureRequests
    config i theme :
  ThemeMatch64.convergent
    (themeResult Math_exp clock conversations featureRequests config i theme)
  = true
  <-> hasSource REACTIVE (themePoints conversations featureRequests config theme)
      /\ hasSource PROACTIVE
           (themePoints conversations featureRequests config theme).
Proof.
  unfold themeResult, themeMatch. cbn [ThemeMatch64.convergent].
  rewrite andb_true_iff, !filter_nonempty.
  now rewrite hasSource_reactive, hasSource_proactive.
Qed.

(** *** Rounding to two decimals *)

Lemma round2_shape (x : double) :
  isNaN (round2 x) = true \/ isInfinite (round2 x) = true
  \/ hundredths (round2 x).
Proof.
  unfold round2. destruct (mul x (ofZ 100)) as [s|s| |s m e] eqn:E.
  - right. right. exists 0%Z, s. reflexivity.
  - right. left. now destruct s.
  - left. reflexivity.
  - right. right. cbn [Math_round]. eexists _, s. reflexivity.
Qed.


End Analysis64Facts.

Module Normalization64Facts.
Import Double DoubleProps Analyzer64 Props Props64.
Import DoubleFacts OrderFacts ArithFacts AnalysisFacts Analysis64Facts.

Section Max.
Variable conversations : list FormattedConversation.t.
Variable featureRequests : list FormattedFeatureRequest.t.
Variable config : ThemesConfig.t.
Variable theme : ThemeDefinition.t.
Hypothesis theme_in : In theme (ThemesConfig.themes config).

(** The largest count is the divisor of the frequencies. *)
Lemma maxFrequency_largest :
  themePoints conversations featureRequests config theme <> [] ->
  (Z.of_nat (length (themePoints conversations featureRequests config theme))
   < 2 ^ 53)%Z ->
  (forall other,
      In other (ThemesConfig.themes config) ->
      length (themePoints conversations featureRequests config other)
      <= length (themePoints conversations featureRequests config theme)) ->
  maxFrequencyOf conversations featureRequests config
  = ofNat (length (themePoints conversations featureRequests config theme))
  /\ isFinite (ofNat (length (themePoints conversations featureRequests
                             config theme))) = true.
Proof.
  intros Hne Hsmall Hall.
  set (c := length (themePoints conversations featureRequests config theme))
    in *.
  assert (Hc : 1 <= c).
  { subst c. destruct (themePoints conversations featureRequests config theme);
      [contradiction|simpl; lia]. }
  destruct (ofZ_finite (Z.of_nat c) ltac:(lia)) as (m & e & Hfin).
  split; [|unfold ofNat; now rewrite Hfin].
  unfold maxFrequencyOf. apply Math_max_largest.
  - apply in_or_app. left. apply in_map. unfold frequencyCountsOf.
    apply in_map_iff. now exists theme.
  - intros y Hy. apply in_app_or in Hy. destruct Hy as [Hy|[<-|[]]].
    + apply in_map_iff in Hy. destruct Hy as (n & <- & Hn).
      unfold frequencyCountsOf in Hn. apply in_map_iff in Hn.
      destruct Hn as (other & <- & Hother).
      specialize (Hall other Hother). unfold ofNat. apply ofZ_mono; lia.
    + unfold ofNat. apply ofZ_mono; lia.
  - unfold ofNat. now rewrite Hfin.
Qed.

(** The largest raw vote momentum is the divisor of the vote momentum
    scores when it is at least 1. *)
Lemma maxVoteMomentum_largest :
  leb (ofZ 1)
    (computeVoteMomentum
       (themePoints conversations featureRequests config theme)) = true ->
  (forall other,
      In other (ThemesConfig.themes config) ->
      leb (computeVoteMomentum
             (themePoints conversations featureRequests config other))
        (computeVoteMomentum
           (themePoints conversations featureRequests config theme)) = true) ->
  maxVoteMomentumOf conversations featureRequests config
  = computeVoteMomentum (themePoints conversations featureRequests config theme).
Proof.
  intros H1 Hall. unfold maxVoteMomentumOf. apply Math_max_largest.
  - apply in_or_app. left. unfold rawVoteMomentumsOf.
    apply in_map_iff. now exists theme.
  - intros y Hy. apply in_app_or in Hy. destruct Hy as [Hy|[<-|[]]].
    + unfold rawVoteMomentumsOf in Hy. apply in_map_iff in Hy.
      destruct Hy as (other & <- & Hother). now apply Hall.
    + exact H1.
  - destruct (computeVoteMomentum _) as [s|s| |s m e]; try reflexivity.
    now destruct s.
Qed.
End Max.

(** Without a raw vote momentum above 1 the divisor is 1. *)
Lemma maxVoteMomentum_floor conversations featureRequests config :
  (forall theme,
      In theme (ThemesConfig.themes config) ->
      leb (computeVoteMomentum
             (themePoints conversations featureRequests config theme))
        (ofZ 1) = true) ->
  maxVoteMomentumOf conversations featureRequests config = ofZ 1.
Proof.
  intros Hall. unfold maxVoteMomentumOf. apply Math_max_largest.
  - apply in_or_app. right. now left.
  - intros y Hy. apply in_app_or in Hy. destruct Hy as [Hy|[<-|[]]].
    + unfold rawVoteMomentumsOf in Hy. apply in_map_iff in Hy.
      destruct Hy as (theme & <- & Hin). now apply Hall.
    + reflexivity.
  - reflexivity.
Qed.

Lemma full_score (x : double) :
  isFinite x = true -> round2 (mul (div x x) (ofZ 100)) = ofZ 100.
Proof.
  destruct x as [s|s| |s m e]; try discriminate. intros _.
  rewrite div_self. reflexivity.
Qed.

End Normalization64Facts.

Module Analysis64Claims.
Import Double DoubleProps Analyzer64 Props Props64.
Import DoubleFacts OrderFacts ArithFacts AnalysisFacts.
Import Analysis64Facts Normalization64Facts.

(** C1, as stated, fails: the boost multiplies the weighted sum before the
    rounding, so the reported score of a convergent theme is the rounded
    double of the sum and not the double of the rounded sum.  In the
    example the calendar theme has two of the three signals of the largest
    theme, the severity 60 and the vote momentum 80: its score is 136.67,
    and the score with the boost 1 is 68.33, whose double is 136.66. *)
Lemma doubling_not_exact :
  let conversations := [exampleConv] in
  let featureRequests := exampleReq :: invoiceRequests in
  let tm := themeResult expAtZero (fun _ => 0%Z) conversations featureRequests
              twoThemes 0 calendarTheme in
  let base := baseScore expAtZero (fun _ => 0%Z) conversations featureRequests
                twoThemes 0 calendarTheme in
  In tm (AnalysisResult64.themes
           (analyzeFeedback expAtZero (fun _ => 0%Z) conversations
              featureRequests twoThemes))
  /\ ThemeMatch64.convergent tm = true
  /\ ThemeMatch64.priority_score tm = decimal 13667 2
  /\ round2 (mul base (ofZ 1)) = decimal 6833 2
  /\ mul (ofZ 2) (round2 (mul base (ofZ 1))) = decimal 13666 2
  /\ ThemeMatch64.priority_score tm <> mul (ofZ 2) (round2 (mul base (ofZ 1))).
Proof.
  intros conversations featureRequests tm base.
  split; [vm_compute; left; reflexivity|].
  split; [vm_compute; reflexivity|].
  split; [vm_compute; reflexivity|].
  split; [vm_compute; reflexivity|].
  split; [vm_compute; reflexivity|].
  vm_compute. discriminate.
Qed.

(** C1, amended.  Every reported theme is the result built for a theme of
    the configuration from its matched signals (with distinct theme ids:
    the data points the theme matches); its convergence boost is 2 exactly
    when these contain a REACTIVE and a PROACTIVE signal, and 1 otherwise;
    its [priority_score] is (frequency × 0.35 + severity × 0.35 + vote
    momentum × 0.30) × boost, computed in doubles from the unrounded
    components and then rounded to two decimals: it is NaN, infinite, or
    the double of an integer number of hundredths. *)
Theorem convergence_boost (Math_exp : double -> double) (clock : nat -> Z)
    (conversations : list FormattedConversation.t)
    (featureRequests : list FormattedFeatureRequest.t)
    (config : ThemesConfig.t) (tm : ThemeMatch64.t) :
  In tm (AnalysisResult64.themes
           (analyzeFeedback Math_exp clock conversations featureRequests
              config)) ->
  exists i theme,
    ThemesConfig.themes config !! i = Some theme
    /\ tm = themeResult Math_exp clock conversations featureRequests config
              i theme
    /\ let points := themePoints conversations featureRequests config theme in
       let base :=
         baseScore Math_exp clock conversations featureRequests config i theme in
       let convergenceBoost :=
         if ThemeMatch64.convergent tm then ofZ 2 else ofZ 1 in
       (NoDup (map ThemeDefinition.id (ThemesConfig.themes config)) ->
        points = List.filter (matchesThemeOf theme)
                   (Analyzer.allDataPoints conversations featureRequests))
       /\ (ThemeMatch64.convergent tm = true
           <-> hasSource REACTIVE points /\ hasSource PROACTIVE points)
       /\ ThemeMatch64.priority_score tm = round2 (mul base convergenceBoost)
       /\ (isNaN (ThemeMatch64.priority_score tm) = true
           \/ isInfinite (ThemeMatch64.priority_score tm) = true
           \/ hundredths (ThemeMatch64.priority_score tm)).
Proof.
  intros Hin. apply result64_in in Hin.
  destruct Hin as (i & theme & Hi & _ & ->).
  exists i, theme. split; [exact Hi|]. split; [reflexivity|].
  cbv zeta. split.
  { intros Hnd. apply themePoints_filter; [exact Hnd|].
    apply list_elem_of_In, list_elem_of_lookup. now exists i. }
  split; [apply themeResult64_convergent|].
  pose proof (themeResult64_priority Math_exp clock conversations
                featureRequests config i theme Hi) as Hp.
  split; [exact Hp|]. rewrite Hp. apply round2_shape.
Qed.

(** The calendar theme of the example above: convergent, with the score
    136.67. *)
Lemma convergence_boost_witness :
  exists tm,
    In tm (AnalysisResult64.themes
             (analyzeFeedback expAtZero (fun _ => 0%Z) [exampleConv]
                (exampleReq :: invoiceRequests) twoThemes))
    /\ ThemeMatch64.convergent tm = true
    /\ ThemeMatch64.priority_score tm = decimal 13667 2
    /\ (isNaN (ThemeMatch64.priority_score tm) = true
        \/ isInfinite (ThemeMatch64.priority_score tm) = true
        \/ hundredths (ThemeMatch64.priority_score tm)).
Proof.
  assert (Hin : In (themeResult expAtZero (fun _ => 0%Z) [exampleConv]
                      (exampleReq :: invoiceRequests) twoThemes 0 calendarTheme)
                  (AnalysisResult64.themes
                     (analyzeFeedback expAtZero (fun _ => 0%Z) [exampleConv]
                        (exampleReq :: invoiceRequests) twoThemes)))
    by (vm_compute; left; reflexivity).
  eexists. split; [exact Hin|].
  split; [vm_compute; reflexivity|]. split; [vm_compute; reflexivity|].
  destruct (convergence_boost expAtZero (fun _ => 0%Z) [exampleConv]
              (exampleReq :: invoiceRequests) twoThemes _ Hin)
    as (i & theme & _ & _ & H).
  exact (proj2 (proj2 (proj2 H))).
Defined.

(** C6, as stated, fails for the vote momentum: the divisor is the maximum
    of the raw values and 1, so a largest raw value below 1 is not scaled
    to 100.  The only theme of the example has the raw momentum 0.8, from
    one vote, and the score 80. *)
Lemma vote_momentum_below_100 :
  let raw theme :=
    computeVoteMomentum
      (themePoints [exampleConv] [exampleReq] exampleConfig theme) in
  let tm := themeResult expAtZero (fun _ => 0%Z) [exampleConv] [exampleReq]
              exampleConfig 0 calendarTheme in
  AnalysisResult64.themes
    (analyzeFeedback expAtZero (fun _ => 0%Z) [exampleConv] [exampleReq]
       exampleConfig) = [tm]
  /\ ThemesConfig.themes exampleConfig = [calendarTheme]
  /\ raw calendarTheme = decimal 8 1
  /\ ThemeMatch64.vote_momentum_score tm = ofZ 80
  /\ ThemeMatch64.vote_momentum_score tm <> ofZ 100.
Proof.
  intros raw tm.
  split; [vm_compute; reflexivity|]. split; [reflexivity|].
  split; [vm_compute; reflexivity|]. split; [vm_compute; reflexivity|].
  vm_compute. discriminate.
Qed.

(** C6, amended.  The results are the themes with at least one matched
    signal; a theme without matched signals has no entry.  Frequency and
    vote momentum are the raw value divided by the maximum of 1 and the raw
    values of all themes, times 100, rounded, in double arithmetic.  A
    reported theme with the most matched signals has [frequency_score]
    100; a theme with the largest raw vote momentum has
    [vote_momentum_score] 100 when that momentum is a finite number and at
    least 1; when no raw vote momentum exceeds 1 the divisor is 1. *)
Theorem score_normalization (Math_exp : double -> double) (clock : nat -> Z)
    (conversations : list FormattedConversation.t)
    (featureRequests : list FormattedFeatureRequest.t)
    (config : ThemesConfig.t) :
  let themes := ThemesConfig.themes config in
  let points := themePoints conversations featureRequests config in
  let raw theme := computeVoteMomentum (points theme) in
  let result :=
    themeResult Math_exp clock conversations featureRequests config in
  let maxFrequency := maxFrequencyOf conversations featureRequests config in
  let maxVoteMomentum :=
    maxVoteMomentumOf conversations featureRequests config in
  let reported :=
    AnalysisResult64.themes
      (analyzeFeedback Math_exp clock conversations featureRequests config) in
  (forall tm,
      In tm reported <->
      exists i theme,
        themes !! i = Some theme /\ points theme <> [] /\ tm = result i theme)
  /\ (forall tm, In tm reported -> ThemeMatch64.data_points tm <> [])
  /\ ((forall theme, In theme themes -> leb (raw theme) (ofZ 1) = true) ->
      maxVoteMomentum = ofZ 1)
  /\ (forall i theme,
        themes !! i = Some theme ->
        ThemeMatch64.frequency_score (result i theme)
        = round2 (mul (div (ofNat (length (points theme))) maxFrequency)
                    (ofZ 100))
        /\ ThemeMatch64.vote_momentum_score (result i theme)
           = round2 (mul (div (raw theme) maxVoteMomentum) (ofZ 100))
        /\ (points theme <> [] ->
            (Z.of_nat (length (points theme)) < 2 ^ 53)%Z ->
            (forall other, In other themes ->
                           length (points other) <= length (points theme)) ->
            ThemeMatch64.frequency_score (result i theme) = ofZ 100)
        /\ (leb (ofZ 1) (raw theme) = true ->
            isFinite (raw theme) = true ->
            (forall other, In other themes ->
                           leb (raw other) (raw theme) = true) ->
            ThemeMatch64.vote_momentum_score (result i theme) = ofZ 100)).
Proof.
  intros themes points raw result maxFrequency maxVoteMomentum reported.
  split; [intros tm; apply result64_in|].
  split.
  { intros tm Htm. apply result64_in in Htm.
    destruct Htm as (i & theme & _ & Hne & ->). cbn.
    destruct (themePoints conversations featureRequests config theme);
      [contradiction|discriminate]. }
  split; [apply maxVoteMomentum_floor|].
  intros i theme Hi.
  assert (Hin : In theme themes).
  { apply list_elem_of_In, list_elem_of_lookup. now exists i. }
  pose proof (themeResult64_frequency Math_exp clock conversations
                featureRequests config i theme Hi) as Hf.
  pose proof (themeResult64_voteMomentum Math_exp clock conversations
                featureRequests config i theme Hi) as Hv.
  split; [exact Hf|]. split; [exact Hv|]. split.
  - intros Hne Hsmall Hmost. unfold result. rewrite Hf.
    unfold frequencyScoreOf.
    destruct (maxFrequency_largest conversations featureRequests config theme
                Hin Hne Hsmall Hmost) as [-> Hfin].
    now apply full_score.
  - intros Hone Hfin Hmost. unfold result. rewrite Hv.
    unfold voteMomentumScoreOf.
    rewrite (maxVoteMomentum_largest conversations featureRequests config
               theme Hin Hone Hmost).
    now apply full_score.
Qed.

(** Two themes, one request each, with 5 votes and 3 comments and with 8
    votes: the raw momentums are 4.6 and 6.4, the scores 71.87 and 100. *)
Lemma score_normalization_witness :
  let conversations : list FormattedConversation.t := [] in
  let featureRequests :=
    [votedRequest "1" "Invoice numbers" 5 3;
     votedRequest "2" "Calendar sync" 8 0] in
  let config := configOf [theme "billing" "invoice"; calendarTheme] in
  let result :=
    themeResult expAtZero (fun _ => 0%Z) conversations featureRequests config in
  ThemeMatch64.vote_momentum_score (result 0 (theme "billing" "invoice"))
  = decimal 7187 2
  /\ ThemeMatch64.vote_momentum_score (result 1 calendarTheme) = ofZ 100
  /\ ThemeMatch64.frequency_score (result 1 calendarTheme) = ofZ 100.
Proof.
  intros conversations featureRequests config result.
  split; [vm_compute; reflexivity|].
  pose proof (score_normalization expAtZero (fun _ => 0%Z) conversations
                featureRequests config) as H.
  cbv zeta in H. destruct H as (_ & _ & _ & H).
  destruct (H 1 calendarTheme eq_refl) as (_ & _ & Hf & Hv).
  split.
  - apply Hv; [vm_compute; reflexivity|vm_compute; reflexivity|].
    intros other [<-|[<-|[]]]; vm_compute; reflexivity.
  - apply Hf; [vm_compute; discriminate|vm_compute; reflexivity|].
    intros other [<-|[<-|[]]]; vm_compute; lia.
Defined.

End Analysis64Claims.

(** ** Severity, in double arithmetic *)

Module Scoring64Facts.
Import Chars Double DoubleProps Analyzer64 Props Props64.
Import DoubleFacts OrderFacts ArithFacts.

(** *** The tag loop *)






(** *** The table *)






(** *** NaN *)



End Scoring64Facts.

Module Scoring64Claims.
Import Chars Double DoubleProps HelpScout Server ServerProps Analyzer64 Props Props64.
Import DoubleFacts OrderFacts ArithFacts Scoring64Facts.





End Scoring64Claims.

(** ** The sort, for a comparator that is an order on part of its domain *)

Module SortDomainFacts.
Import Sort.

Section Domain.
Context {A : Type}.
Variable neg : A -> A -> bool.
(** The elements the comparator orders. *)
Variable Q : A -> Prop.




Hypothesis neg_asym :
  forall a b, Q a -> Q b -> neg a b = true -> neg b a = false.
Hypothesis neg_trans :
  forall a b c, Q a -> Q b -> Q c ->
    neg b a = false -> neg c b = false -> neg c a = false.


End Domain.

End SortDomainFacts.

(** ** The order of the reported themes *)

Module Order64Facts.
Import Double DoubleProps Analyzer64 Props Props64.
Import DoubleFacts OrderFacts ArithFacts AnalysisFacts Analysis64Facts.







End Order64Facts.

Module Order64Claims.
Import Double DoubleProps Analyzer64 Props Props64.
Import DoubleFacts OrderFacts ArithFacts AnalysisFacts Analysis64Facts.
Import Order64Facts.




End Order64Claims.
